(** * The region index and the distinct-score filter of the placement driver

    A shallow embedding of [server/core/region.go] (package [core]) and of
    the filter catalogue of package [schedule], followed by the properties
    of the region index that the specification states.

    Conventions of the embedding.
    - [uint64] values (ids, byte counters) are [N]; [int64] values (sizes,
      key counts, running totals) are [Z], every [int64] operation wrapped
      by [to_int64]; Go's [int] (slice lengths, positions) is [nat].
    - A pointer that the code compares with [nil] is an [option]; a
      [*RegionInfo] is an address [loc] into a heap of region objects, so
      that two pointers to one object are one address.
    - A run-time panic (nil dereference, index out of range, [make] with a
      negative capacity) is the outcome [Fault]. *)

From Stdlib Require Import ZArith NArith Lia List Bool.
From Stdlib Require Import Strings.String Strings.Byte.
From Stdlib Require Import Floats.PrimFloat.
From stdpp Require Import base option list numbers gmap fin_maps fin_sets.

Local Open Scope Z_scope.

(** ** Machine integers *)

Definition two64 : Z := 2 ^ 64.
Definition two63 : Z := 2 ^ 63.

(** The value of a 64-bit pattern read as a signed integer. *)
Definition to_int64 (x : Z) : Z := (x + two63) mod two64 - two63.

(** The value of a 64-bit pattern read as an unsigned integer. *)
Definition to_uint64 (x : Z) : Z := x mod two64.

Definition add64 (a b : Z) : Z := to_int64 (a + b).
Definition sub64 (a b : Z) : Z := to_int64 (a - b).

(** ** Outcomes: a call returns a value or panics *)

Inductive outcome (A : Type) : Type :=
| Returned (a : A)
| Fault.
Arguments Returned {A} a.
Arguments Fault {A}.

Definition obind {A B} (x : outcome A) (k : A -> outcome B) : outcome B :=
  match x with
  | Returned a => k a
  | Fault => Fault
  end.

(** [outcome] is a monad; stdpp's notation [x ← c; k] sequences calls and
    propagates a panic. *)
Instance outcome_ret : MRet outcome := fun A a => Returned a.
Instance outcome_bind : MBind outcome := fun A B k x => obind x k.

(** ** Messages of [metapb] and [pdpb] *)

Instance byte_eq_dec : EqDecision byte := Byte.byte_eq_dec.

Record Peer := mkPeer {
  PeerId : N;
  StoreId : N;
  IsLearner : bool
}.

Instance Peer_eq_dec : EqDecision Peer.
Proof. solve_decision. Defined.

Record RegionEpoch := mkEpoch { ConfVer : N; Version : N }.

Instance RegionEpoch_eq_dec : EqDecision RegionEpoch.
Proof. solve_decision. Defined.

(** [metapb.Region]. *)
Record MetaRegion := mkMeta {
  Id : N;
  StartKey : list byte;
  EndKey : list byte;
  Epoch : option RegionEpoch;
  Peers : list Peer
}.

Instance MetaRegion_eq_dec : EqDecision MetaRegion.
Proof. solve_decision. Defined.

Record PeerStats := mkPeerStats {
  StatsPeer : option Peer;
  DownSeconds : N
}.

Instance PeerStats_eq_dec : EqDecision PeerStats.
Proof. solve_decision. Defined.

(** [pdpb.RegionHeartbeatRequest], the fields that [RegionFromHeartbeat] reads. *)
Record RegionHeartbeatRequest := mkHeartbeat {
  hbRegion : option MetaRegion;
  hbLeader : option Peer;
  hbDownPeers : list PeerStats;
  hbPendingPeers : list Peer;
  hbBytesWritten : N;
  hbBytesRead : N;
  hbApproximateSize : N;
  hbApproximateKeys : N
}.

(** The generated getters answer the zero value on a nil receiver. *)
Definition meta_GetId (m : option MetaRegion) : N :=
  match m with Some r => Id r | None => 0%N end.

Definition meta_GetPeers (m : option MetaRegion) : list Peer :=
  match m with Some r => Peers r | None => [] end.

Definition peer_GetId (p : option Peer) : N :=
  match p with Some q => PeerId q | None => 0%N end.

Definition hb_GetRegion (h : option RegionHeartbeatRequest) : option MetaRegion :=
  match h with Some m => hbRegion m | None => None end.
Definition hb_GetLeader (h : option RegionHeartbeatRequest) : option Peer :=
  match h with Some m => hbLeader m | None => None end.
Definition hb_GetDownPeers (h : option RegionHeartbeatRequest) : list PeerStats :=
  match h with Some m => hbDownPeers m | None => [] end.
Definition hb_GetPendingPeers (h : option RegionHeartbeatRequest) : list Peer :=
  match h with Some m => hbPendingPeers m | None => [] end.
Definition hb_GetBytesWritten (h : option RegionHeartbeatRequest) : N :=
  match h with Some m => hbBytesWritten m | None => 0%N end.
Definition hb_GetBytesRead (h : option RegionHeartbeatRequest) : N :=
  match h with Some m => hbBytesRead m | None => 0%N end.
Definition hb_GetApproximateSize (h : option RegionHeartbeatRequest) : N :=
  match h with Some m => hbApproximateSize m | None => 0%N end.
Definition hb_GetApproximateKeys (h : option RegionHeartbeatRequest) : N :=
  match h with Some m => hbApproximateKeys m | None => 0%N end.

(** ** RegionInfo *)

Record RegionInfo := mkRegionInfo {
  Region : option MetaRegion;
  Learners : list Peer;
  Voters : list Peer;
  Leader : option Peer;
  DownPeers : list PeerStats;
  PendingPeers : list Peer;
  WrittenBytes : N;
  ReadBytes : N;
  ApproximateSize : Z;
  ApproximateKeys : Z
}.

Instance RegionInfo_eq_dec : EqDecision RegionInfo.
Proof. solve_decision. Defined.

(** Methods promoted from the embedded [*metapb.Region]. *)
Definition GetId (r : RegionInfo) : N := meta_GetId (Region r).
Definition GetPeers (r : RegionInfo) : list Peer := meta_GetPeers (Region r).

(** The loop of [classifyVoterAndLearner]: one pass over the peers,
    appending each to one of the two slices. *)
Fixpoint classify_loop (ps : list Peer) (learners voters : list Peer)
  : list Peer * list Peer :=
  match ps with
  | [] => (learners, voters)
  | p :: ps' =>
      if IsLearner p then classify_loop ps' (learners ++ [p]) voters
      else classify_loop ps' learners (voters ++ [p])
  end.

Definition set_roles (r : RegionInfo) (learners voters : list Peer) : RegionInfo :=
  {| Region := Region r; Learners := learners; Voters := voters;
     Leader := Leader r; DownPeers := DownPeers r;
     PendingPeers := PendingPeers r; WrittenBytes := WrittenBytes r;
     ReadBytes := ReadBytes r; ApproximateSize := ApproximateSize r;
     ApproximateKeys := ApproximateKeys r |}.

(** [region.Peers] is a field read through the embedded pointer: it panics
    when that pointer is nil. *)
Definition classifyVoterAndLearner (r : RegionInfo) : outcome RegionInfo :=
  match Region r with
  | None => Fault
  | Some meta =>
      let '(learners, voters) := classify_loop (Peers meta) [] [] in
      Returned (set_roles r learners voters)
  end.

Definition NewRegionInfo (region : option MetaRegion) (leader : option Peer)
  : outcome RegionInfo :=
  classifyVoterAndLearner
    {| Region := region; Learners := []; Voters := []; Leader := leader;
       DownPeers := []; PendingPeers := []; WrittenBytes := 0; ReadBytes := 0;
       ApproximateSize := 0; ApproximateKeys := 0 |}.

Definition EmptyRegionApproximateSize : N := 1.

Definition RegionFromHeartbeat (heartbeat : option RegionHeartbeatRequest)
  : outcome RegionInfo :=
  let regionSize := (hb_GetApproximateSize heartbeat / 2 ^ 20)%N in
  let regionSize :=
    if (regionSize <? EmptyRegionApproximateSize)%N
    then EmptyRegionApproximateSize else regionSize in
  classifyVoterAndLearner
    {| Region := hb_GetRegion heartbeat;
       Learners := []; Voters := [];
       Leader := hb_GetLeader heartbeat;
       DownPeers := hb_GetDownPeers heartbeat;
       PendingPeers := hb_GetPendingPeers heartbeat;
       WrittenBytes := hb_GetBytesWritten heartbeat;
       ReadBytes := hb_GetBytesRead heartbeat;
       ApproximateSize := to_int64 (Z.of_N regionSize);
       ApproximateKeys := to_int64 (Z.of_N (hb_GetApproximateKeys heartbeat)) |}.

(** [Clone]: every embedded message is copied ([proto.Clone]), the scalar
    fields are copied, and the roles are classified again from the copy. *)
Definition Clone (r : RegionInfo) : outcome RegionInfo :=
  classifyVoterAndLearner
    {| Region := Region r; Learners := []; Voters := [];
       Leader := Leader r;
       DownPeers := DownPeers r;
       PendingPeers := PendingPeers r;
       WrittenBytes := WrittenBytes r; ReadBytes := ReadBytes r;
       ApproximateSize := ApproximateSize r;
       ApproximateKeys := ApproximateKeys r |}.

Definition GetLearners (r : RegionInfo) : list Peer := Learners r.
Definition GetVoters (r : RegionInfo) : list Peer := Voters r.

(** [r.Leader == nil || r.Leader.GetId() != peer.GetId()] *)
Definition is_follower (r : RegionInfo) (peer : Peer) : bool :=
  match Leader r with
  | None => true
  | Some l => negb (PeerId l =? PeerId peer)%N
  end.

Fixpoint GetFollowers_loop (r : RegionInfo) (peers : list Peer)
  (followers : gmap N Peer) : gmap N Peer :=
  match peers with
  | [] => followers
  | peer :: rest =>
      if is_follower r peer
      then GetFollowers_loop r rest (<[StoreId peer := peer]> followers)
      else GetFollowers_loop r rest followers
  end.

Definition GetFollowers (r : RegionInfo) : gmap N Peer :=
  GetFollowers_loop r (GetVoters r) ∅.

Fixpoint GetFollower_loop (r : RegionInfo) (peers : list Peer) : option Peer :=
  match peers with
  | [] => None
  | peer :: rest =>
      if is_follower r peer then Some peer else GetFollower_loop r rest
  end.

Definition GetFollower (r : RegionInfo) : option Peer :=
  GetFollower_loop r (GetVoters r).

(** [RegionOption]: a predicate on a region. *)
Definition RegionOption := RegionInfo -> bool.

Definition HealthRegion : RegionOption := fun region =>
  (length (DownPeers region) =? 0)%nat
  && (length (PendingPeers region) =? 0)%nat
  && (length (Learners region) =? 0)%nat.

(** ** The random source

    [math/rand] is a library.  A generator is the stream of its raw outputs
    together with a cursor; [Intn n] consumes one output and reduces it into
    [0, n), and panics when [n] is not positive. *)

Record Rand := mkRand { raw : nat -> nat; cursor : nat }.

Definition Intn (n : nat) (g : Rand) : outcome (nat * Rand) :=
  match n with
  | O => Fault
  | S _ => Returned (raw g (cursor g) mod n, mkRand (raw g) (S (cursor g)))%nat
  end.

(** ** regionMap

    The map is written over the type [R] of region references and the
    function [deref] that reads the object behind a reference: the code
    stores [*RegionInfo] and reads [GetId], [ApproximateSize] and
    [ApproximateKeys] through the pointer. *)

Record regionEntry (R : Type) := mkEntry {
  entryRegion : R;
  pos : nat
}.
Arguments mkEntry {R} _ _.
Arguments entryRegion {R} _.
Arguments pos {R} _.

Module regionMap.

Record t (R : Type) := mk {
  m : gmap N (regionEntry R);
  ids : list N;
  totalSize : Z;
  totalKeys : Z
}.
Arguments mk {R} _ _ _ _.
Arguments m {R} _.
Arguments ids {R} _.
Arguments totalSize {R} _.
Arguments totalKeys {R} _.

Section methods.
Context {R : Type}.
Variable deref : R -> RegionInfo.

Definition newRegionMap : t R :=
  {| m := ∅; ids := []; totalSize := 0; totalKeys := 0 |}.

Definition Len (rm : option (t R)) : nat :=
  match rm with
  | None => 0%nat
  | Some x => size (m x)
  end.

Definition Get (rm : option (t R)) (id : N) : option R :=
  match rm with
  | None => None
  | Some x =>
      match m x !! id with
      | Some entry => Some (entryRegion entry)
      | None => None
      end
  end.

(** [Put] has no nil check: [rm.m] on a nil receiver panics.  The
    assignment [old.RegionInfo = region] updates the entry in place. *)
Definition Put (rm : option (t R)) (region : R) : outcome (t R) :=
  match rm with
  | None => Fault
  | Some x =>
      let id := GetId (deref region) in
      match m x !! id with
      | Some old =>
          Returned
            {| m := <[id := mkEntry region (pos old)]> (m x);
               ids := ids x;
               totalSize :=
                 add64 (totalSize x)
                   (sub64 (ApproximateSize (deref region))
                          (ApproximateSize (deref (entryRegion old))));
               totalKeys :=
                 add64 (totalKeys x)
                   (sub64 (ApproximateKeys (deref region))
                          (ApproximateKeys (deref (entryRegion old)))) |}
      | None =>
          Returned
            {| m := <[id := mkEntry region (length (ids x))]> (m x);
               ids := ids x ++ [id];
               totalSize := add64 (totalSize x) (ApproximateSize (deref region));
               totalKeys := add64 (totalKeys x) (ApproximateKeys (deref region)) |}
      end
  end.

(** [rm.Get(rm.ids[rand.Intn(rm.Len())])]; the index expression panics
    when it is out of range. *)
Definition RandomRegion (rm : option (t R)) (g : Rand)
  : outcome (option R * Rand) :=
  if (Len rm =? 0)%nat then Returned (None, g)
  else
    '(k, g') ← Intn (Len rm) g;
    match rm with
    | None => Fault
    | Some x =>
        match ids x !! k with
        | None => Fault
        | Some id => Returned (Get rm id, g')
        end
    end.

(** The body of [Delete] once [old] has been found.  [last] and [old]
    are pointers to entries of the map: [last.pos = old.pos] updates the
    entry of the last id in place, before [delete(rm.m, id)]. *)
Definition Delete_found (x : t R) (id : N) (old : regionEntry R)
  : outcome (t R) :=
  let len := size (m x) in
  match ids x !! (len - 1)%nat with
  | None => Fault
  | Some lastId =>
      match m x !! lastId with
      | None => Fault
      | Some last =>
          let last' := mkEntry (entryRegion last) (pos old) in
          if (pos last' <? length (ids x))%nat then
            let ids' := <[pos last' := GetId (deref (entryRegion last'))]> (ids x) in
            Returned
              {| m := delete id (<[lastId := last']> (m x));
                 ids := take (len - 1) ids';
                 totalSize :=
                   sub64 (totalSize x) (ApproximateSize (deref (entryRegion old)));
                 totalKeys :=
                   sub64 (totalKeys x) (ApproximateKeys (deref (entryRegion old))) |}
          else Fault
      end
  end.

Definition Delete (rm : option (t R)) (id : N) : outcome (option (t R)) :=
  match rm with
  | None => Returned None
  | Some x =>
      match m x !! id with
      | Some old => x' ← Delete_found x id old; Returned (Some x')
      | None => Returned (Some x)
      end
  end.

Definition TotalSize (rm : option (t R)) : Z :=
  if (Len rm =? 0)%nat then 0
  else match rm with
       | None => 0
       | Some x => totalSize x
       end.

End methods.

End regionMap.

Arguments regionMap.newRegionMap {R}.
Arguments regionMap.Len {R} _.
Arguments regionMap.Get {R} _ _.

(** ** randRegion *)

Definition randomRegionMaxRetry : nat := 10.

Section randRegion.
Context {R : Type}.
Variable deref : R -> RegionInfo.

(** The inner loop over [opts]: [isSelect] stays true until an option
    rejects the region. *)
Fixpoint isSelect (opts : list RegionOption) (region : R) : bool :=
  match opts with
  | [] => true
  | opt :: rest => if opt (deref region) then isSelect rest region else false
  end.

(** The outer loop, [n] iterations left. *)
Fixpoint randRegion_loop (n : nat) (regions : option (regionMap.t R))
  (opts : list RegionOption) (g : Rand) : outcome (option R * Rand) :=
  match n with
  | O => Returned (None, g)
  | S n' =>
      '(region, g') ← regionMap.RandomRegion regions g;
      match region with
      | None => Returned (None, g')
      | Some x =>
          if isSelect opts x then Returned (Some x, g')
          else randRegion_loop n' regions opts g'
      end
  end.

Definition randRegion (regions : option (regionMap.t R))
  (opts : list RegionOption) (g : Rand) : outcome (option R * Rand) :=
  randRegion_loop randomRegionMaxRetry regions opts g.

End randRegion.

(** ** The region tree

    [regionTree] is defined in another file of package [core].  The index is
    written over any implementation of its operations; [scanRange] is given
    by the sequence of regions it offers to its visitor. *)

(** [regionItem], whose only field is the pointer [region]. *)
Record regionItem := mkItem { item_region : MetaRegion }.

Class RegionTree (T : Type) := {
  newRegionTree : T;
  tree_length : T -> nat;
  tree_update : T -> option MetaRegion -> T * list MetaRegion;
  tree_remove : T -> option MetaRegion -> T;
  tree_search : T -> list byte -> option MetaRegion;
  tree_getAdjacentRegions :
    T -> option MetaRegion -> option regionItem * option regionItem;
  tree_scanRange : T -> list byte -> list MetaRegion
}.

(** ** The heap of region objects *)

Abbreviation loc := positive (only parsing).
Abbreviation heap := (gmap positive RegionInfo) (only parsing).

Instance RegionInfo_inhabited : Inhabited RegionInfo :=
  populate (mkRegionInfo None [] [] None [] [] 0 0 0 0).

(** Reading through a pointer. *)
Definition deref (h : heap) (p : loc) : RegionInfo := h !!! p.

(** [&RegionInfo{...}]: a new object at an address not in use. *)
Definition alloc (h : heap) (v : RegionInfo) : loc * heap :=
  let p := fresh (dom h) in (p, <[p := v]> h).

(** An assignment through a pointer, [*p = v] or [p.f = ...]. *)
Definition store (h : heap) (p : loc) (v : RegionInfo) : heap := <[p := v]> h.

Definition bytes_Equal (a b : list byte) : bool := bool_decide (a = b).

(** ** RegionsInfo *)

Module RegionsInfo.

Record t (T : Type) := mk {
  tree : T;
  regions : regionMap.t positive;
  leaders : gmap N (regionMap.t positive);
  followers : gmap N (regionMap.t positive);
  learners : gmap N (regionMap.t positive);
  pendingPeers : gmap N (regionMap.t positive)
}.
Arguments mk {T} _ _ _ _ _ _.
Arguments tree {T} _.
Arguments regions {T} _.
Arguments leaders {T} _.
Arguments followers {T} _.
Arguments learners {T} _.
Arguments pendingPeers {T} _.

Section methods.
Context {T : Type} `{RegionTree T}.

Definition NewRegionsInfo : t T :=
  {| tree := newRegionTree;
     regions := regionMap.newRegionMap;
     leaders := ∅; followers := ∅; learners := ∅; pendingPeers := ∅ |}.

Definition GetRegion (r : t T) (h : heap) (regionID : N)
  : outcome (option loc * heap) :=
  match regionMap.Get (Some (regions r)) regionID with
  | None => Returned (None, h)
  | Some p =>
      c ← Clone (deref h p);
      let '(q, h') := alloc h c in
      Returned (Some q, h')
  end.

Definition Length (r : t T) : nat := regionMap.Len (Some (regions r)).
Definition TreeLength (r : t T) : nat := tree_length (tree r).

(** [r.leaders[storeID].Delete(id)]: the bucket of a store that has none
    is a nil [*regionMap], on which [Delete] does nothing. *)
Definition bucket_Delete (h : heap) (buckets : gmap N (regionMap.t positive))
  (storeID id : N) : outcome (gmap N (regionMap.t positive)) :=
  x ← regionMap.Delete (deref h) (buckets !! storeID) id;
  match x with
  | None => Returned buckets
  | Some rm => Returned (<[storeID := rm]> buckets)
  end.

Fixpoint RemoveRegion_loop (h : heap) (id : N) (peers : list Peer) (r : t T)
  : outcome (t T) :=
  match peers with
  | [] => Returned r
  | peer :: rest =>
      let storeID := StoreId peer in
      l ← bucket_Delete h (leaders r) storeID id;
      f ← bucket_Delete h (followers r) storeID id;
      n ← bucket_Delete h (learners r) storeID id;
      p ← bucket_Delete h (pendingPeers r) storeID id;
      RemoveRegion_loop h id rest
        {| tree := tree r; regions := regions r; leaders := l;
           followers := f; learners := n; pendingPeers := p |}
  end.

(** [RemoveRegion(region)]; a nil [region] panics at [region.Region]. *)
Definition RemoveRegion (r : t T) (h : heap) (region : option loc)
  : outcome (t T) :=
  match region with
  | None => Fault
  | Some p =>
      let v := deref h p in
      let tree' := tree_remove (tree r) (Region v) in
      x ← regionMap.Delete (deref h) (Some (regions r)) (GetId v);
      match x with
      | None => Fault
      | Some regions' =>
          RemoveRegion_loop h (GetId v) (GetPeers v)
            {| tree := tree'; regions := regions'; leaders := leaders r;
               followers := followers r; learners := learners r;
               pendingPeers := pendingPeers r |}
      end
  end.

(** [store, ok := buckets[storeID]; if !ok { store = newRegionMap();
    buckets[storeID] = store }; store.Put(region)] *)
Definition bucket_Put (h : heap) (buckets : gmap N (regionMap.t positive))
  (storeID : N) (region : loc) : outcome (gmap N (regionMap.t positive)) :=
  let store :=
    match buckets !! storeID with
    | Some rm => rm
    | None => regionMap.newRegionMap
    end in
  rm ← regionMap.Put (deref h) (Some store) region;
  Returned (<[storeID := rm]> buckets).

(** [for _, item := range overlaps { r.RemoveRegion(r.GetRegion(item.Id)) }] *)
Fixpoint AddRegion_overlaps (overlaps : list MetaRegion) (r : t T) (h : heap)
  : outcome (t T * heap) :=
  match overlaps with
  | [] => Returned (r, h)
  | item :: rest =>
      '(c, h') ← GetRegion r h (Id item);
      r' ← RemoveRegion r h' c;
      AddRegion_overlaps rest r' h'
  end.

(** The loop over the voters: leaders and followers. *)
Fixpoint AddRegion_voters (h : heap) (region : loc) (leader : Peer)
  (voters : list Peer) (r : t T) : outcome (t T) :=
  match voters with
  | [] => Returned r
  | peer :: rest =>
      let storeID := StoreId peer in
      if (PeerId peer =? PeerId leader)%N then
        l ← bucket_Put h (leaders r) storeID region;
        AddRegion_voters h region leader rest
          {| tree := tree r; regions := regions r; leaders := l;
             followers := followers r; learners := learners r;
             pendingPeers := pendingPeers r |}
      else
        f ← bucket_Put h (followers r) storeID region;
        AddRegion_voters h region leader rest
          {| tree := tree r; regions := regions r; leaders := leaders r;
             followers := f; learners := learners r;
             pendingPeers := pendingPeers r |}
  end.

(** The loop over the learners. *)
Fixpoint AddRegion_learners (h : heap) (region : loc) (peers : list Peer)
  (r : t T) : outcome (t T) :=
  match peers with
  | [] => Returned r
  | peer :: rest =>
      n ← bucket_Put h (learners r) (StoreId peer) region;
      AddRegion_learners h region rest
        {| tree := tree r; regions := regions r; leaders := leaders r;
           followers := followers r; learners := n;
           pendingPeers := pendingPeers r |}
  end.

(** The loop over the pending peers. *)
Fixpoint AddRegion_pending (h : heap) (region : loc) (peers : list Peer)
  (r : t T) : outcome (t T) :=
  match peers with
  | [] => Returned r
  | peer :: rest =>
      p ← bucket_Put h (pendingPeers r) (StoreId peer) region;
      AddRegion_pending h region rest
        {| tree := tree r; regions := regions r; leaders := leaders r;
           followers := followers r; learners := learners r;
           pendingPeers := p |}
  end.

Definition AddRegion (r : t T) (h : heap) (region : loc)
  : outcome (list MetaRegion * t T * heap) :=
  let v := deref h region in
  let '(tree', overlaps) := tree_update (tree r) (Region v) in
  let r0 :=
    {| tree := tree'; regions := regions r; leaders := leaders r;
       followers := followers r; learners := learners r;
       pendingPeers := pendingPeers r |} in
  '(r1, h1) ← AddRegion_overlaps overlaps r0 h;
  regions' ← regionMap.Put (deref h1) (Some (regions r1)) region;
  let r2 :=
    {| tree := tree r1; regions := regions'; leaders := leaders r1;
       followers := followers r1; learners := learners r1;
       pendingPeers := pendingPeers r1 |} in
  let v := deref h1 region in
  match Leader v with
  | None => Returned (overlaps, r2, h1)
  | Some leader =>
      r3 ← AddRegion_voters h1 region leader (GetVoters v) r2;
      r4 ← AddRegion_learners h1 region (GetLearners v) r3;
      r5 ← AddRegion_pending h1 region (PendingPeers v) r4;
      Returned (overlaps, r5, h1)
  end.

Definition SetRegion (r : t T) (h : heap) (region : loc)
  : outcome (list MetaRegion * t T * heap) :=
  match regionMap.Get (Some (regions r)) (GetId (deref h region)) with
  | Some origin =>
      r' ← RemoveRegion r h (Some origin);
      AddRegion r' h region
  | None => AddRegion r h region
  end.

Definition SearchRegion (r : t T) (h : heap) (regionKey : list byte)
  : outcome (option loc * heap) :=
  match tree_search (tree r) regionKey with
  | None => Returned (None, h)
  | Some meta => GetRegion r h (Id meta)
  end.

(** The visitor of [ScanRange]: append the clone, go on while
    [len(res) < limit]. *)
Fixpoint ScanRange_visit (r : t T) (visited : list MetaRegion) (limit : nat)
  (res : list (option loc)) (h : heap) : outcome (list (option loc) * heap) :=
  match visited with
  | [] => Returned (res, h)
  | meta :: rest =>
      '(c, h') ← GetRegion r h (Id meta);
      let res' := res ++ [c] in
      if (length res' <? limit)%nat then ScanRange_visit r rest limit res' h'
      else Returned (res', h')
  end.

Definition ScanRange (r : t T) (h : heap) (startKey : list byte) (limit : nat)
  : outcome (list (option loc) * heap) :=
  ScanRange_visit r (tree_scanRange (tree r) startKey) limit [] h.

Definition GetStoreLeaderCount (r : t T) (storeID : N) : nat :=
  regionMap.Len (leaders r !! storeID).
Definition GetStoreFollowerCount (r : t T) (storeID : N) : nat :=
  regionMap.Len (followers r !! storeID).
Definition GetStoreLearnerCount (r : t T) (storeID : N) : nat :=
  regionMap.Len (learners r !! storeID).
Definition GetStorePendingPeerCount (r : t T) (storeID : N) : nat :=
  regionMap.Len (pendingPeers r !! storeID).

Definition RandRegion (r : t T) (h : heap) (opts : list RegionOption) (g : Rand)
  : outcome (option loc * Rand) :=
  randRegion (deref h) (Some (regions r)) opts g.

Definition RandLeaderRegion (r : t T) (h : heap) (storeID : N)
  (opts : list RegionOption) (g : Rand) : outcome (option loc * Rand) :=
  randRegion (deref h) (leaders r !! storeID) opts g.

Definition RandFollowerRegion (r : t T) (h : heap) (storeID : N)
  (opts : list RegionOption) (g : Rand) : outcome (option loc * Rand) :=
  randRegion (deref h) (followers r !! storeID) opts g.

Definition GetLeader (r : t T) (storeID regionID : N) : option loc :=
  regionMap.Get (leaders r !! storeID) regionID.

Definition GetFollower (r : t T) (storeID regionID : N) : option loc :=
  regionMap.Get (followers r !! storeID) regionID.

(** [GetAdjacentRegions]: [region.Region.StartKey] is read only when the
    tree returned a previous item, [region.Region.EndKey] only when it
    returned a next one. *)
Definition GetAdjacentRegions (r : t T) (h : heap) (region : loc)
  : outcome (option loc * option loc * heap) :=
  let v := deref h region in
  let '(metaPrev, metaNext) := tree_getAdjacentRegions (tree r) (Region v) in
  '(prev, h1) ←
    match metaPrev with
    | None => Returned (None, h)
    | Some item =>
        match Region v with
        | None => Fault
        | Some meta =>
            if bytes_Equal (EndKey (item_region item)) (StartKey meta)
            then GetRegion r h (Id (item_region item))
            else Returned (None, h)
        end
    end;
  '(next, h2) ←
    match metaNext with
    | None => Returned (None, h1)
    | Some item =>
        match Region (deref h1 region) with
        | None => Fault
        | Some meta =>
            if bytes_Equal (EndKey meta) (StartKey (item_region item))
            then GetRegion r h1 (Id (item_region item))
            else Returned (None, h1)
        end
    end;
  Returned (prev, next, h2).

End methods.

End RegionsInfo.

(** ** Filters (package [schedule])

    [core.StoreInfo], [Options] and [DistinctScore] are declared in other
    files; the filters are written over them.  A [Filter] value is the
    method table of the interface. *)

Module schedule.

Section filters.
Variable StoreInfo : Type.
Variable Options : Type.
Variable store_GetId : StoreInfo -> N.
Variable DistinctScore : list string -> list StoreInfo -> StoreInfo -> float.

Record Filter := mkFilter {
  Type_ : string;
  FilterSource_ : Options -> StoreInfo -> bool;
  FilterTarget_ : Options -> StoreInfo -> bool
}.

(** [FilterSource(opt, store, filters)]: true at the first filter that
    rejects the store. *)
Fixpoint FilterSource (opt : Options) (store : StoreInfo) (filters : list Filter)
  : bool :=
  match filters with
  | [] => false
  | filter :: rest =>
      if FilterSource_ filter opt store then true
      else FilterSource opt store rest
  end.

Fixpoint FilterTarget (opt : Options) (store : StoreInfo) (filters : list Filter)
  : bool :=
  match filters with
  | [] => false
  | filter :: rest =>
      if FilterTarget_ filter opt store then true
      else FilterTarget opt store rest
  end.

Record distinctScoreFilter := mkDistinctScoreFilter {
  labels : list string;
  stores : list StoreInfo;
  safeScore : float
}.

(** The loop of [NewDistinctScoreFilter]: [continue] on the stores with
    the id of the source, append the others. *)
Fixpoint NewDistinctScoreFilter_loop (stores : list StoreInfo)
  (source : StoreInfo) (newStores : list StoreInfo) : list StoreInfo :=
  match stores with
  | [] => newStores
  | s :: rest =>
      if (store_GetId s =? store_GetId source)%N
      then NewDistinctScoreFilter_loop rest source newStores
      else NewDistinctScoreFilter_loop rest source (newStores ++ [s])
  end.

Definition distinctScoreFilter_Type (f : distinctScoreFilter) : string :=
  "distinct-filter".

Definition distinctScoreFilter_FilterSource (f : distinctScoreFilter)
  (opt : Options) (store : StoreInfo) : bool := false.

Definition distinctScoreFilter_FilterTarget (f : distinctScoreFilter)
  (opt : Options) (store : StoreInfo) : bool :=
  PrimFloat.ltb (DistinctScore (labels f) (stores f) store) (safeScore f).

(** The receiver that [NewDistinctScoreFilter] builds.
    [make([]*core.StoreInfo, 0, len(stores)-1)] comes first: its capacity is
    negative when [stores] is empty, and [make] then panics, before any
    filter exists. *)
Definition NewDistinctScoreFilter_struct (labels : list string)
  (stores : list StoreInfo) (source : StoreInfo) : outcome distinctScoreFilter :=
  let capacity := Z.of_nat (length stores) - 1 in
  if capacity <? 0 then Fault
  else
    let newStores := NewDistinctScoreFilter_loop stores source [] in
    Returned {| labels := labels;
                stores := newStores;
                safeScore := DistinctScore labels newStores source |}.

(** The method table of a [*distinctScoreFilter]. *)
Definition distinctScoreFilter_Filter (f : distinctScoreFilter) : Filter :=
  {| Type_ := distinctScoreFilter_Type f;
     FilterSource_ := distinctScoreFilter_FilterSource f;
     FilterTarget_ := distinctScoreFilter_FilterTarget f |}.

Definition NewDistinctScoreFilter (labels : list string)
  (stores : list StoreInfo) (source : StoreInfo) : outcome Filter :=
  f ← NewDistinctScoreFilter_struct labels stores source;
  Returned (distinctScoreFilter_Filter f).

(** The peer stores without the source, as the catalogue words it. *)
Definition without_source (stores : list StoreInfo) (source : StoreInfo)
  : list StoreInfo :=
  List.filter (fun s => negb (store_GetId s =? store_GetId source)%N) stores.

End filters.

End schedule.

(** ** A region tree on a sorted list

    Modelled from the spec: [regionTree], whose source file is missing.  The
    regions are kept in a list ordered by start key, and each operation
    follows its contract in the section on the region tree: byte-wise
    lexicographic order, an empty end key standing for the end of the key
    space.  It instantiates [RegionTree] where a concrete tree is needed. *)

Module ListTree.

Fixpoint key_ltb (a b : list byte) : bool :=
  match a, b with
  | _, [] => false
  | [], _ :: _ => true
  | x :: a', y :: b' =>
      if (Byte.to_N x <? Byte.to_N y)%N then true
      else if (Byte.to_N x =? Byte.to_N y)%N then key_ltb a' b'
      else false
  end.

Definition key_leb (a b : list byte) : bool := negb (key_ltb b a).

(** [k] lies before the end key [e]. *)
Definition before_end (k e : list byte) : bool :=
  match e with
  | [] => true
  | _ => key_ltb k e
  end.

Definition overlap (a b : MetaRegion) : bool :=
  before_end (StartKey a) (EndKey b) && before_end (StartKey b) (EndKey a).

Fixpoint insert_sorted (x : MetaRegion) (l : list MetaRegion) : list MetaRegion :=
  match l with
  | [] => [x]
  | y :: l' =>
      if key_ltb (StartKey x) (StartKey y) then x :: l
      else y :: insert_sorted x l'
  end.

Definition update (t : list MetaRegion) (meta : option MetaRegion)
  : list MetaRegion * list MetaRegion :=
  match meta with
  | None => (t, [])
  | Some x =>
      (insert_sorted x (List.filter (fun y => negb (overlap x y)) t),
       List.filter (overlap x) t)
  end.

Definition same_entry (x y : MetaRegion) : bool :=
  bool_decide (StartKey x = StartKey y)
  && (Id x =? Id y)%N && bool_decide (Epoch x = Epoch y).

Definition remove (t : list MetaRegion) (meta : option MetaRegion)
  : list MetaRegion :=
  match meta with
  | None => t
  | Some x => List.filter (fun y => negb (same_entry x y)) t
  end.

Definition search (t : list MetaRegion) (k : list byte) : option MetaRegion :=
  List.find (fun y => key_leb (StartKey y) k && before_end k (EndKey y)) t.

Definition getAdjacentRegions (t : list MetaRegion) (meta : option MetaRegion)
  : option regionItem * option regionItem :=
  match meta with
  | None => (None, None)
  | Some x =>
      (mkItem <$> last (List.filter (fun y => key_ltb (StartKey y) (StartKey x)) t),
       mkItem <$> head (List.filter (fun y => key_ltb (StartKey x) (StartKey y)) t))
  end.

Definition scanRange (t : list MetaRegion) (startKey : list byte)
  : list MetaRegion :=
  List.filter (fun y => key_leb startKey (StartKey y)) t.

End ListTree.

Instance ListTree_RegionTree : RegionTree (list MetaRegion) := {|
  newRegionTree := [];
  tree_length := @length MetaRegion;
  tree_update := ListTree.update;
  tree_remove := ListTree.remove;
  tree_search := ListTree.search;
  tree_getAdjacentRegions := ListTree.getAdjacentRegions;
  tree_scanRange := ListTree.scanRange
|}.

(** ** Notions used to state the properties *)

(** An operation of a client of a [regionMap]. *)
Inductive rmOp (R : Type) : Type :=
| OpPut (region : R)
| OpDelete (id : N).
Arguments OpPut {R} region.
Arguments OpDelete {R} id.

Section regionMap_spec.
Context {R : Type}.
Variable deref : R -> RegionInfo.

(** The consistency of the id vector with the map: every entry is stored
    under the id of its region, records the index at which its id sits in
    the vector, and the vector holds nothing else. *)
Record rm_consistent (rm : regionMap.t R) : Prop := {
  rm_key : forall k e,
    regionMap.m rm !! k = Some e -> GetId (deref (entryRegion e)) = k;
  rm_pos : forall k e,
    regionMap.m rm !! k = Some e -> regionMap.ids rm !! pos e = Some k;
  rm_ids : forall i k,
    regionMap.ids rm !! i = Some k ->
    exists e, regionMap.m rm !! k = Some e /\ pos e = i
}.

Definition rm_consistent_opt (rm : option (regionMap.t R)) : Prop :=
  match rm with
  | None => True
  | Some x => rm_consistent x
  end.

(** The sum of a weight over the entries of a map, and the exact sums of
    the sizes and of the key counts of the resident regions. *)
Definition entry_sum (w : regionEntry R -> Z) (m : gmap N (regionEntry R)) : Z :=
  map_fold (fun _ e acc => acc + w e) 0 m.

Definition sumSize (rm : regionMap.t R) : Z :=
  entry_sum (fun e => ApproximateSize (deref (entryRegion e))) (regionMap.m rm).

Definition sumKeys (rm : regionMap.t R) : Z :=
  entry_sum (fun e => ApproximateKeys (deref (entryRegion e))) (regionMap.m rm).

Definition rm_totals (rm : regionMap.t R) : Prop :=
  regionMap.totalSize rm = to_int64 (sumSize rm)
  /\ regionMap.totalKeys rm = to_int64 (sumKeys rm).

(** One operation on an allocated map; the receiver of [Delete] stays
    allocated.  A run applies the operations in order, the region objects
    being read through the same [deref] throughout: nothing writes to them
    between two operations. *)
Definition rm_step (rm : regionMap.t R) (o : rmOp R) : outcome (regionMap.t R) :=
  match o with
  | OpPut region => regionMap.Put deref (Some rm) region
  | OpDelete id =>
      x ← regionMap.Delete deref (Some rm) id;
      match x with
      | Some rm' => Returned rm'
      | None => Fault
      end
  end.

Fixpoint rm_run (ops : list (rmOp R)) (rm : regionMap.t R)
  : outcome (regionMap.t R) :=
  match ops with
  | [] => Returned rm
  | o :: rest => rm' ← rm_step rm o; rm_run rest rm'
  end.

(** The region that the [i]-th call of [RandomRegion] from generator [g]
    draws from [rm], and the first [n] of them. *)
Definition sample (rm : option (regionMap.t R)) (g : Rand) (i : nat) : option R :=
  match rm with
  | None => None
  | Some x =>
      id ← regionMap.ids x !! (raw g (cursor g + i) mod size (regionMap.m x))%nat;
      regionMap.Get rm id
  end.

Definition samples (rm : option (regionMap.t R)) (g : Rand) (n : nat) : list R :=
  omap (sample rm g) (seq 0 n).

(** A region passes when every option accepts it. *)
Definition passes (opts : list RegionOption) (x : R) : bool :=
  forallb (fun opt : RegionOption => opt (deref x)) opts.

End regionMap_spec.

(** ** The invariant of the index

    Every map of the index, the global one and each per-store bucket, is
    consistent and holds only regions that carry a meta region. *)

Definition rm_ok (h : gmap positive RegionInfo) (rm : regionMap.t positive) : Prop :=
  rm_consistent (deref h) rm
  /\ forall k e, regionMap.m rm !! k = Some e ->
                 is_Some (Region (deref h (entryRegion e))).

Definition buckets_ok (h : gmap positive RegionInfo)
  (buckets : gmap N (regionMap.t positive)) : Prop :=
  forall s rm, buckets !! s = Some rm -> rm_ok h rm.

Record index_ok {T : Type} (r : RegionsInfo.t T) (h : gmap positive RegionInfo)
  : Prop := {
  ok_regions : rm_ok h (RegionsInfo.regions r);
  ok_leaders : buckets_ok h (RegionsInfo.leaders r);
  ok_followers : buckets_ok h (RegionsInfo.followers r);
  ok_learners : buckets_ok h (RegionsInfo.learners r);
  ok_pendingPeers : buckets_ok h (RegionsInfo.pendingPeers r)
}.

(** The heap [h'] has every object of [h], unchanged. *)
Definition heap_le (h h' : gmap positive RegionInfo) : Prop :=
  forall p, is_Some (h !! p) -> h' !! p = h !! p.

(** ** Concrete regions for the examples *)

Module Examples.

Definition voter1 : Peer := mkPeer 11 1 false.
Definition voter2 : Peer := mkPeer 12 2 false.
Definition learner3 : Peer := mkPeer 13 3 true.

Definition meta1 : MetaRegion :=
  mkMeta 1 ["a"%byte] ["c"%byte] None [voter1; voter2; learner3].

(** Region 1 on [a, c): two voters, a learner on store 3, a pending peer
    on store 2; [leader] may be nil. *)
Definition region1 (leader : option Peer) : RegionInfo :=
  {| Region := Some meta1; Learners := [learner3]; Voters := [voter1; voter2];
     Leader := leader; DownPeers := []; PendingPeers := [voter2];
     WrittenBytes := 0; ReadBytes := 0;
     ApproximateSize := 5; ApproximateKeys := 7 |}.

Definition meta2 : MetaRegion :=
  mkMeta 2 ["c"%byte] ["e"%byte] None [voter1; voter2].

Definition region2 : RegionInfo :=
  {| Region := Some meta2; Learners := []; Voters := [voter1; voter2];
     Leader := Some voter2; DownPeers := []; PendingPeers := [];
     WrittenBytes := 0; ReadBytes := 0;
     ApproximateSize := 9; ApproximateKeys := 4 |}.

(** Region 3 on [f, h): not contiguous with region 2. *)
Definition meta3 : MetaRegion :=
  mkMeta 3 ["f"%byte] ["h"%byte] None [voter1].

Definition region3 : RegionInfo :=
  {| Region := Some meta3; Learners := []; Voters := [voter1];
     Leader := Some voter1; DownPeers := []; PendingPeers := [];
     WrittenBytes := 0; ReadBytes := 0;
     ApproximateSize := 2; ApproximateKeys := 1 |}.

(** A heap holding the three regions at addresses 1, 2 and 3. *)
Definition heap_of (leader : option Peer) : gmap positive RegionInfo :=
  <[3%positive := region3]>
    (<[2%positive := region2]> (<[1%positive := region1 leader]> ∅)).

Definition empty_index : RegionsInfo.t (list MetaRegion) :=
  RegionsInfo.NewRegionsInfo.

(** The index after [AddRegion] of the regions at the given addresses. *)
Fixpoint add_all (ps : list positive) (r : RegionsInfo.t (list MetaRegion))
  (h : gmap positive RegionInfo)
  : outcome (RegionsInfo.t (list MetaRegion) * gmap positive RegionInfo) :=
  match ps with
  | [] => Returned (r, h)
  | p :: rest =>
      '(_, r', h') ← RegionsInfo.AddRegion r h p;
      add_all rest r' h'
  end.

(** The index that holds the three regions, region 1 led by its first
    voter, and the heap it lives in. *)
Definition index3 : RegionsInfo.t (list MetaRegion) * gmap positive RegionInfo :=
  match add_all [1; 2; 3]%positive empty_index (heap_of (Some voter1)) with
  | Returned x => x
  | Fault => (empty_index, heap_of (Some voter1))
  end.

(** Region 1 as a later heartbeat reports it, and the heap with that
    snapshot at address 4. *)
Definition region1_later : RegionInfo :=
  {| Region := Some meta1; Learners := [learner3]; Voters := [voter1; voter2];
     Leader := Some voter1; DownPeers := []; PendingPeers := [];
     WrittenBytes := 0; ReadBytes := 0;
     ApproximateSize := 8; ApproximateKeys := 10 |}.

Definition heap4 : gmap positive RegionInfo :=
  <[4%positive := region1_later]> (heap_of (Some voter1)).

(** The index that holds region 1 alone. *)
Definition index1 : RegionsInfo.t (list MetaRegion) * gmap positive RegionInfo :=
  match add_all [1%positive] empty_index (heap_of (Some voter1)) with
  | Returned x => x
  | Fault => (empty_index, heap_of (Some voter1))
  end.

(** Region 4 on [b, d), which overlaps regions 1 and 2, at address 9, and
    the index that holds regions 1 and 2 in the heap that has it. *)
Definition region4 : RegionInfo :=
  {| Region := Some (mkMeta 4 ["b"%byte] ["d"%byte] None [voter1]);
     Learners := []; Voters := [voter1];
     Leader := Some voter1; DownPeers := []; PendingPeers := [];
     WrittenBytes := 0; ReadBytes := 0;
     ApproximateSize := 1; ApproximateKeys := 1 |}.

Definition heap9 : gmap positive RegionInfo :=
  <[9%positive := region4]> (heap_of (Some voter1)).

Definition index12 : RegionsInfo.t (list MetaRegion) * gmap positive RegionInfo :=
  match add_all [1; 2]%positive empty_index heap9 with
  | Returned x => x
  | Fault => (empty_index, heap9)
  end.

(** The three regions put into a new map. *)
Definition put3 : list (rmOp positive) :=
  [OpPut 1%positive; OpPut 2%positive; OpPut 3%positive].

(** [p.ApproximateSize = z], an assignment through the pointer [p]. *)
Definition assign_ApproximateSize (h : gmap positive RegionInfo) (p : positive)
  (z : Z) : gmap positive RegionInfo :=
  let v := deref h p in
  store h p
    {| Region := Region v; Learners := Learners v; Voters := Voters v;
       Leader := Leader v; DownPeers := DownPeers v;
       PendingPeers := PendingPeers v; WrittenBytes := WrittenBytes v;
       ReadBytes := ReadBytes v; ApproximateSize := z;
       ApproximateKeys := ApproximateKeys v |}.

(** A generator whose raw outputs are 0, 1, 2, ... *)
Definition counter : Rand := mkRand (fun n => n) 0.

Definition heartbeat1 : RegionHeartbeatRequest :=
  {| hbRegion := Some meta1; hbLeader := Some voter1; hbDownPeers := [];
     hbPendingPeers := [voter2]; hbBytesWritten := 10; hbBytesRead := 20;
     hbApproximateSize := 3 * 2 ^ 20 + 17; hbApproximateKeys := 1000 |}.

End Examples.

(** * The rest of the region code

    The methods of [RegionInfo] and [RegionsInfo] that look peers up, edit a
    region, report sizes and statistics and explain differences, and the
    other filters of the catalogue. *)

(** ** RegionInfo: peers by id and by store

    Each method is a loop that returns the first element that matches. *)

Definition GetPeer (r : RegionInfo) (peerID : N) : option Peer :=
  List.find (fun peer => (PeerId peer =? peerID)%N) (GetPeers r).

(** [down.GetPeer()] is nil-safe and may be nil: a nil peer has id 0, and
    [GetDownPeer] then returns that nil. *)
Fixpoint GetDownPeer_loop (downs : list PeerStats) (peerID : N) : option Peer :=
  match downs with
  | [] => None
  | down :: rest =>
      if (peer_GetId (StatsPeer down) =? peerID)%N then StatsPeer down
      else GetDownPeer_loop rest peerID
  end.

Definition GetDownPeer (r : RegionInfo) (peerID : N) : option Peer :=
  GetDownPeer_loop (DownPeers r) peerID.

(** [down.GetPeer().GetId() == peerID && !down.GetPeer().IsLearner]: the
    second operand reads a field through the peer and panics when the peer
    is nil. *)
Fixpoint GetDownVoter_loop (downs : list PeerStats) (peerID : N)
  : outcome (option Peer) :=
  match downs with
  | [] => Returned None
  | down :: rest =>
      if (peer_GetId (StatsPeer down) =? peerID)%N then
        match StatsPeer down with
        | None => Fault
        | Some peer =>
            if negb (IsLearner peer) then Returned (Some peer)
            else GetDownVoter_loop rest peerID
        end
      else GetDownVoter_loop rest peerID
  end.

Definition GetDownVoter (r : RegionInfo) (peerID : N) : outcome (option Peer) :=
  GetDownVoter_loop (DownPeers r) peerID.

Fixpoint GetDownLearner_loop (downs : list PeerStats) (peerID : N)
  : outcome (option Peer) :=
  match downs with
  | [] => Returned None
  | down :: rest =>
      if (peer_GetId (StatsPeer down) =? peerID)%N then
        match StatsPeer down with
        | None => Fault
        | Some peer =>
            if IsLearner peer then Returned (Some peer)
            else GetDownLearner_loop rest peerID
        end
      else GetDownLearner_loop rest peerID
  end.

Definition GetDownLearner (r : RegionInfo) (peerID : N) : outcome (option Peer) :=
  GetDownLearner_loop (DownPeers r) peerID.

Definition GetPendingPeer (r : RegionInfo) (peerID : N) : option Peer :=
  List.find (fun peer => (PeerId peer =? peerID)%N) (PendingPeers r).

Definition GetPendingVoter (r : RegionInfo) (peerID : N) : option Peer :=
  List.find (fun peer => (PeerId peer =? peerID)%N && negb (IsLearner peer))
    (PendingPeers r).

Definition GetPendingLearner (r : RegionInfo) (peerID : N) : option Peer :=
  List.find (fun peer => (PeerId peer =? peerID)%N && IsLearner peer)
    (PendingPeers r).

Definition GetStorePeer (r : RegionInfo) (storeID : N) : option Peer :=
  List.find (fun peer => (StoreId peer =? storeID)%N) (GetPeers r).

Definition GetStoreVoter (r : RegionInfo) (storeID : N) : option Peer :=
  List.find (fun peer => (StoreId peer =? storeID)%N) (Voters r).

Definition GetStoreLearner (r : RegionInfo) (storeID : N) : option Peer :=
  List.find (fun peer => (StoreId peer =? storeID)%N) (Learners r).

(** ** RegionInfo: editing the peers *)

(** The loop of [RemoveStorePeer]: the peers that are not on the store, in
    order. *)
Fixpoint RemoveStorePeer_loop (ps : list Peer) (storeID : N) (peers : list Peer)
  : list Peer :=
  match ps with
  | [] => peers
  | peer :: rest =>
      if negb (StoreId peer =? storeID)%N
      then RemoveStorePeer_loop rest storeID (peers ++ [peer])
      else RemoveStorePeer_loop rest storeID peers
  end.

Definition set_Peers (meta : MetaRegion) (peers : list Peer) : MetaRegion :=
  {| Id := Id meta; StartKey := StartKey meta; EndKey := EndKey meta;
     Epoch := Epoch meta; Peers := peers |}.

Definition set_Region (r : RegionInfo) (meta : MetaRegion) : RegionInfo :=
  {| Region := Some meta; Learners := Learners r; Voters := Voters r;
     Leader := Leader r; DownPeers := DownPeers r;
     PendingPeers := PendingPeers r; WrittenBytes := WrittenBytes r;
     ReadBytes := ReadBytes r; ApproximateSize := ApproximateSize r;
     ApproximateKeys := ApproximateKeys r |}.

(** [r.Peers = peers] writes through the embedded pointer and panics when it
    is nil. *)
Definition RemoveStorePeer (r : RegionInfo) (storeID : N) : outcome RegionInfo :=
  let peers := RemoveStorePeer_loop (GetPeers r) storeID [] in
  match Region r with
  | None => Fault
  | Some meta => classifyVoterAndLearner (set_Region r (set_Peers meta peers))
  end.

(** [AddPeer] appends to [Peers] and to one of the two role slices; it does
    not classify again. *)
Definition AddPeer (r : RegionInfo) (peer : Peer) : outcome RegionInfo :=
  match Region r with
  | None => Fault
  | Some meta =>
      let r' := set_Region r (set_Peers meta (Peers meta ++ [peer])) in
      if IsLearner peer
      then Returned (set_roles r' (Learners r' ++ [peer]) (Voters r'))
      else Returned (set_roles r' (Learners r') (Voters r' ++ [peer]))
  end.

Fixpoint GetStoreIds_loop (peers : list Peer) (stores : gset N) : gset N :=
  match peers with
  | [] => stores
  | peer :: rest => GetStoreIds_loop rest ({[StoreId peer]} ∪ stores)
  end.

Definition GetStoreIds (r : RegionInfo) : gset N :=
  GetStoreIds_loop (GetPeers r) ∅.

(** [GetDiffFollowers] ranges over two maps, in an order that Go leaves
    open; the lists below take the entries in the order of [map_to_list],
    and what is proved of the result does not depend on it. *)
Fixpoint GetDiffFollowers_inner (p : Peer) (others : list Peer) : bool :=
  match others with
  | [] => true
  | o :: rest =>
      if (StoreId p =? StoreId o)%N then false
      else GetDiffFollowers_inner p rest
  end.

Fixpoint GetDiffFollowers_loop (followers others : list Peer) (res : list Peer)
  : list Peer :=
  match followers with
  | [] => res
  | p :: rest =>
      if GetDiffFollowers_inner p others
      then GetDiffFollowers_loop rest others (res ++ [p])
      else GetDiffFollowers_loop rest others res
  end.

(** [len(r.Peers)] sizes the result and panics when the region has no
    meta region. *)
Definition GetDiffFollowers (r other : RegionInfo) : outcome (list Peer) :=
  match Region r with
  | None => Fault
  | Some _ =>
      Returned
        (GetDiffFollowers_loop (map_to_list (GetFollowers r)).*2
           (map_to_list (GetFollowers other)).*2 [])
  end.

(** ** RegionsStat, the hot regions ordered by flow

    [time.Time] and [RollingStats] are declared elsewhere; the record is
    written over them. *)

Record RegionStat (Time RollingStats : Type) := mkRegionStat {
  RegionID : N;
  FlowBytes : N;
  HotDegree : Z;
  LastUpdateTime : Time;
  StoreID : N;
  AntiCount : Z;
  StatVersion : N;
  Stats : option RollingStats
}.
Arguments RegionID {Time RollingStats} _.
Arguments FlowBytes {Time RollingStats} _.

Section RegionsStat.
Context {Time RollingStats : Type}.

Definition RegionsStat_Len (m : list (RegionStat Time RollingStats)) : nat :=
  length m.

(** [m[i], m[j] = m[j], m[i]]: both elements are read, then both written;
    an index out of range panics. *)
Definition RegionsStat_Swap (m : list (RegionStat Time RollingStats)) (i j : nat)
  : outcome (list (RegionStat Time RollingStats)) :=
  match m !! j, m !! i with
  | Some mj, Some mi => Returned (<[j := mi]> (<[i := mj]> m))
  | _, _ => Fault
  end.

Definition RegionsStat_Less (m : list (RegionStat Time RollingStats)) (i j : nat)
  : outcome bool :=
  match m !! i, m !! j with
  | Some mi, Some mj => Returned (FlowBytes mi <? FlowBytes mj)%N
  | _, _ => Fault
  end.

End RegionsStat.

(** ** RegionsInfo: sizes, counts and statistics *)

(** [bytes.Compare]: the lexicographic order of byte strings. *)
Fixpoint bytes_Compare (a b : list byte) : comparison :=
  match a, b with
  | [], [] => Eq
  | [], _ :: _ => Lt
  | _ :: _, [] => Gt
  | x :: a', y :: b' =>
      match (Byte.to_N x ?= Byte.to_N y)%N with
      | Eq => bytes_Compare a' b'
      | c => c
      end
  end.

(** [RegionStats]; its counters are Go's [int], taken as 64 bits wide. *)
Record RegionStats := mkRegionStats {
  Count : Z;
  EmptyCount : Z;
  StorageSize : Z;
  StorageKeys : Z;
  StoreLeaderCount : gmap N Z;
  StorePeerCount : gmap N Z;
  StoreLeaderSize : gmap N Z;
  StoreLeaderKeys : gmap N Z;
  StorePeerSize : gmap N Z;
  StorePeerKeys : gmap N Z
}.

Definition newRegionStats : RegionStats :=
  {| Count := 0; EmptyCount := 0; StorageSize := 0; StorageKeys := 0;
     StoreLeaderCount := ∅; StorePeerCount := ∅; StoreLeaderSize := ∅;
     StoreLeaderKeys := ∅; StorePeerSize := ∅; StorePeerKeys := ∅ |}.

(** [m[k] += v]: a key that the map lacks reads as 0. *)
Definition map_add (m : gmap N Z) (k : N) (v : Z) : gmap N Z :=
  <[k := add64 (default 0 (m !! k)) v]> m.

(** The loop of [Observe] over the peers of the region. *)
Fixpoint Observe_peers (peers : list Peer) (size keys : Z) (s : RegionStats)
  : RegionStats :=
  match peers with
  | [] => s
  | p :: rest =>
      Observe_peers rest size keys
        {| Count := Count s; EmptyCount := EmptyCount s;
           StorageSize := StorageSize s; StorageKeys := StorageKeys s;
           StoreLeaderCount := StoreLeaderCount s;
           StorePeerCount := map_add (StorePeerCount s) (StoreId p) 1;
           StoreLeaderSize := StoreLeaderSize s;
           StoreLeaderKeys := StoreLeaderKeys s;
           StorePeerSize := map_add (StorePeerSize s) (StoreId p) size;
           StorePeerKeys := map_add (StorePeerKeys s) (StoreId p) keys |}
  end.

(** [Observe]; [r.Peers] at the head of the last loop panics when the
    region has no meta region. *)
Definition Observe (s : RegionStats) (r : RegionInfo) : outcome RegionStats :=
  let count := add64 (Count s) 1 in
  let empty :=
    if (ApproximateSize r <=? Z.of_N EmptyRegionApproximateSize)
    then add64 (EmptyCount s) 1 else EmptyCount s in
  let size := add64 (StorageSize s) (ApproximateSize r) in
  let keys := add64 (StorageKeys s) (ApproximateKeys r) in
  let s1 :=
    match Leader r with
    | Some leader =>
        {| Count := count; EmptyCount := empty;
           StorageSize := size; StorageKeys := keys;
           StoreLeaderCount := map_add (StoreLeaderCount s) (StoreId leader) 1;
           StorePeerCount := StorePeerCount s;
           StoreLeaderSize :=
             map_add (StoreLeaderSize s) (StoreId leader) (ApproximateSize r);
           StoreLeaderKeys :=
             map_add (StoreLeaderKeys s) (StoreId leader) (ApproximateKeys r);
           StorePeerSize := StorePeerSize s;
           StorePeerKeys := StorePeerKeys s |}
    | None =>
        {| Count := count; EmptyCount := empty;
           StorageSize := size; StorageKeys := keys;
           StoreLeaderCount := StoreLeaderCount s;
           StorePeerCount := StorePeerCount s;
           StoreLeaderSize := StoreLeaderSize s;
           StoreLeaderKeys := StoreLeaderKeys s;
           StorePeerSize := StorePeerSize s;
           StorePeerKeys := StorePeerKeys s |}
    end in
  match Region r with
  | None => Fault
  | Some meta =>
      Returned (Observe_peers (Peers meta) (ApproximateSize r) (ApproximateKeys r) s1)
  end.

Module RegionsInfoStats.

Section methods.
Context {T : Type} `{RegionTree T}.

Definition GetStoreLeaderRegionSize (r : RegionsInfo.t T) (storeID : N) : Z :=
  regionMap.TotalSize (RegionsInfo.leaders r !! storeID).

Definition GetStoreFollowerRegionSize (r : RegionsInfo.t T) (storeID : N) : Z :=
  regionMap.TotalSize (RegionsInfo.followers r !! storeID).

Definition GetStoreLearnerRegionSize (r : RegionsInfo.t T) (storeID : N) : Z :=
  regionMap.TotalSize (RegionsInfo.learners r !! storeID).

Definition GetStoreRegionSize (r : RegionsInfo.t T) (storeID : N) : Z :=
  add64 (add64 (GetStoreLeaderRegionSize r storeID)
                (GetStoreFollowerRegionSize r storeID))
        (GetStoreLearnerRegionSize r storeID).

Definition GetRegionCount (r : RegionsInfo.t T) : nat :=
  regionMap.Len (Some (RegionsInfo.regions r)).

Definition GetStoreRegionCount (r : RegionsInfo.t T) (storeID : N) : nat :=
  (RegionsInfo.GetStoreLeaderCount r storeID
   + RegionsInfo.GetStoreFollowerCount r storeID
   + RegionsInfo.GetStoreLearnerCount r storeID)%nat.

(** [r.regions.TotalSize() / int64(r.regions.Len())]: the division of
    [int64] truncates toward zero. *)
Definition GetAverageRegionSize (r : RegionsInfo.t T) : Z :=
  if (regionMap.Len (Some (RegionsInfo.regions r)) =? 0)%nat then 0
  else to_int64
         (Z.quot (regionMap.TotalSize (Some (RegionsInfo.regions r)))
                 (Z.of_nat (regionMap.Len (Some (RegionsInfo.regions r))))).

(** The visitor of [GetRegionStats] stops the scan at the first region that
    has no end key, or whose end key is not below [endKey], when [endKey]
    is not empty. *)
Definition GetRegionStats_stop (endKey : list byte) (meta : MetaRegion) : bool :=
  (0 <? length endKey)%nat
  && ((length (EndKey meta) =? 0)%nat
      || match bytes_Compare (EndKey meta) endKey with
         | Lt => false
         | _ => true
         end).

Fixpoint GetRegionStats_visit (r : RegionsInfo.t T) (visited : list MetaRegion)
  (endKey : list byte) (stats : RegionStats) (h : heap)
  : outcome (RegionStats * heap) :=
  match visited with
  | [] => Returned (stats, h)
  | meta :: rest =>
      if GetRegionStats_stop endKey meta then Returned (stats, h)
      else
        '(c, h') ← RegionsInfo.GetRegion r h (Id meta);
        match c with
        | None => GetRegionStats_visit r rest endKey stats h'
        | Some region =>
            stats' ← Observe stats (deref h' region);
            GetRegionStats_visit r rest endKey stats' h'
        end
  end.

Definition GetRegionStats (r : RegionsInfo.t T) (h : heap)
  (startKey endKey : list byte) : outcome (RegionStats * heap) :=
  GetRegionStats_visit r (tree_scanRange (RegionsInfo.tree r) startKey) endKey
    newRegionStats h.

End methods.

End RegionsInfoStats.

(** ** Explaining the difference of two regions

    [fmt] renders a peer under [%v] and a meta region under [%s]; the two
    renderings are parameters. *)

Fixpoint strings_Join (elems : list string) (sep : string) : string :=
  match elems with
  | [] => EmptyString
  | [x] => x
  | x :: rest => String.append x (String.append sep (strings_Join rest sep))
  end.

Section Diff.
Variable show_peer : Peer -> string.
Variable show_meta : MetaRegion -> string.

(** [reflect.DeepEqual] of two peers. *)
Definition peer_DeepEqual (a b : Peer) : bool := bool_decide (a = b).

(** The peers of [xs] that have no equal in [ys], each under [label]. *)
Fixpoint DiffRegionPeersInfo_loop (label : string) (xs ys : list Peer)
  (ret : list string) : list string :=
  match xs with
  | [] => ret
  | a :: rest =>
      if existsb (peer_DeepEqual a) ys
      then DiffRegionPeersInfo_loop label rest ys ret
      else DiffRegionPeersInfo_loop label rest ys
             (ret ++ [String.append label
                        (String.append (show_peer a) "}")])
  end.

Definition DiffRegionPeersInfo (origin other : RegionInfo) : outcome string :=
  match Region origin, Region other with
  | Some o, Some t =>
      let ret := DiffRegionPeersInfo_loop "Remove peer:{" (Peers o) (Peers t) [] in
      let ret := DiffRegionPeersInfo_loop "Add peer:{" (Peers t) (Peers o) ret in
      Returned (strings_Join ret ",")
  | _, _ => Fault
  end.

Definition key_only_start (k : list byte) : MetaRegion :=
  {| Id := 0; StartKey := k; EndKey := []; Epoch := None; Peers := [] |}.

Definition key_only_end (k : list byte) : MetaRegion :=
  {| Id := 0; StartKey := []; EndKey := k; Epoch := None; Peers := [] |}.

Definition DiffRegionKeyInfo (origin other : RegionInfo) : outcome string :=
  match Region origin, Region other with
  | Some o, Some t =>
      let ret :=
        if negb (bytes_Equal (StartKey o) (StartKey t))
        then [String.append "StartKey Changed:{"
                (String.append (show_meta (key_only_start (StartKey o)))
                   (String.append "} -> {"
                      (String.append (show_meta (key_only_start (StartKey t))) "}")))]
        else [] in
      let ret :=
        if negb (bytes_Equal (EndKey o) (EndKey t))
        then ret ++ [String.append "EndKey Changed:{"
                (String.append (show_meta (key_only_end (EndKey o)))
                   (String.append "} -> {"
                      (String.append (show_meta (key_only_end (EndKey t))) "}")))]
        else ret in
      Returned (strings_Join ret ",")
  | _, _ => Fault
  end.

End Diff.

(** ** The other filters of the catalogue

    What the filters read of a store and of the options is declared in
    other files and is taken as parameters: the methods of
    [core.StoreInfo], the accessors of [Options], the TTL cache and the
    namespace classifier. *)

Module catalogue.

Section filters.
Variable StoreInfo : Type.
Variable Options : Type.
Variable TTLUint64 : Type.
Variable Classifier : Type.
Variable store_GetId : StoreInfo -> N.
Variable IsBlocked : StoreInfo -> bool.
Variable IsTombstone : StoreInfo -> bool.
Variable IsUp : StoreInfo -> bool.
Variable IsDisconnected : StoreInfo -> bool.
Variable GetIsBusy : StoreInfo -> bool.
Variable DownTime : StoreInfo -> Z.
Variable PendingPeerCount : StoreInfo -> Z.
Variable GetSendingSnapCount : StoreInfo -> N.
Variable GetReceivingSnapCount : StoreInfo -> N.
Variable GetApplyingSnapCount : StoreInfo -> N.
Variable IsLowSpace : StoreInfo -> float -> bool.
Variable Labels : StoreInfo -> list (string * string).
Variable GetMaxStoreDownTime : Options -> Z.
Variable GetMaxPendingPeerCount : Options -> N.
Variable GetMaxSnapshotCount : Options -> N.
Variable GetLowSpaceRatio : Options -> float.
Variable CheckLabelProperty : Options -> string -> list (string * string) -> bool.
Variable Exists : TTLUint64 -> N -> bool.
Variable GetStoreNamespace : Classifier -> StoreInfo -> string.

Abbreviation Filter := (schedule.Filter StoreInfo Options).

Definition NewExcludedFilter (sources targets : gset N) : Filter :=
  {| schedule.Type_ := "exclude-filter";
     schedule.FilterSource_ := fun opt store => bool_decide (store_GetId store ∈ sources);
     schedule.FilterTarget_ := fun opt store => bool_decide (store_GetId store ∈ targets) |}.

Definition NewBlockFilter : Filter :=
  {| schedule.Type_ := "block-filter";
     schedule.FilterSource_ := fun opt store => IsBlocked store;
     schedule.FilterTarget_ := fun opt store => IsBlocked store |}.

Definition NewStateFilter : Filter :=
  {| schedule.Type_ := "state-filter";
     schedule.FilterSource_ := fun opt store => IsTombstone store;
     schedule.FilterTarget_ := fun opt store => negb (IsUp store) |}.

Definition healthFilter_filter (opt : Options) (store : StoreInfo) : bool :=
  if GetIsBusy store then true
  else (GetMaxStoreDownTime opt <? DownTime store).

Definition NewHealthFilter : Filter :=
  {| schedule.Type_ := "health-filter";
     schedule.FilterSource_ := healthFilter_filter;
     schedule.FilterTarget_ := healthFilter_filter |}.

Definition NewDisconnectFilter : Filter :=
  {| schedule.Type_ := "disconnect-filter";
     schedule.FilterSource_ := fun opt store => IsDisconnected store;
     schedule.FilterTarget_ := fun opt store => IsDisconnected store |}.

(** [store.PendingPeerCount > int(opt.GetMaxPendingPeerCount())]: the
    conversion of the [uint64] bound to [int] keeps its 64 bits. *)
Definition pendingPeerCountFilter_filter (opt : Options) (store : StoreInfo) : bool :=
  if (GetMaxPendingPeerCount opt =? 0)%N then false
  else (to_int64 (Z.of_N (GetMaxPendingPeerCount opt)) <? PendingPeerCount store).

Definition NewPendingPeerCountFilter : Filter :=
  {| schedule.Type_ := "pending-peer-filter";
     schedule.FilterSource_ := pendingPeerCountFilter_filter;
     schedule.FilterTarget_ := pendingPeerCountFilter_filter |}.

Definition snapshotCountFilter_filter (opt : Options) (store : StoreInfo) : bool :=
  (GetMaxSnapshotCount opt <? GetSendingSnapCount store)%N
  || (GetMaxSnapshotCount opt <? GetReceivingSnapCount store)%N
  || (GetMaxSnapshotCount opt <? GetApplyingSnapCount store)%N.

Definition NewSnapshotCountFilter : Filter :=
  {| schedule.Type_ := "snapshot-filter";
     schedule.FilterSource_ := snapshotCountFilter_filter;
     schedule.FilterTarget_ := snapshotCountFilter_filter |}.

Definition NewCacheFilter (cache : TTLUint64) : Filter :=
  {| schedule.Type_ := "cache-filter";
     schedule.FilterSource_ := fun opt store => Exists cache (store_GetId store);
     schedule.FilterTarget_ := fun opt store => false |}.

Definition NewStorageThresholdFilter : Filter :=
  {| schedule.Type_ := "storage-threshold-filter";
     schedule.FilterSource_ := fun opt store => false;
     schedule.FilterTarget_ :=
       fun opt store => IsLowSpace store (GetLowSpaceRatio opt) |}.

Definition namespaceFilter_filter (classifier : Classifier) (namespace : string)
  (store : StoreInfo) : bool :=
  negb (String.eqb (GetStoreNamespace classifier store) namespace).

Definition NewNamespaceFilter (classifier : Classifier) (namespace : string)
  : Filter :=
  {| schedule.Type_ := "namespace-filter";
     schedule.FilterSource_ := fun opt store =>
       namespaceFilter_filter classifier namespace store;
     schedule.FilterTarget_ := fun opt store =>
       namespaceFilter_filter classifier namespace store |}.

(** The name of the label property that [rejectLeaderFilter] checks is a
    constant of another file. *)
Variable RejectLeader : string.

Definition NewRejectLeaderFilter : Filter :=
  {| schedule.Type_ := "reject-leader-filter";
     schedule.FilterSource_ := fun opt store => false;
     schedule.FilterTarget_ :=
       fun opt store => CheckLabelProperty opt RejectLeader (Labels store) |}.

End filters.

End catalogue.

(** ** Notions used to state the properties of the rest of the code *)

(** The roles of a region are classified when its two role slices are the
    learners and the voters among its peers, in the order of the peers. *)
Definition classified (r : RegionInfo) : Prop :=
  Learners r = List.filter IsLearner (GetPeers r)
  /\ Voters r = List.filter (fun p => negb (IsLearner p)) (GetPeers r).

(** [Observe] of one region after the other. *)
Fixpoint Observe_all (regions : list RegionInfo) (s : RegionStats)
  : outcome RegionStats :=
  match regions with
  | [] => Returned s
  | r :: rest => s' ← Observe s r; Observe_all rest s'
  end.

(** The number of elements of a list that satisfy a test, and the sum of a
    weight over a list. *)
Definition count_if {A : Type} (f : A -> bool) (l : list A) : Z :=
  Z.of_nat (length (List.filter f l)).

Definition sum_of {A : Type} (w : A -> Z) (l : list A) : Z :=
  fold_right (fun x acc => w x + acc) 0 l.

(** A counter of a statistics map; a store that the map lacks counts 0. *)
Definition counter_at (m : gmap N Z) (k : N) : Z := default 0 (m !! k).

(** The regions that the visitor of [GetRegionStats] goes through: those
    before the first one at which it stops. *)
Fixpoint scanned_before_stop (stop : MetaRegion -> bool) (metas : list MetaRegion)
  : list MetaRegion :=
  match metas with
  | [] => []
  | meta :: rest =>
      if stop meta then [] else meta :: scanned_before_stop stop rest
  end.

(** The objects that the global map holds under the ids of a list of meta
    regions, the ids that are not resident left out. *)
Definition residents_of {T : Type} (r : RegionsInfo.t T)
  (h : gmap positive RegionInfo) (metas : list MetaRegion) : list RegionInfo :=
  omap (fun meta =>
          deref h <$> regionMap.Get (Some (RegionsInfo.regions r)) (Id meta))
       metas.

(** A call of a writer of the index, and a run of such calls. *)
Inductive indexOp : Type :=
| CallSetRegion (region : positive)
| CallAddRegion (region : positive)
| CallRemoveRegion (region : positive).

Definition indexOp_region (o : indexOp) : positive :=
  match o with
  | CallSetRegion p | CallAddRegion p | CallRemoveRegion p => p
  end.

Section index_run.
Context {T : Type} `{RegionTree T}.

Definition index_step (r : RegionsInfo.t T) (h : gmap positive RegionInfo)
  (o : indexOp) : outcome (RegionsInfo.t T * gmap positive RegionInfo) :=
  match o with
  | CallSetRegion p =>
      '(_, r', h') ← RegionsInfo.SetRegion r h p; Returned (r', h')
  | CallAddRegion p =>
      '(_, r', h') ← RegionsInfo.AddRegion r h p; Returned (r', h')
  | CallRemoveRegion p =>
      r' ← RegionsInfo.RemoveRegion r h (Some p); Returned (r', h)
  end.

Fixpoint index_run (ops : list indexOp) (r : RegionsInfo.t T)
  (h : gmap positive RegionInfo)
  : outcome (RegionsInfo.t T * gmap positive RegionInfo) :=
  match ops with
  | [] => Returned (r, h)
  | o :: rest => '(r', h') ← index_step r h o; index_run rest r' h'
  end.

End index_run.

(** ** Notions used to state the effect of the writers of the index *)

(** The lookups in the buckets [b'] are those in [b], but for the id [id]
    at the stores of [stores], where they find [to]. *)
Definition buckets_set (id : N) (stores : list N) (to : option positive)
  (b b' : gmap N (regionMap.t positive)) : Prop :=
  forall s k,
    regionMap.Get (b' !! s) k
    = if decide (k = id /\ s ∈ stores) then to else regionMap.Get (b !! s) k.

(** The stores at which [AddRegion] files a region under each role: none
    when the region has no leader. *)
Definition leader_stores (v : RegionInfo) : list N :=
  match Leader v with
  | None => []
  | Some leader =>
      StoreId <$> List.filter (fun p => (PeerId p =? PeerId leader)%N) (GetVoters v)
  end.

Definition follower_stores (v : RegionInfo) : list N :=
  match Leader v with
  | None => []
  | Some leader =>
      StoreId <$> List.filter (fun p => negb (PeerId p =? PeerId leader)%N)
                    (GetVoters v)
  end.

Definition learner_stores (v : RegionInfo) : list N :=
  match Leader v with
  | None => []
  | Some _ => StoreId <$> GetLearners v
  end.

Definition pending_stores (v : RegionInfo) : list N :=
  match Leader v with
  | None => []
  | Some _ => StoreId <$> PendingPeers v
  end.

(** Every voter, learner and pending peer of the region is on the store of
    one of its peers. *)
Definition roles_on_peer_stores (v : RegionInfo) : Prop :=
  forall p, p ∈ Voters v \/ p ∈ Learners v \/ p ∈ PendingPeers v ->
            StoreId p ∈ StoreId <$> GetPeers v.

(** The totals of every map of the index are the sums over its entries. *)
Definition buckets_totals (h : gmap positive RegionInfo)
  (buckets : gmap N (regionMap.t positive)) : Prop :=
  forall s rm, buckets !! s = Some rm -> rm_totals (deref h) rm.

Record index_totals {T : Type} (r : RegionsInfo.t T) (h : gmap positive RegionInfo)
  : Prop := {
  totals_regions : rm_totals (deref h) (RegionsInfo.regions r);
  totals_leaders : buckets_totals h (RegionsInfo.leaders r);
  totals_followers : buckets_totals h (RegionsInfo.followers r);
  totals_learners : buckets_totals h (RegionsInfo.learners r);
  totals_pendingPeers : buckets_totals h (RegionsInfo.pendingPeers r)
}.

(** The buckets agree with the global map: a bucket of a store holds a
    region under an id exactly when the global map holds that very object
    under the id and the region has the role of the bucket on the store. *)
Definition buckets_agree {T : Type} (r : RegionsInfo.t T)
  (h : gmap positive RegionInfo) (role : RegionInfo -> list N)
  (b : gmap N (regionMap.t positive)) : Prop :=
  forall s k p,
    regionMap.Get (b !! s) k = Some p
    <-> regionMap.Get (Some (RegionsInfo.regions r)) k = Some p
        /\ s ∈ role (deref h p).

Record index_agree {T : Type} (r : RegionsInfo.t T) (h : gmap positive RegionInfo)
  : Prop := {
  agree_leaders : buckets_agree r h leader_stores (RegionsInfo.leaders r);
  agree_followers : buckets_agree r h follower_stores (RegionsInfo.followers r);
  agree_learners : buckets_agree r h learner_stores (RegionsInfo.learners r);
  agree_pendingPeers : buckets_agree r h pending_stores (RegionsInfo.pendingPeers r);
  agree_residents : forall k p,
    regionMap.Get (Some (RegionsInfo.regions r)) k = Some p ->
    roles_on_peer_stores (deref h p)
}.

(** The ids of the resident regions that have a role on a store. *)
Definition has_role {T : Type} (r : RegionsInfo.t T) (h : gmap positive RegionInfo)
  (role : RegionInfo -> list N) (s k : N) : bool :=
  match regionMap.Get (Some (RegionsInfo.regions r)) k with
  | Some p => bool_decide (s ∈ role (deref h p))
  | None => false
  end.

Definition regions_with_role {T : Type} (r : RegionsInfo.t T)
  (h : gmap positive RegionInfo) (role : RegionInfo -> list N) (s : N) : gset N :=
  filter (fun k => has_role r h role s k = true)
    (dom (regionMap.m (RegionsInfo.regions r))).

(** The exact sum of the sizes of the regions in the bucket of a store. *)
Definition bucket_sumSize (h : gmap positive RegionInfo)
  (buckets : gmap N (regionMap.t positive)) (s : N) : Z :=
  match buckets !! s with
  | Some rm => sumSize (deref h) rm
  | None => 0
  end.

(** The region has its leader on the store; the number of peers that a
    region has on a store. *)
Definition led_on (st : N) (r : RegionInfo) : bool :=
  match Leader r with
  | Some leader => (StoreId leader =? st)%N
  | None => false
  end.

Definition peers_on (st : N) (r : RegionInfo) : Z :=
  count_if (fun p => (StoreId p =? st)%N) (GetPeers r).

(** The statistics [s] are those of the regions [rs]: every counter is the
    64-bit sum over the regions. *)
Record stats_of (rs : list RegionInfo) (s : RegionStats) : Prop := {
  stats_Count : Count s = to_int64 (Z.of_nat (length rs));
  stats_EmptyCount :
    EmptyCount s
    = to_int64 (count_if (fun r => ApproximateSize r
                                   <=? Z.of_N EmptyRegionApproximateSize) rs);
  stats_StorageSize : StorageSize s = to_int64 (sum_of ApproximateSize rs);
  stats_StorageKeys : StorageKeys s = to_int64 (sum_of ApproximateKeys rs);
  stats_StoreLeaderCount : forall st,
    counter_at (StoreLeaderCount s) st
    = to_int64 (sum_of (fun r => if led_on st r then 1 else 0) rs);
  stats_StoreLeaderSize : forall st,
    counter_at (StoreLeaderSize s) st
    = to_int64 (sum_of (fun r => if led_on st r then ApproximateSize r else 0) rs);
  stats_StoreLeaderKeys : forall st,
    counter_at (StoreLeaderKeys s) st
    = to_int64 (sum_of (fun r => if led_on st r then ApproximateKeys r else 0) rs);
  stats_StorePeerCount : forall st,
    counter_at (StorePeerCount s) st = to_int64 (sum_of (peers_on st) rs);
  stats_StorePeerSize : forall st,
    counter_at (StorePeerSize s) st
    = to_int64 (sum_of (fun r => peers_on st r * ApproximateSize r) rs);
  stats_StorePeerKeys : forall st,
    counter_at (StorePeerKeys s) st
    = to_int64 (sum_of (fun r => peers_on st r * ApproximateKeys r) rs)
}.

(** ** The tree and the global map

    [GetAdjacentRegions] tests the keys of an item of the tree and returns
    the region that the global map holds under the id of that item. *)

(** The tree and the global map agree on the neighbours of [meta]: a region
    resident under the id of one of the two items that the tree has next to
    [meta] carries the meta region of that item. *)
Definition neighbours_resident {T : Type} `{RegionTree T} (r : RegionsInfo.t T)
  (h : gmap positive RegionInfo) (meta : MetaRegion) : Prop :=
  forall item p,
    (tree_getAdjacentRegions (RegionsInfo.tree r) (Some meta)).1 = Some item
    \/ (tree_getAdjacentRegions (RegionsInfo.tree r) (Some meta)).2 = Some item ->
    regionMap.Get (Some (RegionsInfo.regions r)) (Id (item_region item)) = Some p ->
    Region (deref h p) = Some (item_region item).

(** On the list tree: no two items have the same id, and every item is the
    meta region of the region resident under its id. *)
Record tree_resident (r : RegionsInfo.t (list MetaRegion))
  (h : gmap positive RegionInfo) : Prop := {
  tree_ids : NoDup (Id <$> RegionsInfo.tree r);
  tree_items : forall m,
    m ∈ RegionsInfo.tree r ->
    exists p,
      regionMap.Get (Some (RegionsInfo.regions r)) (Id m) = Some p
      /\ Region (deref h p) = Some m
}.

(** ** More concrete states *)

Module MoreExamples.

(** The three regions of the examples, set one after the other into a new
    index. *)
Definition set3 : list indexOp :=
  [CallSetRegion 1%positive; CallSetRegion 2%positive; CallSetRegion 3%positive].

Definition index_set3
  : RegionsInfo.t (list MetaRegion) * gmap positive RegionInfo :=
  match index_run set3 Examples.empty_index
          (Examples.heap_of (Some Examples.voter1)) with
  | Returned x => x
  | Fault => (Examples.empty_index, Examples.heap_of (Some Examples.voter1))
  end.

(** Regions 1 and 2 put into a new map. *)
Definition map12 : regionMap.t positive :=
  match rm_run (deref (Examples.heap_of (Some Examples.voter1)))
          [OpPut 1%positive; OpPut 2%positive] regionMap.newRegionMap with
  | Returned x => x
  | Fault => regionMap.newRegionMap
  end.

(** Region 1 as it is after it moved to [x, z), now led by the peer on
    store 2, and the heap that has this object at address 5. *)
Definition meta1_moved : MetaRegion :=
  mkMeta 1 ["x"%byte] ["z"%byte] None [Examples.voter1; Examples.voter2].

Definition region1_moved : RegionInfo :=
  {| Region := Some meta1_moved; Learners := [];
     Voters := [Examples.voter1; Examples.voter2];
     Leader := Some Examples.voter2; DownPeers := []; PendingPeers := [];
     WrittenBytes := 0; ReadBytes := 0;
     ApproximateSize := 5; ApproximateKeys := 7 |}.

Definition heap5 : gmap positive RegionInfo :=
  <[5%positive := region1_moved]> (Examples.heap_of (Some Examples.voter1)).

(** The index after [AddRegion] of region 1 on [a, c). *)
Definition index_added1
  : RegionsInfo.t (list MetaRegion) * gmap positive RegionInfo :=
  match Examples.add_all [1%positive] Examples.empty_index heap5 with
  | Returned x => x
  | Fault => (Examples.empty_index, heap5)
  end.

(** The index after [AddRegion] of region 1 on [a, c) and then of the
    moved region 1 on [x, z). *)
Definition index_added15
  : RegionsInfo.t (list MetaRegion) * gmap positive RegionInfo :=
  match Examples.add_all [1; 5]%positive Examples.empty_index heap5 with
  | Returned x => x
  | Fault => (Examples.empty_index, heap5)
  end.

(** The index after [AddRegion] of region 1 on [a, c), of the moved region 1
    on [x, z), and of region 2 on [c, e): no call met an overlap. *)
Definition index_moved
  : RegionsInfo.t (list MetaRegion) * gmap positive RegionInfo :=
  match Examples.add_all [1; 5; 2]%positive Examples.empty_index heap5 with
  | Returned x => x
  | Fault => (Examples.empty_index, heap5)
  end.

End MoreExamples.

(** * Properties *)

(** A sequencing step whose first call has returned goes on with the
    continuation. *)
Tactic Notation "run_bind" := cbn [mbind outcome_bind obind].
Tactic Notation "run_bind" "in" hyp(H) := cbn [mbind outcome_bind obind] in H.

(** ** Machine integers *)

Lemma to_int64_range (x : Z) : - two63 <= to_int64 x < two63.
Proof.
  unfold to_int64.
  assert (0 <= (x + two63) mod two64 < two64) by (apply Z.mod_pos_bound; reflexivity).
  assert (two64 = 2 * two63) by reflexivity.
  lia.
Qed.

Lemma to_int64_small (x : Z) : - two63 <= x < two63 -> to_int64 x = x.
Proof.
  intros Hx. unfold to_int64.
  assert (two64 = 2 * two63) by reflexivity.
  rewrite Z.mod_small; lia.
Qed.

Lemma to_int64_add_l (a b : Z) : to_int64 (to_int64 a + b) = to_int64 (a + b).
Proof.
  unfold to_int64.
  replace ((a + two63) mod two64 - two63 + b + two63)
    with ((a + two63) mod two64 + b) by lia.
  rewrite Zplus_mod_idemp_l. f_equal. f_equal. lia.
Qed.

Lemma to_int64_add_r (a b : Z) : to_int64 (a + to_int64 b) = to_int64 (a + b).
Proof. rewrite (Z.add_comm a), to_int64_add_l. f_equal. lia. Qed.

Lemma to_int64_sub_l (a b : Z) : to_int64 (to_int64 a - b) = to_int64 (a - b).
Proof. unfold Z.sub. apply to_int64_add_l. Qed.

Lemma to_uint64_to_int64 (x : Z) : to_uint64 (to_int64 x) = to_uint64 x.
Proof.
  unfold to_uint64, to_int64.
  rewrite <- Zminus_mod_idemp_l, Z.mod_mod by discriminate.
  rewrite Zminus_mod_idemp_l. f_equal. lia.
Qed.

(** ** Construction from a heartbeat *)

Lemma classifyVoterAndLearner_fields (r r' : RegionInfo) :
  classifyVoterAndLearner r = Returned r' ->
  Region r' = Region r /\ Leader r' = Leader r /\ DownPeers r' = DownPeers r
  /\ PendingPeers r' = PendingPeers r /\ WrittenBytes r' = WrittenBytes r
  /\ ReadBytes r' = ReadBytes r /\ ApproximateSize r' = ApproximateSize r
  /\ ApproximateKeys r' = ApproximateKeys r.
Proof.
  unfold classifyVoterAndLearner. destruct (Region r) as [meta|] eqn:E; [|discriminate].
  destruct (classify_loop (Peers meta) [] []) as [ls vs].
  intros [= <-]. simpl. rewrite E. repeat split.
Qed.

Lemma classifyVoterAndLearner_returns (r : RegionInfo) (meta : MetaRegion) :
  Region r = Some meta -> exists r', classifyVoterAndLearner r = Returned r'.
Proof.
  intros E. unfold classifyVoterAndLearner. rewrite E.
  destruct (classify_loop (Peers meta) [] []) as [ls vs]. eauto.
Qed.

(** A heartbeat without a region, and a nil heartbeat, make
    [classifyVoterAndLearner] read [Peers] through a nil pointer. *)
Lemma RegionFromHeartbeat_without_region (hb : option RegionHeartbeatRequest) :
  hb_GetRegion hb = None -> RegionFromHeartbeat hb = Fault.
Proof.
  intros E. unfold RegionFromHeartbeat, classifyVoterAndLearner. simpl.
  rewrite E. reflexivity.
Qed.

(** C9. For a heartbeat that carries a region and whose unsigned counters
    are 64-bit values, [RegionFromHeartbeat] returns a region whose
    [ApproximateSize] is the heartbeat's size divided by 2^20 (integer
    division), replaced by 1 when that quotient is below 1; the leader, the
    down peers, the pending peers and the written and read bytes are the
    heartbeat's own, and [ApproximateKeys] is the heartbeat's key count
    converted to [int64]: the same 64 bits, the same number below 2^63. *)
Theorem C9_RegionFromHeartbeat_size_and_fields
  (hb : RegionHeartbeatRequest) (meta : MetaRegion) :
  hbRegion hb = Some meta ->
  (hbApproximateSize hb < 2 ^ 64)%N ->
  (hbApproximateKeys hb < 2 ^ 64)%N ->
  exists r,
    RegionFromHeartbeat (Some hb) = Returned r
    /\ ApproximateSize r =
         (let q := Z.of_N (hbApproximateSize hb) / 2 ^ 20 in
          if q <? 1 then 1 else q)
    /\ Region r = Some meta
    /\ Leader r = hbLeader hb
    /\ DownPeers r = hbDownPeers hb
    /\ PendingPeers r = hbPendingPeers hb
    /\ WrittenBytes r = hbBytesWritten hb
    /\ ReadBytes r = hbBytesRead hb
    /\ to_uint64 (ApproximateKeys r) = Z.of_N (hbApproximateKeys hb)
    /\ ApproximateKeys r =
         (let k := Z.of_N (hbApproximateKeys hb) in
          if k <? 2 ^ 63 then k else k - 2 ^ 64).
Proof.
  intros Hreg Hsize Hkeys.
  unfold RegionFromHeartbeat.
  match goal with
  | |- exists r, classifyVoterAndLearner ?x = _ /\ _ =>
      destruct (classifyVoterAndLearner_returns x meta Hreg) as [r Hr];
      pose proof (classifyVoterAndLearner_fields _ _ Hr) as F
  end.
  exists r. split; [exact Hr|].
  simpl in F. destruct F as (FR & FL & FD & FP & FW & FRd & FS & FK).
  rewrite FR, FL, FD, FP, FW, FRd, FS, FK. clear FR FL FD FP FW FRd FS FK Hr.
  assert (H64 : two64 = 2 ^ 64) by reflexivity.
  assert (H63 : two63 = 2 ^ 63) by reflexivity.
  assert (Hs : 0 <= Z.of_N (hbApproximateSize hb) < 2 ^ 64) by lia.
  assert (Hk : 0 <= Z.of_N (hbApproximateKeys hb) < 2 ^ 64) by lia.
  repeat split; try assumption.
  - (* the size *)
    unfold EmptyRegionApproximateSize. cbv zeta.
    assert (Hq : 0 <= Z.of_N (hbApproximateSize hb) / 2 ^ 20 < 2 ^ 44).
    { split; [apply Z.div_pos; lia|].
      apply Z.div_lt_upper_bound; [lia|]. change (2 ^ 20 * 2 ^ 44) with (2 ^ 64). lia. }
    assert (Hdiv : Z.of_N (hbApproximateSize hb / 2 ^ 20)
                   = Z.of_N (hbApproximateSize hb) / 2 ^ 20)
      by (rewrite N2Z.inj_div; reflexivity).
    rewrite <- Hdiv in Hq |- *.
    destruct (N.ltb_spec (hbApproximateSize hb / 2 ^ 20) 1) as [Hlt|Hge].
    + destruct (Z.ltb_spec (Z.of_N (hbApproximateSize hb / 2 ^ 20)) 1); [reflexivity|lia].
    + destruct (Z.ltb_spec (Z.of_N (hbApproximateSize hb / 2 ^ 20)) 1); [lia|].
      apply to_int64_small. rewrite H63. lia.
  - (* the key count keeps its 64 bits *)
    rewrite to_uint64_to_int64. unfold to_uint64. rewrite H64.
    apply Z.mod_small. lia.
  - (* and its value when it is below 2^63 *)
    cbv zeta. destruct (Z.ltb_spec (Z.of_N (hbApproximateKeys hb)) (2 ^ 63)) as [Hlo|Hhi].
    + apply to_int64_small. rewrite H63. lia.
    + unfold to_int64. rewrite H63, H64.
      replace (Z.of_N (hbApproximateKeys hb) + 2 ^ 63)
        with (Z.of_N (hbApproximateKeys hb) - 2 ^ 63 + 1 * 2 ^ 64) by lia.
      rewrite Z_mod_plus_full, Z.mod_small; lia.
Qed.

Lemma C9_witness :
  exists r,
    RegionFromHeartbeat (Some Examples.heartbeat1) = Returned r
    /\ ApproximateSize r = 3 /\ ApproximateKeys r = 1000.
Proof.
  destruct (C9_RegionFromHeartbeat_size_and_fields
              Examples.heartbeat1 Examples.meta1)
    as (r & Hr & Hs & _ & _ & _ & _ & _ & _ & _ & Hk);
    [reflexivity | reflexivity | reflexivity |].
  exists r. split; [exact Hr|]. split; [exact Hs | exact Hk].
Defined.

(** ** Followers of a region without a leader *)

Lemma is_follower_no_leader (r : RegionInfo) (peer : Peer) :
  Leader r = None -> is_follower r peer = true.
Proof. intros E. unfold is_follower. rewrite E. reflexivity. Qed.

(** Without a leader the loop of [GetFollowers] inserts every peer it
    meets: a store maps to the last peer met on it. *)
Lemma GetFollowers_loop_no_leader (r : RegionInfo) (peers : list Peer)
  (acc : gmap N Peer) (s : N) :
  Leader r = None ->
  GetFollowers_loop r peers acc !! s =
    match last (filter (fun p => StoreId p = s) peers) with
    | Some q => Some q
    | None => acc !! s
    end.
Proof.
  intros E. revert acc. induction peers as [|p peers IH]; intros acc; simpl.
  - reflexivity.
  - rewrite (is_follower_no_leader r p E), IH.
    rewrite filter_cons. destruct (decide (StoreId p = s)) as [->|Hne].
    + rewrite last_cons.
      destruct (last (filter (fun p => StoreId p = s) peers)); [reflexivity|].
      apply lookup_insert_eq.
    + destruct (last (filter (fun p => StoreId p = s) peers)); [reflexivity|].
      apply lookup_insert_ne. exact Hne.
Qed.

Lemma GetFollower_loop_no_leader (r : RegionInfo) (peers : list Peer) :
  Leader r = None -> GetFollower_loop r peers = head peers.
Proof.
  intros E. destruct peers as [|p peers]; simpl; [reflexivity|].
  rewrite (is_follower_no_leader r p E). reflexivity.
Qed.

Lemma last_filter_store_of_member (peers : list Peer) (p : Peer) :
  p ∈ peers ->
  exists q, last (filter (fun x => StoreId x = StoreId p) peers) = Some q
            /\ q ∈ peers /\ StoreId q = StoreId p.
Proof.
  intros Hin.
  assert (Hp : p ∈ filter (fun x => StoreId x = StoreId p) peers)
    by (apply list_elem_of_filter; split; [reflexivity | exact Hin]).
  destruct (last (filter (fun x => StoreId x = StoreId p) peers)) as [q|] eqn:El.
  - exists q. split; [reflexivity|].
    apply last_Some_elem_of in El. apply list_elem_of_filter in El.
    destruct El; split; assumption.
  - apply last_None in El. rewrite El in Hp. inversion Hp.
Qed.

Lemma NoDup_store_member_eq (peers : list Peer) (p q : Peer) :
  NoDup (StoreId <$> peers) -> p ∈ peers -> q ∈ peers ->
  StoreId q = StoreId p -> q = p.
Proof.
  intros Hnd Hp Hq Hs.
  apply list_elem_of_lookup in Hp as [i Hi].
  apply list_elem_of_lookup in Hq as [j Hj].
  assert (i = j).
  { eapply NoDup_lookup; [exact Hnd| |].
    - rewrite list_lookup_fmap, Hi. reflexivity.
    - rewrite list_lookup_fmap, Hj. simpl. f_equal. exact Hs. }
  subst j. congruence.
Qed.

(** C10. For a region whose [Leader] is nil, [GetFollowers] skips no voter:
    the map it returns sends every store to the last voter on that store, so
    every voter's store is a key that holds a voter of that store, the voter
    itself when the voters sit on distinct stores; and [GetFollower] returns
    the first voter, hence some voter whenever there is one. *)
Theorem C10_followers_without_leader (r : RegionInfo) :
  Leader r = None ->
  (forall s, GetFollowers r !! s = last (filter (fun p => StoreId p = s) (GetVoters r)))
  /\ (forall p, p ∈ GetVoters r ->
        exists q, GetFollowers r !! StoreId p = Some q
                  /\ q ∈ GetVoters r /\ StoreId q = StoreId p)
  /\ (NoDup (StoreId <$> GetVoters r) ->
        forall p, p ∈ GetVoters r -> GetFollowers r !! StoreId p = Some p)
  /\ GetFollower r = head (GetVoters r)
  /\ (GetVoters r <> [] ->
        exists p, GetFollower r = Some p /\ p ∈ GetVoters r).
Proof.
  intros E.
  assert (Hmap : forall s,
    GetFollowers r !! s = last (filter (fun p => StoreId p = s) (GetVoters r))).
  { intros s. unfold GetFollowers. rewrite GetFollowers_loop_no_leader by exact E.
    destruct (last _); [reflexivity | apply lookup_empty]. }
  assert (Hkey : forall p, p ∈ GetVoters r ->
    exists q, GetFollowers r !! StoreId p = Some q
              /\ q ∈ GetVoters r /\ StoreId q = StoreId p).
  { intros p Hp. destruct (last_filter_store_of_member _ p Hp) as (q & Hq & Hin & Hs).
    exists q. rewrite Hmap. auto. }
  split; [exact Hmap|]. split; [exact Hkey|]. split; [|split].
  - intros Hnd p Hp. destruct (Hkey p Hp) as (q & Hq & Hin & Hs).
    rewrite Hq. f_equal. eapply NoDup_store_member_eq; eassumption.
  - unfold GetFollower. apply GetFollower_loop_no_leader, E.
  - intros Hne. unfold GetFollower. rewrite GetFollower_loop_no_leader by exact E.
    destruct (GetVoters r) as [|p ps]; [congruence|].
    exists p. split; [reflexivity | apply list_elem_of_here].
Qed.

Lemma C10_witness :
  GetFollowers (Examples.region1 None) !! 2%N = Some Examples.voter2
  /\ GetFollower (Examples.region1 None) = Some Examples.voter1.
Proof.
  destruct (C10_followers_without_leader (Examples.region1 None) eq_refl)
    as (_ & _ & Hdistinct & Hfirst & _).
  split.
  - apply (Hdistinct ltac:(apply (bool_decide_unpack _); vm_compute; exact I)
             Examples.voter2).
    apply (bool_decide_unpack _); vm_compute; exact I.
  - exact Hfirst.
Defined.

(** ** The distinct-score filter *)

Section distinctScoreFilter_properties.
Variable StoreInfo : Type.
Variable Options : Type.
Variable store_GetId : StoreInfo -> N.
Variable DistinctScore : list string -> list StoreInfo -> StoreInfo -> float.

(** The loop keeps, in order, the stores whose id differs from the
    source's. *)
Lemma NewDistinctScoreFilter_loop_spec
  (stores : list StoreInfo) (source : StoreInfo) (acc : list StoreInfo) :
  schedule.NewDistinctScoreFilter_loop StoreInfo store_GetId stores source acc
  = acc ++ schedule.without_source StoreInfo store_GetId stores source.
Proof.
  revert acc. induction stores as [|s rest IH]; intros acc; simpl.
  - symmetry. apply app_nil_r.
  - destruct (store_GetId s =? store_GetId source)%N; simpl.
    + apply IH.
    + rewrite IH, <- app_assoc. reflexivity.
Qed.

(** C8. [NewDistinctScoreFilter] returns a filter exactly when the list of
    peer stores is not empty (on an empty list [make] panics and there is
    no filter).  The filter it returns never rejects a store as a source,
    and rejects a store [t] as a target exactly when the distinct score of
    [t] against the peer stores without the source is strictly below the
    safe score, which is the distinct score of the source against the same
    stores, computed when the filter is built. *)
Theorem C8_distinctScoreFilter_rejects_below_safeScore
  (labels : list string) (stores : list StoreInfo) (source : StoreInfo) :
  let peers := schedule.without_source StoreInfo store_GetId stores source in
  let build := schedule.NewDistinctScoreFilter StoreInfo Options store_GetId
                 DistinctScore labels stores source in
  (stores = [] -> build = Fault)
  /\ (stores <> [] -> exists f, build = Returned f)
  /\ (forall f, build = Returned f ->
      exists d,
        schedule.NewDistinctScoreFilter_struct StoreInfo store_GetId
          DistinctScore labels stores source = Returned d
        /\ f = schedule.distinctScoreFilter_Filter StoreInfo Options
                 DistinctScore d
        /\ schedule.labels StoreInfo d = labels
        /\ schedule.stores StoreInfo d = peers
        /\ schedule.safeScore StoreInfo d = DistinctScore labels peers source
        /\ (forall opt s, schedule.FilterSource_ StoreInfo Options f opt s = false)
        /\ (forall opt t,
              schedule.FilterTarget_ StoreInfo Options f opt t
              = PrimFloat.ltb (DistinctScore labels peers t)
                              (DistinctScore labels peers source))
        /\ (forall opt s, schedule.FilterSource StoreInfo Options opt s [f] = false)
        /\ (forall opt t,
              schedule.FilterTarget StoreInfo Options opt t [f] = true
              <-> PrimFloat.ltb (DistinctScore labels peers t)
                                (DistinctScore labels peers source) = true)).
Proof.
  intros peers build.
  assert (Hstores :
    schedule.NewDistinctScoreFilter_loop StoreInfo store_GetId stores source []
    = peers) by apply NewDistinctScoreFilter_loop_spec.
  subst build.
  unfold schedule.NewDistinctScoreFilter, schedule.NewDistinctScoreFilter_struct.
  rewrite Hstores.
  destruct stores as [|s0 rest].
  - split; [reflexivity|]. split; [congruence|]. intros f [=].
  - assert (Hcap : (Z.of_nat (length (s0 :: rest)) - 1 <? 0) = false).
    { apply Z.ltb_ge. cbn [length]. lia. }
    rewrite Hcap. run_bind.
    split; [discriminate|]. split; [intros _; eexists; reflexivity|].
    intros f [= <-]. eexists. split; [reflexivity|].
    split; [reflexivity|]. split; [reflexivity|]. split; [reflexivity|].
    split; [reflexivity|]. split; [reflexivity|]. split; [reflexivity|].
    split; [reflexivity|].
    intros opt t. cbn [schedule.FilterTarget].
    cbn [schedule.FilterTarget_ schedule.distinctScoreFilter_Filter].
    unfold schedule.distinctScoreFilter_FilterTarget.
    cbn [schedule.labels schedule.stores schedule.safeScore].
    destruct (PrimFloat.ltb _ _); split; congruence.
Qed.

End distinctScoreFilter_properties.

(** ** regionMap on a nil receiver *)

Section regionMap_nil.
Context {R : Type}.
Variable deref : R -> RegionInfo.

(** [Put] on an allocated map always returns. *)
Lemma Put_allocated_returns (x : regionMap.t R) (region : R) :
  exists x', regionMap.Put deref (Some x) region = Returned x'.
Proof.
  unfold regionMap.Put.
  destruct (regionMap.m x !! GetId (deref region)); eauto.
Qed.

(** C3, as the code has it. On a nil receiver [Len] and [TotalSize] return
    0, [Get] and [RandomRegion] return nil and [Delete] does nothing, none
    of them panicking; [Put] has no nil check and panics on a nil receiver,
    and returns on every allocated one. *)
Theorem C3_nil_receiver_tolerated_except_Put :
  regionMap.Len (R := R) None = 0%nat
  /\ (forall id, regionMap.Get (R := R) None id = None)
  /\ (forall id, regionMap.Delete deref None id = Returned None)
  /\ (forall g, regionMap.RandomRegion (R := R) None g = Returned (None, g))
  /\ regionMap.TotalSize (R := R) None = 0
  /\ (forall region, regionMap.Put deref None region = Fault)
  /\ (forall x region, exists x', regionMap.Put deref (Some x) region = Returned x').
Proof.
  repeat split; try reflexivity. apply Put_allocated_returns.
Qed.

End regionMap_nil.

(** C3 as stated fails: [Put] on a nil receiver panics. *)
Lemma C3_counterexample_Put_on_nil_faults :
  regionMap.Put (deref (Examples.heap_of None)) None 1%positive = Fault.
Proof. reflexivity. Qed.

(** ** The id vector of a regionMap *)

Section regionMap_consistency.
Context {R : Type}.
Variable deref : R -> RegionInfo.

Lemma rm_consistent_new : rm_consistent deref (regionMap.newRegionMap (R := R)).
Proof.
  split; simpl.
  - intros k e Hk. rewrite lookup_empty in Hk. discriminate.
  - intros k e Hk. rewrite lookup_empty in Hk. discriminate.
  - intros i k Hi. rewrite lookup_nil in Hi. discriminate.
Qed.

Lemma rm_consistent_NoDup (rm : regionMap.t R) :
  rm_consistent deref rm -> NoDup (regionMap.ids rm).
Proof.
  intros W. apply NoDup_alt. intros i j k Hi Hj.
  destruct (rm_ids _ _ W i k Hi) as (e & He & Hpe).
  destruct (rm_ids _ _ W j k Hj) as (e' & He' & Hpe').
  congruence.
Qed.

Lemma rm_consistent_elem (rm : regionMap.t R) (k : N) :
  rm_consistent deref rm ->
  k ∈ regionMap.ids rm <-> is_Some (regionMap.m rm !! k).
Proof.
  intros W. split.
  - intros Hin. apply list_elem_of_lookup in Hin as [i Hi].
    destruct (rm_ids _ _ W i k Hi) as (e & He & _). eauto.
  - intros [e He]. apply list_elem_of_lookup. exists (pos e).
    exact (rm_pos _ _ W k e He).
Qed.

(** The id vector is a permutation of the key set. *)
Lemma rm_consistent_Permutation (rm : regionMap.t R) :
  rm_consistent deref rm ->
  regionMap.ids rm ≡ₚ elements (dom (regionMap.m rm)).
Proof.
  intros W. apply NoDup_Permutation.
  - exact (rm_consistent_NoDup rm W).
  - apply NoDup_elements.
  - intros k. rewrite elem_of_elements, elem_of_dom.
    apply rm_consistent_elem, W.
Qed.

Lemma rm_consistent_length (rm : regionMap.t R) :
  rm_consistent deref rm ->
  length (regionMap.ids rm) = size (regionMap.m rm).
Proof.
  intros W. rewrite (rm_consistent_Permutation rm W).
  rewrite <- size_dom. reflexivity.
Qed.

Lemma Put_consistent (rm rm' : regionMap.t R) (region : R) :
  rm_consistent deref rm ->
  regionMap.Put deref (Some rm) region = Returned rm' ->
  rm_consistent deref rm'.
Proof.
  intros W. unfold regionMap.Put.
  set (id := GetId (deref region)).
  destruct (regionMap.m rm !! id) as [old|] eqn:Eold; intros [= <-]; split; simpl.
  - (* the id is present: the entry is replaced, the vector is untouched *)
    intros k e. rewrite lookup_insert. case_decide as Hk.
    + intros [= <-]. subst k. reflexivity.
    + apply (rm_key _ _ W).
  - intros k e. rewrite lookup_insert. case_decide as Hk.
    + intros [= <-]. subst k. simpl. exact (rm_pos _ _ W id old Eold).
    + apply (rm_pos _ _ W).
  - intros i k Hi. destruct (rm_ids _ _ W i k Hi) as (e & He & Hp).
    destruct (decide (id = k)) as [<-|Hne].
    + exists (mkEntry region (pos old)). rewrite lookup_insert_eq.
      split; [reflexivity|]. simpl. congruence.
    + exists e. rewrite lookup_insert_ne by exact Hne. auto.
  - (* the id is new: it is appended at index [len(ids)] *)
    intros k e. rewrite lookup_insert. case_decide as Hk.
    + intros [= <-]. subst k. reflexivity.
    + apply (rm_key _ _ W).
  - intros k e. rewrite lookup_insert. case_decide as Hk.
    + intros [= <-]. subst k. simpl. apply list_lookup_middle. reflexivity.
    + intros He. apply lookup_app_l_Some. exact (rm_pos _ _ W k e He).
  - intros i k Hi. apply lookup_snoc_Some in Hi as [[Hlt Hi]|[-> <-]].
    + destruct (rm_ids _ _ W i k Hi) as (e & He & Hp).
      exists e. split; [|exact Hp].
      rewrite lookup_insert_ne; [exact He|]. intros ->. congruence.
    + exists (mkEntry region (length (regionMap.ids rm))).
      rewrite lookup_insert_eq. auto.
Qed.

(** What [Delete] does on a consistent map that holds [id]: the vector with
    the last id written over the position of [id], cut by one; the entry of
    the last id takes that position; [id] leaves the map. *)
Lemma Delete_found_spec (rm : regionMap.t R) (id : N) (old : regionEntry R) :
  rm_consistent deref rm ->
  regionMap.m rm !! id = Some old ->
  exists lastId lastEntry,
    regionMap.ids rm !! (length (regionMap.ids rm) - 1)%nat = Some lastId
    /\ regionMap.m rm !! lastId = Some lastEntry
    /\ pos lastEntry = (length (regionMap.ids rm) - 1)%nat
    /\ (pos old < length (regionMap.ids rm))%nat
    /\ regionMap.Delete deref (Some rm) id =
       Returned (Some
         {| regionMap.m :=
              delete id (<[lastId := mkEntry (entryRegion lastEntry) (pos old)]>
                           (regionMap.m rm));
            regionMap.ids :=
              take (length (regionMap.ids rm) - 1)
                   (<[pos old := lastId]> (regionMap.ids rm));
            regionMap.totalSize :=
              sub64 (regionMap.totalSize rm)
                    (ApproximateSize (deref (entryRegion old)));
            regionMap.totalKeys :=
              sub64 (regionMap.totalKeys rm)
                    (ApproximateKeys (deref (entryRegion old))) |}).
Proof.
  intros W Hold.
  pose proof (rm_consistent_length rm W) as Hlen.
  pose proof (rm_pos _ _ W id old Hold) as Hpos.
  assert (Hlt : (pos old < length (regionMap.ids rm))%nat)
    by (apply lookup_lt_is_Some; eauto).
  destruct (lookup_lt_is_Some_2 (regionMap.ids rm)
              (length (regionMap.ids rm) - 1)%nat ltac:(lia)) as [lastId Hlast].
  destruct (rm_ids _ _ W _ _ Hlast) as (last & Hl & Hpl).
  exists lastId, last. repeat (split; [assumption|]).
  unfold regionMap.Delete. rewrite Hold.
  unfold regionMap.Delete_found. rewrite <- Hlen, Hlast, Hl. simpl.
  destruct (Nat.ltb_spec (pos old) (length (regionMap.ids rm))) as [_|]; [|lia].
  rewrite (rm_key _ _ W lastId last Hl). reflexivity.
Qed.

Lemma Delete_consistent (rm : regionMap.t R) (id : N) :
  rm_consistent deref rm ->
  exists rm',
    regionMap.Delete deref (Some rm) id = Returned (Some rm')
    /\ rm_consistent deref rm'.
Proof.
  intros W.
  destruct (regionMap.m rm !! id) as [old|] eqn:Hold.
  2:{ exists rm. unfold regionMap.Delete. rewrite Hold. auto. }
  destruct (Delete_found_spec rm id old W Hold)
    as (lastId & last & Hlast & Hl & Hpl & Hlt & ->).
  eexists. split; [reflexivity|].
  pose proof (rm_pos _ _ W id old Hold) as Hpos.
  set (n := length (regionMap.ids rm)) in *.
  assert (Hsame : lastId = id <-> pos old = (n - 1)%nat).
  { split.
    - intros ->. congruence.
    - intros E. rewrite E in Hpos. congruence. }
  split; simpl.
  - intros k e. rewrite lookup_delete. case_decide as Hk; [discriminate|].
    rewrite lookup_insert. case_decide as Hk'.
    + intros [= <-]. subst k. simpl. exact (rm_key _ _ W lastId last Hl).
    + apply (rm_key _ _ W).
  - intros k e. rewrite lookup_delete. case_decide as Hk; [discriminate|].
    rewrite lookup_insert. case_decide as Hk'.
    + intros [= <-]. subst k. simpl.
      assert (pos old <> (n - 1)%nat) by (intros E; apply Hsame in E; congruence).
      rewrite lookup_take_lt by lia.
      apply list_lookup_insert_eq. exact Hlt.
    + intros He. pose proof (rm_pos _ _ W k e He) as Hpe.
      assert (pos e <> pos old) by (intros E; rewrite E in Hpe; congruence).
      assert (pos e <> (n - 1)%nat) by (intros E; rewrite E in Hpe; congruence).
      assert (pos e < n)%nat by (apply lookup_lt_is_Some; eauto).
      rewrite lookup_take_lt by lia.
      rewrite list_lookup_insert_ne by congruence. exact Hpe.
  - intros i k Hi. apply lookup_take_Some in Hi as [Hi Hin].
    destruct (decide (pos old = i)) as [<-|Hne].
    + rewrite list_lookup_insert_eq in Hi by exact Hlt. injection Hi as <-.
      assert (lastId <> id) by (intros E; apply Hsame in E; lia).
      exists (mkEntry (entryRegion last) (pos old)).
      rewrite lookup_delete_ne by congruence.
      rewrite lookup_insert_eq. auto.
    + rewrite list_lookup_insert_ne in Hi by exact Hne.
      destruct (rm_ids _ _ W i k Hi) as (e & He & Hp).
      exists e. split; [|exact Hp].
      rewrite lookup_delete_ne by (intros ->; congruence).
      rewrite lookup_insert_ne; [exact He|].
      intros ->. assert (pos e = (n - 1)%nat) by congruence. lia.
Qed.

Lemma rm_step_consistent (rm : regionMap.t R) (o : rmOp R) :
  rm_consistent deref rm ->
  exists rm', rm_step deref rm o = Returned rm' /\ rm_consistent deref rm'.
Proof.
  intros W. destruct o as [region|id]; unfold rm_step.
  - destruct (Put_allocated_returns deref rm region) as [rm' Hput].
    exists rm'. split; [exact Hput|]. exact (Put_consistent _ _ _ W Hput).
  - destruct (Delete_consistent rm id W) as (rm' & -> & W').
    exists rm'. auto.
Qed.

Lemma rm_run_consistent (ops : list (rmOp R)) (rm : regionMap.t R) :
  rm_consistent deref rm ->
  exists rm', rm_run deref ops rm = Returned rm' /\ rm_consistent deref rm'.
Proof.
  revert rm. induction ops as [|o ops IH]; intros rm W; cbn [rm_run].
  - eauto.
  - destruct (rm_step_consistent rm o W) as (rm1 & Hstep & W1).
    rewrite Hstep. apply IH, W1.
Qed.

End regionMap_consistency.

(** ** The running totals of a regionMap *)

Section regionMap_totals.
Context {R : Type}.
Variable deref : R -> RegionInfo.

(** Sums over the entries of a map, for any weight of an entry. *)
Section entry_sums.
Variable w : regionEntry R -> Z.

Lemma entry_sum_insert_new (m : gmap N (regionEntry R)) (k : N) (e : regionEntry R) :
  m !! k = None -> entry_sum w (<[k := e]> m) = entry_sum w m + w e.
Proof.
  intros Hk. unfold entry_sum.
  rewrite map_fold_insert_L; [reflexivity | intros; lia | exact Hk].
Qed.

Lemma entry_sum_delete (m : gmap N (regionEntry R)) (k : N) (e : regionEntry R) :
  m !! k = Some e -> entry_sum w (delete k m) = entry_sum w m - w e.
Proof.
  intros Hk. unfold entry_sum.
  rewrite (map_fold_delete_L _ _ k e m); [lia | intros; lia | exact Hk].
Qed.

Lemma entry_sum_insert_present (m : gmap N (regionEntry R)) (k : N)
  (old e : regionEntry R) :
  m !! k = Some old -> entry_sum w (<[k := e]> m) = entry_sum w m - w old + w e.
Proof.
  intros Hk. rewrite <- insert_delete_eq.
  rewrite entry_sum_insert_new by apply lookup_delete_eq.
  rewrite (entry_sum_delete m k old Hk). reflexivity.
Qed.

End entry_sums.

Lemma sumSize_entry_sum (rm : regionMap.t R) :
  sumSize deref rm
  = entry_sum (fun e => ApproximateSize (deref (entryRegion e))) (regionMap.m rm).
Proof. reflexivity. Qed.

Lemma sumKeys_entry_sum (rm : regionMap.t R) :
  sumKeys deref rm
  = entry_sum (fun e => ApproximateKeys (deref (entryRegion e))) (regionMap.m rm).
Proof. reflexivity. Qed.

Lemma rm_totals_new : rm_totals deref (regionMap.newRegionMap (R := R)).
Proof. split; reflexivity. Qed.

Lemma add64_sub64_total (t s a b : Z) :
  t = to_int64 s -> add64 t (sub64 a b) = to_int64 (s - b + a).
Proof.
  intros ->. unfold add64, sub64.
  rewrite to_int64_add_r, to_int64_add_l. f_equal. lia.
Qed.

Lemma add64_total (t s a : Z) : t = to_int64 s -> add64 t a = to_int64 (s + a).
Proof. intros ->. apply to_int64_add_l. Qed.

Lemma sub64_total (t s a : Z) : t = to_int64 s -> sub64 t a = to_int64 (s - a).
Proof. intros ->. apply to_int64_sub_l. Qed.

Lemma Put_totals (rm rm' : regionMap.t R) (region : R) :
  rm_totals deref rm ->
  regionMap.Put deref (Some rm) region = Returned rm' ->
  rm_totals deref rm'.
Proof.
  intros [Hs Hk]. unfold regionMap.Put.
  destruct (regionMap.m rm !! GetId (deref region)) as [old|] eqn:Eold;
    intros [= <-]; unfold rm_totals;
    rewrite sumSize_entry_sum, sumKeys_entry_sum; simpl.
  - rewrite !(entry_sum_insert_present _ _ _ old) by exact Eold. simpl.
    rewrite sumSize_entry_sum in Hs. rewrite sumKeys_entry_sum in Hk.
    split; apply add64_sub64_total; assumption.
  - rewrite !entry_sum_insert_new by exact Eold. simpl.
    rewrite sumSize_entry_sum in Hs. rewrite sumKeys_entry_sum in Hk.
    split; apply add64_total; assumption.
Qed.

(** Removing [id] after the entry of the last id was rewritten with the
    same region leaves the sum short of the weight of [id]'s entry. *)
Lemma entry_sum_swap_remove (w : regionEntry R -> Z)
  (m : gmap N (regionEntry R)) (id lastId : N) (old last : regionEntry R) (p : nat) :
  (forall e q, w (mkEntry (entryRegion e) q) = w e) ->
  m !! id = Some old -> m !! lastId = Some last ->
  entry_sum w (delete id (<[lastId := mkEntry (entryRegion last) p]> m))
  = entry_sum w m - w old.
Proof.
  intros Hw Hold Hlast. destruct (decide (lastId = id)) as [->|Hne].
  - rewrite delete_insert_eq. apply entry_sum_delete, Hold.
  - rewrite (entry_sum_delete _ _ id old) by (rewrite lookup_insert_ne; auto).
    rewrite (entry_sum_insert_present _ _ _ last) by exact Hlast.
    rewrite Hw. lia.
Qed.

Lemma Delete_totals (rm rm' : regionMap.t R) (id : N) :
  rm_consistent deref rm ->
  rm_totals deref rm ->
  regionMap.Delete deref (Some rm) id = Returned (Some rm') ->
  rm_totals deref rm'.
Proof.
  intros W [Hs Hk].
  destruct (regionMap.m rm !! id) as [old|] eqn:Hold.
  2:{ unfold regionMap.Delete. rewrite Hold. intros [= <-]. split; assumption. }
  destruct (Delete_found_spec deref rm id old W Hold)
    as (lastId & last & _ & Hl & _ & _ & ->).
  intros [= <-]. unfold rm_totals.
  rewrite sumSize_entry_sum, sumKeys_entry_sum; simpl.
  rewrite !(entry_sum_swap_remove _ _ _ _ old last) by (auto; reflexivity).
  rewrite sumSize_entry_sum in Hs. rewrite sumKeys_entry_sum in Hk.
  split; apply sub64_total; assumption.
Qed.

Lemma rm_run_invariant (ops : list (rmOp R)) (rm : regionMap.t R) :
  rm_consistent deref rm -> rm_totals deref rm ->
  exists rm',
    rm_run deref ops rm = Returned rm'
    /\ rm_consistent deref rm' /\ rm_totals deref rm'.
Proof.
  revert rm. induction ops as [|o ops IH]; intros rm W Tt; cbn [rm_run].
  - eauto.
  - destruct (rm_step_consistent deref rm o W) as (rm1 & Hstep & W1).
    rewrite Hstep. apply IH; [exact W1|].
    destruct o as [region|id]; unfold rm_step in Hstep.
    + exact (Put_totals _ _ _ Tt Hstep).
    + destruct (Delete_consistent deref rm id W) as (rm2 & Hdel & _).
      rewrite Hdel in Hstep. injection Hstep as <-.
      exact (Delete_totals _ _ _ W Tt Hdel).
Qed.

End regionMap_totals.

Section regionMap_claims.
Context {R : Type}.
Variable deref : R -> RegionInfo.

(** C4. After any sequence of [Put] and [Delete] on a new map, the
    operations have all returned and the id vector is a permutation of the
    key set of the map, each entry recording the index of its id in the
    vector.  On such a map [Delete] of a present id swap-removes: the last
    id is written over the position of the deleted one and the vector is
    cut by one, the entry of the last id takes the vacated position, and
    the other entries are untouched.  [Put] of a region whose id is present
    leaves the id vector as it is. *)
Theorem C4_id_vector_permutation_and_positions :
  (forall ops : list (rmOp R),
      exists rm,
        rm_run deref ops regionMap.newRegionMap = Returned rm
        /\ rm_consistent deref rm
        /\ regionMap.ids rm ≡ₚ elements (dom (regionMap.m rm))
        /\ (forall k e, regionMap.m rm !! k = Some e ->
                        regionMap.ids rm !! pos e = Some k))
  /\ (forall (rm : regionMap.t R) (id : N) (old : regionEntry R),
        rm_consistent deref rm ->
        regionMap.m rm !! id = Some old ->
        exists lastId lastEntry rm',
          last (regionMap.ids rm) = Some lastId
          /\ regionMap.m rm !! lastId = Some lastEntry
          /\ regionMap.Delete deref (Some rm) id = Returned (Some rm')
          /\ regionMap.ids rm'
             = take (length (regionMap.ids rm) - 1)
                    (<[pos old := lastId]> (regionMap.ids rm))
          /\ length (regionMap.ids rm') = (length (regionMap.ids rm) - 1)%nat
          /\ (lastId <> id ->
              regionMap.m rm' !! lastId
              = Some (mkEntry (entryRegion lastEntry) (pos old)))
          /\ regionMap.m rm' !! id = None
          /\ (forall k, k <> id -> k <> lastId ->
                        regionMap.m rm' !! k = regionMap.m rm !! k)
          /\ rm_consistent deref rm')
  /\ (forall (rm : regionMap.t R) (region : R),
        is_Some (regionMap.m rm !! GetId (deref region)) ->
        exists rm',
          regionMap.Put deref (Some rm) region = Returned rm'
          /\ regionMap.ids rm' = regionMap.ids rm
          /\ regionMap.Get (Some rm') (GetId (deref region)) = Some region).
Proof.
  split; [|split].
  - intros ops.
    destruct (rm_run_consistent deref ops _ (rm_consistent_new deref))
      as (rm & Hrun & W).
    exists rm. split; [exact Hrun|]. split; [exact W|]. split.
    + apply (rm_consistent_Permutation deref), W.
    + apply (rm_pos _ _ W).
  - intros rm id old W Hold.
    destruct (Delete_found_spec deref rm id old W Hold)
      as (lastId & lastEntry & Hlast & Hl & Hpl & Hlt & Hdel).
    destruct (Delete_consistent deref rm id W) as (rm' & Hdel' & W').
    exists lastId, lastEntry, rm'.
    rewrite Hdel in Hdel'. injection Hdel' as <-. simpl.
    split; [rewrite last_lookup; rewrite <- Hlast; f_equal; lia|].
    split; [exact Hl|]. split; [exact Hdel|]. split; [reflexivity|].
    split; [rewrite length_take, length_insert; lia|].
    split; [|split; [|split]].
    + intros Hne. rewrite lookup_delete_ne by congruence. apply lookup_insert_eq.
    + apply lookup_delete_eq.
    + intros k Hk Hk'. rewrite lookup_delete_ne by congruence.
      apply lookup_insert_ne. congruence.
    + exact W'.
  - intros rm region [old Hold]. unfold regionMap.Put. rewrite Hold.
    eexists. split; [reflexivity|]. simpl. split; [reflexivity|].
    rewrite lookup_insert_eq. reflexivity.
Qed.

(** C5. After any sequence of [Put] and [Delete] on a new map, [totalSize]
    is the sum of [ApproximateSize] over the resident regions and
    [totalKeys] the sum of [ApproximateKeys], as 64-bit signed integers
    (the exact sums whenever they fit), and [TotalSize] returns that sum.
    [Put] of a region whose id is present adds to each total the new value
    minus the old one. *)
Theorem C5_running_totals_are_sums :
  (forall ops : list (rmOp R),
      exists rm,
        rm_run deref ops regionMap.newRegionMap = Returned rm
        /\ regionMap.totalSize rm = to_int64 (sumSize deref rm)
        /\ regionMap.totalKeys rm = to_int64 (sumKeys deref rm)
        /\ regionMap.TotalSize (Some rm) = to_int64 (sumSize deref rm)
        /\ (- two63 <= sumSize deref rm < two63 ->
            regionMap.totalSize rm = sumSize deref rm)
        /\ (- two63 <= sumKeys deref rm < two63 ->
            regionMap.totalKeys rm = sumKeys deref rm))
  /\ (forall (rm : regionMap.t R) (region : R) (old : regionEntry R),
        regionMap.m rm !! GetId (deref region) = Some old ->
        exists rm',
          regionMap.Put deref (Some rm) region = Returned rm'
          /\ regionMap.totalSize rm'
             = add64 (regionMap.totalSize rm)
                 (sub64 (ApproximateSize (deref region))
                        (ApproximateSize (deref (entryRegion old))))
          /\ regionMap.totalKeys rm'
             = add64 (regionMap.totalKeys rm)
                 (sub64 (ApproximateKeys (deref region))
                        (ApproximateKeys (deref (entryRegion old))))
          /\ sumSize deref rm'
             = sumSize deref rm
               + (ApproximateSize (deref region)
                  - ApproximateSize (deref (entryRegion old)))
          /\ sumKeys deref rm'
             = sumKeys deref rm
               + (ApproximateKeys (deref region)
                  - ApproximateKeys (deref (entryRegion old)))).
Proof.
  split.
  - intros ops.
    destruct (rm_run_invariant deref ops _ (rm_consistent_new deref)
                (rm_totals_new deref)) as (rm & Hrun & W & Hs & Hk).
    exists rm. split; [exact Hrun|]. split; [exact Hs|]. split; [exact Hk|].
    split; [|split].
    + unfold regionMap.TotalSize, regionMap.Len.
      destruct (Nat.eqb_spec (size (regionMap.m rm)) 0) as [E|_]; [|exact Hs].
      apply map_size_empty_inv in E. unfold sumSize, entry_sum. rewrite E.
      rewrite map_fold_empty. reflexivity.
    + intros Hfit. rewrite Hs. apply to_int64_small, Hfit.
    + intros Hfit. rewrite Hk. apply to_int64_small, Hfit.
  - intros rm region old Hold. unfold regionMap.Put. rewrite Hold.
    eexists. split; [reflexivity|]. simpl.
    split; [reflexivity|]. split; [reflexivity|].
    rewrite !sumSize_entry_sum, !sumKeys_entry_sum. simpl.
    rewrite !(entry_sum_insert_present _ _ _ old) by exact Hold. simpl.
    split; lia.
Qed.

End regionMap_claims.

(** ** Random sampling *)

Section randRegion_properties.
Context {R : Type}.
Variable deref : R -> RegionInfo.

Lemma isSelect_passes (opts : list RegionOption) (x : R) :
  isSelect deref opts x = passes deref opts x.
Proof.
  induction opts as [|opt opts IH]; simpl; [reflexivity|].
  rewrite IH. destruct (opt (deref x)); reflexivity.
Qed.

Lemma sample_empty (rm : option (regionMap.t R)) (g : Rand) (i : nat) :
  rm_consistent_opt deref rm -> regionMap.Len rm = 0%nat -> sample rm g i = None.
Proof.
  destruct rm as [x|]; [|reflexivity]. simpl. intros W E.
  assert (Hids : regionMap.ids x = []).
  { apply length_zero_iff_nil. rewrite (rm_consistent_length deref x W). exact E. }
  rewrite Hids, lookup_nil. reflexivity.
Qed.

Lemma sample_nonempty (rm : option (regionMap.t R)) (g : Rand) (i : nat) :
  rm_consistent_opt deref rm -> regionMap.Len rm <> 0%nat ->
  exists x id, sample rm g i = Some x /\ regionMap.Get rm id = Some x.
Proof.
  destruct rm as [y|]; [|intros _ E; exfalso; apply E; reflexivity].
  simpl. intros W E.
  set (k := (raw g (cursor g + i) mod size (regionMap.m y))%nat).
  assert (Hk : (k < length (regionMap.ids y))%nat).
  { rewrite (rm_consistent_length deref y W). apply Nat.mod_upper_bound, E. }
  destruct (lookup_lt_is_Some_2 _ _ Hk) as [id Hid].
  destruct (rm_ids _ _ W k id Hid) as (e & He & _).
  exists (entryRegion e), id. rewrite Hid. simpl. rewrite He. auto.
Qed.

(** One call of [RandomRegion] on a consistent map: it returns the next
    sample; the generator moves by one draw unless the map is empty. *)
Lemma RandomRegion_sample (rm : option (regionMap.t R)) (g : Rand) :
  rm_consistent_opt deref rm ->
  regionMap.RandomRegion rm g =
    Returned (sample rm g 0,
              if (regionMap.Len rm =? 0)%nat then g
              else mkRand (raw g) (S (cursor g))).
Proof.
  intros W. unfold regionMap.RandomRegion.
  destruct (Nat.eqb_spec (regionMap.Len rm) 0) as [E|E].
  - rewrite (sample_empty rm g 0 W E). reflexivity.
  - destruct rm as [y|]; [|exfalso; apply E; reflexivity].
    simpl in E |- *. unfold Intn.
    destruct (size (regionMap.m y)) as [|n] eqn:En; [congruence|].
    run_bind. rewrite Nat.add_0_r.
    destruct (sample_nonempty (Some y) g 0 W) as (x & id & Hs & _).
    { simpl. rewrite En. discriminate. }
    simpl in Hs. rewrite Nat.add_0_r, En in Hs.
    destruct (regionMap.ids y !! (raw g (cursor g) mod S n)%nat) as [id'|];
      [reflexivity | discriminate].
Qed.

Lemma sample_shift (rm : option (regionMap.t R)) (g : Rand) (i : nat) :
  sample rm (mkRand (raw g) (S (cursor g))) i = sample rm g (S i).
Proof.
  destruct rm as [y|]; [|reflexivity]. simpl.
  replace (S (cursor g + i)) with (cursor g + S i)%nat by lia. reflexivity.
Qed.

Lemma omap_sample_shift (rm : option (regionMap.t R)) (g : Rand) (j n : nat) :
  omap (sample rm g) (seq (S j) n)
  = omap (sample rm (mkRand (raw g) (S (cursor g)))) (seq j n).
Proof.
  revert j. induction n as [|n IH]; intros j; [reflexivity|].
  change (seq (S j) (S n)) with (S j :: seq (S (S j)) n).
  change (seq j (S n)) with (j :: seq (S j) n).
  change (omap (sample rm g) (S j :: seq (S (S j)) n))
    with (match sample rm g (S j) with
          | Some x => x :: omap (sample rm g) (seq (S (S j)) n)
          | None => omap (sample rm g) (seq (S (S j)) n)
          end).
  rewrite IH, <- sample_shift. reflexivity.
Qed.

Lemma samples_S (rm : option (regionMap.t R)) (g : Rand) (n : nat) :
  samples rm g (S n)
  = match sample rm g 0 with
    | Some x => x :: samples rm (mkRand (raw g) (S (cursor g))) n
    | None => samples rm (mkRand (raw g) (S (cursor g))) n
    end.
Proof.
  unfold samples. rewrite <- omap_sample_shift. reflexivity.
Qed.

Lemma samples_empty (rm : option (regionMap.t R)) (g : Rand) (n : nat) :
  rm_consistent_opt deref rm -> regionMap.Len rm = 0%nat -> samples rm g n = [].
Proof.
  intros W E. revert g. induction n as [|n IH]; intros g; [reflexivity|].
  rewrite samples_S, (sample_empty rm g 0 W E). apply IH.
Qed.

Lemma samples_length (rm : option (regionMap.t R)) (g : Rand) (n : nat) :
  rm_consistent_opt deref rm -> regionMap.Len rm <> 0%nat ->
  length (samples rm g n) = n.
Proof.
  intros W E. revert g. induction n as [|n IH]; intros g; [reflexivity|].
  rewrite samples_S.
  destruct (sample_nonempty rm g 0 W E) as (x & id & -> & _).
  simpl. rewrite IH. reflexivity.
Qed.

Lemma samples_resident (rm : option (regionMap.t R)) (g : Rand) (n : nat) (x : R) :
  rm_consistent_opt deref rm -> In x (samples rm g n) ->
  exists id, regionMap.Get rm id = Some x.
Proof.
  intros W. revert g. induction n as [|n IH]; intros g; [intros []|].
  rewrite samples_S.
  destruct (Nat.eq_dec (regionMap.Len rm) 0%nat) as [E|E].
  - rewrite (sample_empty rm g 0 W E). apply IH.
  - destruct (sample_nonempty rm g 0 W E) as (y & id & -> & Hget).
    intros [<-|Hin]; [eauto | exact (IH _ Hin)].
Qed.

(** The retry loop returns the first of its [n] samples that passes every
    option, after at most [n] draws. *)
Lemma randRegion_loop_spec (n : nat) (rm : option (regionMap.t R))
  (opts : list RegionOption) (g : Rand) :
  rm_consistent_opt deref rm ->
  exists g',
    randRegion_loop deref n rm opts g
    = Returned (List.find (passes deref opts) (samples rm g n), g')
    /\ raw g' = raw g
    /\ (cursor g <= cursor g' <= cursor g + n)%nat.
Proof.
  intros W. revert g. induction n as [|n IH]; intros g.
  - exists g. simpl. repeat split; lia.
  - cbn [randRegion_loop]. rewrite (RandomRegion_sample rm g W).
    run_bind.
    rewrite samples_S.
    destruct (Nat.eqb_spec (regionMap.Len rm) 0) as [E|E].
    + rewrite (sample_empty rm g 0 W E), (samples_empty _ _ _ W E).
      exists g. simpl. repeat split; lia.
    + destruct (sample_nonempty rm g 0 W E) as (x & id & -> & _).
      cbn [List.find]. rewrite isSelect_passes.
      destruct (passes deref opts x).
      * eexists. split; [reflexivity|]. simpl. repeat split; lia.
      * destruct (IH (mkRand (raw g) (S (cursor g)))) as (g' & -> & Hraw & Hcur).
        exists g'. split; [reflexivity|]. simpl in Hraw, Hcur.
        repeat split; [exact Hraw | lia | lia].
Qed.

(** What [randRegion] returns is a reference that the map holds: the
    stored reference itself, since nothing on the way copies the region. *)
Lemma randRegion_returns_stored (rm : option (regionMap.t R))
  (opts : list RegionOption) (g g' : Rand) (x : R) :
  rm_consistent_opt deref rm ->
  randRegion deref rm opts g = Returned (Some x, g') ->
  exists id, regionMap.Get rm id = Some x.
Proof.
  intros W Hrun. unfold randRegion in Hrun.
  destruct (randRegion_loop_spec randomRegionMaxRetry rm opts g W)
    as (g1 & Hspec & _).
  rewrite Hspec in Hrun. injection Hrun as Hfind _.
  apply find_some in Hfind as [Hin _].
  exact (samples_resident _ _ _ _ W Hin).
Qed.

End randRegion_properties.

Section randRegion_claim.
Context {T : Type} `{RegionTree T}.

(** C6. [RandRegion], [RandLeaderRegion] and [RandFollowerRegion] are
    [randRegion] on the global map, on the leader bucket and on the follower
    bucket of the store (a nil map when the store has none).  On a
    consistent map [randRegion] draws at most 10 samples and returns the
    first sample that every option accepts.  It returns nil only if the map
    is empty or none of the 10 samples passed; with no option it returns
    nil exactly when the map is empty. *)
Theorem C6_randRegion_first_passing_of_ten_samples
  (r : RegionsInfo.t T) (h : gmap positive RegionInfo) (storeID : N)
  (rm : option (regionMap.t positive)) (opts : list RegionOption) (g : Rand) :
  rm_consistent_opt (deref h) rm ->
  RegionsInfo.RandRegion r h opts g
    = randRegion (deref h) (Some (RegionsInfo.regions r)) opts g
  /\ RegionsInfo.RandLeaderRegion r h storeID opts g
    = randRegion (deref h) (RegionsInfo.leaders r !! storeID) opts g
  /\ RegionsInfo.RandFollowerRegion r h storeID opts g
    = randRegion (deref h) (RegionsInfo.followers r !! storeID) opts g
  /\ exists res g',
       randRegion (deref h) rm opts g = Returned (res, g')
       /\ res = List.find (passes (deref h) opts) (samples rm g randomRegionMaxRetry)
       /\ randomRegionMaxRetry = 10%nat
       /\ raw g' = raw g
       /\ (cursor g <= cursor g' <= cursor g + 10)%nat
       /\ (regionMap.Len rm = 0%nat -> res = None)
       /\ (regionMap.Len rm <> 0%nat ->
           length (samples rm g randomRegionMaxRetry) = 10%nat)
       /\ (forall x, res = Some x ->
             passes (deref h) opts x = true
             /\ exists id, regionMap.Get rm id = Some x)
       /\ (res = None ->
             regionMap.Len rm = 0%nat
             \/ forall x, In x (samples rm g randomRegionMaxRetry) ->
                          passes (deref h) opts x = false)
       /\ (opts = [] -> (res = None <-> regionMap.Len rm = 0%nat)).
Proof.
  intros W. split; [reflexivity|]. split; [reflexivity|]. split; [reflexivity|].
  unfold randRegion.
  destruct (randRegion_loop_spec (deref h) randomRegionMaxRetry rm opts g W)
    as (g' & Hrun & Hraw & Hcur).
  eexists _, g'. split; [exact Hrun|]. split; [reflexivity|].
  split; [reflexivity|]. split; [exact Hraw|]. split; [exact Hcur|].
  assert (Hempty : regionMap.Len rm = 0%nat ->
    List.find (passes (deref h) opts) (samples rm g randomRegionMaxRetry) = None).
  { intros E. rewrite (samples_empty (deref h) _ _ _ W E). reflexivity. }
  split; [exact Hempty|].
  split; [intros E; apply (samples_length (deref h)); assumption|].
  split; [|split].
  - intros x Hx. apply find_some in Hx as [Hin Hp]. split; [exact Hp|].
    exact (samples_resident (deref h) _ _ _ _ W Hin).
  - intros Hnone. right. intros x Hin. exact (find_none _ _ Hnone x Hin).
  - intros ->. split; [|exact Hempty].
    intros Hnone. destruct (Nat.eq_dec (regionMap.Len rm) 0%nat) as [E|E]; [exact E|].
    exfalso.
    pose proof (samples_length (deref h) rm g randomRegionMaxRetry W E) as Hlen.
    destruct (samples rm g randomRegionMaxRetry) as [|x l]; [discriminate|].
    simpl in Hnone. discriminate.
Qed.

End randRegion_claim.

(** ** Clones and the heap *)

Lemma deref_lookup (h : gmap positive RegionInfo) (p : positive) (v : RegionInfo) :
  h !! p = Some v -> deref h p = v.
Proof. intros E. unfold deref. rewrite lookup_total_alt, E. reflexivity. Qed.

(** An address whose object has a region is an allocated one: the object
    read at any other address has none. *)
Lemma deref_Region_allocated (h : gmap positive RegionInfo) (p : positive) :
  is_Some (Region (deref h p)) -> h !! p = Some (deref h p).
Proof.
  unfold deref. rewrite lookup_total_alt.
  destruct (h !! p) as [v|]; simpl; [reflexivity|].
  intros [m Hm]. discriminate.
Qed.

Lemma alloc_fresh (h : gmap positive RegionInfo) (v : RegionInfo) :
  h !! (alloc h v).1 = None.
Proof.
  simpl. apply not_elem_of_dom. apply is_fresh.
Qed.

Lemma deref_alloc_old (h : gmap positive RegionInfo) (v : RegionInfo) (p : positive) :
  is_Some (h !! p) -> deref (alloc h v).2 p = deref h p.
Proof.
  intros [w Hw]. simpl. unfold deref. rewrite !lookup_total_alt.
  rewrite lookup_insert_ne; [reflexivity|].
  intros E. pose proof (alloc_fresh h v) as F. simpl in F. rewrite E in F. congruence.
Qed.

Lemma Clone_returns (v : RegionInfo) :
  is_Some (Region v) -> exists c, Clone v = Returned c.
Proof.
  intros [m Hm]. unfold Clone.
  eapply classifyVoterAndLearner_returns. simpl. exact Hm.
Qed.

Section RegionsInfo_clones.
Context {T : Type} `{RegionTree T}.

(** [GetRegion] of an id that is not resident returns nil; of a resident id
    it returns a new address that holds the clone of the stored object, and
    leaves every object of the heap as it was. *)
Lemma GetRegion_spec (r : RegionsInfo.t T) (h : gmap positive RegionInfo) (id : N) :
  (forall p, regionMap.Get (Some (RegionsInfo.regions r)) id = Some p ->
             is_Some (Region (deref h p))) ->
  exists res h',
    RegionsInfo.GetRegion r h id = Returned (res, h')
    /\ (forall p, is_Some (h !! p) -> h' !! p = h !! p)
    /\ match regionMap.Get (Some (RegionsInfo.regions r)) id with
       | None => res = None /\ h' = h
       | Some stored =>
           exists q c,
             res = Some q /\ h !! q = None
             /\ Clone (deref h stored) = Returned c
             /\ h' = <[q := c]> h
       end.
Proof.
  intros Hres. unfold RegionsInfo.GetRegion.
  destruct (regionMap.Get (Some (RegionsInfo.regions r)) id) as [stored|].
  - destruct (Clone_returns (deref h stored) (Hres stored eq_refl)) as [c Hc].
    rewrite Hc. cbn [mbind outcome_bind obind alloc].
    eexists _, _. split; [reflexivity|]. split.
    + intros p [w Hw]. rewrite lookup_insert_ne; [reflexivity|].
      intros E. pose proof (alloc_fresh h c) as F. simpl in F.
      rewrite E in F. congruence.
    + exists (fresh (dom h)), c. repeat split.
      apply (alloc_fresh h c).
  - exists None, h. repeat split. 
Qed.

(** [GetAdjacentRegions] of a region with a meta region, on an index whose
    resident regions have one: the call returns; a previous neighbour is
    returned only if the tree has a previous item whose end key equals the
    region's start key byte for byte, a next neighbour only if the tree has
    a next item whose start key equals the region's end key; and a neighbour
    returned is a new clone of the region resident under the item's id. *)
Lemma GetAdjacentRegions_spec
  (r : RegionsInfo.t T) (h : gmap positive RegionInfo) (region : positive)
  (meta : MetaRegion) :
  Region (deref h region) = Some meta ->
  (forall id p, regionMap.Get (Some (RegionsInfo.regions r)) id = Some p ->
                is_Some (Region (deref h p))) ->
  let metaPrev := (tree_getAdjacentRegions (RegionsInfo.tree r) (Some meta)).1 in
  let metaNext := (tree_getAdjacentRegions (RegionsInfo.tree r) (Some meta)).2 in
  exists prev next h',
    RegionsInfo.GetAdjacentRegions r h region = Returned (prev, next, h')
    /\ (forall p, prev = Some p ->
          exists item stored c,
            metaPrev = Some item
            /\ EndKey (item_region item) = StartKey meta
            /\ regionMap.Get (Some (RegionsInfo.regions r)) (Id (item_region item))
               = Some stored
            /\ Clone (deref h stored) = Returned c
            /\ h !! p = None /\ deref h' p = c)
    /\ (forall n, next = Some n ->
          exists item stored c,
            metaNext = Some item
            /\ EndKey meta = StartKey (item_region item)
            /\ regionMap.Get (Some (RegionsInfo.regions r)) (Id (item_region item))
               = Some stored
            /\ Clone (deref h stored) = Returned c
            /\ h !! n = None /\ deref h' n = c)
    /\ (metaPrev = None -> prev = None)
    /\ (metaNext = None -> next = None)
    /\ (forall item, metaPrev = Some item ->
          EndKey (item_region item) <> StartKey meta -> prev = None)
    /\ (forall item, metaNext = Some item ->
          EndKey meta <> StartKey (item_region item) -> next = None).
Proof.
  intros Hmeta Hres metaPrev metaNext.
  unfold RegionsInfo.GetAdjacentRegions. rewrite Hmeta.
  subst metaPrev metaNext.
  destruct (tree_getAdjacentRegions (RegionsInfo.tree r) (Some meta))
    as [metaPrev metaNext]. cbn [fst snd].
  pose proof (deref_Region_allocated h region ltac:(rewrite Hmeta; eauto)) as Halloc.
  (* the previous neighbour *)
  assert (Hprev : exists prev h1,
    match metaPrev with
    | None => Returned (None, h)
    | Some item =>
        if bytes_Equal (EndKey (item_region item)) (StartKey meta)
        then RegionsInfo.GetRegion r h (Id (item_region item))
        else Returned (None, h)
    end = Returned (prev, h1)
    /\ (forall p, is_Some (h !! p) -> h1 !! p = h !! p)
    /\ (forall p, prev = Some p ->
          exists item stored c,
            metaPrev = Some item
            /\ EndKey (item_region item) = StartKey meta
            /\ regionMap.Get (Some (RegionsInfo.regions r)) (Id (item_region item))
               = Some stored
            /\ Clone (deref h stored) = Returned c
            /\ h !! p = None /\ h1 !! p = Some c)
    /\ (metaPrev = None -> prev = None)
    /\ (forall item, metaPrev = Some item ->
          EndKey (item_region item) <> StartKey meta -> prev = None)).
  { destruct metaPrev as [item|].
    2:{ exists None, h. repeat split; try discriminate; auto. }
    unfold bytes_Equal. case_bool_decide as Hk.
    2:{ exists None, h. repeat split; try discriminate; auto. }
    destruct (GetRegion_spec r h (Id (item_region item)) (Hres _))
      as (res & h1 & Hget & Hext & Hcase).
    exists res, h1. split; [exact Hget|]. split; [exact Hext|].
    split; [|split; [discriminate|]].
    - intros p ->.
      destruct (regionMap.Get (Some (RegionsInfo.regions r)) (Id (item_region item)))
        as [stored|] eqn:Hst; [|destruct Hcase; discriminate].
      destruct Hcase as (q & c & [= <-] & Hfresh & Hc & ->).
      exists item, stored, c. repeat split; auto. apply lookup_insert_eq.
    - intros item' [= <-] Hne. contradiction. }
  destruct Hprev as (prev & h1 & -> & Hext1 & Hprev & HprevN & HprevGap).
  run_bind.
  assert (Hreg1 : deref h1 region = deref h region).
  { unfold deref. rewrite !lookup_total_alt, Hext1; [reflexivity|].
    rewrite Halloc. eauto. }
  rewrite Hreg1, Hmeta.
  assert (Hres1 : forall id p,
    regionMap.Get (Some (RegionsInfo.regions r)) id = Some p ->
    deref h1 p = deref h p /\ is_Some (Region (deref h1 p))).
  { intros id p Hp. pose proof (Hres id p Hp) as Hs.
    assert (deref h1 p = deref h p) as E.
    { unfold deref. rewrite !lookup_total_alt, Hext1; [reflexivity|].
      rewrite (deref_Region_allocated h p Hs). eauto. }
    rewrite E. auto. }
  (* the next neighbour *)
  assert (Hnext : exists next h2,
    match metaNext with
    | None => Returned (None, h1)
    | Some item =>
        if bytes_Equal (EndKey meta) (StartKey (item_region item))
        then RegionsInfo.GetRegion r h1 (Id (item_region item))
        else Returned (None, h1)
    end = Returned (next, h2)
    /\ (forall p, is_Some (h1 !! p) -> h2 !! p = h1 !! p)
    /\ (forall n, next = Some n ->
          exists item stored c,
            metaNext = Some item
            /\ EndKey meta = StartKey (item_region item)
            /\ regionMap.Get (Some (RegionsInfo.regions r)) (Id (item_region item))
               = Some stored
            /\ Clone (deref h stored) = Returned c
            /\ h1 !! n = None /\ h2 !! n = Some c)
    /\ (metaNext = None -> next = None)
    /\ (forall item, metaNext = Some item ->
          EndKey meta <> StartKey (item_region item) -> next = None)).
  { destruct metaNext as [item|].
    2:{ exists None, h1. repeat split; try discriminate; auto. }
    unfold bytes_Equal. case_bool_decide as Hk.
    2:{ exists None, h1. repeat split; try discriminate; auto. }
    destruct (GetRegion_spec r h1 (Id (item_region item))
                (fun p Hp => proj2 (Hres1 _ p Hp)))
      as (res & h2 & Hget & Hext & Hcase).
    exists res, h2. split; [exact Hget|]. split; [exact Hext|].
    split; [|split; [discriminate|]].
    - intros n ->.
      destruct (regionMap.Get (Some (RegionsInfo.regions r)) (Id (item_region item)))
        as [stored|] eqn:Hst; [|destruct Hcase; discriminate].
      destruct Hcase as (q & c & [= <-] & Hfresh & Hc & ->).
      exists item, stored, c. repeat split; auto.
      + rewrite <- (proj1 (Hres1 _ _ Hst)). exact Hc.
      + apply lookup_insert_eq.
    - intros item' [= <-] Hne. contradiction. }
  destruct Hnext as (next & h2 & -> & Hext2 & Hnext & HnextN & HnextGap).
  run_bind.
  exists prev, next, h2. split; [reflexivity|].
  split; [|split; [|repeat split; assumption]].
  - intros p Hp. destruct (Hprev p Hp) as (item & stored & c & ? & ? & ? & ? & ? & Hc).
    exists item, stored, c. repeat split; auto.
    apply deref_lookup. rewrite Hext2; [exact Hc | rewrite Hc; eauto].
  - intros n Hn. destruct (Hnext n Hn) as (item & stored & c & ? & ? & ? & ? & Hfr & Hc).
    exists item, stored, c. repeat split; auto.
    + destruct (h !! n) as [w|] eqn:Hw; [|reflexivity].
      rewrite <- Hfr. symmetry. rewrite <- Hw. apply Hext1. rewrite Hw. eauto.
    + apply deref_lookup. exact Hc.
Qed.

Lemma Clone_Region (v c : RegionInfo) :
  Clone v = Returned c -> Region c = Region v.
Proof.
  unfold Clone. intros Hc.
  apply classifyVoterAndLearner_fields in Hc as (Hreg & _). exact Hreg.
Qed.

(** C7. For a region with a meta region, on an index whose resident regions
    have one, [GetAdjacentRegions] returns, and it returns a previous
    neighbour only if the tree has a previous item whose end key equals the
    region's start key byte for byte, and a next neighbour only if the tree
    has a next item whose start key equals the region's end key; either
    result is nil when the tree has no such item.  A neighbour returned is a
    new clone of the region resident under the item's id.  When the tree and
    the global map agree on the neighbours, the neighbour returned itself
    ends where the region starts, or starts where the region ends: no
    neighbour across a key gap is returned. *)
Theorem C7_GetAdjacentRegions_only_contiguous
  (r : RegionsInfo.t T) (h : gmap positive RegionInfo) (region : positive)
  (meta : MetaRegion) :
  Region (deref h region) = Some meta ->
  (forall id p, regionMap.Get (Some (RegionsInfo.regions r)) id = Some p ->
                is_Some (Region (deref h p))) ->
  let metaPrev := (tree_getAdjacentRegions (RegionsInfo.tree r) (Some meta)).1 in
  let metaNext := (tree_getAdjacentRegions (RegionsInfo.tree r) (Some meta)).2 in
  exists prev next h',
    RegionsInfo.GetAdjacentRegions r h region = Returned (prev, next, h')
    /\ (forall p, prev = Some p ->
          exists item stored c,
            metaPrev = Some item
            /\ EndKey (item_region item) = StartKey meta
            /\ regionMap.Get (Some (RegionsInfo.regions r)) (Id (item_region item))
               = Some stored
            /\ Clone (deref h stored) = Returned c
            /\ h !! p = None /\ deref h' p = c)
    /\ (forall n, next = Some n ->
          exists item stored c,
            metaNext = Some item
            /\ EndKey meta = StartKey (item_region item)
            /\ regionMap.Get (Some (RegionsInfo.regions r)) (Id (item_region item))
               = Some stored
            /\ Clone (deref h stored) = Returned c
            /\ h !! n = None /\ deref h' n = c)
    /\ (metaPrev = None -> prev = None)
    /\ (metaNext = None -> next = None)
    /\ (forall item, metaPrev = Some item ->
          EndKey (item_region item) <> StartKey meta -> prev = None)
    /\ (forall item, metaNext = Some item ->
          EndKey meta <> StartKey (item_region item) -> next = None)
    /\ (neighbours_resident r h meta ->
        (forall p, prev = Some p ->
           exists pm, Region (deref h' p) = Some pm
                      /\ EndKey pm = StartKey meta)
        /\ (forall n, next = Some n ->
              exists nm, Region (deref h' n) = Some nm
                         /\ EndKey meta = StartKey nm)).
Proof.
  intros Hmeta Hres metaPrev metaNext.
  destruct (GetAdjacentRegions_spec r h region meta Hmeta Hres)
    as (prev & next & h' & Hrun & Hprev & Hnext & HprevN & HnextN & HprevGap
        & HnextGap).
  exists prev, next, h'. split; [exact Hrun|].
  split; [exact Hprev|]. split; [exact Hnext|].
  split; [exact HprevN|]. split; [exact HnextN|].
  split; [exact HprevGap|]. split; [exact HnextGap|].
  intros Hagree. split.
  - intros p Hp.
    destruct (Hprev p Hp) as (item & stored & c & Hitem & Hkey & Hst & Hc & _ & Hd).
    exists (item_region item). split; [|exact Hkey].
    rewrite Hd, (Clone_Region _ _ Hc).
    apply (Hagree item stored); [left; exact Hitem | exact Hst].
  - intros n Hn.
    destruct (Hnext n Hn) as (item & stored & c & Hitem & Hkey & Hst & Hc & _ & Hd).
    exists (item_region item). split; [|exact Hkey].
    rewrite Hd, (Clone_Region _ _ Hc).
    apply (Hagree item stored); [right; exact Hitem | exact Hst].
Qed.

End RegionsInfo_clones.

(** ** Per-store buckets filled by AddRegion *)

Section RegionsInfo_buckets.
Context {T : Type} `{RegionTree T}.

Lemma Put_Get_region {R : Type} (f : R -> RegionInfo) (x x' : regionMap.t R)
  (region : R) :
  regionMap.Put f (Some x) region = Returned x' ->
  regionMap.Get (Some x') (GetId (f region)) = Some region.
Proof.
  unfold regionMap.Put.
  destruct (regionMap.m x !! GetId (f region)); intros [= <-]; simpl;
    rewrite lookup_insert_eq; reflexivity.
Qed.

(** Putting a region into the bucket of a store: the call returns, the
    bucket of that store then holds the region under its id, and the buckets
    of the other stores are untouched. *)
Lemma bucket_Put_spec (h : gmap positive RegionInfo)
  (buckets : gmap N (regionMap.t positive)) (storeID : N) (region : positive) :
  exists buckets',
    RegionsInfo.bucket_Put h buckets storeID region = Returned buckets'
    /\ regionMap.Get (buckets' !! storeID) (GetId (deref h region)) = Some region
    /\ (forall s, s <> storeID -> buckets' !! s = buckets !! s).
Proof.
  unfold RegionsInfo.bucket_Put.
  set (st := match buckets !! storeID with
             | Some rm => rm
             | None => regionMap.newRegionMap
             end).
  destruct (Put_allocated_returns (deref h) st region) as [rm Hput].
  rewrite Hput. run_bind.
  eexists. split; [reflexivity|]. split.
  - rewrite lookup_insert_eq. exact (Put_Get_region _ _ _ _ Hput).
  - intros s Hs. apply lookup_insert_ne. congruence.
Qed.

Lemma bucket_Put_keeps (h : gmap positive RegionInfo)
  (buckets buckets' : gmap N (regionMap.t positive)) (storeID s : N)
  (region : positive) :
  RegionsInfo.bucket_Put h buckets storeID region = Returned buckets' ->
  regionMap.Get (buckets !! s) (GetId (deref h region)) = Some region ->
  regionMap.Get (buckets' !! s) (GetId (deref h region)) = Some region.
Proof.
  intros Hput Hget.
  destruct (bucket_Put_spec h buckets storeID region) as (b & Hb & Hin & Hout).
  rewrite Hput in Hb. injection Hb as <-.
  destruct (decide (s = storeID)) as [->|Hne]; [exact Hin|].
  rewrite Hout by exact Hne. exact Hget.
Qed.

Lemma AddRegion_voters_frame (h : gmap positive RegionInfo) (region : positive)
  (leader : Peer) (voters : list Peer) (r : RegionsInfo.t T) :
  exists r',
    RegionsInfo.AddRegion_voters h region leader voters r = Returned r'
    /\ RegionsInfo.learners r' = RegionsInfo.learners r
    /\ RegionsInfo.pendingPeers r' = RegionsInfo.pendingPeers r.
Proof.
  revert r. induction voters as [|peer rest IH]; intros r; simpl.
  - eauto.
  - destruct (PeerId peer =? PeerId leader)%N.
    + destruct (bucket_Put_spec h (RegionsInfo.leaders r) (StoreId peer) region)
        as (b & -> & _). run_bind.
      match goal with |- exists r', RegionsInfo.AddRegion_voters _ _ _ _ ?r1 = _ /\ _ =>
        destruct (IH r1) as (r' & Hrun & Hlearn & Hpend) end.
      exists r'. auto.
    + destruct (bucket_Put_spec h (RegionsInfo.followers r) (StoreId peer) region)
        as (b & -> & _). run_bind.
      match goal with |- exists r', RegionsInfo.AddRegion_voters _ _ _ _ ?r1 = _ /\ _ =>
        destruct (IH r1) as (r' & Hrun & Hlearn & Hpend) end.
      exists r'. auto.
Qed.

Lemma AddRegion_learners_spec (h : gmap positive RegionInfo) (region : positive)
  (peers : list Peer) (r : RegionsInfo.t T) :
  exists r',
    RegionsInfo.AddRegion_learners h region peers r = Returned r'
    /\ RegionsInfo.pendingPeers r' = RegionsInfo.pendingPeers r
    /\ (forall s,
          regionMap.Get (RegionsInfo.learners r !! s) (GetId (deref h region))
            = Some region ->
          regionMap.Get (RegionsInfo.learners r' !! s) (GetId (deref h region))
            = Some region)
    /\ (forall p, p ∈ peers ->
          regionMap.Get (RegionsInfo.learners r' !! StoreId p)
            (GetId (deref h region)) = Some region).
Proof.
  revert r. induction peers as [|peer rest IH]; intros r; simpl.
  - exists r. repeat split; auto. intros p Hp. inversion Hp.
  - destruct (bucket_Put_spec h (RegionsInfo.learners r) (StoreId peer) region)
      as (b & Hb & Hin & Hout). rewrite Hb. run_bind.
    match goal with |- exists r', RegionsInfo.AddRegion_learners _ _ _ ?r1 = _ /\ _ =>
      destruct (IH r1) as (r' & Hrun & Hpend & Hkeep & Hall) end.
    exists r'. split; [exact Hrun|]. simpl in Hpend, Hkeep.
    split; [exact Hpend|]. split.
    + intros s Hs. apply Hkeep. exact (bucket_Put_keeps _ _ _ _ _ _ Hb Hs).
    + intros p Hp. apply elem_of_cons in Hp as [->|Hp]; [|exact (Hall p Hp)].
      apply Hkeep. exact Hin.
Qed.

Lemma AddRegion_pending_spec (h : gmap positive RegionInfo) (region : positive)
  (peers : list Peer) (r : RegionsInfo.t T) :
  exists r',
    RegionsInfo.AddRegion_pending h region peers r = Returned r'
    /\ RegionsInfo.learners r' = RegionsInfo.learners r
    /\ (forall s,
          regionMap.Get (RegionsInfo.pendingPeers r !! s) (GetId (deref h region))
            = Some region ->
          regionMap.Get (RegionsInfo.pendingPeers r' !! s) (GetId (deref h region))
            = Some region)
    /\ (forall p, p ∈ peers ->
          regionMap.Get (RegionsInfo.pendingPeers r' !! StoreId p)
            (GetId (deref h region)) = Some region).
Proof.
  revert r. induction peers as [|peer rest IH]; intros r; simpl.
  - exists r. repeat split; auto. intros p Hp. inversion Hp.
  - destruct (bucket_Put_spec h (RegionsInfo.pendingPeers r) (StoreId peer) region)
      as (b & Hb & Hin & Hout). rewrite Hb. run_bind.
    match goal with |- exists r', RegionsInfo.AddRegion_pending _ _ _ ?r1 = _ /\ _ =>
      destruct (IH r1) as (r' & Hrun & Hlearn & Hkeep & Hall) end.
    exists r'. split; [exact Hrun|]. simpl in Hlearn, Hkeep.
    split; [exact Hlearn|]. split.
    + intros s Hs. apply Hkeep. exact (bucket_Put_keeps _ _ _ _ _ _ Hb Hs).
    + intros p Hp. apply elem_of_cons in Hp as [->|Hp]; [|exact (Hall p Hp)].
      apply Hkeep. exact Hin.
Qed.

(** What a returning [AddRegion] went through: the overlaps were removed,
    the region was put into the global map, and then, depending on the
    leader of the region, nothing more or the three loops. *)
Lemma AddRegion_inv (r r' : RegionsInfo.t T) (h h' : gmap positive RegionInfo)
  (region : positive) (overlaps : list MetaRegion) :
  RegionsInfo.AddRegion r h region = Returned (overlaps, r', h') ->
  exists tree' r1 r2,
    tree_update (RegionsInfo.tree r) (Region (deref h region)) = (tree', overlaps)
    /\ RegionsInfo.AddRegion_overlaps overlaps
         (RegionsInfo.mk tree' (RegionsInfo.regions r) (RegionsInfo.leaders r)
            (RegionsInfo.followers r) (RegionsInfo.learners r)
            (RegionsInfo.pendingPeers r)) h = Returned (r1, h')
    /\ RegionsInfo.leaders r2 = RegionsInfo.leaders r1
    /\ RegionsInfo.followers r2 = RegionsInfo.followers r1
    /\ RegionsInfo.learners r2 = RegionsInfo.learners r1
    /\ RegionsInfo.pendingPeers r2 = RegionsInfo.pendingPeers r1
    /\ regionMap.Put (deref h') (Some (RegionsInfo.regions r1)) region
       = Returned (RegionsInfo.regions r2)
    /\ match Leader (deref h' region) with
       | None => r' = r2
       | Some leader =>
           exists r3 r4,
             RegionsInfo.AddRegion_voters h' region leader
               (GetVoters (deref h' region)) r2 = Returned r3
             /\ RegionsInfo.AddRegion_learners h' region
                  (GetLearners (deref h' region)) r3 = Returned r4
             /\ RegionsInfo.AddRegion_pending h' region
                  (PendingPeers (deref h' region)) r4 = Returned r'
       end.
Proof.
  unfold RegionsInfo.AddRegion.
  destruct (tree_update (RegionsInfo.tree r) (Region (deref h region)))
    as [tree' ov].
  destruct (RegionsInfo.AddRegion_overlaps ov _ h) as [[r1 h1]|] eqn:Hov;
    [|discriminate].
  run_bind.
  destruct (regionMap.Put (deref h1) (Some (RegionsInfo.regions r1)) region)
    as [regions'|] eqn:Hput; [|discriminate].
  run_bind.
  destruct (Leader (deref h1 region)) as [leader|] eqn:Hl.
  - destruct (RegionsInfo.AddRegion_voters h1 region leader _ _) as [r3|] eqn:H3;
      [|discriminate]. run_bind.
    destruct (RegionsInfo.AddRegion_learners h1 region _ r3) as [r4|] eqn:H4;
      [|discriminate]. run_bind.
    destruct (RegionsInfo.AddRegion_pending h1 region _ r4) as [r5|] eqn:H5;
      [|discriminate]. run_bind.
    intros [= <- <- <-].
    exists tree', r1,
      (RegionsInfo.mk (RegionsInfo.tree r1) regions' (RegionsInfo.leaders r1)
         (RegionsInfo.followers r1) (RegionsInfo.learners r1)
         (RegionsInfo.pendingPeers r1)).
    split; [reflexivity|]. split; [exact Hov|].
    rewrite Hl. repeat (split; [reflexivity|]). split; [exact Hput|].
    exists r3, r4. auto.
  - intros [= <- <- <-].
    exists tree', r1,
      (RegionsInfo.mk (RegionsInfo.tree r1) regions' (RegionsInfo.leaders r1)
         (RegionsInfo.followers r1) (RegionsInfo.learners r1)
         (RegionsInfo.pendingPeers r1)).
    split; [reflexivity|]. split; [exact Hov|].
    rewrite Hl. repeat (split; [reflexivity|]). split; [exact Hput|]. reflexivity.
Qed.

Lemma AddRegion_led_buckets (r r' : RegionsInfo.t T) (h h' : gmap positive RegionInfo)
  (region : positive) (leader : Peer) (overlaps : list MetaRegion) :
  RegionsInfo.AddRegion r h region = Returned (overlaps, r', h') ->
  Leader (deref h' region) = Some leader ->
  (forall p, p ∈ GetLearners (deref h' region) ->
     regionMap.Get (RegionsInfo.learners r' !! StoreId p) (GetId (deref h' region))
       = Some region)
  /\ (forall p, p ∈ PendingPeers (deref h' region) ->
     regionMap.Get (RegionsInfo.pendingPeers r' !! StoreId p)
       (GetId (deref h' region)) = Some region).
Proof.
  intros Hadd Hl.
  destruct (AddRegion_inv _ _ _ _ _ _ Hadd)
    as (tree' & r1 & r2 & _ & _ & _ & _ & _ & _ & _ & Hrest).
  rewrite Hl in Hrest. destruct Hrest as (r3 & r4 & H3 & H4 & H5).
  destruct (AddRegion_learners_spec h' region (GetLearners (deref h' region)) r3)
    as (r4' & H4' & _ & _ & Hlearn).
  rewrite H4 in H4'. injection H4' as <-.
  destruct (AddRegion_pending_spec h' region (PendingPeers (deref h' region)) r4)
    as (r5 & H5' & Hsame & _ & Hpend).
  rewrite H5 in H5'. injection H5' as <-.
  split.
  - intros p Hp. rewrite Hsame. exact (Hlearn p Hp).
  - exact Hpend.
Qed.

(** For a region without a leader [AddRegion] stops after the global map:
    when the tree reports no overlap no per-store bucket changes. *)
Lemma AddRegion_leaderless_buckets (r r' : RegionsInfo.t T)
  (h h' : gmap positive RegionInfo) (region : positive) :
  RegionsInfo.AddRegion r h region = Returned ([], r', h') ->
  Leader (deref h' region) = None ->
  h' = h
  /\ RegionsInfo.leaders r' = RegionsInfo.leaders r
  /\ RegionsInfo.followers r' = RegionsInfo.followers r
  /\ RegionsInfo.learners r' = RegionsInfo.learners r
  /\ RegionsInfo.pendingPeers r' = RegionsInfo.pendingPeers r
  /\ regionMap.Get (Some (RegionsInfo.regions r')) (GetId (deref h region))
     = Some region.
Proof.
  intros Hadd Hl.
  destruct (AddRegion_inv _ _ _ _ _ _ Hadd)
    as (tree' & r1 & r2 & _ & Hov & E1 & E2 & E3 & E4 & Hput & Hrest).
  rewrite Hl in Hrest. subst r'. cbn [RegionsInfo.AddRegion_overlaps] in Hov.
  injection Hov as <- <-. cbn [RegionsInfo.leaders RegionsInfo.followers
    RegionsInfo.learners RegionsInfo.pendingPeers RegionsInfo.regions] in *.
  split; [reflexivity|]. repeat (split; [assumption|]).
  exact (Put_Get_region _ _ _ _ Hput).
Qed.

(** C1, as the code has it.  When [AddRegion], or [SetRegion], returns for a
    region whose leader is set, every learner of the region has the region
    in [learners] of its store and every pending peer has it in
    [pendingPeers] of its store. *)
Theorem C1_led_region_in_learner_and_pending_buckets
  (r r' : RegionsInfo.t T) (h h' : gmap positive RegionInfo)
  (region : positive) (leader : Peer) (overlaps : list MetaRegion) :
  RegionsInfo.AddRegion r h region = Returned (overlaps, r', h')
  \/ RegionsInfo.SetRegion r h region = Returned (overlaps, r', h') ->
  Leader (deref h' region) = Some leader ->
  (forall p, p ∈ GetLearners (deref h' region) ->
     regionMap.Get (RegionsInfo.learners r' !! StoreId p) (GetId (deref h' region))
       = Some region)
  /\ (forall p, p ∈ PendingPeers (deref h' region) ->
     regionMap.Get (RegionsInfo.pendingPeers r' !! StoreId p)
       (GetId (deref h' region)) = Some region).
Proof.
  intros [Hadd|Hset] Hl.
  - exact (AddRegion_led_buckets _ _ _ _ _ _ _ Hadd Hl).
  - unfold RegionsInfo.SetRegion in Hset.
    destruct (regionMap.Get (Some (RegionsInfo.regions r)) (GetId (deref h region)))
      as [origin|].
    + destruct (RegionsInfo.RemoveRegion r h (Some origin)) as [r0|]; [|discriminate].
      exact (AddRegion_led_buckets _ _ _ _ _ _ _ Hset Hl).
    + exact (AddRegion_led_buckets _ _ _ _ _ _ _ Hset Hl).
Qed.

End RegionsInfo_buckets.

(** ** The invariant of the index is kept *)

Lemma heap_le_refl (h : gmap positive RegionInfo) : heap_le h h.
Proof. intros p _. reflexivity. Qed.

Lemma heap_le_trans (h1 h2 h3 : gmap positive RegionInfo) :
  heap_le h1 h2 -> heap_le h2 h3 -> heap_le h1 h3.
Proof.
  intros H12 H23 p Hp. rewrite H23, H12; [reflexivity | exact Hp |].
  rewrite H12; assumption.
Qed.

Lemma deref_heap_le (h h' : gmap positive RegionInfo) (p : positive) :
  heap_le h h' -> is_Some (Region (deref h p)) -> deref h' p = deref h p.
Proof.
  intros Hle Hp. pose proof (deref_Region_allocated h p Hp) as Ha.
  unfold deref. rewrite !lookup_total_alt, Hle; [reflexivity|].
  rewrite Ha. eauto.
Qed.

Lemma rm_ok_heap_le (h h' : gmap positive RegionInfo) (rm : regionMap.t positive) :
  heap_le h h' -> rm_ok h rm -> rm_ok h' rm.
Proof.
  intros Hle [W Hreg]. split.
  - split.
    + intros k e He. rewrite (deref_heap_le h h') by eauto.
      exact (rm_key _ _ W k e He).
    + apply (rm_pos _ _ W).
    + apply (rm_ids _ _ W).
  - intros k e He. rewrite (deref_heap_le h h') by eauto. eauto.
Qed.

Lemma buckets_ok_heap_le (h h' : gmap positive RegionInfo)
  (buckets : gmap N (regionMap.t positive)) :
  heap_le h h' -> buckets_ok h buckets -> buckets_ok h' buckets.
Proof. intros Hle Hb s rm Hs. exact (rm_ok_heap_le _ _ _ Hle (Hb s rm Hs)). Qed.

Lemma index_ok_heap_le {T : Type} (r : RegionsInfo.t T)
  (h h' : gmap positive RegionInfo) :
  heap_le h h' -> index_ok r h -> index_ok r h'.
Proof.
  intros Hle [O1 O2 O3 O4 O5]. split;
    eauto using rm_ok_heap_le, buckets_ok_heap_le.
Qed.

Lemma rm_ok_new (h : gmap positive RegionInfo) : rm_ok h regionMap.newRegionMap.
Proof.
  split; [apply rm_consistent_new|].
  intros k e He. simpl in He. rewrite lookup_empty in He. discriminate.
Qed.

Lemma Put_ok (h : gmap positive RegionInfo) (rm rm' : regionMap.t positive)
  (region : positive) :
  rm_ok h rm -> is_Some (Region (deref h region)) ->
  regionMap.Put (deref h) (Some rm) region = Returned rm' ->
  rm_ok h rm'.
Proof.
  intros [W Hreg] Hregion Hput. split; [exact (Put_consistent _ _ _ _ W Hput)|].
  revert Hput. unfold regionMap.Put.
  destruct (regionMap.m rm !! GetId (deref h region)); intros [= <-]; simpl;
    intros k e; rewrite lookup_insert; case_decide;
    try (intros [= <-]; exact Hregion); apply Hreg.
Qed.

Lemma Delete_ok (h : gmap positive RegionInfo) (rm : regionMap.t positive) (id : N) :
  rm_ok h rm ->
  exists rm',
    regionMap.Delete (deref h) (Some rm) id = Returned (Some rm') /\ rm_ok h rm'.
Proof.
  intros [W Hreg].
  destruct (Delete_consistent (deref h) rm id W) as (rm' & Hdel & W').
  exists rm'. split; [exact Hdel|]. split; [exact W'|].
  destruct (regionMap.m rm !! id) as [old|] eqn:Hold.
  - destruct (Delete_found_spec (deref h) rm id old W Hold)
      as (lastId & lastEntry & _ & Hl & _ & _ & Hdel').
    rewrite Hdel in Hdel'. injection Hdel' as ->. simpl.
    intros k e. rewrite lookup_delete. case_decide; [discriminate|].
    rewrite lookup_insert. case_decide.
    + intros [= <-]. simpl. exact (Hreg lastId lastEntry Hl).
    + apply Hreg.
  - unfold regionMap.Delete in Hdel. rewrite Hold in Hdel.
    injection Hdel as <-. exact Hreg.
Qed.

Section index_invariant.
Context {T : Type} `{RegionTree T}.

Lemma NewRegionsInfo_ok (h : gmap positive RegionInfo) :
  index_ok (RegionsInfo.NewRegionsInfo (T := T)) h.
Proof.
  split; simpl; [apply rm_ok_new| | | |];
    intros s rm Hs; rewrite lookup_empty in Hs; discriminate.
Qed.

Lemma bucket_Delete_ok (h : gmap positive RegionInfo)
  (buckets : gmap N (regionMap.t positive)) (storeID id : N) :
  buckets_ok h buckets ->
  exists buckets',
    RegionsInfo.bucket_Delete h buckets storeID id = Returned buckets'
    /\ buckets_ok h buckets'.
Proof.
  intros Hb. unfold RegionsInfo.bucket_Delete.
  destruct (buckets !! storeID) as [rm|] eqn:Hs.
  - destruct (Delete_ok h rm id (Hb _ _ Hs)) as (rm' & -> & Hok).
    run_bind. eexists. split; [reflexivity|].
    intros s x. rewrite lookup_insert. case_decide.
    + intros [= <-]. exact Hok.
    + apply Hb.
  - simpl. eauto.
Qed.

Lemma bucket_Put_ok (h : gmap positive RegionInfo)
  (buckets buckets' : gmap N (regionMap.t positive)) (storeID : N)
  (region : positive) :
  buckets_ok h buckets -> is_Some (Region (deref h region)) ->
  RegionsInfo.bucket_Put h buckets storeID region = Returned buckets' ->
  buckets_ok h buckets'.
Proof.
  intros Hb Hregion. unfold RegionsInfo.bucket_Put.
  set (st := match buckets !! storeID with
             | Some rm => rm
             | None => regionMap.newRegionMap
             end).
  assert (Hst : rm_ok h st).
  { subst st. destruct (buckets !! storeID) as [rm|] eqn:Hs;
      [exact (Hb _ _ Hs) | apply rm_ok_new]. }
  destruct (regionMap.Put (deref h) (Some st) region) as [rm'|] eqn:Hput;
    [|discriminate].
  run_bind. intros [= <-].
  intros s x. rewrite lookup_insert. case_decide.
  - intros [= <-]. exact (Put_ok _ _ _ _ Hst Hregion Hput).
  - apply Hb.
Qed.

Lemma RemoveRegion_loop_ok (h : gmap positive RegionInfo) (id : N)
  (peers : list Peer) (r : RegionsInfo.t T) :
  index_ok r h ->
  exists r', RegionsInfo.RemoveRegion_loop h id peers r = Returned r'
             /\ index_ok r' h.
Proof.
  revert r. induction peers as [|peer rest IH]; intros r Hok; simpl.
  - eauto.
  - destruct Hok as [O1 O2 O3 O4 O5].
    destruct (bucket_Delete_ok h _ (StoreId peer) id O2) as (l & -> & Hl).
    destruct (bucket_Delete_ok h _ (StoreId peer) id O3) as (f & -> & Hf).
    destruct (bucket_Delete_ok h _ (StoreId peer) id O4) as (n & -> & Hn).
    destruct (bucket_Delete_ok h _ (StoreId peer) id O5) as (p & -> & Hp).
    run_bind. apply IH. split; assumption.
Qed.

(** On an index that satisfies the invariant [RemoveRegion] of a region
    returns and keeps the invariant. *)
Lemma RemoveRegion_ok (r : RegionsInfo.t T) (h : gmap positive RegionInfo)
  (region : positive) :
  index_ok r h ->
  exists r', RegionsInfo.RemoveRegion r h (Some region) = Returned r'
             /\ index_ok r' h.
Proof.
  intros [O1 O2 O3 O4 O5]. unfold RegionsInfo.RemoveRegion.
  destruct (Delete_ok h _ (GetId (deref h region)) O1) as (regions' & -> & Hreg).
  run_bind. apply RemoveRegion_loop_ok.
  split; assumption.
Qed.

Lemma index_residents (r : RegionsInfo.t T) (h : gmap positive RegionInfo) :
  index_ok r h ->
  forall id p, regionMap.Get (Some (RegionsInfo.regions r)) id = Some p ->
               is_Some (Region (deref h p)).
Proof.
  intros [[_ Hreg] _ _ _ _] id p. simpl.
  destruct (regionMap.m (RegionsInfo.regions r) !! id) as [e|] eqn:He; [|discriminate].
  intros [= <-]. exact (Hreg id e He).
Qed.

(** On such an index [GetRegion] returns, and only adds to the heap. *)
Lemma GetRegion_ok (r : RegionsInfo.t T) (h : gmap positive RegionInfo) (id : N) :
  index_ok r h ->
  exists res h', RegionsInfo.GetRegion r h id = Returned (res, h') /\ heap_le h h'.
Proof.
  intros Hok.
  destruct (GetRegion_spec r h id (index_residents r h Hok id))
    as (res & h' & Hget & Hle & _).
  exists res, h'. split; [exact Hget | exact Hle].
Qed.

Lemma AddRegion_overlaps_ok (overlaps : list MetaRegion) (r r1 : RegionsInfo.t T)
  (h h1 : gmap positive RegionInfo) :
  index_ok r h ->
  RegionsInfo.AddRegion_overlaps overlaps r h = Returned (r1, h1) ->
  index_ok r1 h1 /\ heap_le h h1.
Proof.
  revert r h. induction overlaps as [|item rest IH]; intros r h Hok; simpl.
  - intros [= <- <-]. split; [exact Hok | apply heap_le_refl].
  - destruct (GetRegion_ok r h (Id item) Hok) as (c & h' & -> & Hle).
    run_bind.
    destruct c as [q|]; [|discriminate].
    destruct (RemoveRegion_ok r h' q (index_ok_heap_le _ _ _ Hle Hok))
      as (r' & -> & Hok').
    run_bind. intros Hrest.
    destruct (IH _ _ Hok' Hrest) as [Hok1 Hle1].
    split; [exact Hok1 | exact (heap_le_trans _ _ _ Hle Hle1)].
Qed.

Lemma AddRegion_voters_ok (h : gmap positive RegionInfo) (region : positive)
  (leader : Peer) (voters : list Peer) (r r' : RegionsInfo.t T) :
  index_ok r h -> is_Some (Region (deref h region)) ->
  RegionsInfo.AddRegion_voters h region leader voters r = Returned r' ->
  index_ok r' h.
Proof.
  intros Hok Hregion. revert r Hok.
  induction voters as [|peer rest IH]; intros r Hok; simpl.
  - intros [= <-]. exact Hok.
  - destruct Hok as [O1 O2 O3 O4 O5].
    destruct (PeerId peer =? PeerId leader)%N.
    + destruct (RegionsInfo.bucket_Put h (RegionsInfo.leaders r) _ region)
        as [b|] eqn:Hb; [|discriminate].
      run_bind. apply IH. split; try assumption.
      exact (bucket_Put_ok _ _ _ _ _ O2 Hregion Hb).
    + destruct (RegionsInfo.bucket_Put h (RegionsInfo.followers r) _ region)
        as [b|] eqn:Hb; [|discriminate].
      run_bind. apply IH. split; try assumption.
      exact (bucket_Put_ok _ _ _ _ _ O3 Hregion Hb).
Qed.

Lemma AddRegion_learners_ok (h : gmap positive RegionInfo) (region : positive)
  (peers : list Peer) (r r' : RegionsInfo.t T) :
  index_ok r h -> is_Some (Region (deref h region)) ->
  RegionsInfo.AddRegion_learners h region peers r = Returned r' ->
  index_ok r' h.
Proof.
  intros Hok Hregion. revert r Hok.
  induction peers as [|peer rest IH]; intros r Hok; simpl.
  - intros [= <-]. exact Hok.
  - destruct Hok as [O1 O2 O3 O4 O5].
    destruct (RegionsInfo.bucket_Put h (RegionsInfo.learners r) _ region)
      as [b|] eqn:Hb; [|discriminate].
    run_bind. apply IH. split; try assumption.
    exact (bucket_Put_ok _ _ _ _ _ O4 Hregion Hb).
Qed.

Lemma AddRegion_pending_ok (h : gmap positive RegionInfo) (region : positive)
  (peers : list Peer) (r r' : RegionsInfo.t T) :
  index_ok r h -> is_Some (Region (deref h region)) ->
  RegionsInfo.AddRegion_pending h region peers r = Returned r' ->
  index_ok r' h.
Proof.
  intros Hok Hregion. revert r Hok.
  induction peers as [|peer rest IH]; intros r Hok; simpl.
  - intros [= <-]. exact Hok.
  - destruct Hok as [O1 O2 O3 O4 O5].
    destruct (RegionsInfo.bucket_Put h (RegionsInfo.pendingPeers r) _ region)
      as [b|] eqn:Hb; [|discriminate].
    run_bind. apply IH. split; try assumption.
    exact (bucket_Put_ok _ _ _ _ _ O5 Hregion Hb).
Qed.

(** [AddRegion] of a region that carries a meta region keeps the invariant
    and only adds to the heap. *)
Lemma AddRegion_ok (r r' : RegionsInfo.t T) (h h' : gmap positive RegionInfo)
  (region : positive) (overlaps : list MetaRegion) :
  index_ok r h -> is_Some (Region (deref h region)) ->
  RegionsInfo.AddRegion r h region = Returned (overlaps, r', h') ->
  index_ok r' h' /\ heap_le h h'.
Proof.
  intros Hok Hregion Hadd.
  destruct (AddRegion_inv _ _ _ _ _ _ Hadd)
    as (tree' & r1 & r2 & _ & Hov & E1 & E2 & E3 & E4 & Hput & Hrest).
  apply AddRegion_overlaps_ok in Hov as [[O1 O2 O3 O4 O5] Hle].
  2:{ destruct Hok. split; assumption. }
  assert (Hregion' : is_Some (Region (deref h' region)))
    by (rewrite (deref_heap_le h h'); assumption).
  assert (Hok2 : index_ok r2 h').
  { split; [exact (Put_ok _ _ _ _ O1 Hregion' Hput) | | | |].
    - rewrite E1. exact O2.
    - rewrite E2. exact O3.
    - rewrite E3. exact O4.
    - rewrite E4. exact O5. }
  split; [|exact Hle].
  destruct (Leader (deref h' region)) as [leader|].
  - destruct Hrest as (r3 & r4 & H3 & H4 & H5).
    eapply AddRegion_pending_ok; [|exact Hregion'|exact H5].
    eapply AddRegion_learners_ok; [|exact Hregion'|exact H4].
    eapply AddRegion_voters_ok; [exact Hok2|exact Hregion'|exact H3].
  - subst r'. exact Hok2.
Qed.

Lemma SetRegion_ok (r r' : RegionsInfo.t T) (h h' : gmap positive RegionInfo)
  (region : positive) (overlaps : list MetaRegion) :
  index_ok r h -> is_Some (Region (deref h region)) ->
  RegionsInfo.SetRegion r h region = Returned (overlaps, r', h') ->
  index_ok r' h' /\ heap_le h h'.
Proof.
  intros Hok Hregion. unfold RegionsInfo.SetRegion.
  destruct (regionMap.Get (Some (RegionsInfo.regions r)) (GetId (deref h region)))
    as [origin|].
  - destruct (RemoveRegion_ok r h origin Hok) as (r0 & -> & Hok0).
    run_bind. apply AddRegion_ok; assumption.
  - apply AddRegion_ok; assumption.
Qed.

(** On an index that satisfies the invariant the three maps that the random
    sampling draws from are consistent. *)
Lemma index_ok_sampled_maps (r : RegionsInfo.t T) (h : gmap positive RegionInfo)
  (storeID : N) :
  index_ok r h ->
  rm_consistent_opt (deref h) (Some (RegionsInfo.regions r))
  /\ rm_consistent_opt (deref h) (RegionsInfo.leaders r !! storeID)
  /\ rm_consistent_opt (deref h) (RegionsInfo.followers r !! storeID).
Proof.
  intros [O1 O2 O3 _ _]. split; [exact (proj1 O1)|]. split.
  - destruct (RegionsInfo.leaders r !! storeID) as [rm|] eqn:E; [|exact I].
    exact (proj1 (O2 _ _ E)).
  - destruct (RegionsInfo.followers r !! storeID) as [rm|] eqn:E; [|exact I].
    exact (proj1 (O3 _ _ E)).
Qed.

(** [SearchRegion] and [ScanRange] hand out what [GetRegion] returns. *)
Lemma SearchRegion_ok (r : RegionsInfo.t T) (h : gmap positive RegionInfo)
  (regionKey : list byte) :
  index_ok r h ->
  exists res h',
    RegionsInfo.SearchRegion r h regionKey = Returned (res, h')
    /\ heap_le h h'
    /\ forall q, res = Some q -> h !! q = None.
Proof.
  intros Hok. unfold RegionsInfo.SearchRegion.
  destruct (tree_search (RegionsInfo.tree r) regionKey) as [meta|].
  - destruct (GetRegion_spec r h (Id meta) (index_residents r h Hok (Id meta)))
      as (res & h' & Hget & Hle & Hcase).
    exists res, h'. split; [exact Hget|]. split; [exact Hle|].
    intros q ->.
    destruct (regionMap.Get (Some (RegionsInfo.regions r)) (Id meta));
      [|destruct Hcase; discriminate].
    destruct Hcase as (q' & c & [= <-] & Hfresh & _). exact Hfresh.
  - exists None, h. split; [reflexivity|]. split; [apply heap_le_refl|]. discriminate.
Qed.

Lemma ScanRange_visit_ok (r : RegionsInfo.t T) (visited : list MetaRegion)
  (limit : nat) (res : list (option positive)) (h : gmap positive RegionInfo) :
  index_ok r h ->
  exists res' h',
    RegionsInfo.ScanRange_visit r visited limit res h = Returned (res ++ res', h')
    /\ heap_le h h'
    /\ forall q, Some q ∈ res' -> h !! q = None.
Proof.
  revert res h. induction visited as [|meta rest IH]; intros res h Hok; simpl.
  - exists [], h. rewrite app_nil_r. split; [reflexivity|].
    split; [apply heap_le_refl|]. intros q Hq. inversion Hq.
  - destruct (GetRegion_spec r h (Id meta) (index_residents r h Hok (Id meta)))
      as (c & h1 & -> & Hle & Hcase).
    run_bind.
    assert (Hc : forall q, c = Some q -> h !! q = None).
    { intros q ->.
      destruct (regionMap.Get (Some (RegionsInfo.regions r)) (Id meta));
        [|destruct Hcase; discriminate].
      destruct Hcase as (q' & c' & [= <-] & Hfresh & _). exact Hfresh. }
    destruct (length (res ++ [c]) <? limit)%nat.
    + destruct (IH (res ++ [c]) h1 (index_ok_heap_le _ _ _ Hle Hok))
        as (res' & h' & -> & Hle' & Hfresh).
      exists (c :: res'), h'. rewrite <- app_assoc. split; [reflexivity|].
      split; [exact (heap_le_trans _ _ _ Hle Hle')|].
      intros q Hq. apply elem_of_cons in Hq as [Hq|Hq]; [apply Hc; congruence|].
      specialize (Hfresh q Hq).
      destruct (h !! q) as [w|] eqn:Hw; [|reflexivity].
      rewrite <- Hfresh, <- Hw. symmetry. apply Hle. rewrite Hw. eauto.
    + exists [c], h1. split; [reflexivity|]. split; [exact Hle|].
      intros q Hq. apply list_elem_of_singleton in Hq. apply Hc. congruence.
Qed.

End index_invariant.

(** A write through a pointer that the heap [h] does not hold leaves every
    object of [h] as it is: what [GetRegion], [SearchRegion], [ScanRange]
    and [GetAdjacentRegions] return can be written to freely. *)
Lemma store_fresh_keeps (h h' : gmap positive RegionInfo) (q p : positive)
  (v : RegionInfo) :
  heap_le h h' -> h !! q = None -> is_Some (h !! p) ->
  deref (store h' q v) p = deref h p.
Proof.
  intros Hle Hq Hp. unfold deref, store. rewrite !lookup_total_alt.
  rewrite lookup_insert_ne; [rewrite Hle; auto|].
  intros ->. destruct Hp as [w Hw]. congruence.
Qed.

(** ** AddRegion returns *)

Lemma Delete_keeps_others {R : Type} (f : R -> RegionInfo)
  (rm rm' : regionMap.t R) (id k : N) :
  rm_consistent f rm ->
  regionMap.Delete f (Some rm) id = Returned (Some rm') ->
  k <> id -> is_Some (regionMap.m rm !! k) -> is_Some (regionMap.m rm' !! k).
Proof.
  intros W Hdel Hk [e He].
  destruct (regionMap.m rm !! id) as [old|] eqn:Hold.
  - destruct (Delete_found_spec f rm id old W Hold)
      as (lastId & lastEntry & _ & _ & _ & _ & Hdel').
    rewrite Hdel in Hdel'. injection Hdel' as ->. simpl.
    rewrite lookup_delete_ne by congruence.
    rewrite lookup_insert. case_decide; eauto.
  - unfold regionMap.Delete in Hdel. rewrite Hold in Hdel.
    injection Hdel as <-. eauto.
Qed.

Lemma Clone_GetId (v c : RegionInfo) : Clone v = Returned c -> GetId c = GetId v.
Proof.
  intros Hc. apply classifyVoterAndLearner_fields in Hc as (HR & _).
  unfold GetId. rewrite HR. reflexivity.
Qed.

Section AddRegion_returns.
Context {T : Type} `{RegionTree T}.

Lemma RemoveRegion_loop_regions (h : gmap positive RegionInfo) (id : N)
  (peers : list Peer) (r r' : RegionsInfo.t T) :
  RegionsInfo.RemoveRegion_loop h id peers r = Returned r' ->
  RegionsInfo.regions r' = RegionsInfo.regions r
  /\ RegionsInfo.tree r' = RegionsInfo.tree r.
Proof.
  revert r. induction peers as [|peer rest IH]; intros r; simpl.
  - intros [= <-]. auto.
  - destruct (RegionsInfo.bucket_Delete h (RegionsInfo.leaders r) _ id);
      [|discriminate]. run_bind.
    destruct (RegionsInfo.bucket_Delete h (RegionsInfo.followers r) _ id);
      [|discriminate]. run_bind.
    destruct (RegionsInfo.bucket_Delete h (RegionsInfo.learners r) _ id);
      [|discriminate]. run_bind.
    destruct (RegionsInfo.bucket_Delete h (RegionsInfo.pendingPeers r) _ id);
      [|discriminate]. run_bind.
    intros Hrest. apply IH in Hrest. exact Hrest.
Qed.

(** [RemoveRegion] takes the id of the region out of the global map and
    leaves the other ids resident. *)
Lemma RemoveRegion_residents (r r' : RegionsInfo.t T)
  (h : gmap positive RegionInfo) (region : positive) (k : N) :
  index_ok r h ->
  RegionsInfo.RemoveRegion r h (Some region) = Returned r' ->
  k <> GetId (deref h region) ->
  is_Some (regionMap.m (RegionsInfo.regions r) !! k) ->
  is_Some (regionMap.m (RegionsInfo.regions r') !! k).
Proof.
  intros Hok Hrm Hk Hres. unfold RegionsInfo.RemoveRegion in Hrm.
  destruct (Delete_ok h _ (GetId (deref h region)) (ok_regions _ _ Hok))
    as (regions' & Hdel & _).
  rewrite Hdel in Hrm. run_bind in Hrm.
  apply RemoveRegion_loop_regions in Hrm as [-> _]. simpl.
  exact (Delete_keeps_others _ _ _ _ _ (proj1 (ok_regions _ _ Hok)) Hdel Hk Hres).
Qed.

Lemma AddRegion_overlaps_returns (overlaps : list MetaRegion) (r : RegionsInfo.t T)
  (h : gmap positive RegionInfo) :
  index_ok r h ->
  NoDup (Id <$> overlaps) ->
  (forall item, item ∈ overlaps ->
                is_Some (regionMap.m (RegionsInfo.regions r) !! Id item)) ->
  exists r1 h1, RegionsInfo.AddRegion_overlaps overlaps r h = Returned (r1, h1).
Proof.
  revert r h. induction overlaps as [|item rest IH]; intros r h Hok Hnd Hres; simpl.
  - eauto.
  - apply NoDup_cons in Hnd as [Hnotin Hnd].
    destruct (Hres item ltac:(apply list_elem_of_here)) as [e He].
    destruct (GetRegion_spec r h (Id item) (index_residents r h Hok (Id item)))
      as (c & h' & -> & Hle & Hcase).
    run_bind.
    simpl in Hcase. rewrite He in Hcase.
    destruct Hcase as (q & cl & -> & Hfresh & Hclone & ->).
    pose proof (index_ok_heap_le _ _ _ Hle Hok) as Hok'.
    destruct (RemoveRegion_ok r _ q Hok') as (r' & Hrm & Hok'').
    rewrite Hrm. run_bind.
    apply IH; [exact Hok'' | exact Hnd |].
    intros item' Hin.
    apply (RemoveRegion_residents r r' _ q (Id item') Hok' Hrm).
    + rewrite (deref_lookup _ q cl) by apply lookup_insert_eq.
      rewrite (Clone_GetId _ _ Hclone).
      rewrite (rm_key _ _ (proj1 (ok_regions _ _ Hok)) _ _ He).
      intros E. apply Hnotin. rewrite <- E. apply list_elem_of_fmap. eauto.
    + apply Hres. apply list_elem_of_further. exact Hin.
Qed.

(** On an index that satisfies the invariant, [AddRegion] returns whenever
    the overlaps that the tree reports are distinct regions of the index. *)
Lemma AddRegion_returns (r : RegionsInfo.t T) (h : gmap positive RegionInfo)
  (region : positive) :
  index_ok r h ->
  let overlaps := (tree_update (RegionsInfo.tree r) (Region (deref h region))).2 in
  NoDup (Id <$> overlaps) ->
  (forall item, item ∈ overlaps ->
                is_Some (regionMap.m (RegionsInfo.regions r) !! Id item)) ->
  exists r' h', RegionsInfo.AddRegion r h region = Returned (overlaps, r', h').
Proof.
  intros Hok overlaps Hnd Hres. subst overlaps. unfold RegionsInfo.AddRegion.
  destruct (tree_update (RegionsInfo.tree r) (Region (deref h region)))
    as [tree' ov]. cbn [snd] in *.
  destruct (AddRegion_overlaps_returns ov
              (RegionsInfo.mk tree' (RegionsInfo.regions r) (RegionsInfo.leaders r)
                 (RegionsInfo.followers r) (RegionsInfo.learners r)
                 (RegionsInfo.pendingPeers r)) h) as (r1 & h1 & ->);
    [destruct Hok; split; assumption | exact Hnd | exact Hres |].
  run_bind.
  destruct (Put_allocated_returns (deref h1) (RegionsInfo.regions r1) region)
    as [regions' ->]. run_bind.
  destruct (Leader (deref h1 region)) as [leader|]; [|eauto].
  match goal with |- context [RegionsInfo.AddRegion_voters ?a ?b ?c ?d ?e] =>
    destruct (AddRegion_voters_frame a b c d e) as (r3 & -> & _) end.
  run_bind.
  match goal with |- context [RegionsInfo.AddRegion_learners ?a ?b ?c ?d] =>
    destruct (AddRegion_learners_spec a b c d) as (r4 & -> & _) end.
  run_bind.
  match goal with |- context [RegionsInfo.AddRegion_pending ?a ?b ?c ?d] =>
    destruct (AddRegion_pending_spec a b c d) as (r5 & -> & _) end.
  run_bind. eauto.
Qed.

Lemma ScanRange_ok (r : RegionsInfo.t T) (h : gmap positive RegionInfo)
  (startKey : list byte) (limit : nat) :
  index_ok r h ->
  exists res h',
    RegionsInfo.ScanRange r h startKey limit = Returned (res, h')
    /\ heap_le h h'
    /\ forall q, Some q ∈ res -> h !! q = None.
Proof.
  intros Hok. unfold RegionsInfo.ScanRange.
  destruct (ScanRange_visit_ok r (tree_scanRange (RegionsInfo.tree r) startKey)
              limit [] h Hok) as (res & h' & Hrun & Hle & Hfresh).
  exists res, h'. auto.
Qed.

End AddRegion_returns.

(** ** The index on concrete regions *)

(** C1 as stated fails.  Region 1 has a learner on store 3 and a pending
    peer on store 2 but no leader: [AddRegion] on the empty index returns
    with the region in the global map, and neither [learners] of store 3 nor
    [pendingPeers] of store 2 holds it. *)
Lemma C1_counterexample_leaderless_region_not_in_buckets :
  exists r' h',
    RegionsInfo.AddRegion Examples.empty_index (Examples.heap_of None) 1%positive
      = Returned ([], r', h')
    /\ Leader (deref h' 1%positive) = None
    /\ regionMap.Get (Some (RegionsInfo.regions r')) 1%N = Some 1%positive
    /\ GetLearners (deref h' 1%positive) = [Examples.learner3]
    /\ regionMap.Get (RegionsInfo.learners r' !! 3%N) 1%N = None
    /\ PendingPeers (deref h' 1%positive) = [Examples.voter2]
    /\ regionMap.Get (RegionsInfo.pendingPeers r' !! 2%N) 1%N = None.
Proof.
  destruct (RegionsInfo.AddRegion Examples.empty_index (Examples.heap_of None)
              1%positive) as [[[ov r'] h']|] eqn:E;
    vm_compute in E; [|discriminate].
  injection E as <- <- <-.
  eexists _, _. split; [reflexivity|]. vm_compute. repeat split.
Qed.

Lemma C1_witness :
  exists r' h',
    RegionsInfo.AddRegion Examples.empty_index
      (Examples.heap_of (Some Examples.voter1)) 1%positive = Returned ([], r', h')
    /\ regionMap.Get (RegionsInfo.learners r' !! 3%N) 1%N = Some 1%positive
    /\ regionMap.Get (RegionsInfo.pendingPeers r' !! 2%N) 1%N = Some 1%positive.
Proof.
  destruct (RegionsInfo.AddRegion Examples.empty_index
              (Examples.heap_of (Some Examples.voter1)) 1%positive)
    as [[[ov r'] h']|] eqn:E.
  - destruct (C1_led_region_in_learner_and_pending_buckets
                Examples.empty_index r' (Examples.heap_of (Some Examples.voter1)) h'
                1%positive Examples.voter1 ov (or_introl E))
      as [Hlearn Hpend].
    { vm_compute in E. injection E as <- <- <-. reflexivity. }
    assert (Eh : h' = Examples.heap_of (Some Examples.voter1)
                 /\ ov = []).
    { vm_compute in E. injection E as <- <- <-. split; reflexivity. }
    destruct Eh as [-> ->].
    exists r', (Examples.heap_of (Some Examples.voter1)).
    split; [reflexivity|]. split.
    + apply (Hlearn Examples.learner3). apply (bool_decide_unpack _). vm_compute. exact I.
    + apply (Hpend Examples.voter2). apply (bool_decide_unpack _). vm_compute. exact I.
  - vm_compute in E. discriminate.
Defined.

(** C2 at a failing input.  The index holds regions 1, 2 and 3, region 1
    through the pointer 1.  [RandRegion], [RandLeaderRegion] for store 1 and
    [RandFollowerRegion] for store 2 return that very pointer, not a clone:
    after [ApproximateSize = 99] is assigned through the result, the region
    that the index holds has size 99 and [GetRegion] clones that.
    [GetRegion] returns a new address instead, and the same assignment
    through it leaves the region of the index at size 5. *)
Theorem C2_RandRegion_returns_the_stored_pointer :
  let r := Examples.index3.1 in
  let h := Examples.index3.2 in
  regionMap.Get (Some (RegionsInfo.regions r)) 1%N = Some 1%positive
  /\ ApproximateSize (deref h 1%positive) = 5
  /\ (exists g', RegionsInfo.RandRegion r h [] Examples.counter
                 = Returned (Some 1%positive, g'))
  /\ (exists g', RegionsInfo.RandLeaderRegion r h 1%N [] Examples.counter
                 = Returned (Some 1%positive, g'))
  /\ (exists g', RegionsInfo.RandFollowerRegion r h 2%N [] Examples.counter
                 = Returned (Some 1%positive, g'))
  /\ (let h2 := Examples.assign_ApproximateSize h 1%positive 99 in
      ApproximateSize (deref h2 1%positive) = 99
      /\ exists q h3, RegionsInfo.GetRegion r h2 1%N = Returned (Some q, h3)
                      /\ ApproximateSize (deref h3 q) = 99)
  /\ (exists q h1,
        RegionsInfo.GetRegion r h 1%N = Returned (Some q, h1)
        /\ q <> 1%positive
        /\ h !! q = None
        /\ ApproximateSize
             (deref (Examples.assign_ApproximateSize h1 q 99) 1%positive) = 5).
Proof.
  cbv zeta. split; [vm_compute; reflexivity|]. split; [vm_compute; reflexivity|].
  split; [eexists; vm_compute; reflexivity|].
  split; [eexists; vm_compute; reflexivity|].
  split; [eexists; vm_compute; reflexivity|].
  split.
  - split; [vm_compute; reflexivity|].
    destruct (RegionsInfo.GetRegion Examples.index3.1
                (Examples.assign_ApproximateSize Examples.index3.2 1%positive 99) 1%N)
      as [[[q|] h3]|] eqn:E; vm_compute in E; try discriminate.
    injection E as <- <-. eexists _, _. split; [reflexivity|].
    vm_compute. reflexivity.
  - destruct (RegionsInfo.GetRegion Examples.index3.1 Examples.index3.2 1%N)
      as [[[q|] h1]|] eqn:E; vm_compute in E; try discriminate.
    injection E as <- <-. eexists _, _. split; [reflexivity|].
    split; [discriminate|]. split; vm_compute; reflexivity.
Qed.

Lemma residents_have_region {T : Type} (r : RegionsInfo.t T)
  (h : gmap positive RegionInfo) :
  map_Forall (fun _ e => is_Some (Region (deref h (entryRegion e))))
    (regionMap.m (RegionsInfo.regions r)) ->
  forall id p, regionMap.Get (Some (RegionsInfo.regions r)) id = Some p ->
               is_Some (Region (deref h p)).
Proof.
  intros Hall id p. simpl.
  destruct (regionMap.m (RegionsInfo.regions r) !! id) as [e|] eqn:He; [|discriminate].
  intros [= <-]. exact (Hall id e He).
Qed.

Lemma C6_witness :
  exists rm res g',
    rm_run (deref (Examples.heap_of (Some Examples.voter1))) Examples.put3
      regionMap.newRegionMap = Returned rm
    /\ randRegion (deref (Examples.heap_of (Some Examples.voter1))) (Some rm)
         [HealthRegion] Examples.counter = Returned (res, g')
    /\ res = Some 2%positive
    /\ (cursor g' <= 10)%nat.
Proof.
  destruct (rm_run_consistent (deref (Examples.heap_of (Some Examples.voter1)))
              Examples.put3 regionMap.newRegionMap
              (rm_consistent_new _)) as (rm & Hrun & W).
  destruct (C6_randRegion_first_passing_of_ten_samples
              Examples.index3.1 (Examples.heap_of (Some Examples.voter1)) 1%N
              (Some rm) [HealthRegion] Examples.counter W)
    as (_ & _ & _ & res & g' & Hrand & Hres & _ & _ & Hcur & _).
  exists rm, res, g'. split; [exact Hrun|]. split; [exact Hrand|].
  split; [|exact (proj2 Hcur)].
  rewrite Hres. vm_compute in Hrun. injection Hrun as <-.
  vm_compute. reflexivity.
Defined.

Lemma C4_witness :
  exists rm rm',
    rm_run (deref Examples.heap4) Examples.put3 regionMap.newRegionMap = Returned rm
    /\ regionMap.ids rm = [1; 2; 3]%N
    /\ regionMap.Delete (deref Examples.heap4) (Some rm) 1%N = Returned (Some rm')
    /\ regionMap.ids rm' = [3; 2]%N
    /\ (pos <$> regionMap.m rm' !! 3%N) = Some 0%nat.
Proof.
  destruct (C4_id_vector_permutation_and_positions (deref Examples.heap4))
    as (Hrun & Hdel & _).
  destruct (Hrun Examples.put3) as (rm & Erun & W & _ & _).
  assert (Erm : regionMap.ids rm = [1; 2; 3]%N
                /\ regionMap.m rm !! 1%N = Some (mkEntry 1%positive 0%nat)).
  { vm_compute in Erun. injection Erun as <-. split; vm_compute; reflexivity. }
  destruct Erm as [Eids Eold].
  destruct (Hdel rm 1%N _ W Eold)
    as (lastId & lastEntry & rm' & Hlast & Hl & Edel & Eids' & _ & Hmoved & _).
  rewrite Eids in Hlast, Eids'. injection Hlast as <-.
  exists rm, rm'. split; [exact Erun|]. split; [exact Eids|].
  split; [exact Edel|]. split; [exact Eids'|].
  rewrite Hmoved by discriminate. reflexivity.
Defined.

Lemma C5_witness :
  exists rm rm',
    rm_run (deref Examples.heap4) Examples.put3 regionMap.newRegionMap = Returned rm
    /\ regionMap.totalSize rm = 16
    /\ regionMap.Put (deref Examples.heap4) (Some rm) 4%positive = Returned rm'
    /\ regionMap.totalSize rm' = 19
    /\ regionMap.totalKeys rm' = 15.
Proof.
  destruct (C5_running_totals_are_sums (deref Examples.heap4)) as (Hrun & Hput).
  destruct (Hrun Examples.put3) as (rm & Erun & Hsize & Hkeys & _).
  assert (Erm : regionMap.totalSize rm = 16 /\ regionMap.totalKeys rm = 12
                /\ regionMap.m rm !! 1%N = Some (mkEntry 1%positive 0%nat)).
  { vm_compute in Erun. injection Erun as <-. repeat split. }
  destruct Erm as (Es & Ek & Eold).
  destruct (Hput rm 4%positive (mkEntry 1%positive 0%nat) Eold)
    as (rm' & Eput & Es' & Ek' & _).
  exists rm, rm'. split; [exact Erun|]. split; [exact Es|].
  split; [exact Eput|].
  rewrite Es', Ek', Es, Ek. split; vm_compute; reflexivity.
Defined.

(** ** The scenarios of the specification on the list tree *)

(** Simple insert and lookup: one region on [a, c) led by the peer on
    store 1. *)
Example scenario_insert_and_lookup :
  Examples.add_all [1%positive] Examples.empty_index
    (Examples.heap_of (Some Examples.voter1)) = Returned Examples.index1
  /\ RegionsInfo.Length Examples.index1.1 = 1%nat
  /\ RegionsInfo.TreeLength Examples.index1.1 = 1%nat
  /\ RegionsInfo.GetStoreLeaderCount Examples.index1.1 1%N = 1%nat
  /\ RegionsInfo.GetStoreFollowerCount Examples.index1.1 2%N = 1%nat
  /\ RegionsInfo.GetStoreLearnerCount Examples.index1.1 3%N = 1%nat
  /\ RegionsInfo.GetStorePendingPeerCount Examples.index1.1 2%N = 1%nat
  /\ (exists q h',
        RegionsInfo.SearchRegion Examples.index1.1 Examples.index1.2 ["b"%byte]
        = Returned (Some q, h')
        /\ GetId (deref h' q) = 1%N)
  /\ RegionsInfo.SearchRegion Examples.index1.1 Examples.index1.2 ["c"%byte]
     = Returned (None, Examples.index1.2).
Proof.
  repeat (split; [vm_compute; reflexivity|]). split.
  - destruct (RegionsInfo.SearchRegion Examples.index1.1 Examples.index1.2
                ["b"%byte]) as [[[q|] h']|] eqn:E; vm_compute in E; try discriminate.
    injection E as <- <-. eexists _, _. split; [reflexivity|].
    vm_compute. reflexivity.
  - vm_compute. reflexivity.
Qed.

(** Overlapping upsert: with [a, c) and [c, e) resident, [SetRegion] of a
    region on [b, d) reports both and leaves the newcomer alone. *)
Example scenario_overlapping_upsert :
  Examples.add_all [1; 2]%positive Examples.empty_index Examples.heap9
    = Returned Examples.index12
  /\ exists r' h',
       RegionsInfo.SetRegion Examples.index12.1 Examples.index12.2 9%positive
       = Returned ([Examples.meta1; Examples.meta2], r', h')
       /\ regionMap.ids (RegionsInfo.regions r') = [4%N]
       /\ RegionsInfo.TreeLength r' = 1%nat
       /\ RegionsInfo.GetStoreLeaderCount r' 1%N = 1%nat
       /\ RegionsInfo.GetStoreFollowerCount r' 2%N = 0%nat.
Proof.
  split; [vm_compute; reflexivity|].
  destruct (RegionsInfo.SetRegion Examples.index12.1 Examples.index12.2 9%positive)
    as [[[ov r'] h']|] eqn:E; vm_compute in E; [|discriminate].
  injection E as <- <- <-. eexists _, _. split; [reflexivity|].
  repeat split; vm_compute; reflexivity.
Qed.

(** Adjacency with a gap: region 3 on [f, h) has region 2 on [c, e) before
    it in the tree, across a gap, and nothing after it. *)
Example scenario_adjacency_with_gap :
  exists h',
    RegionsInfo.GetAdjacentRegions Examples.index3.1 Examples.index3.2 3%positive
    = Returned (None, None, h').
Proof.
  destruct (RegionsInfo.GetAdjacentRegions Examples.index3.1 Examples.index3.2
              3%positive) as [[[prev next] h']|] eqn:E;
    vm_compute in E; [|discriminate].
  injection E as <- <- <-. eexists. reflexivity.
Qed.

(** * Properties of the rest of the region code *)

(** ** Lists: the first match and the two halves of a test *)

Lemma filter_partition_Permutation {A : Type} (f : A -> bool) (l : list A) :
  List.filter (fun x => negb (f x)) l ++ List.filter f l ≡ₚ l.
Proof.
  induction l as [|a l IH]; simpl; [reflexivity|].
  destruct (f a); simpl.
  - rewrite <- Permutation_middle. by constructor.
  - by constructor.
Qed.

Lemma elem_of_List_filter {A : Type} (f : A -> bool) (l : list A) (x : A) :
  x ∈ List.filter f l <-> x ∈ l /\ f x = true.
Proof. rewrite !list_elem_of_In. apply filter_In. Qed.

Lemma find_List_filter {A : Type} (f g : A -> bool) (l : list A) :
  List.find f (List.filter g l) = List.find (fun x => g x && f x) l.
Proof.
  induction l as [|a l IH]; simpl; [reflexivity|].
  destruct (g a); simpl; [destruct (f a)|]; auto.
Qed.

Lemma find_ext {A : Type} (f g : A -> bool) (l : list A) :
  (forall x, f x = g x) -> List.find f l = List.find g l.
Proof.
  intros E. induction l as [|a l IH]; simpl; [reflexivity|].
  rewrite E, IH. reflexivity.
Qed.

Lemma find_Some_elem {A : Type} (f : A -> bool) (l : list A) (x : A) :
  List.find f l = Some x -> x ∈ l /\ f x = true.
Proof. intros E. apply find_some in E. by rewrite list_elem_of_In. Qed.

Lemma find_None_iff {A : Type} (f : A -> bool) (l : list A) :
  List.find f l = None <-> forall x, x ∈ l -> f x = false.
Proof.
  split.
  - intros E x Hx. apply (find_none f l E). by apply list_elem_of_In.
  - intros E. induction l as [|a l IH]; simpl; [reflexivity|].
    rewrite (E a) by left. apply IH. intros x Hx. apply E. by right.
Qed.

(** The first match of a test [f], against the first matches of [f] with
    a second test [g] and with its negation. *)
Lemma find_split {A : Type} (f g : A -> bool) (l : list A) :
  (List.find f l = None
   <-> List.find (fun x => f x && g x) l = None
       /\ List.find (fun x => f x && negb (g x)) l = None)
  /\ (forall p, List.find f l = Some p ->
        if g p then List.find (fun x => f x && g x) l = Some p
        else List.find (fun x => f x && negb (g x)) l = Some p).
Proof.
  induction l as [|a l [IH1 IH2]]; simpl.
  - split; [tauto | discriminate].
  - destruct (f a) eqn:Ef; simpl.
    + split.
      * split; [discriminate|]. destruct (g a); simpl; intros [? ?]; discriminate.
      * intros p [= <-]. destruct (g a); reflexivity.
    + split; [exact IH1 | exact IH2].
Qed.

(** ** The roles of a region *)

Lemma classify_loop_spec (ps ls vs : list Peer) :
  classify_loop ps ls vs
  = (ls ++ List.filter IsLearner ps,
     vs ++ List.filter (fun p => negb (IsLearner p)) ps).
Proof.
  revert ls vs. induction ps as [|p ps IH]; intros ls vs; simpl.
  - by rewrite !app_nil_r.
  - destruct (IsLearner p); simpl; rewrite IH, <- app_assoc; reflexivity.
Qed.

Lemma classifyVoterAndLearner_spec (r : RegionInfo) (meta : MetaRegion) :
  Region r = Some meta ->
  classifyVoterAndLearner r
  = Returned (set_roles r (List.filter IsLearner (Peers meta))
                (List.filter (fun p => negb (IsLearner p)) (Peers meta))).
Proof.
  intros E. unfold classifyVoterAndLearner. rewrite E, classify_loop_spec.
  reflexivity.
Qed.

Lemma classified_eq (r : RegionInfo) :
  classified r ->
  set_roles r (List.filter IsLearner (GetPeers r))
    (List.filter (fun p => negb (IsLearner p)) (GetPeers r)) = r.
Proof. intros [E1 E2]. destruct r; simpl in *. by rewrite <- E1, <- E2. Qed.

Lemma Clone_spec (r : RegionInfo) (meta : MetaRegion) :
  Region r = Some meta ->
  Clone r
  = Returned (set_roles r (List.filter IsLearner (Peers meta))
                (List.filter (fun p => negb (IsLearner p)) (Peers meta))).
Proof.
  intros E. unfold Clone. erewrite classifyVoterAndLearner_spec by exact E.
  reflexivity.
Qed.

Lemma classified_eq_meta (r : RegionInfo) (meta : MetaRegion) :
  Region r = Some meta -> classified r ->
  set_roles r (List.filter IsLearner (Peers meta))
    (List.filter (fun p => negb (IsLearner p)) (Peers meta)) = r.
Proof.
  intros E H. pose proof (classified_eq r H) as Heq.
  unfold GetPeers in Heq. rewrite E in Heq. exact Heq.
Qed.

Lemma classified_set_roles (r : RegionInfo) (meta : MetaRegion) :
  Region r = Some meta ->
  classified (set_roles r (List.filter IsLearner (Peers meta))
                (List.filter (fun p => negb (IsLearner p)) (Peers meta))).
Proof. intros E. unfold classified, GetPeers. simpl. rewrite E. by split. Qed.

Lemma Clone_classified (r : RegionInfo) :
  is_Some (Region r) -> classified r -> Clone r = Returned r.
Proof.
  intros [meta E] H. rewrite (Clone_spec r meta E).
  by rewrite (classified_eq_meta r meta E H).
Qed.

(** X1.  [classifyVoterAndLearner] panics on a region without meta region
    and otherwise splits the peers, in their order, into the learners and
    the voters: every peer is in exactly one of the two slices, the two
    together are a permutation of the peers, and classifying again changes
    nothing.  [NewRegionInfo] returns the classified region with the given
    leader and no other data, and panics on a nil meta region. *)
Theorem X1_classification_partitions_the_peers (r : RegionInfo) :
  (Region r = None -> classifyVoterAndLearner r = Fault)
  /\ (forall meta, Region r = Some meta ->
      exists r',
        classifyVoterAndLearner r = Returned r'
        /\ Region r' = Some meta
        /\ Learners r' = List.filter IsLearner (Peers meta)
        /\ Voters r' = List.filter (fun p => negb (IsLearner p)) (Peers meta)
        /\ (forall p, p ∈ Peers meta <-> p ∈ Voters r' \/ p ∈ Learners r')
        /\ (forall p, p ∈ Voters r' -> p ∈ Learners r' -> False)
        /\ Voters r' ++ Learners r' ≡ₚ Peers meta
        /\ (length (Voters r') + length (Learners r') = length (Peers meta))%nat
        /\ classifyVoterAndLearner r' = Returned r')
  /\ (forall leader, NewRegionInfo None leader = Fault)
  /\ (forall meta leader,
      exists r',
        NewRegionInfo (Some meta) leader = Returned r'
        /\ Region r' = Some meta /\ Leader r' = leader
        /\ classified r'
        /\ DownPeers r' = [] /\ PendingPeers r' = []
        /\ ApproximateSize r' = 0 /\ ApproximateKeys r' = 0).
Proof.
  split; [|split; [|split]].
  - intros E. unfold classifyVoterAndLearner. by rewrite E.
  - intros meta E. eexists. split; [by apply classifyVoterAndLearner_spec|].
    cbn [set_roles Region Learners Voters].
    split; [exact E|]. split; [reflexivity|]. split; [reflexivity|].
    split; [|split; [|split; [|split]]].
    + intros p. rewrite !elem_of_List_filter.
      destruct (IsLearner p); simpl; intuition congruence.
    + intros p. rewrite !elem_of_List_filter.
      intros [_ Hv] [_ Hl]. rewrite Hl in Hv. discriminate.
    + apply filter_partition_Permutation.
    + rewrite <- length_app.
      apply Permutation_length, filter_partition_Permutation.
    + erewrite classifyVoterAndLearner_spec by (simpl; exact E).
      reflexivity.
  - intros leader. reflexivity.
  - intros meta leader. eexists. split.
    + unfold NewRegionInfo. by apply classifyVoterAndLearner_spec.
    + repeat split.
Qed.

(** X2.  [Clone] panics on a region without meta region.  Otherwise the
    clone has the fields of the original and freshly classified roles; a
    clone of the clone is the clone; and the clone equals the original
    exactly when the roles of the original were classified. *)
Theorem X2_Clone_copies_fields_and_reclassifies (r : RegionInfo) :
  (Region r = None -> Clone r = Fault)
  /\ (forall meta, Region r = Some meta ->
      exists c,
        Clone r = Returned c
        /\ Region c = Region r /\ Leader c = Leader r
        /\ DownPeers c = DownPeers r /\ PendingPeers c = PendingPeers r
        /\ WrittenBytes c = WrittenBytes r /\ ReadBytes c = ReadBytes r
        /\ ApproximateSize c = ApproximateSize r
        /\ ApproximateKeys c = ApproximateKeys r
        /\ classified c
        /\ Clone c = Returned c
        /\ (classified r <-> c = r)).
Proof.
  split.
  - intros E. unfold Clone, classifyVoterAndLearner. simpl. by rewrite E.
  - intros meta E. eexists. split; [by apply Clone_spec|].
    assert (Hc : classified
              (set_roles r (List.filter IsLearner (Peers meta))
                 (List.filter (fun p => negb (IsLearner p)) (Peers meta)))).
    { unfold classified, GetPeers. simpl. rewrite E. simpl. by split. }
    repeat (split; [reflexivity|]).
    split; [exact Hc|]. split.
    + erewrite Clone_spec by (simpl; exact E). reflexivity.
    + split.
      * intros H. by apply classified_eq_meta.
      * intros <-. exact Hc.
Qed.

(** ** Peers by store and by id *)

Lemma GetStoreVoter_classified (r : RegionInfo) (storeID : N) :
  classified r ->
  GetStoreVoter r storeID
  = List.find (fun p => (StoreId p =? storeID)%N && negb (IsLearner p)) (GetPeers r).
Proof.
  intros [_ E]. unfold GetStoreVoter. rewrite E, find_List_filter.
  apply find_ext. intros x. apply andb_comm.
Qed.

Lemma GetStoreLearner_classified (r : RegionInfo) (storeID : N) :
  classified r ->
  GetStoreLearner r storeID
  = List.find (fun p => (StoreId p =? storeID)%N && IsLearner p) (GetPeers r).
Proof.
  intros [E _]. unfold GetStoreLearner. rewrite E, find_List_filter.
  apply find_ext. intros x. apply andb_comm.
Qed.

(** X3.  On a region whose roles are classified, the lookups by store
    agree: there is no peer on a store exactly when there is neither a
    voter nor a learner on it, the first peer on a store is the first
    voter or the first learner on it according to its role, and a voter
    lookup never returns a learner nor a learner lookup a voter. *)
Theorem X3_store_lookups_agree_on_classified_regions
  (r : RegionInfo) (storeID : N) :
  classified r ->
  (GetStorePeer r storeID = None
   <-> GetStoreVoter r storeID = None /\ GetStoreLearner r storeID = None)
  /\ (forall p, GetStorePeer r storeID = Some p ->
        p ∈ GetPeers r /\ StoreId p = storeID
        /\ (if IsLearner p then GetStoreLearner r storeID = Some p
            else GetStoreVoter r storeID = Some p))
  /\ (forall p, GetStoreVoter r storeID = Some p ->
        p ∈ GetPeers r /\ StoreId p = storeID /\ IsLearner p = false)
  /\ (forall p, GetStoreLearner r storeID = Some p ->
        p ∈ GetPeers r /\ StoreId p = storeID /\ IsLearner p = true).
Proof.
  intros Hc.
  rewrite (GetStoreVoter_classified r storeID Hc).
  rewrite (GetStoreLearner_classified r storeID Hc).
  unfold GetStorePeer.
  destruct (find_split (fun p => (StoreId p =? storeID)%N) IsLearner (GetPeers r))
    as [F1 F2].
  split; [|split; [|split]].
  - rewrite F1. tauto.
  - intros p E. destruct (find_Some_elem _ _ _ E) as [Hin Hs].
    apply N.eqb_eq in Hs. split; [exact Hin|]. split; [exact Hs|].
    exact (F2 p E).
  - intros p E. destruct (find_Some_elem _ _ _ E) as [Hin Hs].
    apply andb_true_iff in Hs as [Hs Hl]. apply N.eqb_eq in Hs.
    apply negb_true_iff in Hl. auto.
  - intros p E. destruct (find_Some_elem _ _ _ E) as [Hin Hs].
    apply andb_true_iff in Hs as [Hs Hl]. apply N.eqb_eq in Hs. auto.
Qed.

(** The region of the examples has classified roles: its first peer on
    store 3 is its learner. *)
Lemma X3_witness :
  GetStorePeer (Examples.region1 None) 3%N = Some Examples.learner3
  /\ GetStoreLearner (Examples.region1 None) 3%N = Some Examples.learner3
  /\ GetStoreVoter (Examples.region1 None) 3%N = None.
Proof.
  assert (Hc : classified (Examples.region1 None)) by (split; reflexivity).
  pose proof (X3_store_lookups_agree_on_classified_regions
                (Examples.region1 None) 3%N Hc) as (_ & H2 & _).
  destruct (H2 Examples.learner3 eq_refl) as (_ & _ & H3).
  split; [reflexivity|]. split; [exact H3 | reflexivity].
Defined.

(** X4.  The lookups among the pending peers agree: no pending peer has
    the id exactly when neither a pending voter nor a pending learner has
    it; the first pending peer with the id is the first pending learner or
    the first pending voter with it, according to its role; and what the
    voter and learner lookups return has the id and the role. *)
Theorem X4_pending_lookups_agree (r : RegionInfo) (peerID : N) :
  (GetPendingPeer r peerID = None
   <-> GetPendingVoter r peerID = None /\ GetPendingLearner r peerID = None)
  /\ (forall p, GetPendingPeer r peerID = Some p ->
        p ∈ PendingPeers r /\ PeerId p = peerID
        /\ (if IsLearner p then GetPendingLearner r peerID = Some p
            else GetPendingVoter r peerID = Some p))
  /\ (forall p, GetPendingVoter r peerID = Some p ->
        p ∈ PendingPeers r /\ PeerId p = peerID /\ IsLearner p = false)
  /\ (forall p, GetPendingLearner r peerID = Some p ->
        p ∈ PendingPeers r /\ PeerId p = peerID /\ IsLearner p = true).
Proof.
  unfold GetPendingPeer, GetPendingVoter, GetPendingLearner.
  destruct (find_split (fun p => (PeerId p =? peerID)%N) IsLearner (PendingPeers r))
    as [F1 F2].
  split; [|split; [|split]].
  - rewrite F1. tauto.
  - intros p E. destruct (find_Some_elem _ _ _ E) as [Hin Hs].
    apply N.eqb_eq in Hs. split; [exact Hin|]. split; [exact Hs|].
    exact (F2 p E).
  - intros p E. destruct (find_Some_elem _ _ _ E) as [Hin Hs].
    apply andb_true_iff in Hs as [Hs Hl]. apply N.eqb_eq in Hs.
    apply negb_true_iff in Hl. auto.
  - intros p E. destruct (find_Some_elem _ _ _ E) as [Hin Hs].
    apply andb_true_iff in Hs as [Hs Hl]. apply N.eqb_eq in Hs. auto.
Qed.

(** ** Down peers *)

Lemma GetDown_loops_safe (downs : list PeerStats) (peerID : N) :
  Forall (fun d => is_Some (StatsPeer d)) downs \/ peerID <> 0%N ->
  exists v l,
    GetDownVoter_loop downs peerID = Returned v
    /\ GetDownLearner_loop downs peerID = Returned l
    /\ (GetDownPeer_loop downs peerID = None <-> v = None /\ l = None)
    /\ (forall p, GetDownPeer_loop downs peerID = Some p ->
          PeerId p = peerID
          /\ (if IsLearner p then l = Some p else v = Some p))
    /\ (forall p, v = Some p -> PeerId p = peerID /\ IsLearner p = false)
    /\ (forall p, l = Some p -> PeerId p = peerID /\ IsLearner p = true).
Proof.
  intros Hsafe. induction downs as [|d downs IH]; simpl.
  - exists None, None. repeat split; try discriminate; auto.
  - destruct IH as (v & l & Ev & El & Hn & Hs & Hv & Hl).
    { destruct Hsafe as [Hall|Hne]; [left | by right].
      by inversion Hall. }
    destruct (peer_GetId (StatsPeer d) =? peerID)%N eqn:Eid.
    + apply N.eqb_eq in Eid.
      destruct (StatsPeer d) as [peer|] eqn:Ep.
      * simpl in Eid. destruct (IsLearner peer) eqn:Elr; simpl.
        -- exists v, (Some peer). rewrite Ev.
           split; [reflexivity|]. split; [reflexivity|].
           split; [split; [discriminate | intros [_ ?]; discriminate]|].
           split; [intros p [= <-]; rewrite Elr; auto|].
           split; [exact Hv|]. intros p [= <-]. auto.
        -- exists (Some peer), l. rewrite El.
           split; [reflexivity|]. split; [reflexivity|].
           split; [split; [discriminate | intros [? _]; discriminate]|].
           split; [intros p [= <-]; rewrite Elr; auto|].
           split; [|exact Hl]. intros p [= <-]. auto.
      * simpl in Eid. destruct Hsafe as [Hall|Hne].
        -- inversion Hall as [|? ? Hd ?]; subst. rewrite Ep in Hd.
           by destruct Hd.
        -- congruence.
    + exists v, l. auto 10.
Qed.

(** X5.  [GetDownVoter] and [GetDownLearner] read [IsLearner] through the
    peer of a down entry once its id matched; the id of a nil peer reads as
    0.  So a lookup of an id other than 0, or among entries that all carry a
    peer, returns, and agrees with [GetDownPeer] by role; a lookup of id 0
    that meets an entry without peer, before any entry whose peer has id 0,
    panics in both, where [GetDownPeer] returns nil. *)
Theorem X5_down_lookups_and_the_nil_peer (r : RegionInfo) (peerID : N) :
  (Forall (fun d => is_Some (StatsPeer d)) (DownPeers r) \/ peerID <> 0%N ->
   exists v l,
     GetDownVoter r peerID = Returned v
     /\ GetDownLearner r peerID = Returned l
     /\ (GetDownPeer r peerID = None <-> v = None /\ l = None)
     /\ (forall p, GetDownPeer r peerID = Some p ->
           PeerId p = peerID
           /\ (if IsLearner p then l = Some p else v = Some p))
     /\ (forall p, v = Some p -> PeerId p = peerID /\ IsLearner p = false)
     /\ (forall p, l = Some p -> PeerId p = peerID /\ IsLearner p = true))
  /\ (forall before d rest,
        DownPeers r = before ++ d :: rest ->
        StatsPeer d = None ->
        Forall (fun x => peer_GetId (StatsPeer x) <> 0%N) before ->
        GetDownPeer r 0 = None
        /\ GetDownVoter r 0 = Fault
        /\ GetDownLearner r 0 = Fault).
Proof.
  split.
  - apply GetDown_loops_safe.
  - intros before d rest E Hd Hb.
    unfold GetDownPeer, GetDownVoter, GetDownLearner. rewrite E. clear E.
    induction Hb as [|x before Hx Hb IH]; simpl.
    + rewrite Hd. simpl. auto.
    + apply N.eqb_neq in Hx. rewrite Hx. exact IH.
Qed.

(** ** Editing the peers *)

Lemma RemoveStorePeer_loop_spec (ps : list Peer) (storeID : N) (acc : list Peer) :
  RemoveStorePeer_loop ps storeID acc
  = acc ++ List.filter (fun p => negb (StoreId p =? storeID)%N) ps.
Proof.
  revert acc. induction ps as [|p ps IH]; intros acc; simpl.
  - by rewrite app_nil_r.
  - destruct (negb (StoreId p =? storeID)%N); simpl; rewrite IH.
    + by rewrite <- app_assoc.
    + reflexivity.
Qed.

Lemma RemoveStorePeer_spec (r : RegionInfo) (storeID : N) (meta : MetaRegion) :
  Region r = Some meta ->
  let peers := List.filter (fun p => negb (StoreId p =? storeID)%N) (Peers meta) in
  RemoveStorePeer r storeID
  = Returned
      (set_roles (set_Region r (set_Peers meta peers))
         (List.filter IsLearner peers)
         (List.filter (fun p => negb (IsLearner p)) peers)).
Proof.
  intros E peers. unfold RemoveStorePeer, GetPeers. rewrite E. simpl.
  rewrite RemoveStorePeer_loop_spec. simpl.
  erewrite classifyVoterAndLearner_spec by reflexivity. reflexivity.
Qed.

Lemma filter_all {A : Type} (f : A -> bool) (l : list A) :
  (forall x, x ∈ l -> f x = true) -> List.filter f l = l.
Proof.
  induction l as [|a l IH]; intros H; simpl; [reflexivity|].
  rewrite (H a) by left. f_equal. apply IH. intros x Hx. apply H. by right.
Qed.

Lemma GetStoreIds_loop_spec (peers : list Peer) (acc : gset N) (s : N) :
  s ∈ GetStoreIds_loop peers acc
  <-> s ∈ acc \/ exists p, p ∈ peers /\ StoreId p = s.
Proof.
  revert acc. induction peers as [|p peers IH]; intros acc; simpl.
  - split; [auto|]. intros [?|(p & Hp & _)]; [done|]. by apply elem_of_nil in Hp.
  - rewrite IH, elem_of_union, elem_of_singleton. split.
    + intros [[->|?]|(q & Hq & E)]; [right|by left|right].
      * exists p. split; [left|reflexivity].
      * exists q. split; [by right|exact E].
    + intros [?|(q & Hq & E)]; [by left; right|].
      apply elem_of_cons in Hq as [->|Hq]; [left; left; by symmetry|].
      right. by exists q.
Qed.

Lemma GetStoreIds_elem (r : RegionInfo) (s : N) :
  s ∈ GetStoreIds r <-> exists p, p ∈ GetPeers r /\ StoreId p = s.
Proof.
  unfold GetStoreIds. rewrite GetStoreIds_loop_spec. split.
  - intros [H|H]; [by apply not_elem_of_empty in H | exact H].
  - by right.
Qed.

Lemma GetStorePeer_is_Some (r : RegionInfo) (s : N) :
  is_Some (GetStorePeer r s) <-> exists p, p ∈ GetPeers r /\ StoreId p = s.
Proof.
  unfold GetStorePeer. split.
  - intros [p E]. apply find_Some_elem in E as [Hin Hs].
    apply N.eqb_eq in Hs. by exists p.
  - intros (p & Hin & Hs).
    destruct (List.find _ _) eqn:E; [by eexists|].
    rewrite find_None_iff in E. specialize (E p Hin). simpl in E.
    apply N.eqb_neq in E. congruence.
Qed.

(** X6.  [RemoveStorePeer] panics on a region without meta region.
    Otherwise it keeps, in order, the peers that are not on the store and
    classifies them: no lookup finds a peer on the store any more, the
    lookups on the other stores are unchanged, and the id and the keys are
    kept.  It does not touch the leader, the pending peers nor the down
    peers, which may still name the removed peer.  On a classified region
    that has no peer on the store it changes nothing. *)
Theorem X6_RemoveStorePeer_removes_the_peers_of_a_store
  (r : RegionInfo) (storeID : N) :
  (Region r = None -> RemoveStorePeer r storeID = Fault)
  /\ (forall meta, Region r = Some meta ->
      exists r',
        RemoveStorePeer r storeID = Returned r'
        /\ GetPeers r'
           = List.filter (fun p => negb (StoreId p =? storeID)%N) (Peers meta)
        /\ classified r'
        /\ GetStorePeer r' storeID = None
        /\ GetStoreVoter r' storeID = None
        /\ GetStoreLearner r' storeID = None
        /\ (storeID ∉ GetStoreIds r')
        /\ (forall s, s <> storeID -> GetStorePeer r' s = GetStorePeer r s)
        /\ GetId r' = GetId r
        /\ (forall meta', Region r' = Some meta' ->
              StartKey meta' = StartKey meta /\ EndKey meta' = EndKey meta
              /\ Epoch meta' = Epoch meta)
        /\ Leader r' = Leader r
        /\ PendingPeers r' = PendingPeers r
        /\ DownPeers r' = DownPeers r
        /\ (classified r -> GetStorePeer r storeID = None -> r' = r)).
Proof.
  split.
  - intros E. unfold RemoveStorePeer. by rewrite E.
  - intros meta E. eexists. split; [by apply RemoveStorePeer_spec|].
    set (peers := List.filter (fun p => negb (StoreId p =? storeID)%N) (Peers meta)).
    set (r' := set_roles _ _ _).
    assert (Hpeers : GetPeers r' = peers) by reflexivity.
    assert (Hc : classified r') by (split; reflexivity).
    assert (Hnone : GetStorePeer r' storeID = None).
    { unfold GetStorePeer. rewrite Hpeers. apply find_None_iff.
      intros x Hx. apply elem_of_List_filter in Hx as [_ Hx].
      by apply negb_true_iff in Hx. }
    split; [exact Hpeers|]. split; [exact Hc|]. split; [exact Hnone|].
    split.
    { rewrite (GetStoreVoter_classified r' storeID Hc), Hpeers.
      apply find_None_iff. intros x Hx. apply elem_of_List_filter in Hx as [_ Hx].
      apply negb_true_iff in Hx. by rewrite Hx. }
    split.
    { rewrite (GetStoreLearner_classified r' storeID Hc), Hpeers.
      apply find_None_iff. intros x Hx. apply elem_of_List_filter in Hx as [_ Hx].
      apply negb_true_iff in Hx. by rewrite Hx. }
    split.
    { rewrite GetStoreIds_elem. intros (p & Hp & Hs). rewrite Hpeers in Hp.
      apply elem_of_List_filter in Hp as [_ Hp].
      apply negb_true_iff, N.eqb_neq in Hp. done. }
    split.
    { intros s Hs. unfold GetStorePeer, GetPeers at 2. rewrite Hpeers, E. simpl.
      unfold peers. rewrite find_List_filter. apply find_ext. intros x.
      destruct (StoreId x =? s)%N eqn:Ex; [|by rewrite andb_false_r].
      apply N.eqb_eq in Ex. rewrite andb_true_r.
      apply negb_true_iff, N.eqb_neq. congruence. }
    split; [unfold GetId; simpl; by rewrite E|].
    split; [intros meta' [= <-]; auto|].
    repeat (split; [reflexivity|]).
    intros Hcr Hn. unfold r'.
    assert (Hsame : peers = Peers meta).
    { apply filter_all. intros x Hx.
      unfold GetStorePeer, GetPeers in Hn. rewrite E in Hn. simpl in Hn.
      rewrite find_None_iff in Hn. by rewrite (Hn x Hx). }
    rewrite Hsame.
    pose proof (classified_eq_meta r meta E Hcr) as Heq.
    destruct r as [reg ls vs ? ? ? ? ? ? ?]. simpl in E. subst reg.
    unfold set_roles in Heq. simpl in Heq. injection Heq as Hl' Hv'.
    unfold set_roles, set_Region, set_Peers. simpl. rewrite Hl', Hv'.
    destruct meta. reflexivity.
Qed.

(** X7.  [AddPeer] panics on a region without meta region.  Otherwise it
    appends the peer to the peers and to the slice of its role, so that
    classified roles stay classified and the clone of the result is the
    result.  It does not look for a peer already on the store: such a peer
    stays the one that [GetStorePeer] finds.  Adding a peer on a store
    that had none and removing the peers of that store again gives back a
    classified region. *)
Theorem X7_AddPeer_appends_and_RemoveStorePeer_undoes_it
  (r : RegionInfo) (peer : Peer) :
  (Region r = None -> AddPeer r peer = Fault)
  /\ (forall meta, Region r = Some meta ->
      exists r',
        AddPeer r peer = Returned r'
        /\ GetPeers r' = Peers meta ++ [peer]
        /\ GetPeer r' (PeerId peer)
           = match GetPeer r (PeerId peer) with
             | Some q => Some q
             | None => Some peer
             end
        /\ GetStorePeer r' (StoreId peer)
           = match GetStorePeer r (StoreId peer) with
             | Some q => Some q
             | None => Some peer
             end
        /\ (StoreId peer ∈ GetStoreIds r')
        /\ Leader r' = Leader r
        /\ (classified r -> classified r' /\ Clone r' = Returned r')
        /\ (classified r -> GetStorePeer r (StoreId peer) = None ->
            RemoveStorePeer r' (StoreId peer) = Returned r)).
Proof.
  split.
  - intros E. unfold AddPeer. by rewrite E.
  - intros meta E.
    assert (Hfind : forall (f : Peer -> bool), f peer = true ->
              List.find f (Peers meta ++ [peer])
              = match List.find f (Peers meta) with
                | Some q => Some q
                | None => Some peer
                end).
    { intros f Hf. induction (Peers meta) as [|a l IH]; simpl.
      - by rewrite Hf.
      - destruct (f a); [reflexivity | exact IH]. }
    assert (Hcl : forall r', AddPeer r peer = Returned r' ->
              GetPeers r' = Peers meta ++ [peer]
              /\ Leader r' = Leader r
              /\ (classified r -> classified r')).
    { intros r'. unfold AddPeer. rewrite E.
      destruct (IsLearner peer) eqn:El; intros [= <-];
        (split; [reflexivity|]; split; [reflexivity|]);
        intros [C1 C2]; unfold classified, GetPeers in *; rewrite E in *;
        simpl in *; rewrite !List.filter_app; simpl; rewrite El; simpl;
        rewrite ?app_nil_r, <- ?C1, <- ?C2; auto. }
    assert (Hret : exists r', AddPeer r peer = Returned r').
    { unfold AddPeer. rewrite E. destruct (IsLearner peer); by eexists. }
    destruct Hret as [r' Hr']. exists r'. split; [exact Hr'|].
    destruct (Hcl r' Hr') as (Hp & Hl & Hc).
    assert (Hreg : is_Some (Region r')).
    { revert Hr'. unfold AddPeer. rewrite E.
      destruct (IsLearner peer); intros [= <-]; by eexists. }
    split; [exact Hp|].
    split.
    { unfold GetPeer. rewrite Hp. unfold GetPeers. rewrite E. simpl.
      apply Hfind. apply N.eqb_refl. }
    split.
    { unfold GetStorePeer. rewrite Hp. unfold GetPeers. rewrite E. simpl.
      apply Hfind. apply N.eqb_refl. }
    split.
    { rewrite GetStoreIds_elem. exists peer. rewrite Hp.
      split; [|reflexivity]. apply elem_of_app. right. by left. }
    split; [exact Hl|].
    split.
    { intros Hcr. split; [by apply Hc|].
      apply Clone_classified; [exact Hreg | by apply Hc]. }
    intros Hcr Hnone.
    destruct Hreg as [meta' Em].
    rewrite (RemoveStorePeer_spec r' (StoreId peer) meta' Em). cbn zeta.
    assert (Hm : Peers meta' = Peers meta ++ [peer]).
    { unfold GetPeers in Hp. by rewrite Em in Hp. }
    assert (Hsame : List.filter (fun p => negb (StoreId p =? StoreId peer)%N)
                      (Peers meta') = Peers meta).
    { rewrite Hm, List.filter_app. simpl. rewrite N.eqb_refl. simpl.
      rewrite app_nil_r. apply filter_all. intros x Hx.
      unfold GetStorePeer, GetPeers in Hnone. rewrite E in Hnone. simpl in Hnone.
      rewrite find_None_iff in Hnone. by rewrite (Hnone x Hx). }
    rewrite Hsame. f_equal.
    pose proof (classified_eq_meta r meta E Hcr) as Heq.
    revert Hr' Em. unfold AddPeer. rewrite E.
    destruct r as [reg ls vs ? ? ? ? ? ? ?]. simpl in E. subst reg.
    unfold set_roles in Heq. simpl in Heq. injection Heq as Hl' Hv'.
    destruct meta.
    destruct (IsLearner peer); intros [= <-]; simpl; intros [= <-];
      unfold set_roles, set_Region, set_Peers; simpl in *; rewrite Hl', Hv';
      reflexivity.
Qed.

Lemma size_list_to_set_le (l : list N) :
  (size (list_to_set l : gset N) <= length l)%nat.
Proof.
  induction l as [|a l IH].
  - change (list_to_set (C := gset N) []) with (∅ : gset N).
    rewrite size_empty. simpl. lia.
  - rewrite list_to_set_cons, size_union_alt, size_singleton.
    assert (size (list_to_set l ∖ {[a]} : gset N)
            <= size (list_to_set l : gset N))%nat.
    { apply subseteq_size, subseteq_difference_l. reflexivity. }
    simpl. lia.
Qed.

(** X8.  [GetStoreIds] is the set of the stores of the peers: a store is
    in it exactly when [GetStorePeer] finds a peer on it; the set is no
    larger than the list of peers, and as large when the peers are on
    different stores. *)
Theorem X8_GetStoreIds_are_the_stores_of_the_peers (r : RegionInfo) :
  (forall s, s ∈ GetStoreIds r <-> is_Some (GetStorePeer r s))
  /\ (forall s, s ∈ GetStoreIds r <-> exists p, p ∈ GetPeers r /\ StoreId p = s)
  /\ (size (GetStoreIds r) <= length (GetPeers r))%nat
  /\ (NoDup (StoreId <$> GetPeers r) ->
      size (GetStoreIds r) = length (GetPeers r))
  /\ (Region r = None -> GetStoreIds r = ∅).
Proof.
  assert (Hset : GetStoreIds r = list_to_set (StoreId <$> GetPeers r)).
  { apply set_eq. intros s. rewrite GetStoreIds_elem, elem_of_list_to_set,
      list_elem_of_fmap. split; intros (p & ? & ?); exists p; split; done. }
  split; [|split; [|split; [|split]]].
  - intros s. by rewrite GetStoreIds_elem, GetStorePeer_is_Some.
  - apply GetStoreIds_elem.
  - rewrite Hset, <- (length_fmap StoreId). apply size_list_to_set_le.
  - intros Hnd. rewrite Hset, size_list_to_set by exact Hnd.
    by rewrite length_fmap.
  - intros E. unfold GetStoreIds, GetPeers. rewrite E. reflexivity.
Qed.

(** ** Followers *)

Lemma GetFollowers_loop_lookup (r : RegionInfo) (peers : list Peer)
  (acc : gmap N Peer) (s : N) (p : Peer) :
  GetFollowers_loop r peers acc !! s = Some p ->
  acc !! s = Some p
  \/ (p ∈ peers /\ StoreId p = s /\ is_follower r p = true).
Proof.
  revert acc. induction peers as [|q peers IH]; intros acc; simpl.
  - auto.
  - destruct (is_follower r q) eqn:Eq; intros H; apply IH in H.
    + destruct H as [H|(? & ? & ?)]; [|right; split; [by right|done]].
      destruct (decide (StoreId q = s)) as [<-|Hne].
      * rewrite lookup_insert_eq in H. injection H as <-.
        right. split; [left|done].
      * rewrite lookup_insert_ne in H by done. by left.
    + destruct H as [H|(? & ? & ?)]; [by left|].
      right. split; [by right|done].
Qed.

Lemma GetFollowers_loop_is_Some (r : RegionInfo) (peers : list Peer)
  (acc : gmap N Peer) (s : N) :
  is_Some (acc !! s)
  \/ (exists p, p ∈ peers /\ StoreId p = s /\ is_follower r p = true) ->
  is_Some (GetFollowers_loop r peers acc !! s).
Proof.
  revert acc. induction peers as [|q peers IH]; intros acc; simpl.
  - intros [H|(p & Hp & _)]; [exact H | by apply elem_of_nil in Hp].
  - intros H. destruct (is_follower r q) eqn:Eq; apply IH.
    + destruct (decide (StoreId q = s)) as [<-|Hne].
      * left. rewrite lookup_insert_eq. by eexists.
      * destruct H as [H|(p & Hp & Hs & Hf)].
        -- left. by rewrite lookup_insert_ne.
        -- apply elem_of_cons in Hp as [->|Hp]; [done|].
           right. by exists p.
    + destruct H as [H|(p & Hp & Hs & Hf)]; [by left|].
      apply elem_of_cons in Hp as [->|Hp]; [congruence|].
      right. by exists p.
Qed.

Lemma GetFollower_loop_spec (r : RegionInfo) (peers : list Peer) :
  GetFollower_loop r peers = List.find (is_follower r) peers.
Proof. induction peers as [|q peers IH]; simpl; [done|]. by rewrite IH. Qed.

Lemma GetFollowers_lookup (r : RegionInfo) (s : N) (p : Peer) :
  GetFollowers r !! s = Some p ->
  p ∈ GetVoters r /\ StoreId p = s /\ is_follower r p = true.
Proof.
  intros H. apply GetFollowers_loop_lookup in H as [H|H]; [|exact H].
  by rewrite lookup_empty in H.
Qed.

Lemma GetFollowers_is_Some (r : RegionInfo) (s : N) :
  is_Some (GetFollowers r !! s)
  <-> exists p, p ∈ GetVoters r /\ StoreId p = s /\ is_follower r p = true.
Proof.
  split.
  - intros [p Hp]. exists p. by apply GetFollowers_lookup.
  - intros H. apply GetFollowers_loop_is_Some. by right.
Qed.

(** X9.  With or without a leader, the map of [GetFollowers] holds under a
    store a voter on that store that is not the leader, and has an entry
    for a store exactly when such a voter exists; [GetFollower] returns the
    first such voter, and returns nil exactly when the map is empty.  When
    the leader is set no entry has the id of the leader, and when every
    voter has the id of the leader there is no follower. *)
Theorem X9_followers_are_the_voters_other_than_the_leader (r : RegionInfo) :
  (forall s p, GetFollowers r !! s = Some p ->
     p ∈ GetVoters r /\ StoreId p = s /\ is_follower r p = true)
  /\ (forall s, is_Some (GetFollowers r !! s)
        <-> exists p, p ∈ GetVoters r /\ StoreId p = s /\ is_follower r p = true)
  /\ GetFollower r = List.find (is_follower r) (GetVoters r)
  /\ (GetFollower r = None <-> GetFollowers r = ∅)
  /\ (forall p, GetFollower r = Some p ->
        p ∈ GetVoters r /\ is_follower r p = true
        /\ is_Some (GetFollowers r !! StoreId p))
  /\ (forall l s p, Leader r = Some l -> GetFollowers r !! s = Some p ->
        PeerId p <> PeerId l)
  /\ (forall l, Leader r = Some l ->
        (forall p, p ∈ GetVoters r -> PeerId p = PeerId l) ->
        GetFollower r = None /\ GetFollowers r = ∅).
Proof.
  assert (Hf : GetFollower r = List.find (is_follower r) (GetVoters r))
    by apply GetFollower_loop_spec.
  assert (Hiff : GetFollower r = None <-> GetFollowers r = ∅).
  { rewrite Hf, find_None_iff. split.
    - intros H. apply map_eq. intros s. rewrite lookup_empty.
      destruct (GetFollowers r !! s) as [p|] eqn:E; [|done].
      apply GetFollowers_lookup in E as (Hin & _ & Hfol).
      rewrite (H p Hin) in Hfol. discriminate.
    - intros H x Hx. destruct (is_follower r x) eqn:E; [|done].
      assert (is_Some (GetFollowers r !! StoreId x)) as [q Hq].
      { apply GetFollowers_is_Some. by exists x. }
      rewrite H, lookup_empty in Hq. discriminate. }
  split; [apply GetFollowers_lookup|].
  split; [apply GetFollowers_is_Some|].
  split; [exact Hf|]. split; [exact Hiff|].
  split; [|split].
  - intros p E. rewrite Hf in E. apply find_Some_elem in E as [Hin Hfol].
    split; [exact Hin|]. split; [exact Hfol|].
    apply GetFollowers_is_Some. by exists p.
  - intros l s p El E. apply GetFollowers_lookup in E as (_ & _ & Hfol).
    unfold is_follower in Hfol. rewrite El in Hfol.
    apply negb_true_iff, N.eqb_neq in Hfol. congruence.
  - intros l El Hall.
    assert (GetFollower r = None) as Hn.
    { rewrite Hf, find_None_iff. intros x Hx. unfold is_follower. rewrite El.
      apply negb_false_iff, N.eqb_eq. symmetry. by apply Hall. }
    split; [exact Hn | by apply Hiff].
Qed.

Lemma GetDiffFollowers_inner_spec (p : Peer) (others : list Peer) :
  GetDiffFollowers_inner p others = true
  <-> forall o, o ∈ others -> StoreId p <> StoreId o.
Proof.
  induction others as [|o others IH]; simpl.
  - split; [|done]. intros _ o Ho. by apply elem_of_nil in Ho.
  - destruct (StoreId p =? StoreId o)%N eqn:E.
    + apply N.eqb_eq in E. split; [discriminate|].
      intros H. exfalso. apply (H o); [left | exact E].
    + apply N.eqb_neq in E. rewrite IH. split.
      * intros H x Hx. apply elem_of_cons in Hx as [->|Hx]; auto.
      * intros H x Hx. apply H. by right.
Qed.

Lemma GetDiffFollowers_loop_spec (followers others res : list Peer) :
  GetDiffFollowers_loop followers others res
  = res ++ List.filter (fun p => GetDiffFollowers_inner p others) followers.
Proof.
  revert res. induction followers as [|p followers IH]; intros res; simpl.
  - by rewrite app_nil_r.
  - destruct (GetDiffFollowers_inner p others); rewrite IH.
    + by rewrite <- app_assoc.
    + reflexivity.
Qed.

Lemma elem_of_map_values {K : Type} `{Countable K} {A : Type} (m : gmap K A) (x : A) :
  x ∈ (map_to_list m).*2 <-> exists k, m !! k = Some x.
Proof.
  rewrite list_elem_of_fmap. split.
  - intros ([k y] & -> & Hin). exists k. by apply elem_of_map_to_list.
  - intros (k & Hk). exists (k, x). split; [done|]. by apply elem_of_map_to_list.
Qed.

Lemma NoDup_List_filter {A : Type} (f : A -> bool) (l : list A) :
  NoDup l -> NoDup (List.filter f l).
Proof.
  induction 1 as [|a l Hn Hnd IH]; simpl; [constructor|].
  destruct (f a); [|exact IH]. constructor; [|exact IH].
  rewrite elem_of_List_filter. tauto.
Qed.

(** X10.  [GetDiffFollowers] panics on a region without meta region.
    Otherwise, whatever the order in which the two maps are ranged over,
    its result holds exactly the followers of the region on stores where
    the other region has no follower, each once; against the region itself
    it is empty. *)
Theorem X10_GetDiffFollowers_are_the_followers_on_other_stores
  (r other : RegionInfo) :
  (Region r = None -> GetDiffFollowers r other = Fault)
  /\ (is_Some (Region r) ->
      exists res,
        GetDiffFollowers r other = Returned res
        /\ (forall p, p ∈ res
              <-> GetFollowers r !! StoreId p = Some p
                  /\ GetFollowers other !! StoreId p = None)
        /\ NoDup res
        /\ (length res <= size (GetFollowers r))%nat)
  /\ (is_Some (Region r) -> GetDiffFollowers r r = Returned []).
Proof.
  assert (Hmem : forall o p,
            p ∈ List.filter
                  (fun p => GetDiffFollowers_inner p (map_to_list (GetFollowers o)).*2)
                  (map_to_list (GetFollowers r)).*2
            <-> GetFollowers r !! StoreId p = Some p
                /\ GetFollowers o !! StoreId p = None).
  { intros o p. rewrite elem_of_List_filter, elem_of_map_values,
      GetDiffFollowers_inner_spec. split.
    - intros [(s & Hs) Hd]. split.
      + apply GetFollowers_lookup in Hs as Hs'. destruct Hs' as (_ & <- & _).
        exact Hs.
      + destruct (GetFollowers o !! StoreId p) as [q|] eqn:Eq; [|done].
        exfalso. apply (Hd q).
        * apply elem_of_map_values. by eexists.
        * apply GetFollowers_lookup in Eq as (_ & -> & _). reflexivity.
    - intros [Hs Hn]. split; [by eexists|].
      intros q Hq Heq. apply elem_of_map_values in Hq as (s & Hq).
      apply GetFollowers_lookup in Hq as Hq'. destruct Hq' as (_ & <- & _).
      rewrite Heq in Hn. congruence. }
  split; [|split].
  - intros E. unfold GetDiffFollowers. by rewrite E.
  - intros [meta E]. unfold GetDiffFollowers. rewrite E.
    eexists. split; [reflexivity|]. rewrite GetDiffFollowers_loop_spec. simpl.
    assert (Hnd : NoDup (map_to_list (GetFollowers r)).*2).
    { apply NoDup_fmap_2_strong; [|apply NoDup_map_to_list].
      intros [k1 x1] [k2 x2] H1 H2 Heq. simpl in Heq. subst x2.
      apply elem_of_map_to_list in H1, H2.
      apply GetFollowers_lookup in H1 as (_ & <- & _).
      apply GetFollowers_lookup in H2 as (_ & <- & _). reflexivity. }
    split; [apply Hmem|]. split; [by apply NoDup_List_filter|].
    etrans; [apply filter_length_le|].
    by rewrite length_fmap, length_map_to_list.
  - intros [meta E]. unfold GetDiffFollowers. rewrite E. f_equal.
    rewrite GetDiffFollowers_loop_spec. simpl.
    destruct (List.filter _ _) as [|p l] eqn:Ef; [done|].
    assert (Hp : p ∈ p :: l) by left.
    rewrite <- Ef in Hp. apply Hmem in Hp as [H1 H2]. congruence.
Qed.

(** ** regionMap: what a lookup sees after [Put] and [Delete] *)

Section regionMap_lookups.
Context {R : Type}.
Variable deref : R -> RegionInfo.

Lemma Get_lookup (rm : regionMap.t R) (k : N) :
  regionMap.Get (Some rm) k = entryRegion <$> regionMap.m rm !! k.
Proof. unfold regionMap.Get. by destruct (regionMap.m rm !! k). Qed.

Lemma Put_Get (rm rm' : regionMap.t R) (region : R) :
  regionMap.Put deref (Some rm) region = Returned rm' ->
  forall k, regionMap.Get (Some rm') k
            = if decide (k = GetId (deref region)) then Some region
              else regionMap.Get (Some rm) k.
Proof.
  unfold regionMap.Put.
  destruct (regionMap.m rm !! GetId (deref region)) as [old|] eqn:E;
    intros [= <-] k; rewrite !Get_lookup; simpl;
    (destruct (decide (k = GetId (deref region))) as [->|Hne];
     [by rewrite lookup_insert_eq | by rewrite lookup_insert_ne]).
Qed.

Lemma Put_Len (rm rm' : regionMap.t R) (region : R) :
  regionMap.Put deref (Some rm) region = Returned rm' ->
  regionMap.Len (Some rm')
  = match regionMap.Get (Some rm) (GetId (deref region)) with
    | Some _ => regionMap.Len (Some rm)
    | None => S (regionMap.Len (Some rm))
    end.
Proof.
  unfold regionMap.Put. rewrite Get_lookup.
  destruct (regionMap.m rm !! GetId (deref region)) as [old|] eqn:E;
    intros [= <-]; simpl; rewrite map_size_insert, E; reflexivity.
Qed.

Lemma add64_sub64_same (t s : Z) :
  - two63 <= t < two63 -> add64 t (sub64 s s) = t.
Proof.
  intros Ht. unfold add64, sub64. rewrite Z.sub_diag.
  change (to_int64 0) with 0. rewrite Z.add_0_r. by apply to_int64_small.
Qed.

Lemma sub64_add64_same (t s : Z) :
  - two63 <= t < two63 -> sub64 (add64 t s) s = t.
Proof.
  intros Ht. unfold add64, sub64. rewrite to_int64_sub_l.
  replace (t + s - s) with t by lia. by apply to_int64_small.
Qed.

Lemma Put_totals_range (rm rm' : regionMap.t R) (region : R) :
  regionMap.Put deref (Some rm) region = Returned rm' ->
  - two63 <= regionMap.totalSize rm' < two63
  /\ - two63 <= regionMap.totalKeys rm' < two63.
Proof.
  unfold regionMap.Put.
  destruct (regionMap.m rm !! GetId (deref region)) as [old|];
    intros [= <-]; simpl; split; apply to_int64_range.
Qed.

Lemma Put_twice (rm rm' : regionMap.t R) (region : R) :
  regionMap.Put deref (Some rm) region = Returned rm' ->
  regionMap.Put deref (Some rm') region = Returned rm'.
Proof.
  intros HP. destruct (Put_totals_range rm rm' region HP) as [Hs Hk].
  assert (exists p, regionMap.m rm' !! GetId (deref region) = Some (mkEntry region p))
    as [p Hp].
  { revert HP. unfold regionMap.Put.
    destruct (regionMap.m rm !! GetId (deref region)) as [old|];
      intros [= <-]; simpl; rewrite lookup_insert_eq; by eexists. }
  unfold regionMap.Put. rewrite Hp. simpl.
  rewrite (insert_id _ _ _ Hp), !add64_sub64_same by assumption.
  by destruct rm'.
Qed.

(** X11.  [Put] on an allocated map returns; the region is then found
    under its id, every other id is found as before, and the number of
    regions grows by one exactly when the id was not resident.  Putting
    the same region again changes nothing: the entry, the id vector and
    the two totals stay as they are. *)
Theorem X11_Put_stores_under_the_id_and_is_idempotent
  (rm : regionMap.t R) (region : R) :
  exists rm',
    regionMap.Put deref (Some rm) region = Returned rm'
    /\ regionMap.Get (Some rm') (GetId (deref region)) = Some region
    /\ (forall k, k <> GetId (deref region) ->
          regionMap.Get (Some rm') k = regionMap.Get (Some rm) k)
    /\ regionMap.Len (Some rm')
       = match regionMap.Get (Some rm) (GetId (deref region)) with
         | Some _ => regionMap.Len (Some rm)
         | None => S (regionMap.Len (Some rm))
         end
    /\ regionMap.Put deref (Some rm') region = Returned rm'.
Proof.
  destruct (Put_allocated_returns deref rm region) as [rm' HP].
  exists rm'. split; [exact HP|].
  pose proof (Put_Get rm rm' region HP) as HG.
  split; [|split; [|split]].
  - rewrite HG. by destruct (decide _).
  - intros k Hk. rewrite HG. by destruct (decide _).
  - by apply Put_Len.
  - exact (Put_twice rm rm' region HP).
Qed.

Lemma Delete_Get (rm rm' : regionMap.t R) (id : N) :
  rm_consistent deref rm ->
  regionMap.Delete deref (Some rm) id = Returned (Some rm') ->
  forall k, regionMap.Get (Some rm') k
            = if decide (k = id) then None else regionMap.Get (Some rm) k.
Proof.
  intros Hc Hd k. destruct (regionMap.m rm !! id) as [old|] eqn:E.
  - destruct (Delete_found_spec deref rm id old Hc E)
      as (lastId & lastEntry & H1 & H2 & H3 & H4 & H5).
    rewrite H5 in Hd. injection Hd as <-. rewrite !Get_lookup. simpl.
    destruct (decide (k = id)) as [->|Hne].
    + by rewrite lookup_delete_eq.
    + rewrite lookup_delete_ne by done.
      destruct (decide (k = lastId)) as [->|Hne2].
      * by rewrite lookup_insert_eq, H2.
      * by rewrite lookup_insert_ne.
  - unfold regionMap.Delete in Hd. rewrite E in Hd. injection Hd as <-.
    destruct (decide (k = id)) as [->|]; [|done].
    by rewrite Get_lookup, E.
Qed.

Lemma Delete_Len (rm rm' : regionMap.t R) (id : N) :
  rm_consistent deref rm ->
  regionMap.Delete deref (Some rm) id = Returned (Some rm') ->
  regionMap.Len (Some rm')
  = match regionMap.Get (Some rm) id with
    | Some _ => Nat.pred (regionMap.Len (Some rm))
    | None => regionMap.Len (Some rm)
    end.
Proof.
  intros Hc Hd. rewrite Get_lookup.
  destruct (regionMap.m rm !! id) as [old|] eqn:E.
  - destruct (Delete_found_spec deref rm id old Hc E)
      as (lastId & lastEntry & H1 & H2 & H3 & H4 & H5).
    rewrite H5 in Hd. injection Hd as <-. simpl.
    rewrite map_size_delete.
    destruct (decide (id = lastId)) as [<-|Hne].
    + rewrite lookup_insert_eq. by rewrite map_size_insert, E.
    + rewrite lookup_insert_ne, E by done. by rewrite map_size_insert, H2.
  - unfold regionMap.Delete in Hd. rewrite E in Hd. by injection Hd as <-.
Qed.

Lemma Delete_absent (rm : regionMap.t R) (id : N) :
  regionMap.Get (Some rm) id = None ->
  regionMap.Delete deref (Some rm) id = Returned (Some rm).
Proof.
  rewrite Get_lookup. unfold regionMap.Delete.
  by destruct (regionMap.m rm !! id).
Qed.

(** X12.  [Delete] on a consistent map returns and removes the id and
    nothing else: the id is no longer found, every other id is found as
    before, the number of regions drops by one exactly when the id was
    resident; an absent id leaves the map as it is, so that deleting twice
    is deleting once; and the map stays consistent. *)
Theorem X12_Delete_removes_the_id_and_nothing_else
  (rm : regionMap.t R) (id : N) :
  rm_consistent deref rm ->
  exists rm',
    regionMap.Delete deref (Some rm) id = Returned (Some rm')
    /\ regionMap.Get (Some rm') id = None
    /\ (forall k, k <> id ->
          regionMap.Get (Some rm') k = regionMap.Get (Some rm) k)
    /\ regionMap.Len (Some rm')
       = match regionMap.Get (Some rm) id with
         | Some _ => Nat.pred (regionMap.Len (Some rm))
         | None => regionMap.Len (Some rm)
         end
    /\ (regionMap.Get (Some rm) id = None -> rm' = rm)
    /\ regionMap.Delete deref (Some rm') id = Returned (Some rm')
    /\ rm_consistent deref rm'.
Proof.
  intros Hc. destruct (Delete_consistent deref rm id Hc) as (rm' & Hd & Hc').
  exists rm'. split; [exact Hd|].
  pose proof (Delete_Get rm rm' id Hc Hd) as HG.
  assert (Hnone : regionMap.Get (Some rm') id = None).
  { rewrite HG. by destruct (decide _). }
  split; [exact Hnone|]. split; [|split; [|split; [|split]]].
  - intros k Hk. rewrite HG. by destruct (decide _).
  - by apply Delete_Len.
  - intros Habs. rewrite (Delete_absent rm id Habs) in Hd. congruence.
  - by apply Delete_absent.
  - exact Hc'.
Qed.

Lemma Put_new_then_Delete (rm rm' : regionMap.t R) (region : R) :
  rm_consistent deref rm ->
  regionMap.Get (Some rm) (GetId (deref region)) = None ->
  - two63 <= regionMap.totalSize rm < two63 ->
  - two63 <= regionMap.totalKeys rm < two63 ->
  regionMap.Put deref (Some rm) region = Returned rm' ->
  regionMap.ids rm' = regionMap.ids rm ++ [GetId (deref region)]
  /\ regionMap.Delete deref (Some rm') (GetId (deref region)) = Returned (Some rm).
Proof.
  intros Hc Habs Hs Hk HP.
  pose proof (Put_consistent deref rm rm' region Hc HP) as Hc'.
  rewrite Get_lookup in Habs.
  destruct (regionMap.m rm !! GetId (deref region)) as [?|] eqn:E; [discriminate|].
  revert HP Hc'. unfold regionMap.Put. rewrite E. intros [= <-] Hc'.
  split; [reflexivity|].
  set (id := GetId (deref region)) in *.
  set (old := mkEntry region (length (regionMap.ids rm))).
  set (rm1 := regionMap.mk _ _ _ _) in *.
  assert (Hold : regionMap.m rm1 !! id = Some old) by apply lookup_insert_eq.
  destruct (Delete_found_spec deref rm1 id old Hc' Hold)
    as (lastId & lastEntry & H1 & H2 & H3 & H4 & H5).
  rewrite H5. f_equal. f_equal.
  assert (HlastId : lastId = id).
  { revert H1. simpl. rewrite length_app. simpl.
    replace (length (regionMap.ids rm) + 1 - 1)%nat
      with (length (regionMap.ids rm)) by lia.
    rewrite list_lookup_middle by reflexivity. congruence. }
  subst lastId. simpl.
  rewrite delete_insert_eq, delete_insert_id by exact E.
  rewrite length_app. simpl.
  replace (length (regionMap.ids rm) + 1 - 1)%nat
    with (length (regionMap.ids rm)) by lia.
  rewrite list_insert_id by (by apply list_lookup_middle).
  rewrite take_app_length, !sub64_add64_same by assumption.
  by destruct rm.
Qed.

(** X13.  [Delete] undoes [Put] of a region whose id was not resident: on
    a consistent map whose totals are 64-bit values, the id goes to the end
    of the id vector, and deleting it gives back the map as it was, entry
    for entry, with its id vector and its two totals. *)
Theorem X13_Delete_undoes_Put_of_a_new_id (rm : regionMap.t R) (region : R) :
  rm_consistent deref rm ->
  regionMap.Get (Some rm) (GetId (deref region)) = None ->
  - two63 <= regionMap.totalSize rm < two63 ->
  - two63 <= regionMap.totalKeys rm < two63 ->
  exists rm',
    regionMap.Put deref (Some rm) region = Returned rm'
    /\ regionMap.ids rm' = regionMap.ids rm ++ [GetId (deref region)]
    /\ regionMap.Len (Some rm') = S (regionMap.Len (Some rm))
    /\ regionMap.Delete deref (Some rm') (GetId (deref region))
       = Returned (Some rm).
Proof.
  intros Hc Habs Hs Hk.
  destruct (Put_allocated_returns deref rm region) as [rm' HP].
  exists rm'. split; [exact HP|].
  destruct (Put_new_then_Delete rm rm' region Hc Habs Hs Hk HP) as [Hi Hd].
  split; [exact Hi|]. split; [|exact Hd].
  rewrite (Put_Len rm rm' region HP), Habs. reflexivity.
Qed.

End regionMap_lookups.

Lemma map12_run :
  rm_run (deref (Examples.heap_of (Some Examples.voter1)))
    [OpPut 1%positive; OpPut 2%positive] regionMap.newRegionMap
  = Returned MoreExamples.map12.
Proof. vm_compute. reflexivity. Qed.

Lemma map12_consistent :
  rm_consistent (deref (Examples.heap_of (Some Examples.voter1)))
    MoreExamples.map12.
Proof.
  destruct (rm_run_consistent (deref (Examples.heap_of (Some Examples.voter1)))
              [OpPut 1%positive; OpPut 2%positive] regionMap.newRegionMap
              (rm_consistent_new _)) as (rm & E & Hc).
  rewrite map12_run in E. by injection E as <-.
Qed.

(** Region 1 deleted from the map that holds regions 1 and 2. *)
Lemma X12_witness :
  exists rm',
    regionMap.Delete (deref (Examples.heap_of (Some Examples.voter1)))
      (Some MoreExamples.map12) 1%N = Returned (Some rm')
    /\ regionMap.Get (Some rm') 1%N = None
    /\ regionMap.Get (Some rm') 2%N = Some 2%positive.
Proof.
  destruct (X12_Delete_removes_the_id_and_nothing_else
              (deref (Examples.heap_of (Some Examples.voter1)))
              MoreExamples.map12 1%N map12_consistent)
    as (rm' & Hd & Hg & Hframe & _).
  exists rm'. split; [exact Hd|]. split; [exact Hg|].
  rewrite (Hframe 2%N) by discriminate. reflexivity.
Defined.

(** Region 3 put into that map and deleted again. *)
Lemma X13_witness :
  exists rm',
    regionMap.Put (deref (Examples.heap_of (Some Examples.voter1)))
      (Some MoreExamples.map12) 3%positive = Returned rm'
    /\ regionMap.Delete (deref (Examples.heap_of (Some Examples.voter1)))
         (Some rm') 3%N = Returned (Some MoreExamples.map12).
Proof.
  destruct (X13_Delete_undoes_Put_of_a_new_id
              (deref (Examples.heap_of (Some Examples.voter1)))
              MoreExamples.map12 3%positive map12_consistent eq_refl
              ltac:(vm_compute; split; [discriminate | reflexivity])
              ltac:(vm_compute; split; [discriminate | reflexivity]))
    as (rm' & HP & _ & _ & Hd).
  exists rm'. split; [exact HP | exact Hd].
Defined.

(** ** The index: what the writers change in the lookups *)

Lemma buckets_set_nil (id : N) (to : option positive)
  (b : gmap N (regionMap.t positive)) : buckets_set id [] to b b.
Proof.
  intros s k. destruct (decide _) as [[_ Hin]|]; [|done].
  by apply elem_of_nil in Hin.
Qed.

Lemma buckets_set_cons (id s0 : N) (stores : list N) (to : option positive)
  (b b1 b2 : gmap N (regionMap.t positive)) :
  buckets_set id [s0] to b b1 -> buckets_set id stores to b1 b2 ->
  buckets_set id (s0 :: stores) to b b2.
Proof.
  intros H1 H2 s k. rewrite H2, H1.
  destruct (decide (k = id /\ s ∈ stores)) as [[-> Hin]|Hn].
  - rewrite decide_True; [done|]. split; [done | by right].
  - destruct (decide (k = id /\ s ∈ [s0])) as [[-> Hin]|Hn0].
    + apply list_elem_of_singleton in Hin as ->.
      rewrite decide_True; [done|]. split; [done | by left].
    + rewrite decide_False; [done|]. intros [-> Hin].
      apply elem_of_cons in Hin as [->|Hin].
      * apply Hn0. split; [done|]. by apply list_elem_of_singleton.
      * by apply Hn.
Qed.

Lemma buckets_set_eq (id : N) (stores : list N) (to : option positive)
  (b b1 b2 : gmap N (regionMap.t positive)) :
  b1 = b2 -> buckets_set id stores to b b1 -> buckets_set id stores to b b2.
Proof. by intros ->. Qed.

Lemma bucket_Put_set (h : gmap positive RegionInfo)
  (buckets buckets' : gmap N (regionMap.t positive)) (s0 : N) (region : positive) :
  RegionsInfo.bucket_Put h buckets s0 region = Returned buckets' ->
  buckets_set (GetId (deref h region)) [s0] (Some region) buckets buckets'.
Proof.
  unfold RegionsInfo.bucket_Put.
  destruct (regionMap.Put (deref h) (Some _) region) as [rm|] eqn:HP;
    [|discriminate].
  run_bind. intros [= <-] s k.
  pose proof (Put_Get (deref h) _ _ _ HP k) as HG.
  destruct (decide (s = s0)) as [->|Hne].
  - rewrite lookup_insert_eq, HG.
    destruct (decide (k = GetId (deref h region))) as [->|Hk].
    + rewrite decide_True; [done|]. split; [done | by left].
    + rewrite decide_False by (by intros [? _]).
      destruct (buckets !! s0); reflexivity.
  - rewrite lookup_insert_ne by done.
    rewrite decide_False; [done|]. intros [_ Hin].
    apply list_elem_of_singleton in Hin. done.
Qed.

Lemma bucket_Delete_set (h : gmap positive RegionInfo)
  (buckets buckets' : gmap N (regionMap.t positive)) (s0 id : N) :
  buckets_ok h buckets ->
  RegionsInfo.bucket_Delete h buckets s0 id = Returned buckets' ->
  buckets_set id [s0] None buckets buckets'.
Proof.
  intros Hb. unfold RegionsInfo.bucket_Delete.
  destruct (buckets !! s0) as [rm|] eqn:Hs.
  - destruct (Delete_ok h rm id (Hb _ _ Hs)) as (rm' & Hd & Hok).
    rewrite Hd. run_bind. intros [= <-] s k.
    pose proof (Delete_Get (deref h) rm rm' id (proj1 (Hb _ _ Hs)) Hd k) as HG.
    destruct (decide (s = s0)) as [->|Hne].
    + rewrite lookup_insert_eq, HG, Hs.
      destruct (decide (k = id)) as [->|Hk].
      * rewrite decide_True; [done|]. split; [done | by left].
      * rewrite decide_False by (by intros [? _]). done.
    + rewrite lookup_insert_ne by done.
      rewrite decide_False; [done|]. intros [_ Hin].
      apply list_elem_of_singleton in Hin. done.
  - simpl. intros [= <-] s k.
    destruct (decide _) as [[-> Hin]|]; [|done].
    apply list_elem_of_singleton in Hin as ->. by rewrite Hs.
Qed.

Section index_effects.
Context {T : Type} `{RegionTree T}.

Lemma RemoveRegion_loop_set (h : gmap positive RegionInfo) (id : N)
  (peers : list Peer) (r r' : RegionsInfo.t T) :
  index_ok r h ->
  RegionsInfo.RemoveRegion_loop h id peers r = Returned r' ->
  RegionsInfo.tree r' = RegionsInfo.tree r
  /\ RegionsInfo.regions r' = RegionsInfo.regions r
  /\ buckets_set id (StoreId <$> peers) None
       (RegionsInfo.leaders r) (RegionsInfo.leaders r')
  /\ buckets_set id (StoreId <$> peers) None
       (RegionsInfo.followers r) (RegionsInfo.followers r')
  /\ buckets_set id (StoreId <$> peers) None
       (RegionsInfo.learners r) (RegionsInfo.learners r')
  /\ buckets_set id (StoreId <$> peers) None
       (RegionsInfo.pendingPeers r) (RegionsInfo.pendingPeers r').
Proof.
  revert r. induction peers as [|peer rest IH]; intros r Hok; simpl.
  - intros [= <-]. repeat split; apply buckets_set_nil.
  - destruct Hok as [O1 O2 O3 O4 O5].
    destruct (bucket_Delete_ok h _ (StoreId peer) id O2) as (l & El & Hl).
    destruct (bucket_Delete_ok h _ (StoreId peer) id O3) as (f & Ef & Hf).
    destruct (bucket_Delete_ok h _ (StoreId peer) id O4) as (n & En & Hn).
    destruct (bucket_Delete_ok h _ (StoreId peer) id O5) as (p & Ep & Hp).
    rewrite El, Ef, En, Ep. run_bind. intros Hrest.
    apply IH in Hrest as (Ht & Hr & S1 & S2 & S3 & S4); [|split; assumption].
    cbn [RegionsInfo.tree RegionsInfo.regions RegionsInfo.leaders
         RegionsInfo.followers RegionsInfo.learners RegionsInfo.pendingPeers] in *.
    split; [exact Ht|]. split; [exact Hr|].
    split; [|split; [|split]];
      (eapply buckets_set_cons;
       [eapply bucket_Delete_set; [|eassumption]; assumption | assumption]).
Qed.

Lemma RemoveRegion_set (r r' : RegionsInfo.t T) (h : gmap positive RegionInfo)
  (region : positive) :
  index_ok r h ->
  RegionsInfo.RemoveRegion r h (Some region) = Returned r' ->
  RegionsInfo.tree r'
  = tree_remove (RegionsInfo.tree r) (Region (deref h region))
  /\ (forall k,
        regionMap.Get (Some (RegionsInfo.regions r')) k
        = if decide (k = GetId (deref h region)) then None
          else regionMap.Get (Some (RegionsInfo.regions r)) k)
  /\ buckets_set (GetId (deref h region)) (StoreId <$> GetPeers (deref h region))
       None (RegionsInfo.leaders r) (RegionsInfo.leaders r')
  /\ buckets_set (GetId (deref h region)) (StoreId <$> GetPeers (deref h region))
       None (RegionsInfo.followers r) (RegionsInfo.followers r')
  /\ buckets_set (GetId (deref h region)) (StoreId <$> GetPeers (deref h region))
       None (RegionsInfo.learners r) (RegionsInfo.learners r')
  /\ buckets_set (GetId (deref h region)) (StoreId <$> GetPeers (deref h region))
       None (RegionsInfo.pendingPeers r) (RegionsInfo.pendingPeers r').
Proof.
  intros [O1 O2 O3 O4 O5]. unfold RegionsInfo.RemoveRegion.
  destruct (Delete_ok h _ (GetId (deref h region)) O1) as (regions' & Hd & Hreg).
  rewrite Hd. run_bind. intros Hloop.
  apply RemoveRegion_loop_set in Hloop as (Ht & Hr & S1 & S2 & S3 & S4);
    [|split; assumption].
  cbn [RegionsInfo.tree RegionsInfo.regions RegionsInfo.leaders
       RegionsInfo.followers RegionsInfo.learners RegionsInfo.pendingPeers] in *.
  split; [exact Ht|]. split; [|auto].
  intros k. rewrite Hr.
  exact (Delete_Get (deref h) _ _ _ (proj1 O1) Hd k).
Qed.

Lemma AddRegion_voters_set (h : gmap positive RegionInfo) (region : positive)
  (leader : Peer) (voters : list Peer) (r r' : RegionsInfo.t T) :
  RegionsInfo.AddRegion_voters h region leader voters r = Returned r' ->
  RegionsInfo.tree r' = RegionsInfo.tree r
  /\ RegionsInfo.regions r' = RegionsInfo.regions r
  /\ RegionsInfo.learners r' = RegionsInfo.learners r
  /\ RegionsInfo.pendingPeers r' = RegionsInfo.pendingPeers r
  /\ buckets_set (GetId (deref h region))
       (StoreId <$> List.filter (fun p => (PeerId p =? PeerId leader)%N) voters)
       (Some region) (RegionsInfo.leaders r) (RegionsInfo.leaders r')
  /\ buckets_set (GetId (deref h region))
       (StoreId <$> List.filter (fun p => negb (PeerId p =? PeerId leader)%N) voters)
       (Some region) (RegionsInfo.followers r) (RegionsInfo.followers r').
Proof.
  revert r. induction voters as [|peer rest IH]; intros r; simpl.
  - intros [= <-]. repeat split; apply buckets_set_nil.
  - destruct (PeerId peer =? PeerId leader)%N; simpl.
    + destruct (RegionsInfo.bucket_Put h (RegionsInfo.leaders r) (StoreId peer) region)
        as [l|] eqn:El; [|discriminate].
      run_bind. intros Hrest.
      apply IH in Hrest as (Ht & Hr & Hn & Hp & S1 & S2).
      cbn [RegionsInfo.tree RegionsInfo.regions RegionsInfo.leaders
           RegionsInfo.followers RegionsInfo.learners RegionsInfo.pendingPeers] in *.
      repeat (split; [assumption|]). split; [|assumption].
      eapply buckets_set_cons; [by eapply bucket_Put_set | assumption].
    + destruct (RegionsInfo.bucket_Put h (RegionsInfo.followers r) (StoreId peer) region)
        as [f|] eqn:Ef; [|discriminate].
      run_bind. intros Hrest.
      apply IH in Hrest as (Ht & Hr & Hn & Hp & S1 & S2).
      cbn [RegionsInfo.tree RegionsInfo.regions RegionsInfo.leaders
           RegionsInfo.followers RegionsInfo.learners RegionsInfo.pendingPeers] in *.
      repeat (split; [assumption|]).
      eapply buckets_set_cons; [by eapply bucket_Put_set | assumption].
Qed.

Lemma AddRegion_learners_set (h : gmap positive RegionInfo) (region : positive)
  (peers : list Peer) (r r' : RegionsInfo.t T) :
  RegionsInfo.AddRegion_learners h region peers r = Returned r' ->
  RegionsInfo.tree r' = RegionsInfo.tree r
  /\ RegionsInfo.regions r' = RegionsInfo.regions r
  /\ RegionsInfo.leaders r' = RegionsInfo.leaders r
  /\ RegionsInfo.followers r' = RegionsInfo.followers r
  /\ RegionsInfo.pendingPeers r' = RegionsInfo.pendingPeers r
  /\ buckets_set (GetId (deref h region)) (StoreId <$> peers)
       (Some region) (RegionsInfo.learners r) (RegionsInfo.learners r').
Proof.
  revert r. induction peers as [|peer rest IH]; intros r; simpl.
  - intros [= <-]. repeat split; apply buckets_set_nil.
  - destruct (RegionsInfo.bucket_Put h (RegionsInfo.learners r) (StoreId peer) region)
      as [n|] eqn:En; [|discriminate].
    run_bind. intros Hrest.
    apply IH in Hrest as (Ht & Hr & Hl & Hf & Hp & S1).
    cbn [RegionsInfo.tree RegionsInfo.regions RegionsInfo.leaders
         RegionsInfo.followers RegionsInfo.learners RegionsInfo.pendingPeers] in *.
    repeat (split; [assumption|]).
    eapply buckets_set_cons; [by eapply bucket_Put_set | assumption].
Qed.

Lemma AddRegion_pending_set (h : gmap positive RegionInfo) (region : positive)
  (peers : list Peer) (r r' : RegionsInfo.t T) :
  RegionsInfo.AddRegion_pending h region peers r = Returned r' ->
  RegionsInfo.tree r' = RegionsInfo.tree r
  /\ RegionsInfo.regions r' = RegionsInfo.regions r
  /\ RegionsInfo.leaders r' = RegionsInfo.leaders r
  /\ RegionsInfo.followers r' = RegionsInfo.followers r
  /\ RegionsInfo.learners r' = RegionsInfo.learners r
  /\ buckets_set (GetId (deref h region)) (StoreId <$> peers)
       (Some region) (RegionsInfo.pendingPeers r) (RegionsInfo.pendingPeers r').
Proof.
  revert r. induction peers as [|peer rest IH]; intros r; simpl.
  - intros [= <-]. repeat split; apply buckets_set_nil.
  - destruct (RegionsInfo.bucket_Put h (RegionsInfo.pendingPeers r) (StoreId peer) region)
      as [n|] eqn:En; [|discriminate].
    run_bind. intros Hrest.
    apply IH in Hrest as (Ht & Hr & Hl & Hf & Hp & S1).
    cbn [RegionsInfo.tree RegionsInfo.regions RegionsInfo.leaders
         RegionsInfo.followers RegionsInfo.learners RegionsInfo.pendingPeers] in *.
    repeat (split; [assumption|]).
    eapply buckets_set_cons; [by eapply bucket_Put_set | assumption].
Qed.

(** [AddRegion], step by step: the update of the tree, the removal of the
    overlapped regions, which leaves the index [r1], the [Put] into the
    global map, and the filing into the buckets. *)
Lemma AddRegion_effect (r r' : RegionsInfo.t T) (h h' : gmap positive RegionInfo)
  (region : positive) (overlaps : list MetaRegion) :
  RegionsInfo.AddRegion r h region = Returned (overlaps, r', h') ->
  exists tree' r1 regions',
    tree_update (RegionsInfo.tree r) (Region (deref h region)) = (tree', overlaps)
    /\ RegionsInfo.AddRegion_overlaps overlaps
         (RegionsInfo.mk tree' (RegionsInfo.regions r) (RegionsInfo.leaders r)
            (RegionsInfo.followers r) (RegionsInfo.learners r)
            (RegionsInfo.pendingPeers r)) h = Returned (r1, h')
    /\ regionMap.Put (deref h') (Some (RegionsInfo.regions r1)) region
       = Returned regions'
    /\ RegionsInfo.tree r' = RegionsInfo.tree r1
    /\ RegionsInfo.regions r' = regions'
    /\ buckets_set (GetId (deref h' region)) (leader_stores (deref h' region))
         (Some region) (RegionsInfo.leaders r1) (RegionsInfo.leaders r')
    /\ buckets_set (GetId (deref h' region)) (follower_stores (deref h' region))
         (Some region) (RegionsInfo.followers r1) (RegionsInfo.followers r')
    /\ buckets_set (GetId (deref h' region)) (learner_stores (deref h' region))
         (Some region) (RegionsInfo.learners r1) (RegionsInfo.learners r')
    /\ buckets_set (GetId (deref h' region)) (pending_stores (deref h' region))
         (Some region) (RegionsInfo.pendingPeers r1) (RegionsInfo.pendingPeers r').
Proof.
  unfold RegionsInfo.AddRegion.
  destruct (tree_update (RegionsInfo.tree r) (Region (deref h region)))
    as [tree' ov].
  destruct (RegionsInfo.AddRegion_overlaps ov _ h) as [[r1 h1]|] eqn:Hov;
    [|discriminate].
  run_bind.
  destruct (regionMap.Put (deref h1) (Some (RegionsInfo.regions r1)) region)
    as [regions'|] eqn:Hput; [|discriminate].
  run_bind.
  unfold leader_stores, follower_stores, learner_stores, pending_stores.
  destruct (Leader (deref h1 region)) as [leader|] eqn:Hl.
  - destruct (RegionsInfo.AddRegion_voters h1 region leader _ _) as [r3|] eqn:H3;
      [|discriminate]. run_bind.
    destruct (RegionsInfo.AddRegion_learners h1 region _ r3) as [r4|] eqn:H4;
      [|discriminate]. run_bind.
    destruct (RegionsInfo.AddRegion_pending h1 region _ r4) as [r5|] eqn:H5;
      [|discriminate]. run_bind.
    intros [= <- <- <-].
    exists tree', r1, regions'.
    split; [reflexivity|]. split; [exact Hov|]. split; [exact Hput|].
    rewrite Hl.
    apply AddRegion_voters_set in H3 as (T3 & R3 & N3 & P3 & SL & SF).
    apply AddRegion_learners_set in H4 as (T4 & R4 & L4 & F4 & P4 & SN).
    apply AddRegion_pending_set in H5 as (T5 & R5 & L5 & F5 & N5 & SP).
    cbn [RegionsInfo.tree RegionsInfo.regions RegionsInfo.leaders
         RegionsInfo.followers RegionsInfo.learners RegionsInfo.pendingPeers] in *.
    split; [congruence|]. split; [congruence|].
    split; [rewrite L5, L4; exact SL|].
    split; [rewrite F5, F4; exact SF|].
    split; [rewrite N5; rewrite N3 in SN; exact SN|].
    rewrite P4, P3 in SP. exact SP.
  - intros [= <- <- <-].
    exists tree', r1, regions'.
    split; [reflexivity|]. split; [exact Hov|]. split; [exact Hput|].
    rewrite Hl.
    cbn [RegionsInfo.tree RegionsInfo.regions RegionsInfo.leaders
         RegionsInfo.followers RegionsInfo.learners RegionsInfo.pendingPeers].
    repeat (split; [reflexivity|]).
    repeat split; apply buckets_set_nil.
Qed.

Lemma AddRegion_Get_region (r r' : RegionsInfo.t T) (h h' : gmap positive RegionInfo)
  (region : positive) (overlaps : list MetaRegion) :
  RegionsInfo.AddRegion r h region = Returned (overlaps, r', h') ->
  regionMap.Get (Some (RegionsInfo.regions r')) (GetId (deref h' region))
  = Some region.
Proof.
  intros Hadd.
  destruct (AddRegion_effect _ _ _ _ _ _ Hadd)
    as (tree' & r1 & regions' & _ & _ & HP & _ & -> & _).
  rewrite (Put_Get (deref h') _ _ _ HP). by rewrite decide_True.
Qed.

Lemma SetRegion_AddRegion (r r' : RegionsInfo.t T) (h h' : gmap positive RegionInfo)
  (region : positive) (overlaps : list MetaRegion) :
  RegionsInfo.SetRegion r h region = Returned (overlaps, r', h') ->
  exists r0, RegionsInfo.AddRegion r0 h region = Returned (overlaps, r', h').
Proof.
  unfold RegionsInfo.SetRegion.
  destruct (regionMap.Get _ _) as [origin|]; [|by eexists].
  destruct (RegionsInfo.RemoveRegion r h (Some origin)) as [r0|]; [|discriminate].
  run_bind. by eexists.
Qed.

(** ** Runs of writers keep the invariant of the index *)

Lemma index_step_ok (r r' : RegionsInfo.t T) (h h' : gmap positive RegionInfo)
  (o : indexOp) :
  index_ok r h ->
  (exists p, o = CallRemoveRegion p)
  \/ is_Some (Region (deref h (indexOp_region o))) ->
  index_step r h o = Returned (r', h') ->
  index_ok r' h' /\ heap_le h h'.
Proof.
  intros Hok Hreg. destruct o as [p|p|p]; cbn [index_step indexOp_region] in *.
  - destruct Hreg as [[q [=]]|Hreg].
    destruct (RegionsInfo.SetRegion r h p) as [[[ov r1] h1]|] eqn:E; [|discriminate].
    run_bind. intros [= <- <-]. eapply SetRegion_ok; eassumption.
  - destruct Hreg as [[q [=]]|Hreg].
    destruct (RegionsInfo.AddRegion r h p) as [[[ov r1] h1]|] eqn:E; [|discriminate].
    run_bind. intros [= <- <-]. eapply AddRegion_ok; eassumption.
  - destruct (RemoveRegion_ok r h p Hok) as (r1 & E & Hok1).
    rewrite E. run_bind. intros [= <- <-]. split; [exact Hok1 | apply heap_le_refl].
Qed.

Lemma index_run_ok (ops : list indexOp) (r r' : RegionsInfo.t T)
  (h h' : gmap positive RegionInfo) :
  index_ok r h ->
  (forall o, o ∈ ops ->
     (exists p, o = CallRemoveRegion p)
     \/ is_Some (Region (deref h (indexOp_region o)))) ->
  index_run ops r h = Returned (r', h') ->
  index_ok r' h' /\ heap_le h h'.
Proof.
  revert r h. induction ops as [|o ops IH]; intros r h Hok Hreg;
    cbn [index_run].
  - intros [= <- <-]. split; [exact Hok | apply heap_le_refl].
  - destruct (index_step r h o) as [[r1 h1]|] eqn:E; [|discriminate].
    run_bind. intros Hrun.
    destruct (index_step_ok r r1 h h1 o Hok (Hreg o ltac:(left)) E) as [Hok1 Hle1].
    assert (Hreg1 : forall o', o' ∈ ops ->
              (exists p, o' = CallRemoveRegion p)
              \/ is_Some (Region (deref h1 (indexOp_region o')))).
    { intros o' Ho'. destruct (Hreg o' ltac:(by right)) as [?|Hr]; [by left|].
      right. by rewrite (deref_heap_le h h1). }
    destruct (IH r1 h1 Hok1 Hreg1 Hrun) as [Hok' Hle'].
    split; [exact Hok' | by eapply heap_le_trans].
Qed.

End index_effects.

(** ** The totals of the maps of the index *)

Lemma entry_sum_ext {R : Type} (w w' : regionEntry R -> Z)
  (m : gmap N (regionEntry R)) :
  (forall k e, m !! k = Some e -> w e = w' e) ->
  entry_sum w m = entry_sum w' m.
Proof.
  induction m as [|k e m Hk IH] using map_ind; intros Hw.
  - reflexivity.
  - rewrite !entry_sum_insert_new by exact Hk.
    rewrite IH.
    + rewrite (Hw k e); [reflexivity | apply lookup_insert_eq].
    + intros k' e' He'. apply (Hw k').
      rewrite lookup_insert_ne; [exact He'|]. intros <-. congruence.
Qed.

Lemma rm_totals_heap_le (h h' : gmap positive RegionInfo)
  (rm : regionMap.t positive) :
  heap_le h h' -> rm_ok h rm -> rm_totals (deref h) rm -> rm_totals (deref h') rm.
Proof.
  intros Hle [_ Hreg] [Hs Hk]. unfold rm_totals, sumSize, sumKeys in *.
  rewrite Hs, Hk. split; f_equal; apply entry_sum_ext; intros k e He;
    rewrite (deref_heap_le h h'); eauto.
Qed.

Lemma buckets_totals_heap_le (h h' : gmap positive RegionInfo)
  (buckets : gmap N (regionMap.t positive)) :
  heap_le h h' -> buckets_ok h buckets -> buckets_totals h buckets ->
  buckets_totals h' buckets.
Proof.
  intros Hle Hok Ht s rm Hs. eapply rm_totals_heap_le; eauto.
Qed.

Lemma index_totals_heap_le {T : Type} (r : RegionsInfo.t T)
  (h h' : gmap positive RegionInfo) :
  heap_le h h' -> index_ok r h -> index_totals r h -> index_totals r h'.
Proof.
  intros Hle [O1 O2 O3 O4 O5] [T1 T2 T3 T4 T5].
  split; [by eapply rm_totals_heap_le | | | |];
    by eapply buckets_totals_heap_le.
Qed.

Lemma bucket_Put_totals (h : gmap positive RegionInfo)
  (buckets buckets' : gmap N (regionMap.t positive)) (storeID : N)
  (region : positive) :
  buckets_totals h buckets ->
  RegionsInfo.bucket_Put h buckets storeID region = Returned buckets' ->
  buckets_totals h buckets'.
Proof.
  intros Hb. unfold RegionsInfo.bucket_Put.
  set (st := match buckets !! storeID with
             | Some rm => rm
             | None => regionMap.newRegionMap
             end).
  assert (Hst : rm_totals (deref h) st).
  { subst st. destruct (buckets !! storeID) as [rm|] eqn:Hs;
      [exact (Hb _ _ Hs) | apply rm_totals_new]. }
  destruct (regionMap.Put (deref h) (Some st) region) as [rm'|] eqn:Hput;
    [|discriminate].
  run_bind. intros [= <-].
  intros s x. rewrite lookup_insert. case_decide.
  - intros [= <-]. exact (Put_totals _ _ _ _ Hst Hput).
  - apply Hb.
Qed.

Lemma bucket_Delete_totals (h : gmap positive RegionInfo)
  (buckets buckets' : gmap N (regionMap.t positive)) (storeID id : N) :
  buckets_ok h buckets -> buckets_totals h buckets ->
  RegionsInfo.bucket_Delete h buckets storeID id = Returned buckets' ->
  buckets_totals h buckets'.
Proof.
  intros Hok Hb. unfold RegionsInfo.bucket_Delete.
  destruct (buckets !! storeID) as [rm|] eqn:Hs.
  - destruct (Delete_ok h rm id (Hok _ _ Hs)) as (rm' & Hd & _).
    rewrite Hd. run_bind. intros [= <-].
    intros s x. rewrite lookup_insert. case_decide.
    + intros [= <-].
      exact (Delete_totals _ _ _ _ (proj1 (Hok _ _ Hs)) (Hb _ _ Hs) Hd).
    + apply Hb.
  - simpl. by intros [= <-].
Qed.

Section index_totals.
Context {T : Type} `{RegionTree T}.

Lemma NewRegionsInfo_totals (h : gmap positive RegionInfo) :
  index_totals (RegionsInfo.NewRegionsInfo (T := T)) h.
Proof.
  split; simpl; [apply rm_totals_new | | | |];
    intros s rm Hs; rewrite lookup_empty in Hs; discriminate.
Qed.

Lemma RemoveRegion_loop_totals (h : gmap positive RegionInfo) (id : N)
  (peers : list Peer) (r r' : RegionsInfo.t T) :
  index_ok r h -> index_totals r h ->
  RegionsInfo.RemoveRegion_loop h id peers r = Returned r' ->
  index_totals r' h.
Proof.
  revert r. induction peers as [|peer rest IH]; intros r Hok Ht; simpl.
  - by intros [= <-].
  - destruct Hok as [O1 O2 O3 O4 O5]. destruct Ht as [T1 T2 T3 T4 T5].
    destruct (bucket_Delete_ok h _ (StoreId peer) id O2) as (l & El & Hl).
    destruct (bucket_Delete_ok h _ (StoreId peer) id O3) as (f & Ef & Hf).
    destruct (bucket_Delete_ok h _ (StoreId peer) id O4) as (n & En & Hn).
    destruct (bucket_Delete_ok h _ (StoreId peer) id O5) as (p & Ep & Hp).
    rewrite El, Ef, En, Ep. run_bind.
    apply IH; [split; assumption|].
    split; [assumption | | | |].
    + exact (bucket_Delete_totals _ _ _ _ _ O2 T2 El).
    + exact (bucket_Delete_totals _ _ _ _ _ O3 T3 Ef).
    + exact (bucket_Delete_totals _ _ _ _ _ O4 T4 En).
    + exact (bucket_Delete_totals _ _ _ _ _ O5 T5 Ep).
Qed.

Lemma RemoveRegion_totals (r r' : RegionsInfo.t T) (h : gmap positive RegionInfo)
  (region : positive) :
  index_ok r h -> index_totals r h ->
  RegionsInfo.RemoveRegion r h (Some region) = Returned r' ->
  index_totals r' h.
Proof.
  intros [O1 O2 O3 O4 O5] [T1 T2 T3 T4 T5]. unfold RegionsInfo.RemoveRegion.
  destruct (Delete_ok h _ (GetId (deref h region)) O1) as (regions' & Hd & Hreg).
  rewrite Hd. run_bind.
  apply RemoveRegion_loop_totals; [split; assumption|].
  split; try assumption.
  exact (Delete_totals _ _ _ _ (proj1 O1) T1 Hd).
Qed.

Lemma AddRegion_overlaps_totals (overlaps : list MetaRegion)
  (r r1 : RegionsInfo.t T) (h h1 : gmap positive RegionInfo) :
  index_ok r h -> index_totals r h ->
  RegionsInfo.AddRegion_overlaps overlaps r h = Returned (r1, h1) ->
  index_totals r1 h1.
Proof.
  revert r h. induction overlaps as [|item rest IH]; intros r h Hok Ht; simpl.
  - by intros [= <- <-].
  - destruct (GetRegion_ok r h (Id item) Hok) as (c & h' & -> & Hle).
    run_bind.
    destruct c as [q|]; [|discriminate].
    pose proof (index_ok_heap_le _ _ _ Hle Hok) as Hok'.
    pose proof (index_totals_heap_le _ _ _ Hle Hok Ht) as Ht'.
    destruct (RemoveRegion_ok r h' q Hok') as (r' & Hrm & Hok'').
    rewrite Hrm. run_bind.
    apply IH; [exact Hok''|].
    exact (RemoveRegion_totals r r' h' q Hok' Ht' Hrm).
Qed.

Lemma AddRegion_voters_totals (h : gmap positive RegionInfo) (region : positive)
  (leader : Peer) (voters : list Peer) (r r' : RegionsInfo.t T) :
  index_totals r h ->
  RegionsInfo.AddRegion_voters h region leader voters r = Returned r' ->
  index_totals r' h.
Proof.
  revert r. induction voters as [|peer rest IH]; intros r Ht; simpl.
  - by intros [= <-].
  - destruct Ht as [T1 T2 T3 T4 T5].
    destruct (PeerId peer =? PeerId leader)%N.
    + destruct (RegionsInfo.bucket_Put h (RegionsInfo.leaders r) _ region)
        as [b|] eqn:Hb; [|discriminate].
      run_bind. apply IH. split; try assumption.
      exact (bucket_Put_totals _ _ _ _ _ T2 Hb).
    + destruct (RegionsInfo.bucket_Put h (RegionsInfo.followers r) _ region)
        as [b|] eqn:Hb; [|discriminate].
      run_bind. apply IH. split; try assumption.
      exact (bucket_Put_totals _ _ _ _ _ T3 Hb).
Qed.

Lemma AddRegion_learners_totals (h : gmap positive RegionInfo) (region : positive)
  (peers : list Peer) (r r' : RegionsInfo.t T) :
  index_totals r h ->
  RegionsInfo.AddRegion_learners h region peers r = Returned r' ->
  index_totals r' h.
Proof.
  revert r. induction peers as [|peer rest IH]; intros r Ht; simpl.
  - by intros [= <-].
  - destruct Ht as [T1 T2 T3 T4 T5].
    destruct (RegionsInfo.bucket_Put h (RegionsInfo.learners r) _ region)
      as [b|] eqn:Hb; [|discriminate].
    run_bind. apply IH. split; try assumption.
    exact (bucket_Put_totals _ _ _ _ _ T4 Hb).
Qed.

Lemma AddRegion_pending_totals (h : gmap positive RegionInfo) (region : positive)
  (peers : list Peer) (r r' : RegionsInfo.t T) :
  index_totals r h ->
  RegionsInfo.AddRegion_pending h region peers r = Returned r' ->
  index_totals r' h.
Proof.
  revert r. induction peers as [|peer rest IH]; intros r Ht; simpl.
  - by intros [= <-].
  - destruct Ht as [T1 T2 T3 T4 T5].
    destruct (RegionsInfo.bucket_Put h (RegionsInfo.pendingPeers r) _ region)
      as [b|] eqn:Hb; [|discriminate].
    run_bind. apply IH. split; try assumption.
    exact (bucket_Put_totals _ _ _ _ _ T5 Hb).
Qed.

Lemma AddRegion_totals (r r' : RegionsInfo.t T) (h h' : gmap positive RegionInfo)
  (region : positive) (overlaps : list MetaRegion) :
  index_ok r h -> index_totals r h ->
  RegionsInfo.AddRegion r h region = Returned (overlaps, r', h') ->
  index_totals r' h'.
Proof.
  intros Hok Ht Hadd.
  destruct (AddRegion_inv _ _ _ _ _ _ Hadd)
    as (tree' & r1 & r2 & _ & Hov & E1 & E2 & E3 & E4 & Hput & Hrest).
  apply AddRegion_overlaps_totals in Hov as [T1 T2 T3 T4 T5].
  2:{ destruct Hok. split; assumption. }
  2:{ destruct Ht. split; assumption. }
  assert (Ht2 : index_totals r2 h').
  { split; [exact (Put_totals _ _ _ _ T1 Hput) | | | |].
    - rewrite E1. exact T2.
    - rewrite E2. exact T3.
    - rewrite E3. exact T4.
    - rewrite E4. exact T5. }
  destruct (Leader (deref h' region)) as [leader|].
  - destruct Hrest as (r3 & r4 & H3 & H4 & H5).
    eapply AddRegion_pending_totals; [|exact H5].
    eapply AddRegion_learners_totals; [|exact H4].
    eapply AddRegion_voters_totals; [exact Ht2|exact H3].
  - subst r'. exact Ht2.
Qed.

Lemma SetRegion_totals (r r' : RegionsInfo.t T) (h h' : gmap positive RegionInfo)
  (region : positive) (overlaps : list MetaRegion) :
  index_ok r h -> index_totals r h ->
  RegionsInfo.SetRegion r h region = Returned (overlaps, r', h') ->
  index_totals r' h'.
Proof.
  intros Hok Ht. unfold RegionsInfo.SetRegion.
  destruct (regionMap.Get (Some (RegionsInfo.regions r)) (GetId (deref h region)))
    as [origin|].
  - destruct (RemoveRegion_ok r h origin Hok) as (r0 & Hrm & Hok0).
    rewrite Hrm. run_bind. apply AddRegion_totals; [exact Hok0|].
    exact (RemoveRegion_totals r r0 h origin Hok Ht Hrm).
  - by apply AddRegion_totals.
Qed.

Lemma index_step_totals (r r' : RegionsInfo.t T) (h h' : gmap positive RegionInfo)
  (o : indexOp) :
  index_ok r h -> index_totals r h ->
  index_step r h o = Returned (r', h') ->
  index_totals r' h'.
Proof.
  intros Hok Ht. destruct o as [p|p|p]; cbn [index_step].
  - destruct (RegionsInfo.SetRegion r h p) as [[[ov r1] h1]|] eqn:E; [|discriminate].
    run_bind. intros [= <- <-]. eapply SetRegion_totals; eassumption.
  - destruct (RegionsInfo.AddRegion r h p) as [[[ov r1] h1]|] eqn:E; [|discriminate].
    run_bind. intros [= <- <-]. eapply AddRegion_totals; eassumption.
  - destruct (RegionsInfo.RemoveRegion r h (Some p)) as [r1|] eqn:E; [|discriminate].
    run_bind. intros [= <- <-]. eapply RemoveRegion_totals; eassumption.
Qed.

Lemma index_run_totals (ops : list indexOp) (r r' : RegionsInfo.t T)
  (h h' : gmap positive RegionInfo) :
  index_ok r h -> index_totals r h ->
  (forall o, o ∈ ops ->
     (exists p, o = CallRemoveRegion p)
     \/ is_Some (Region (deref h (indexOp_region o)))) ->
  index_run ops r h = Returned (r', h') ->
  index_totals r' h'.
Proof.
  revert r h. induction ops as [|o ops IH]; intros r h Hok Ht Hreg;
    cbn [index_run].
  - by intros [= <- <-].
  - destruct (index_step r h o) as [[r1 h1]|] eqn:E; [|discriminate].
    run_bind. intros Hrun.
    destruct (index_step_ok r r1 h h1 o Hok (Hreg o ltac:(left)) E) as [Hok1 Hle1].
    pose proof (index_step_totals r r1 h h1 o Hok Ht E) as Ht1.
    assert (Hreg1 : forall o', o' ∈ ops ->
              (exists p, o' = CallRemoveRegion p)
              \/ is_Some (Region (deref h1 (indexOp_region o')))).
    { intros o' Ho'. destruct (Hreg o' ltac:(by right)) as [?|Hr]; [by left|].
      right. by rewrite (deref_heap_le h h1). }
    exact (IH r1 h1 Hok1 Ht1 Hreg1 Hrun).
Qed.

Lemma TotalSize_totals (h : gmap positive RegionInfo)
  (buckets : gmap N (regionMap.t positive)) (s : N) :
  buckets_totals h buckets ->
  regionMap.TotalSize (buckets !! s) = to_int64 (bucket_sumSize h buckets s).
Proof.
  intros Ht. unfold regionMap.TotalSize, bucket_sumSize, regionMap.Len.
  destruct (buckets !! s) as [rm|] eqn:Hs; [|reflexivity].
  destruct (Ht s rm Hs) as [Hsz _].
  destruct (size (regionMap.m rm) =? 0)%nat eqn:E; [|exact Hsz].
  apply Nat.eqb_eq in E. apply map_size_empty_inv in E.
  unfold sumSize. rewrite E. reflexivity.
Qed.

End index_totals.

(** ** The buckets agree with the global map *)

Lemma role_stores_on_peers (v : RegionInfo) (s : N) :
  roles_on_peer_stores v ->
  s ∈ leader_stores v \/ s ∈ follower_stores v
  \/ s ∈ learner_stores v \/ s ∈ pending_stores v ->
  s ∈ StoreId <$> GetPeers v.
Proof.
  intros Hw.
  unfold leader_stores, follower_stores, learner_stores, pending_stores,
    GetVoters, GetLearners.
  destruct (Leader v) as [l|].
  - intros [Hs|[Hs|[Hs|Hs]]]; apply list_elem_of_fmap in Hs as (p & -> & Hp).
    + apply elem_of_List_filter in Hp as [Hp _]. apply Hw. by left.
    + apply elem_of_List_filter in Hp as [Hp _]. apply Hw. by left.
    + apply Hw. right. by left.
    + apply Hw. right. by right.
  - intros [Hs|[Hs|[Hs|Hs]]]; by apply elem_of_nil in Hs.
Qed.

Lemma Get_key (h : gmap positive RegionInfo) (rm : regionMap.t positive)
  (k : N) (p : positive) :
  rm_ok h rm -> regionMap.Get (Some rm) k = Some p -> GetId (deref h p) = k.
Proof.
  intros [Hc _]. rewrite Get_lookup.
  destruct (regionMap.m rm !! k) as [e|] eqn:E; [|discriminate].
  intros [= <-]. exact (rm_key _ _ Hc k e E).
Qed.

Lemma buckets_agree_heap_le {T : Type} (r : RegionsInfo.t T)
  (h h' : gmap positive RegionInfo) (role : RegionInfo -> list N)
  (b : gmap N (regionMap.t positive)) :
  heap_le h h' -> index_ok r h ->
  buckets_agree r h role b -> buckets_agree r h' role b.
Proof.
  intros Hle Hok Ha s k p. rewrite (Ha s k p).
  split; intros [Hg Hs]; (split; [exact Hg|]).
  - rewrite (deref_heap_le h h'); [exact Hs | exact Hle |].
    exact (index_residents r h Hok k p Hg).
  - rewrite (deref_heap_le h h') in Hs; [exact Hs | exact Hle |].
    exact (index_residents r h Hok k p Hg).
Qed.

Lemma index_agree_heap_le {T : Type} (r : RegionsInfo.t T)
  (h h' : gmap positive RegionInfo) :
  heap_le h h' -> index_ok r h -> index_agree r h -> index_agree r h'.
Proof.
  intros Hle Hok [A1 A2 A3 A4 A5].
  split; try (by eapply buckets_agree_heap_le).
  intros k p Hg. rewrite (deref_heap_le h h'); [by eapply A5 | exact Hle |].
  exact (index_residents r h Hok k p Hg).
Qed.

Lemma buckets_agree_remove {T : Type} (r r' : RegionsInfo.t T)
  (h : gmap positive RegionInfo) (role : RegionInfo -> list N)
  (b b' : gmap N (regionMap.t positive)) (id : N) (stores : list N) :
  buckets_agree r h role b ->
  (forall k,
     regionMap.Get (Some (RegionsInfo.regions r')) k
     = if decide (k = id) then None
       else regionMap.Get (Some (RegionsInfo.regions r)) k) ->
  buckets_set id stores None b b' ->
  (forall p s, regionMap.Get (Some (RegionsInfo.regions r)) id = Some p ->
               s ∈ role (deref h p) -> s ∈ stores) ->
  buckets_agree r' h role b'.
Proof.
  intros Ha Hr Hset Hsub s k p. rewrite Hset, Hr.
  destruct (decide (k = id)) as [->|Hk].
  - destruct (decide (id = id /\ s ∈ stores)) as [_|Hn].
    + split; [discriminate | intros [? _]; discriminate].
    + split; [|intros [? _]; discriminate].
      intros Hg. apply Ha in Hg as [Hg Hs]. exfalso. apply Hn.
      split; [done|]. by eapply Hsub.
  - rewrite decide_False by (by intros [? _]). apply Ha.
Qed.

Lemma buckets_agree_put {T : Type} (r1 r' : RegionsInfo.t T)
  (h : gmap positive RegionInfo) (role : RegionInfo -> list N)
  (b b' : gmap N (regionMap.t positive)) (id : N) (region : positive) :
  buckets_agree r1 h role b ->
  regionMap.Get (Some (RegionsInfo.regions r1)) id = None ->
  (forall k,
     regionMap.Get (Some (RegionsInfo.regions r')) k
     = if decide (k = id) then Some region
       else regionMap.Get (Some (RegionsInfo.regions r1)) k) ->
  buckets_set id (role (deref h region)) (Some region) b b' ->
  buckets_agree r' h role b'.
Proof.
  intros Ha Hnone Hr Hset s k p. rewrite Hset, Hr.
  destruct (decide (k = id)) as [->|Hk].
  - destruct (decide (id = id /\ s ∈ role (deref h region))) as [[_ Hin]|Hn].
    + split; [intros [= <-]; by split | by intros [? _]].
    + split.
      * intros Hg. apply Ha in Hg as [Hg _]. congruence.
      * intros [[= <-] Hs]. exfalso. apply Hn. by split.
  - rewrite decide_False by (by intros [? _]). apply Ha.
Qed.

Section index_agree.
Context {T : Type} `{RegionTree T}.

Lemma NewRegionsInfo_agree (h : gmap positive RegionInfo) :
  index_agree (RegionsInfo.NewRegionsInfo (T := T)) h.
Proof.
  split; try (intros s k p; simpl; rewrite lookup_empty; simpl;
              split; [discriminate | intros [? _]; discriminate]).
  intros k p. discriminate.
Qed.

Lemma RemoveRegion_agree (r r' : RegionsInfo.t T) (h : gmap positive RegionInfo)
  (x : positive) :
  index_ok r h -> index_agree r h ->
  (forall p,
     regionMap.Get (Some (RegionsInfo.regions r)) (GetId (deref h x)) = Some p ->
     GetPeers (deref h x) = GetPeers (deref h p)) ->
  RegionsInfo.RemoveRegion r h (Some x) = Returned r' ->
  index_agree r' h.
Proof.
  intros Hok [A1 A2 A3 A4 A5] Hpeers Hrm.
  destruct (RemoveRegion_set r r' h x Hok Hrm) as (_ & Hr & S1 & S2 & S3 & S4).
  assert (Hsub : forall p s,
            regionMap.Get (Some (RegionsInfo.regions r)) (GetId (deref h x)) = Some p ->
            s ∈ leader_stores (deref h p) \/ s ∈ follower_stores (deref h p)
            \/ s ∈ learner_stores (deref h p) \/ s ∈ pending_stores (deref h p) ->
            s ∈ StoreId <$> GetPeers (deref h x)).
  { intros p s Hg Hs. rewrite (Hpeers p Hg).
    apply role_stores_on_peers; [by eapply A5 | exact Hs]. }
  split.
  - eapply buckets_agree_remove; [exact A1 | exact Hr | exact S1 |].
    intros p s Hg Hs. eapply Hsub; eauto.
  - eapply buckets_agree_remove; [exact A2 | exact Hr | exact S2 |].
    intros p s Hg Hs. eapply Hsub; eauto.
  - eapply buckets_agree_remove; [exact A3 | exact Hr | exact S3 |].
    intros p s Hg Hs. eapply Hsub; eauto.
  - eapply buckets_agree_remove; [exact A4 | exact Hr | exact S4 |].
    intros p s Hg Hs. eapply Hsub; eauto 6.
  - intros k p Hg. rewrite Hr in Hg.
    destruct (decide _); [discriminate|]. by eapply A5.
Qed.

Lemma RemoveRegion_keeps_absent (r r' : RegionsInfo.t T)
  (h : gmap positive RegionInfo) (x : positive) (k : N) :
  index_ok r h ->
  RegionsInfo.RemoveRegion r h (Some x) = Returned r' ->
  regionMap.Get (Some (RegionsInfo.regions r)) k = None ->
  regionMap.Get (Some (RegionsInfo.regions r')) k = None.
Proof.
  intros Hok Hrm Hn.
  destruct (RemoveRegion_set r r' h x Hok Hrm) as (_ & Hr & _).
  rewrite Hr. by destruct (decide _).
Qed.

Lemma AddRegion_overlaps_agree (overlaps : list MetaRegion)
  (r r1 : RegionsInfo.t T) (h h1 : gmap positive RegionInfo) :
  index_ok r h -> index_agree r h ->
  RegionsInfo.AddRegion_overlaps overlaps r h = Returned (r1, h1) ->
  index_agree r1 h1
  /\ (forall k, regionMap.Get (Some (RegionsInfo.regions r)) k = None ->
                regionMap.Get (Some (RegionsInfo.regions r1)) k = None).
Proof.
  revert r h. induction overlaps as [|item rest IH]; intros r h Hok Hag;
    cbn [RegionsInfo.AddRegion_overlaps].
  - intros [= <- <-]. by split.
  - destruct (GetRegion_spec r h (Id item) (index_residents r h Hok (Id item)))
      as (c & h' & Hget & Hle & Hmatch).
    rewrite Hget. run_bind.
    destruct c as [q|]; [|discriminate].
    destruct (regionMap.Get (Some (RegionsInfo.regions r)) (Id item))
      as [stored|] eqn:Hst; [|by destruct Hmatch as [[=] _]].
    destruct Hmatch as (q' & c & [= <-] & Hq & Hclone & ->).
    pose proof (index_ok_heap_le r h _ Hle Hok) as Hok'.
    pose proof (index_agree_heap_le r h _ Hle Hok Hag) as Hag'.
    destruct (RemoveRegion_ok r _ q Hok') as (r' & Hrm & Hok'').
    rewrite Hrm. run_bind. intros Hrest.
    assert (Hq' : deref (<[q:=c]> h) q = c).
    { apply deref_lookup. apply lookup_insert_eq. }
    assert (Hstored : deref (<[q:=c]> h) stored = deref h stored).
    { apply deref_heap_le; [exact Hle|].
      exact (index_residents r h Hok _ _ Hst). }
    assert (Hid : GetId c = Id item).
    { rewrite (Clone_GetId _ _ Hclone).
      exact (Get_key h _ _ _ (ok_regions _ _ Hok) Hst). }
    assert (Hpeers : GetPeers c = GetPeers (deref h stored)).
    { unfold Clone in Hclone.
      apply classifyVoterAndLearner_fields in Hclone as (Hreg & _).
      unfold GetPeers. by rewrite Hreg. }
    assert (Hag'' : index_agree r' (<[q:=c]> h)).
    { eapply RemoveRegion_agree; [exact Hok' | exact Hag' | | exact Hrm].
      intros p. rewrite Hq', Hid, Hst. intros [= <-].
      by rewrite Hstored. }
    destruct (IH r' _ Hok'' Hag'' Hrest) as [Hag1 Hn1].
    split; [exact Hag1|].
    intros k Hk. apply Hn1.
    exact (RemoveRegion_keeps_absent r r' _ q k Hok' Hrm Hk).
Qed.

Lemma AddRegion_agree (r r' : RegionsInfo.t T) (h h' : gmap positive RegionInfo)
  (region : positive) (overlaps : list MetaRegion) :
  index_ok r h -> index_agree r h ->
  is_Some (Region (deref h region)) ->
  roles_on_peer_stores (deref h region) ->
  regionMap.Get (Some (RegionsInfo.regions r)) (GetId (deref h region)) = None ->
  RegionsInfo.AddRegion r h region = Returned (overlaps, r', h') ->
  index_agree r' h'.
Proof.
  intros Hok Hag Hreg Hwf Hnone Hadd.
  destruct (AddRegion_effect _ _ _ _ _ _ Hadd)
    as (tree' & r1 & regions' & Htu & Hov & HP & Ht & Hr & S1 & S2 & S3 & S4).
  assert (Hok0 : index_ok
            (RegionsInfo.mk tree' (RegionsInfo.regions r) (RegionsInfo.leaders r)
               (RegionsInfo.followers r) (RegionsInfo.learners r)
               (RegionsInfo.pendingPeers r)) h)
    by (destruct Hok; split; assumption).
  assert (Hag0 : index_agree
            (RegionsInfo.mk tree' (RegionsInfo.regions r) (RegionsInfo.leaders r)
               (RegionsInfo.followers r) (RegionsInfo.learners r)
               (RegionsInfo.pendingPeers r)) h)
    by (destruct Hag; split; assumption).
  destruct (AddRegion_overlaps_ok _ _ _ _ _ Hok0 Hov) as [Hok1 Hle].
  destruct (AddRegion_overlaps_agree _ _ _ _ _ Hok0 Hag0 Hov) as [[A1 A2 A3 A4 A5] Hn].
  assert (Hd : deref h' region = deref h region) by (by apply deref_heap_le).
  rewrite Hd in *.
  assert (Hnone1 : regionMap.Get (Some (RegionsInfo.regions r1))
                     (GetId (deref h region)) = None) by (by apply Hn).
  assert (Hregs : forall k,
            regionMap.Get (Some (RegionsInfo.regions r')) k
            = if decide (k = GetId (deref h region)) then Some region
              else regionMap.Get (Some (RegionsInfo.regions r1)) k).
  { intros k. rewrite Hr, (Put_Get (deref h') _ _ _ HP k), Hd. reflexivity. }
  split.
  - eapply buckets_agree_put; [exact A1 | exact Hnone1 | exact Hregs |].
    by rewrite Hd.
  - eapply buckets_agree_put; [exact A2 | exact Hnone1 | exact Hregs |].
    by rewrite Hd.
  - eapply buckets_agree_put; [exact A3 | exact Hnone1 | exact Hregs |].
    by rewrite Hd.
  - eapply buckets_agree_put; [exact A4 | exact Hnone1 | exact Hregs |].
    by rewrite Hd.
  - intros k p. rewrite Hregs. destruct (decide _).
    + intros [= <-]. by rewrite Hd.
    + apply A5.
Qed.

Lemma SetRegion_agree (r r' : RegionsInfo.t T) (h h' : gmap positive RegionInfo)
  (region : positive) (overlaps : list MetaRegion) :
  index_ok r h -> index_agree r h ->
  is_Some (Region (deref h region)) ->
  roles_on_peer_stores (deref h region) ->
  RegionsInfo.SetRegion r h region = Returned (overlaps, r', h') ->
  index_agree r' h'.
Proof.
  intros Hok Hag Hreg Hwf. unfold RegionsInfo.SetRegion.
  destruct (regionMap.Get (Some (RegionsInfo.regions r)) (GetId (deref h region)))
    as [origin|] eqn:Ho.
  - destruct (RemoveRegion_ok r h origin Hok) as (r0 & Hrm & Hok0).
    rewrite Hrm. run_bind. intros Hadd.
    pose proof (Get_key h _ _ _ (ok_regions _ _ Hok) Ho) as Hid.
    assert (Hag0 : index_agree r0 h).
    { eapply RemoveRegion_agree; [exact Hok | exact Hag | | exact Hrm].
      intros p. rewrite Hid, Ho. by intros [= <-]. }
    eapply AddRegion_agree; [exact Hok0 | exact Hag0 | exact Hreg | exact Hwf | | exact Hadd].
    destruct (RemoveRegion_set r r0 h origin Hok Hrm) as (_ & Hr & _).
    rewrite Hr, Hid. by rewrite decide_True.
  - intros Hadd. by eapply AddRegion_agree.
Qed.

Lemma index_run_set_agree (ps : list positive) (r r' : RegionsInfo.t T)
  (h h' : gmap positive RegionInfo) :
  index_ok r h -> index_agree r h ->
  (forall p, p ∈ ps ->
     is_Some (Region (deref h p)) /\ roles_on_peer_stores (deref h p)) ->
  index_run (CallSetRegion <$> ps) r h = Returned (r', h') ->
  index_ok r' h' /\ index_agree r' h' /\ heap_le h h'.
Proof.
  revert r h. induction ps as [|p ps IH]; intros r h Hok Hag Hps;
    cbn [fmap list_fmap index_run].
  - intros [= <- <-]. split; [exact Hok|]. split; [exact Hag | apply heap_le_refl].
  - cbn [index_step].
    destruct (RegionsInfo.SetRegion r h p) as [[[ov r1] h1]|] eqn:E; [|discriminate].
    run_bind. intros Hrun.
    destruct (Hps p ltac:(left)) as [Hreg Hwf].
    destruct (SetRegion_ok r r1 h h1 p ov Hok Hreg E) as [Hok1 Hle1].
    pose proof (SetRegion_agree r r1 h h1 p ov Hok Hag Hreg Hwf E) as Hag1.
    assert (Hps1 : forall q, q ∈ ps ->
              is_Some (Region (deref h1 q)) /\ roles_on_peer_stores (deref h1 q)).
    { intros q Hq. destruct (Hps q ltac:(by right)) as [Hr Hw].
      by rewrite (deref_heap_le h h1). }
    destruct (IH r1 h1 Hok1 Hag1 Hps1 Hrun) as (Hok' & Hag' & Hle').
    split; [exact Hok'|]. split; [exact Hag' | by eapply heap_le_trans].
Qed.

Lemma bucket_size_role (r : RegionsInfo.t T) (h : gmap positive RegionInfo)
  (role : RegionInfo -> list N) (b : gmap N (regionMap.t positive)) (s : N) :
  buckets_agree r h role b ->
  regionMap.Len (b !! s) = size (regions_with_role r h role s).
Proof.
  intros Ha.
  assert (Hdom : match b !! s with
                 | Some rm => dom (regionMap.m rm)
                 | None => ∅
                 end = regions_with_role r h role s).
  { apply set_eq. intros k. unfold regions_with_role, has_role.
    rewrite elem_of_filter, elem_of_dom.
    specialize (Ha s k). split.
    - intros Hk.
      assert (exists p, regionMap.Get (b !! s) k = Some p) as [p Hp].
      { destruct (b !! s) as [rm|]; [|by apply not_elem_of_empty in Hk].
        apply elem_of_dom in Hk as [e He]. exists (entryRegion e).
        by rewrite Get_lookup, He. }
      apply Ha in Hp as [Hg Hs]. rewrite Hg. split.
      + by apply bool_decide_eq_true.
      + rewrite Get_lookup in Hg.
        destruct (regionMap.m (RegionsInfo.regions r) !! k); [by eexists | discriminate].
    - intros [Hrole _].
      destruct (regionMap.Get (Some (RegionsInfo.regions r)) k) as [p|] eqn:Hg;
        [|discriminate].
      apply bool_decide_eq_true in Hrole.
      assert (Hb : regionMap.Get (b !! s) k = Some p) by (by apply Ha).
      destruct (b !! s) as [rm|]; [|discriminate].
      rewrite Get_lookup in Hb. apply elem_of_dom.
      destruct (regionMap.m rm !! k); [by eexists | discriminate]. }
  rewrite <- Hdom. unfold regionMap.Len.
  destruct (b !! s) as [rm|]; [by rewrite size_dom | by rewrite size_empty].
Qed.

End index_agree.

(** ** The index: the writers and the queries *)

Lemma Get_Some_Len {R : Type} (rm : option (regionMap.t R)) (k : N) (p : R) :
  regionMap.Get rm k = Some p -> (0 < regionMap.Len rm)%nat.
Proof.
  destruct rm as [x|]; [|discriminate]. rewrite Get_lookup. simpl.
  destruct (regionMap.m x !! k) as [e|] eqn:E; [|discriminate]. intros _.
  destruct (size (regionMap.m x)) eqn:Es; [|lia].
  apply map_size_empty_inv in Es. rewrite Es, lookup_empty in E. discriminate.
Qed.

Lemma buckets_set_in (id : N) (stores : list N) (to : option positive)
  (b b' : gmap N (regionMap.t positive)) (s : N) :
  buckets_set id stores to b b' -> s ∈ stores ->
  regionMap.Get (b' !! s) id = to.
Proof. intros Hset Hs. rewrite Hset. by rewrite decide_True. Qed.

Lemma roles_on_peer_stores_Forall (v : RegionInfo) :
  Forall (fun p => StoreId p ∈ StoreId <$> GetPeers v)
    (Voters v ++ Learners v ++ PendingPeers v) ->
  roles_on_peer_stores v.
Proof.
  intros Hall p Hp. rewrite Forall_forall in Hall. apply Hall.
  rewrite !elem_of_app. tauto.
Qed.

Lemma classified_roles_on_peer_stores (v : RegionInfo) :
  classified v ->
  (forall p, p ∈ PendingPeers v -> StoreId p ∈ StoreId <$> GetPeers v) ->
  roles_on_peer_stores v.
Proof.
  intros [Hl Hv] Hp p [Hin|[Hin|Hin]].
  - rewrite Hv in Hin. apply elem_of_List_filter in Hin as [Hin _].
    apply list_elem_of_fmap. by exists p.
  - rewrite Hl in Hin. apply elem_of_List_filter in Hin as [Hin _].
    apply list_elem_of_fmap. by exists p.
  - by apply Hp.
Qed.

Lemma add64_three (a b c : Z) :
  add64 (add64 (to_int64 a) (to_int64 b)) (to_int64 c) = to_int64 (a + b + c).
Proof.
  unfold add64. rewrite to_int64_add_l, to_int64_add_r.
  replace (to_int64 a + to_int64 b + c) with (to_int64 a + (to_int64 b + c)) by lia.
  rewrite to_int64_add_l.
  replace (a + (to_int64 b + c)) with (to_int64 b + (a + c)) by lia.
  rewrite to_int64_add_l. f_equal. lia.
Qed.

Lemma index_set3_run :
  index_run MoreExamples.set3 Examples.empty_index
    (Examples.heap_of (Some Examples.voter1))
  = Returned MoreExamples.index_set3.
Proof. vm_compute. reflexivity. Qed.

Lemma set3_regions (p : positive) :
  p ∈ [1; 2; 3]%positive ->
  is_Some (Region (deref (Examples.heap_of (Some Examples.voter1)) p))
  /\ roles_on_peer_stores (deref (Examples.heap_of (Some Examples.voter1)) p).
Proof.
  intros Hp. repeat (apply elem_of_cons in Hp as [->|Hp]);
    try (by apply elem_of_nil in Hp);
    (split; [by eexists|]);
    apply roles_on_peer_stores_Forall, (bool_decide_unpack _);
    vm_compute; exact I.
Qed.

Lemma index_set3_ok :
  index_ok MoreExamples.index_set3.1 MoreExamples.index_set3.2.
Proof.
  refine (proj1 (index_run_ok MoreExamples.set3 Examples.empty_index _ _ _
                   (NewRegionsInfo_ok _) _ _)).
  - intros o Ho. right.
    assert (indexOp_region o ∈ [1; 2; 3]%positive) as Hin.
    { repeat (apply elem_of_cons in Ho as [->|Ho]);
        try (by apply elem_of_nil in Ho); simpl; set_solver. }
    by apply set3_regions.
  - rewrite index_set3_run. by destruct MoreExamples.index_set3.
Qed.

Section index_theorems.
Context {T : Type} `{RegionTree T}.

(** X14.  On an index whose maps are consistent, [RemoveRegion] of a
    region returns, hands the meta region to the tree, and removes the id of
    the region from the global map and from the four buckets of the stores
    of the peers of the given region, and nothing else: every other lookup,
    in the global map or in a bucket, finds what it found before.  So the
    region is no longer found by [GetRegion], and an entry under the id in a
    bucket of a store that is not among these peers stays.  A nil region
    panics. *)
Theorem X14_RemoveRegion_removes_the_id_at_the_stores_of_the_peers
  (r : RegionsInfo.t T) (h : gmap positive RegionInfo) (region : positive) :
  index_ok r h ->
  RegionsInfo.RemoveRegion r h None = Fault
  /\ exists r',
       RegionsInfo.RemoveRegion r h (Some region) = Returned r'
       /\ RegionsInfo.tree r'
          = tree_remove (RegionsInfo.tree r) (Region (deref h region))
       /\ (forall k,
             regionMap.Get (Some (RegionsInfo.regions r')) k
             = if decide (k = GetId (deref h region)) then None
               else regionMap.Get (Some (RegionsInfo.regions r)) k)
       /\ buckets_set (GetId (deref h region))
            (StoreId <$> GetPeers (deref h region)) None
            (RegionsInfo.leaders r) (RegionsInfo.leaders r')
       /\ buckets_set (GetId (deref h region))
            (StoreId <$> GetPeers (deref h region)) None
            (RegionsInfo.followers r) (RegionsInfo.followers r')
       /\ buckets_set (GetId (deref h region))
            (StoreId <$> GetPeers (deref h region)) None
            (RegionsInfo.learners r) (RegionsInfo.learners r')
       /\ buckets_set (GetId (deref h region))
            (StoreId <$> GetPeers (deref h region)) None
            (RegionsInfo.pendingPeers r) (RegionsInfo.pendingPeers r')
       /\ RegionsInfo.GetRegion r' h (GetId (deref h region)) = Returned (None, h)
       /\ (forall p, p ∈ GetPeers (deref h region) ->
             RegionsInfo.GetLeader r' (StoreId p) (GetId (deref h region)) = None
             /\ RegionsInfo.GetFollower r' (StoreId p) (GetId (deref h region))
                = None)
       /\ index_ok r' h.
Proof.
  intros Hok. split; [reflexivity|].
  destruct (RemoveRegion_ok r h region Hok) as (r' & Hrm & Hok').
  exists r'. split; [exact Hrm|].
  destruct (RemoveRegion_set r r' h region Hok Hrm)
    as (Ht & Hr & S1 & S2 & S3 & S4).
  repeat (split; [assumption|]).
  split; [|split; [|exact Hok']].
  - unfold RegionsInfo.GetRegion. rewrite Hr. by rewrite decide_True.
  - intros p Hp.
    assert (Hs : StoreId p ∈ StoreId <$> GetPeers (deref h region))
      by (apply list_elem_of_fmap; by exists p).
    unfold RegionsInfo.GetLeader, RegionsInfo.GetFollower.
    by rewrite (buckets_set_in _ _ _ _ _ _ S1 Hs), (buckets_set_in _ _ _ _ _ _ S2 Hs).
Qed.

(** X15.  After [AddRegion] or [SetRegion] has returned, the global map
    holds the given pointer under the id of the region, and, when the
    region has a leader, each voter with the id of the leader has the
    region in the leader bucket of its store and every other voter has it in
    the follower bucket of its store, so that [GetLeader] and [GetFollower]
    find the pointer there and the counts of these stores are positive.
    [GetRegion] of the id then returns a new object, the clone of the
    region, which equals the region when its roles were classified. *)
Theorem X15_AddRegion_files_the_region_under_its_id
  (r r' : RegionsInfo.t T) (h h' : gmap positive RegionInfo)
  (region : positive) (overlaps : list MetaRegion) :
  RegionsInfo.AddRegion r h region = Returned (overlaps, r', h')
  \/ RegionsInfo.SetRegion r h region = Returned (overlaps, r', h') ->
  regionMap.Get (Some (RegionsInfo.regions r')) (GetId (deref h' region))
  = Some region
  /\ (0 < RegionsInfo.Length r')%nat
  /\ (forall s, s ∈ leader_stores (deref h' region) ->
        RegionsInfo.GetLeader r' s (GetId (deref h' region)) = Some region
        /\ (0 < RegionsInfo.GetStoreLeaderCount r' s)%nat)
  /\ (forall s, s ∈ follower_stores (deref h' region) ->
        RegionsInfo.GetFollower r' s (GetId (deref h' region)) = Some region
        /\ (0 < RegionsInfo.GetStoreFollowerCount r' s)%nat)
  /\ (forall leader p,
        Leader (deref h' region) = Some leader ->
        p ∈ GetVoters (deref h' region) ->
        if (PeerId p =? PeerId leader)%N
        then RegionsInfo.GetLeader r' (StoreId p) (GetId (deref h' region))
             = Some region
        else RegionsInfo.GetFollower r' (StoreId p) (GetId (deref h' region))
             = Some region)
  /\ (is_Some (Region (deref h' region)) ->
      exists q c,
        RegionsInfo.GetRegion r' h' (GetId (deref h' region))
        = Returned (Some q, <[q := c]> h')
        /\ h' !! q = None
        /\ Clone (deref h' region) = Returned c
        /\ (classified (deref h' region) -> c = deref h' region)).
Proof.
  intros Hcall.
  assert (exists r0, RegionsInfo.AddRegion r0 h region = Returned (overlaps, r', h'))
    as [r0 Hadd].
  { destruct Hcall as [Hadd|Hset];
      [by exists r | exact (SetRegion_AddRegion r r' h h' region overlaps Hset)]. }
  clear Hcall.
  pose proof (AddRegion_Get_region _ _ _ _ _ _ Hadd) as Hget.
  destruct (AddRegion_effect _ _ _ _ _ _ Hadd)
    as (tree' & r1 & regions' & _ & _ & _ & _ & _ & S1 & S2 & _ & _).
  assert (HL : forall s, s ∈ leader_stores (deref h' region) ->
            RegionsInfo.GetLeader r' s (GetId (deref h' region)) = Some region).
  { intros s Hs. exact (buckets_set_in _ _ _ _ _ _ S1 Hs). }
  assert (HF : forall s, s ∈ follower_stores (deref h' region) ->
            RegionsInfo.GetFollower r' s (GetId (deref h' region)) = Some region).
  { intros s Hs. exact (buckets_set_in _ _ _ _ _ _ S2 Hs). }
  split; [exact Hget|].
  split; [exact (Get_Some_Len _ _ _ Hget)|].
  split; [intros s Hs; split; [by apply HL | exact (Get_Some_Len _ _ _ (HL s Hs))]|].
  split; [intros s Hs; split; [by apply HF | exact (Get_Some_Len _ _ _ (HF s Hs))]|].
  split.
  - intros leader p Hl Hp.
    destruct (PeerId p =? PeerId leader)%N eqn:E.
    + apply HL. unfold leader_stores. rewrite Hl.
      apply list_elem_of_fmap. exists p. split; [done|].
      by apply elem_of_List_filter.
    + apply HF. unfold follower_stores. rewrite Hl.
      apply list_elem_of_fmap. exists p. split; [done|].
      apply elem_of_List_filter. by rewrite E.
  - intros Hreg.
    destruct (GetRegion_spec r' h' (GetId (deref h' region))) as (res & h2 & Hg & _ & Hm).
    { intros p. rewrite Hget. by intros [= <-]. }
    rewrite Hget in Hm. destruct Hm as (q & c & -> & Hq & Hc & ->).
    exists q, c. split; [exact Hg|]. split; [exact Hq|]. split; [exact Hc|].
    intros Hcl. rewrite (Clone_classified _ Hreg Hcl) in Hc. congruence.
Qed.

(** X16.  In every state that a run of [SetRegion], [AddRegion] and
    [RemoveRegion] reaches from a new index, the regions added carrying a
    meta region, every map of the index is consistent and its totals are
    the 64-bit sums over its entries.  So the region objects present at the
    start are unchanged, the size queries of a store return the wrapped sum
    of the sizes of the regions in the bucket, [GetStoreRegionSize] the
    wrapped sum over the three buckets, and the length of the index is the
    length of the id vector of the global map. *)
Theorem X16_runs_keep_the_maps_consistent_and_the_totals_exact
  (ops : list indexOp) (h h' : gmap positive RegionInfo) (r' : RegionsInfo.t T) :
  (forall o, o ∈ ops ->
     (exists p, o = CallRemoveRegion p)
     \/ is_Some (Region (deref h (indexOp_region o)))) ->
  index_run ops RegionsInfo.NewRegionsInfo h = Returned (r', h') ->
  index_ok r' h'
  /\ index_totals r' h'
  /\ heap_le h h'
  /\ (forall s,
        RegionsInfoStats.GetStoreLeaderRegionSize r' s
        = to_int64 (bucket_sumSize h' (RegionsInfo.leaders r') s))
  /\ (forall s,
        RegionsInfoStats.GetStoreFollowerRegionSize r' s
        = to_int64 (bucket_sumSize h' (RegionsInfo.followers r') s))
  /\ (forall s,
        RegionsInfoStats.GetStoreLearnerRegionSize r' s
        = to_int64 (bucket_sumSize h' (RegionsInfo.learners r') s))
  /\ (forall s,
        RegionsInfoStats.GetStoreRegionSize r' s
        = to_int64 (bucket_sumSize h' (RegionsInfo.leaders r') s
                    + bucket_sumSize h' (RegionsInfo.followers r') s
                    + bucket_sumSize h' (RegionsInfo.learners r') s))
  /\ regionMap.TotalSize (Some (RegionsInfo.regions r'))
     = to_int64 (sumSize (deref h') (RegionsInfo.regions r'))
  /\ RegionsInfo.Length r' = length (regionMap.ids (RegionsInfo.regions r')).
Proof.
  intros Hreg Hrun.
  destruct (index_run_ok ops _ r' h h' (NewRegionsInfo_ok h) Hreg Hrun)
    as [Hok Hle].
  pose proof (index_run_totals ops _ r' h h' (NewRegionsInfo_ok h)
                (NewRegionsInfo_totals h) Hreg Hrun) as Ht.
  destruct Ht as [T1 T2 T3 T4 T5].
  split; [exact Hok|]. split; [by split|]. split; [exact Hle|].
  assert (HL := fun s => TotalSize_totals h' _ s T2).
  assert (HF := fun s => TotalSize_totals h' _ s T3).
  assert (HN := fun s => TotalSize_totals h' _ s T4).
  split; [exact HL|]. split; [exact HF|]. split; [exact HN|].
  split; [|split].
  - intros s. unfold RegionsInfoStats.GetStoreRegionSize,
      RegionsInfoStats.GetStoreLeaderRegionSize,
      RegionsInfoStats.GetStoreFollowerRegionSize,
      RegionsInfoStats.GetStoreLearnerRegionSize.
    rewrite HL, HF, HN. apply add64_three.
  - pose proof (TotalSize_totals h' (<[0%N := RegionsInfo.regions r']> ∅) 0%N) as Hx.
    unfold bucket_sumSize in Hx. rewrite lookup_insert_eq in Hx. apply Hx.
    intros s rm. rewrite lookup_insert. case_decide; [|by rewrite lookup_empty].
    by intros [= <-].
  - unfold RegionsInfo.Length, regionMap.Len. symmetry.
    apply rm_consistent_length with (deref := deref h').
    exact (proj1 (ok_regions _ _ Hok)).
Qed.

(** X17.  In every state that a run of [SetRegion] reaches from a new
    index, the regions set carrying a meta region and having their voters,
    learners and pending peers on stores of their peers, the buckets agree
    with the global map: a bucket of a store holds a pointer under an id
    exactly when the global map holds that very pointer under the id and
    the region has the role of the bucket on the store.  So no bucket holds
    a region that was replaced or removed, and the count of a role on a
    store is the number of resident regions that have the role there.  A
    region whose roles are classified and whose pending peers are on stores
    of its peers is such a region. *)
Theorem X17_buckets_agree_with_the_global_map
  (ps : list positive) (h h' : gmap positive RegionInfo) (r' : RegionsInfo.t T) :
  (forall p, p ∈ ps ->
     is_Some (Region (deref h p)) /\ roles_on_peer_stores (deref h p)) ->
  index_run (CallSetRegion <$> ps) RegionsInfo.NewRegionsInfo h
  = Returned (r', h') ->
  (forall s k p,
     RegionsInfo.GetLeader r' s k = Some p
     <-> regionMap.Get (Some (RegionsInfo.regions r')) k = Some p
         /\ s ∈ leader_stores (deref h' p))
  /\ (forall s k p,
        RegionsInfo.GetFollower r' s k = Some p
        <-> regionMap.Get (Some (RegionsInfo.regions r')) k = Some p
            /\ s ∈ follower_stores (deref h' p))
  /\ (forall s k p,
        regionMap.Get (RegionsInfo.learners r' !! s) k = Some p
        <-> regionMap.Get (Some (RegionsInfo.regions r')) k = Some p
            /\ s ∈ learner_stores (deref h' p))
  /\ (forall s k p,
        regionMap.Get (RegionsInfo.pendingPeers r' !! s) k = Some p
        <-> regionMap.Get (Some (RegionsInfo.regions r')) k = Some p
            /\ s ∈ pending_stores (deref h' p))
  /\ (forall s,
        RegionsInfo.GetStoreLeaderCount r' s
        = size (regions_with_role r' h' leader_stores s))
  /\ (forall s,
        RegionsInfo.GetStoreFollowerCount r' s
        = size (regions_with_role r' h' follower_stores s))
  /\ (forall s,
        RegionsInfo.GetStoreLearnerCount r' s
        = size (regions_with_role r' h' learner_stores s))
  /\ (forall s,
        RegionsInfo.GetStorePendingPeerCount r' s
        = size (regions_with_role r' h' pending_stores s))
  /\ (forall v,
        classified v ->
        (forall p, p ∈ PendingPeers v -> StoreId p ∈ StoreId <$> GetPeers v) ->
        roles_on_peer_stores v).
Proof.
  intros Hps Hrun.
  destruct (index_run_set_agree ps _ r' h h' (NewRegionsInfo_ok h)
              (NewRegionsInfo_agree h) Hps Hrun) as (Hok & [A1 A2 A3 A4 A5] & Hle).
  split; [exact A1|]. split; [exact A2|]. split; [exact A3|]. split; [exact A4|].
  split; [intros s; by apply bucket_size_role|].
  split; [intros s; by apply bucket_size_role|].
  split; [intros s; by apply bucket_size_role|].
  split; [intros s; by apply bucket_size_role|].
  apply classified_roles_on_peer_stores.
Qed.

Lemma quot_int64 (a n : Z) :
  - two63 <= a < two63 -> 0 < n -> - two63 <= a ÷ n < two63.
Proof.
  intros Ha Hn. destruct (Z_le_gt_dec 0 a) as [Hpos|Hneg].
  - rewrite Z.quot_div_nonneg by lia.
    assert (0 <= a / n <= a).
    { split; [apply Z.div_pos; lia|].
      apply Z.div_le_upper_bound; [lia|]. nia. }
    lia.
  - replace a with (- (- a)) by lia.
    rewrite Z.quot_opp_l by lia. rewrite Z.quot_div_nonneg by lia.
    assert (0 <= (- a) / n <= - a).
    { split; [apply Z.div_pos; lia|].
      apply Z.div_le_upper_bound; [lia|]. nia. }
    lia.
Qed.

(** X18.  [GetAverageRegionSize] returns 0 on an empty index, without
    dividing.  Otherwise, the total of the global map being the 64-bit sum
    of the sizes, it is that value divided by the number of regions, the
    quotient truncated toward zero; when the exact sum is a non-negative
    64-bit value it is the floor of the mean. *)
Theorem X18_GetAverageRegionSize_is_the_truncated_mean
  (r : RegionsInfo.t T) (h : gmap positive RegionInfo) :
  (RegionsInfo.Length r = 0%nat -> RegionsInfoStats.GetAverageRegionSize r = 0)
  /\ (rm_totals (deref h) (RegionsInfo.regions r) ->
      RegionsInfo.Length r <> 0%nat ->
      RegionsInfoStats.GetAverageRegionSize r
      = to_int64 (sumSize (deref h) (RegionsInfo.regions r))
        ÷ Z.of_nat (RegionsInfo.Length r)
      /\ (0 <= sumSize (deref h) (RegionsInfo.regions r) < two63 ->
          let n := Z.of_nat (RegionsInfo.Length r) in
          let avg := RegionsInfoStats.GetAverageRegionSize r in
          avg = sumSize (deref h) (RegionsInfo.regions r) / n
          /\ n * avg <= sumSize (deref h) (RegionsInfo.regions r) < n * (avg + 1))).
Proof.
  unfold RegionsInfoStats.GetAverageRegionSize, RegionsInfo.Length.
  split.
  - intros ->. reflexivity.
  - intros [Hs _] Hn.
    destruct (regionMap.Len (Some (RegionsInfo.regions r)) =? 0)%nat eqn:E.
    { apply Nat.eqb_eq in E. contradiction. }
    unfold regionMap.TotalSize. rewrite E, Hs.
    set (n := Z.of_nat (regionMap.Len (Some (RegionsInfo.regions r)))).
    assert (Hn' : 0 < n) by (unfold n; lia).
    set (S := sumSize (deref h) (RegionsInfo.regions r)).
    assert (Hq : to_int64 (to_int64 S ÷ n) = to_int64 S ÷ n).
    { apply to_int64_small, quot_int64; [apply to_int64_range | exact Hn']. }
    split; [exact Hq|].
    intros HS. cbn zeta. rewrite Hq.
    rewrite (to_int64_small S) by (unfold two63 in *; lia).
    rewrite Z.quot_div_nonneg by lia.
    split; [reflexivity|].
    pose proof (Z.div_mod S n ltac:(lia)) as Hdm.
    pose proof (Z.mod_pos_bound S n Hn') as Hmb.
    nia.
Qed.

End index_theorems.

Lemma X14_witness :
  exists r',
    RegionsInfo.RemoveRegion MoreExamples.index_set3.1 MoreExamples.index_set3.2
      (Some 1%positive) = Returned r'
    /\ RegionsInfo.GetRegion r' MoreExamples.index_set3.2 1%N
       = Returned (None, MoreExamples.index_set3.2).
Proof.
  destruct (X14_RemoveRegion_removes_the_id_at_the_stores_of_the_peers
              MoreExamples.index_set3.1 MoreExamples.index_set3.2 1%positive
              index_set3_ok)
    as (_ & r' & Hrm & _ & _ & _ & _ & _ & _ & Hg & _).
  exists r'. split; [exact Hrm | exact Hg].
Defined.

Lemma X15_witness :
  regionMap.Get (Some (RegionsInfo.regions Examples.index1.1)) 1%N
  = Some 1%positive
  /\ RegionsInfo.GetLeader Examples.index1.1 1%N 1%N = Some 1%positive.
Proof.
  destruct (X15_AddRegion_files_the_region_under_its_id
              Examples.empty_index Examples.index1.1
              (Examples.heap_of (Some Examples.voter1)) Examples.index1.2
              1%positive [])
    as (Hg & _ & HL & _).
  { left. vm_compute. reflexivity. }
  split; [exact Hg|].
  apply (HL 1%N). vm_compute. left.
Defined.

Lemma X16_witness :
  index_ok MoreExamples.index_set3.1 MoreExamples.index_set3.2
  /\ RegionsInfoStats.GetStoreRegionSize MoreExamples.index_set3.1 1%N = 16.
Proof.
  destruct (X16_runs_keep_the_maps_consistent_and_the_totals_exact
              MoreExamples.set3 (Examples.heap_of (Some Examples.voter1))
              MoreExamples.index_set3.2 MoreExamples.index_set3.1)
    as (Hok & _).
  - intros o Ho. right.
    assert (indexOp_region o ∈ [1; 2; 3]%positive) as Hin.
    { repeat (apply elem_of_cons in Ho as [->|Ho]);
        try (by apply elem_of_nil in Ho); simpl; set_solver. }
    by apply set3_regions.
  - etrans; [exact index_set3_run | by destruct MoreExamples.index_set3].
  - split; [exact Hok|]. vm_compute. reflexivity.
Defined.

Lemma X17_witness :
  RegionsInfo.GetStoreLeaderCount MoreExamples.index_set3.1 1%N
  = size (regions_with_role MoreExamples.index_set3.1 MoreExamples.index_set3.2
            leader_stores 1%N).
Proof.
  destruct (X17_buckets_agree_with_the_global_map
              [1; 2; 3]%positive (Examples.heap_of (Some Examples.voter1))
              MoreExamples.index_set3.2 MoreExamples.index_set3.1)
    as (_ & _ & _ & _ & Hc & _).
  - apply set3_regions.
  - etrans; [exact index_set3_run | by destruct MoreExamples.index_set3].
  - apply Hc.
Defined.

(** ** Statistics *)

Lemma count_if_cons {A : Type} (f : A -> bool) (x : A) (l : list A) :
  count_if f (x :: l) = (if f x then 1 else 0) + count_if f l.
Proof.
  unfold count_if. simpl. destruct (f x); simpl; lia.
Qed.

Lemma count_if_snoc {A : Type} (f : A -> bool) (l : list A) (x : A) :
  count_if f (l ++ [x]) = count_if f l + (if f x then 1 else 0).
Proof.
  unfold count_if. rewrite List.filter_app, length_app. simpl.
  destruct (f x); simpl; lia.
Qed.

Lemma sum_of_snoc {A : Type} (w : A -> Z) (l : list A) (x : A) :
  sum_of w (l ++ [x]) = sum_of w l + w x.
Proof.
  unfold sum_of. induction l as [|a l IH]; simpl; [lia|]. rewrite IH. lia.
Qed.

Lemma counter_at_map_add (m : gmap N Z) (k st : N) (v X : Z) :
  counter_at m st = to_int64 X ->
  counter_at (map_add m k v) st
  = to_int64 (X + if (k =? st)%N then v else 0).
Proof.
  intros Hc. unfold counter_at, map_add in *.
  destruct (decide (k = st)) as [->|Hne].
  - rewrite lookup_insert_eq, N.eqb_refl. simpl. by apply add64_total.
  - rewrite lookup_insert_ne by done.
    rewrite (proj2 (N.eqb_neq _ _) Hne), Z.add_0_r. exact Hc.
Qed.

Lemma Observe_peers_spec (peers : list Peer) (size keys : Z) (s : RegionStats) :
  Count (Observe_peers peers size keys s) = Count s
  /\ EmptyCount (Observe_peers peers size keys s) = EmptyCount s
  /\ StorageSize (Observe_peers peers size keys s) = StorageSize s
  /\ StorageKeys (Observe_peers peers size keys s) = StorageKeys s
  /\ StoreLeaderCount (Observe_peers peers size keys s) = StoreLeaderCount s
  /\ StoreLeaderSize (Observe_peers peers size keys s) = StoreLeaderSize s
  /\ StoreLeaderKeys (Observe_peers peers size keys s) = StoreLeaderKeys s
  /\ forall st X Y W,
       counter_at (StorePeerCount s) st = to_int64 X ->
       counter_at (StorePeerSize s) st = to_int64 Y ->
       counter_at (StorePeerKeys s) st = to_int64 W ->
       let n := count_if (fun p => (StoreId p =? st)%N) peers in
       counter_at (StorePeerCount (Observe_peers peers size keys s)) st
       = to_int64 (X + n)
       /\ counter_at (StorePeerSize (Observe_peers peers size keys s)) st
          = to_int64 (Y + n * size)
       /\ counter_at (StorePeerKeys (Observe_peers peers size keys s)) st
          = to_int64 (W + n * keys).
Proof.
  revert s. induction peers as [|p peers IH]; intros s;
    cbn [Observe_peers].
  - repeat (split; [reflexivity|]). intros st X Y W HX HY HW. cbn zeta.
    unfold count_if. simpl. rewrite !Z.add_0_r. auto.
  - destruct (IH (mkRegionStats (Count s) (EmptyCount s) (StorageSize s)
                    (StorageKeys s) (StoreLeaderCount s)
                    (map_add (StorePeerCount s) (StoreId p) 1)
                    (StoreLeaderSize s) (StoreLeaderKeys s)
                    (map_add (StorePeerSize s) (StoreId p) size)
                    (map_add (StorePeerKeys s) (StoreId p) keys)))
      as (E1 & E2 & E3 & E4 & E5 & E6 & E7 & Hc).
    cbn [Count EmptyCount StorageSize StorageKeys StoreLeaderCount
         StoreLeaderSize StoreLeaderKeys StorePeerCount StorePeerSize
         StorePeerKeys] in *.
    repeat (split; [assumption|]). intros st X Y W HX HY HW. cbn zeta.
    destruct (Hc st _ _ _ (counter_at_map_add _ (StoreId p) st 1 X HX)
                (counter_at_map_add _ (StoreId p) st size Y HY)
                (counter_at_map_add _ (StoreId p) st keys W HW))
      as (C1 & C2 & C3).
    cbn zeta in *. rewrite C1, C2, C3, count_if_cons.
    destruct (StoreId p =? st)%N; (split; [|split]); f_equal; lia.
Qed.

Lemma stats_of_nil : stats_of [] newRegionStats.
Proof. split; intros; reflexivity. Qed.

Lemma Observe_step (rs : list RegionInfo) (s : RegionStats) (r : RegionInfo) :
  stats_of rs s -> is_Some (Region r) ->
  exists s', Observe s r = Returned s' /\ stats_of (rs ++ [r]) s'.
Proof.
  intros [S1 S2 S3 S4 S5 S6 S7 S8 S9 S10] [meta Hm].
  unfold Observe. rewrite Hm. eexists. split; [reflexivity|].
  set (s1 := match Leader r with Some _ => _ | None => _ end).
  destruct (Observe_peers_spec (Peers meta) (ApproximateSize r)
              (ApproximateKeys r) s1)
    as (E1 & E2 & E3 & E4 & E5 & E6 & E7 & Hc).
  assert (Hpeers : forall st, peers_on st r
            = count_if (fun p => (StoreId p =? st)%N) (Peers meta)).
  { intros st. unfold peers_on, GetPeers. by rewrite Hm. }
  assert (H1 : Count s1 = to_int64 (Z.of_nat (length (rs ++ [r])))).
  { rewrite length_app, Nat2Z.inj_add. simpl.
    subst s1. destruct (Leader r); simpl; by apply add64_total. }
  assert (H2 : EmptyCount s1
               = to_int64 (count_if
                   (fun r => ApproximateSize r <=? Z.of_N EmptyRegionApproximateSize)
                   (rs ++ [r]))).
  { rewrite count_if_snoc.
    subst s1. destruct (Leader r); simpl;
      (destruct (ApproximateSize r <=? _);
       [by apply add64_total | by rewrite Z.add_0_r]). }
  assert (H3 : StorageSize s1 = to_int64 (sum_of ApproximateSize (rs ++ [r]))).
  { rewrite sum_of_snoc.
    subst s1. destruct (Leader r); simpl; by apply add64_total. }
  assert (H4 : StorageKeys s1 = to_int64 (sum_of ApproximateKeys (rs ++ [r]))).
  { rewrite sum_of_snoc.
    subst s1. destruct (Leader r); simpl; by apply add64_total. }
  assert (HP : StorePeerCount s1 = StorePeerCount s
               /\ StorePeerSize s1 = StorePeerSize s
               /\ StorePeerKeys s1 = StorePeerKeys s).
  { subst s1. by destruct (Leader r). }
  destruct HP as (P1 & P2 & P3).
  assert (HL : forall st,
            counter_at (StoreLeaderCount s1) st
            = to_int64 (sum_of (fun r => if led_on st r then 1 else 0) (rs ++ [r]))
            /\ counter_at (StoreLeaderSize s1) st
               = to_int64 (sum_of (fun r => if led_on st r then ApproximateSize r
                                            else 0) (rs ++ [r]))
            /\ counter_at (StoreLeaderKeys s1) st
               = to_int64 (sum_of (fun r => if led_on st r then ApproximateKeys r
                                            else 0) (rs ++ [r]))).
  { intros st. rewrite !sum_of_snoc. unfold led_on at 2 4 6.
    subst s1. destruct (Leader r) as [leader|]; simpl.
    - split; [|split]; by apply counter_at_map_add.
    - rewrite !Z.add_0_r. auto. }
  split.
  - by rewrite E1.
  - by rewrite E2.
  - by rewrite E3.
  - by rewrite E4.
  - intros st. rewrite E5. apply HL.
  - intros st. rewrite E6. apply HL.
  - intros st. rewrite E7. apply HL.
  - intros st. rewrite sum_of_snoc, Hpeers.
    apply (Hc st _ _ _ ltac:(rewrite P1; apply S8) ltac:(rewrite P2; apply S9)
             ltac:(rewrite P3; apply S10)).
  - intros st. rewrite sum_of_snoc, Hpeers.
    apply (Hc st _ _ _ ltac:(rewrite P1; apply S8) ltac:(rewrite P2; apply S9)
             ltac:(rewrite P3; apply S10)).
  - intros st. rewrite sum_of_snoc, Hpeers.
    apply (Hc st _ _ _ ltac:(rewrite P1; apply S8) ltac:(rewrite P2; apply S9)
             ltac:(rewrite P3; apply S10)).
Qed.

Lemma Observe_all_spec (rs0 rs : list RegionInfo) (s0 : RegionStats) :
  stats_of rs0 s0 ->
  Forall (fun r => is_Some (Region r)) rs ->
  exists s, Observe_all rs s0 = Returned s /\ stats_of (rs0 ++ rs) s.
Proof.
  intros Hs Hall. revert rs0 s0 Hs.
  induction Hall as [|r rs Hr Hall IH]; intros rs0 s0 Hs; cbn [Observe_all].
  - exists s0. rewrite app_nil_r. by split.
  - destruct (Observe_step rs0 s0 r Hs Hr) as (s1 & E1 & Hs1).
    rewrite E1. run_bind.
    destruct (IH _ _ Hs1) as (s & E & Hs').
    exists s. split; [exact E|]. by rewrite <- app_assoc in Hs'.
Qed.

Lemma Observe_returns (s : RegionStats) (r : RegionInfo) :
  is_Some (Region r) -> exists s', Observe s r = Returned s'.
Proof. intros [meta Hm]. unfold Observe. rewrite Hm. by eexists. Qed.

Lemma Observe_all_Fault (rs : list RegionInfo) (s0 : RegionStats) :
  Exists (fun r => Region r = None) rs -> Observe_all rs s0 = Fault.
Proof.
  intros Hex. revert s0. induction rs as [|r rs IH]; intros s0;
    [by inversion Hex|].
  cbn [Observe_all].
  destruct (Region r) as [meta|] eqn:Hm.
  - destruct (Observe_returns s0 r) as [s1 E1]; [by rewrite Hm|].
    rewrite E1. run_bind. apply IH.
    inversion Hex as [? ? Hn|? ? Hrest]; subst; [congruence | exact Hrest].
  - unfold Observe. rewrite Hm. reflexivity.
Qed.

(** X19.  [Observe], called on one region after the other from new
    statistics, returns when every region carries a meta region, and then
    every counter is the 64-bit sum over the regions: their number, the
    number of those of size at most 1, the sums of the sizes and of the key
    counts, and for each store the number, the size and the keys of the
    regions led on the store and of the peers on the store, a region that
    has two peers on a store counting twice there.  A region without meta
    region makes the run panic. *)
Theorem X19_Observe_sums_the_regions (rs : list RegionInfo) :
  (Forall (fun r => is_Some (Region r)) rs ->
   exists s,
     Observe_all rs newRegionStats = Returned s
     /\ stats_of rs s
     /\ Count s = to_int64 (Z.of_nat (length rs))
     /\ StorageSize s = to_int64 (sum_of ApproximateSize rs)
     /\ (forall st,
           counter_at (StoreLeaderCount s) st
           = to_int64 (sum_of (fun r => if led_on st r then 1 else 0) rs))
     /\ (forall st,
           counter_at (StorePeerCount s) st = to_int64 (sum_of (peers_on st) rs)))
  /\ (forall s0, Exists (fun r => Region r = None) rs ->
                 Observe_all rs s0 = Fault).
Proof.
  split.
  - intros Hall.
    destruct (Observe_all_spec [] rs newRegionStats stats_of_nil Hall)
      as (s & E & Hs).
    exists s. split; [exact E|]. simpl in Hs. split; [exact Hs|].
    destruct Hs. auto.
  - intros s0. apply Observe_all_Fault.
Qed.

Lemma Observe_Clone (s : RegionStats) (v c : RegionInfo) :
  Clone v = Returned c -> Observe s c = Observe s v.
Proof.
  intros Hc. unfold Clone in Hc.
  apply classifyVoterAndLearner_fields in Hc
    as (E1 & E2 & _ & _ & _ & _ & E7 & E8).
  simpl in *. unfold Observe. rewrite E1, E2, E7, E8. reflexivity.
Qed.

Lemma bytes_Compare_refl (a : list byte) : bytes_Compare a a = Eq.
Proof.
  induction a as [|x a IH]; simpl; [reflexivity|].
  by rewrite N.compare_refl.
Qed.

Section GetRegionStats.
Context {T : Type} `{RegionTree T}.

Lemma residents_of_heap_le (r : RegionsInfo.t T) (h h' : gmap positive RegionInfo)
  (metas : list MetaRegion) :
  heap_le h h' -> index_ok r h ->
  residents_of r h' metas = residents_of r h metas.
Proof.
  intros Hle Hok. unfold residents_of.
  induction metas as [|meta metas IH]; [reflexivity|].
  cbn [omap list_omap]. rewrite IH.
  destruct (regionMap.Get (Some (RegionsInfo.regions r)) (Id meta))
    as [p|] eqn:Hp; [|reflexivity].
  simpl. rewrite (deref_heap_le h h'); [reflexivity | exact Hle |].
  exact (index_residents r h Hok _ _ Hp).
Qed.

Lemma residents_of_Region (r : RegionsInfo.t T) (h : gmap positive RegionInfo)
  (metas : list MetaRegion) :
  index_ok r h ->
  Forall (fun v => is_Some (Region v)) (residents_of r h metas).
Proof.
  intros Hok. unfold residents_of.
  induction metas as [|meta metas IH]; [constructor|].
  cbn [omap list_omap].
  destruct (regionMap.Get (Some (RegionsInfo.regions r)) (Id meta))
    as [p|] eqn:Hp; [|exact IH].
  simpl. constructor; [|exact IH].
  exact (index_residents r h Hok _ _ Hp).
Qed.

Lemma GetRegionStats_visit_spec (r : RegionsInfo.t T) (visited : list MetaRegion)
  (endKey : list byte) (stats : RegionStats) (h : gmap positive RegionInfo) :
  index_ok r h ->
  exists stats' h',
    RegionsInfoStats.GetRegionStats_visit r visited endKey stats h
    = Returned (stats', h')
    /\ heap_le h h'
    /\ Observe_all
         (residents_of r h
            (scanned_before_stop (RegionsInfoStats.GetRegionStats_stop endKey)
               visited)) stats
       = Returned stats'.
Proof.
  revert stats h. induction visited as [|meta rest IH]; intros stats h Hok;
    cbn [RegionsInfoStats.GetRegionStats_visit scanned_before_stop].
  - exists stats, h. split; [reflexivity|]. split; [apply heap_le_refl | reflexivity].
  - destruct (RegionsInfoStats.GetRegionStats_stop endKey meta) eqn:Estop.
    + exists stats, h. split; [reflexivity|].
      split; [apply heap_le_refl | reflexivity].
    + destruct (GetRegion_spec r h (Id meta) (index_residents r h Hok (Id meta)))
        as (c & h1 & Hget & Hle & Hm).
      rewrite Hget. run_bind.
      unfold residents_of. cbn [omap list_omap].
      fold (residents_of r h
              (scanned_before_stop (RegionsInfoStats.GetRegionStats_stop endKey) rest)).
      destruct (regionMap.Get (Some (RegionsInfo.regions r)) (Id meta))
        as [stored|] eqn:Hst.
      * destruct Hm as (q & cl & -> & Hq & Hclone & ->).
        assert (Hq' : deref (<[q:=cl]> h) q = cl).
        { apply deref_lookup. apply lookup_insert_eq. }
        rewrite Hq', (Observe_Clone stats _ _ Hclone).
        destruct (Observe_returns stats (deref h stored)) as [s1 E1].
        { exact (index_residents r h Hok _ _ Hst). }
        rewrite E1. run_bind.
        destruct (IH s1 _ (index_ok_heap_le r h _ Hle Hok))
          as (stats' & h' & Ev & Hle' & Eo).
        exists stats', h'. split; [exact Ev|].
        split; [by eapply heap_le_trans|].
        simpl. rewrite E1. run_bind.
        by rewrite (residents_of_heap_le r h _ _ Hle Hok) in Eo.
      * destruct Hm as [-> ->].
        destruct (IH stats h Hok) as (stats' & h' & Ev & Hle' & Eo).
        exists stats', h'. auto.
Qed.

(** X20.  On an index whose maps are consistent, [GetRegionStats] returns
    the statistics of the resident regions among those that the tree
    offers from the start key, up to the first one at which the visitor
    stops, each observed through a clone.  With an empty end key the
    visitor never stops.  With another end key it stops at a region without
    end key and at a region whose end key is not below the end key: a
    region that ends exactly at the end key is not counted, and nothing is
    counted when the first region offered is such a region. *)
Theorem X20_GetRegionStats_counts_up_to_the_first_stop
  (r : RegionsInfo.t T) (h : gmap positive RegionInfo)
  (startKey endKey : list byte) :
  index_ok r h ->
  (exists stats h',
     RegionsInfoStats.GetRegionStats r h startKey endKey = Returned (stats, h')
     /\ heap_le h h'
     /\ stats_of
          (residents_of r h
             (scanned_before_stop (RegionsInfoStats.GetRegionStats_stop endKey)
                (tree_scanRange (RegionsInfo.tree r) startKey)))
          stats)
  /\ (forall metas,
        scanned_before_stop (RegionsInfoStats.GetRegionStats_stop []) metas
        = metas)
  /\ (forall meta,
        endKey <> [] -> EndKey meta = endKey \/ EndKey meta = [] ->
        RegionsInfoStats.GetRegionStats_stop endKey meta = true)
  /\ (forall meta rest,
        tree_scanRange (RegionsInfo.tree r) startKey = meta :: rest ->
        endKey <> [] -> EndKey meta = endKey ->
        exists h',
          RegionsInfoStats.GetRegionStats r h startKey endKey
          = Returned (newRegionStats, h')).
Proof.
  intros Hok.
  assert (Hstop : forall meta,
            endKey <> [] -> EndKey meta = endKey \/ EndKey meta = [] ->
            RegionsInfoStats.GetRegionStats_stop endKey meta = true).
  { intros meta Hne Hend. unfold RegionsInfoStats.GetRegionStats_stop.
    destruct endKey as [|b endKey]; [done|]. simpl.
    destruct Hend as [-> | ->]; [|reflexivity].
    simpl. rewrite N.compare_refl, bytes_Compare_refl. reflexivity. }
  split; [|split; [|split]].
  - unfold RegionsInfoStats.GetRegionStats.
    destruct (GetRegionStats_visit_spec r
                (tree_scanRange (RegionsInfo.tree r) startKey) endKey
                newRegionStats h Hok) as (stats & h' & Ev & Hle & Eo).
    exists stats, h'. split; [exact Ev|]. split; [exact Hle|].
    destruct (Observe_all_spec [] _ newRegionStats stats_of_nil
                (residents_of_Region r h
                   (scanned_before_stop
                      (RegionsInfoStats.GetRegionStats_stop endKey)
                      (tree_scanRange (RegionsInfo.tree r) startKey)) Hok))
      as (s & E & Hs).
    rewrite Eo in E. injection E as <-. exact Hs.
  - intros metas. induction metas as [|meta metas IH]; [reflexivity|].
    cbn [scanned_before_stop]. unfold RegionsInfoStats.GetRegionStats_stop at 1.
    simpl. by rewrite IH.
  - exact Hstop.
  - intros meta rest Hscan Hne Hend. exists h.
    unfold RegionsInfoStats.GetRegionStats. rewrite Hscan.
    cbn [RegionsInfoStats.GetRegionStats_visit].
    rewrite (Hstop meta Hne (or_introl Hend)). reflexivity.
Qed.

End GetRegionStats.

Lemma X20_witness :
  exists stats h',
    RegionsInfoStats.GetRegionStats MoreExamples.index_set3.1
      MoreExamples.index_set3.2 [] ["e"%byte] = Returned (stats, h')
    /\ Count stats = 1.
Proof.
  destruct (X20_GetRegionStats_counts_up_to_the_first_stop
              MoreExamples.index_set3.1 MoreExamples.index_set3.2 [] ["e"%byte]
              index_set3_ok)
    as ((stats & h' & E & _ & Hs) & _).
  exists stats, h'. split; [exact E|].
  rewrite (stats_Count _ _ Hs). vm_compute. reflexivity.
Defined.

(** ** Regions from heartbeats *)

(** X21.  A region from a heartbeat that carries a meta region has
    classified roles and a size between 1 and 2^44: the 64-bit byte count,
    divided by 2^20, is a non-negative [int64].  [Observe] counts it as
    empty exactly when the heartbeat reported fewer than 2^21 bytes.  A nil
    heartbeat, or one without meta region, makes [RegionFromHeartbeat]
    panic. *)
Theorem X21_heartbeat_regions_are_classified_and_sized
  (hb : RegionHeartbeatRequest) :
  RegionFromHeartbeat None = Fault
  /\ (hbRegion hb = None -> RegionFromHeartbeat (Some hb) = Fault)
  /\ (forall meta,
        hbRegion hb = Some meta ->
        (hbApproximateSize hb < 2 ^ 64)%N ->
        exists r,
          RegionFromHeartbeat (Some hb) = Returned r
          /\ classified r
          /\ Clone r = Returned r
          /\ 1 <= ApproximateSize r < 2 ^ 44
          /\ ((ApproximateSize r <=? Z.of_N EmptyRegionApproximateSize)
              = (hbApproximateSize hb <? 2 ^ 21)%N)).
Proof.
  split; [reflexivity|]. split.
  - intros E. apply RegionFromHeartbeat_without_region. exact E.
  - intros meta E Hsz. unfold RegionFromHeartbeat.
    erewrite classifyVoterAndLearner_spec by (simpl; exact E).
    eexists. split; [reflexivity|].
    set (r := set_roles _ _ _).
    assert (Hc : classified r).
    { unfold r. apply classified_set_roles. simpl. exact E. }
    split; [exact Hc|].
    split; [apply Clone_classified; [by exists meta | exact Hc]|].
    unfold r. cbn [set_roles ApproximateSize hb_GetApproximateSize].
    unfold EmptyRegionApproximateSize.
    set (q := (hbApproximateSize hb / 2 ^ 20)%N).
    assert (Hq : (q < 2 ^ 44)%N).
    { unfold q. apply N.Div0.div_lt_upper_bound.
      change (2 ^ 20 * 2 ^ 44)%N with (2 ^ 64)%N. exact Hsz. }
    assert (Hlt : (q <? 1)%N = (hbApproximateSize hb <? 2 ^ 20)%N).
    { unfold q. destruct (hbApproximateSize hb <? 2 ^ 20)%N eqn:E1.
      - apply N.ltb_lt in E1. apply N.ltb_lt.
        rewrite N.div_small by exact E1. lia.
      - apply N.ltb_ge in E1. apply N.ltb_ge.
        apply N.div_le_lower_bound; lia. }
    destruct (q <? 1)%N eqn:E1.
    + change (to_int64 (Z.of_N 1)) with 1.
      split; [lia|]. symmetry in Hlt. apply N.ltb_lt in Hlt.
      symmetry. apply N.ltb_lt. lia.
    + apply N.ltb_ge in E1.
      rewrite to_int64_small.
      2:{ unfold two63. split; [lia|].
          assert (Z.of_N q < 2 ^ 44) by (change (2 ^ 44) with (Z.of_N (2 ^ 44)); lia).
          lia. }
      split.
      * split; [lia|]. change (2 ^ 44) with (Z.of_N (2 ^ 44)). lia.
      * change (Z.of_N 1) with 1.
        destruct (hbApproximateSize hb <? 2 ^ 21)%N eqn:E2.
        -- apply N.ltb_lt in E2. apply Z.leb_le.
           assert (q < 2)%N.
           { unfold q. apply N.Div0.div_lt_upper_bound.
             change (2 ^ 20 * 2)%N with (2 ^ 21)%N. exact E2. }
           lia.
        -- apply N.ltb_ge in E2. apply Z.leb_gt.
           assert (2 <= q)%N.
           { unfold q. apply N.div_le_lower_bound; [lia|].
             change (2 ^ 20 * 2)%N with (2 ^ 21)%N. exact E2. }
           lia.
Qed.

(** ** Filters *)

Section filters.
Variable StoreInfo : Type.
Variable Options : Type.

Lemma FilterSource_existsb (opt : Options) (store : StoreInfo)
  (filters : list (schedule.Filter StoreInfo Options)) :
  schedule.FilterSource StoreInfo Options opt store filters
  = existsb (fun f => schedule.FilterSource_ StoreInfo Options f opt store) filters.
Proof.
  induction filters as [|f filters IH]; simpl; [reflexivity|].
  rewrite IH. by destruct (schedule.FilterSource_ _ _ f opt store).
Qed.

Lemma FilterTarget_existsb (opt : Options) (store : StoreInfo)
  (filters : list (schedule.Filter StoreInfo Options)) :
  schedule.FilterTarget StoreInfo Options opt store filters
  = existsb (fun f => schedule.FilterTarget_ StoreInfo Options f opt store) filters.
Proof.
  induction filters as [|f filters IH]; simpl; [reflexivity|].
  rewrite IH. by destruct (schedule.FilterTarget_ _ _ f opt store).
Qed.

Lemma existsb_Permutation {A : Type} (f : A -> bool) (l l' : list A) :
  l ≡ₚ l' -> existsb f l = existsb f l'.
Proof.
  induction 1 as [|x l l' _ IH|x y l|l l' l'' _ IH1 _ IH2]; simpl.
  - reflexivity.
  - by rewrite IH.
  - by destruct (f x), (f y).
  - by rewrite IH1.
Qed.

(** X22.  [FilterSource] and [FilterTarget] over a list of filters return
    true exactly when some filter of the list rejects the store on that
    side.  So the answer does not depend on the order of the filters, the
    answer over two lists put together is the disjunction of the two
    answers, and no store is rejected by the empty list.  (The log line and
    the metric, which name the first filter that rejects, are not part of
    the answer.) *)
Theorem X22_filter_lists_reject_when_some_filter_rejects
  (opt : Options) (store : StoreInfo) :
  (forall filters,
     schedule.FilterSource StoreInfo Options opt store filters = true
     <-> exists f, f ∈ filters
                   /\ schedule.FilterSource_ StoreInfo Options f opt store = true)
  /\ (forall filters,
        schedule.FilterTarget StoreInfo Options opt store filters = true
        <-> exists f, f ∈ filters
                      /\ schedule.FilterTarget_ StoreInfo Options f opt store = true)
  /\ (forall filters filters',
        filters ≡ₚ filters' ->
        schedule.FilterSource StoreInfo Options opt store filters
        = schedule.FilterSource StoreInfo Options opt store filters'
        /\ schedule.FilterTarget StoreInfo Options opt store filters
           = schedule.FilterTarget StoreInfo Options opt store filters')
  /\ (forall filters filters',
        schedule.FilterSource StoreInfo Options opt store (filters ++ filters')
        = schedule.FilterSource StoreInfo Options opt store filters
          || schedule.FilterSource StoreInfo Options opt store filters'
        /\ schedule.FilterTarget StoreInfo Options opt store (filters ++ filters')
           = schedule.FilterTarget StoreInfo Options opt store filters
             || schedule.FilterTarget StoreInfo Options opt store filters')
  /\ schedule.FilterSource StoreInfo Options opt store [] = false
  /\ schedule.FilterTarget StoreInfo Options opt store [] = false.
Proof.
  split; [|split; [|split; [|split; [|split]]]].
  - intros filters. rewrite FilterSource_existsb, existsb_exists.
    split; intros (f & Hin & Hf); exists f; (split; [|exact Hf]);
      by apply list_elem_of_In.
  - intros filters. rewrite FilterTarget_existsb, existsb_exists.
    split; intros (f & Hin & Hf); exists f; (split; [|exact Hf]);
      by apply list_elem_of_In.
  - intros filters filters' Hp.
    rewrite !FilterSource_existsb, !FilterTarget_existsb.
    split; by apply existsb_Permutation.
  - intros filters filters'.
    rewrite !FilterSource_existsb, !FilterTarget_existsb, !existsb_app. by split.
  - reflexivity.
  - reflexivity.
Qed.

Variable PendingPeerCount : StoreInfo -> Z.
Variable GetMaxPendingPeerCount : Options -> N.

(** X23.  The pending-peer filter is off when the bound of the options is
    0.  With a bound below 2^63 it rejects, as source and as target, exactly
    the stores whose pending-peer count is above the bound.  The bound is
    converted from [uint64] to [int]: a bound of 2^63 or more becomes
    negative, and the filter then rejects every store, whose count is not
    negative. *)
Theorem X23_pendingPeerCountFilter_bound_and_conversion
  (opt : Options) (store : StoreInfo) :
  let f := catalogue.NewPendingPeerCountFilter StoreInfo Options
             PendingPeerCount GetMaxPendingPeerCount in
  let bound := GetMaxPendingPeerCount opt in
  schedule.FilterSource_ StoreInfo Options f opt store
  = schedule.FilterTarget_ StoreInfo Options f opt store
  /\ (bound = 0%N ->
      schedule.FilterTarget_ StoreInfo Options f opt store = false)
  /\ ((0 < bound < 2 ^ 63)%N ->
      (schedule.FilterTarget_ StoreInfo Options f opt store = true
       <-> Z.of_N bound < PendingPeerCount store))
  /\ ((2 ^ 63 <= bound < 2 ^ 64)%N ->
      0 <= PendingPeerCount store ->
      schedule.FilterTarget_ StoreInfo Options f opt store = true).
Proof.
  cbn zeta. simpl. unfold catalogue.pendingPeerCountFilter_filter.
  split; [reflexivity|]. split; [|split].
  - intros ->. reflexivity.
  - intros [Hlo Hhi].
    destruct (GetMaxPendingPeerCount opt =? 0)%N eqn:E.
    { apply N.eqb_eq in E. lia. }
    rewrite to_int64_small.
    2:{ unfold two63. split; [lia|].
        change (2 ^ 63) with (Z.of_N (2 ^ 63)). lia. }
    apply Z.ltb_lt.
  - intros [Hlo Hhi] Hc.
    destruct (GetMaxPendingPeerCount opt =? 0)%N eqn:E.
    { apply N.eqb_eq in E. lia. }
    apply Z.ltb_lt.
    assert (Hneg : to_int64 (Z.of_N (GetMaxPendingPeerCount opt))
                   = Z.of_N (GetMaxPendingPeerCount opt) - two64).
    { unfold to_int64.
      assert (Hz : two63 <= Z.of_N (GetMaxPendingPeerCount opt) < two64).
      { unfold two63, two64.
        change (2 ^ 63) with (Z.of_N (2 ^ 63)).
        change (2 ^ 64) with (Z.of_N (2 ^ 64)). lia. }
      replace (Z.of_N (GetMaxPendingPeerCount opt) + two63)
        with (Z.of_N (GetMaxPendingPeerCount opt) - two63 + 1 * two64)
        by (unfold two63, two64; lia).
      rewrite Z.mod_add by (unfold two64; lia).
      rewrite Z.mod_small by (unfold two63, two64 in *; lia).
      unfold two63, two64. lia. }
    rewrite Hneg.
    assert (Z.of_N (GetMaxPendingPeerCount opt) < two64).
    { unfold two64. change (2 ^ 64) with (Z.of_N (2 ^ 64)). lia. }
    lia.
Qed.

End filters.

(** ** The difference of two regions *)

Section Diff_properties.
Variable show_peer : Peer -> string.
Variable show_meta : MetaRegion -> string.

Lemma strings_Join_nonempty (x : string) (rest : list string) (sep : string) :
  x <> EmptyString -> strings_Join (x :: rest) sep <> EmptyString.
Proof.
  intros Hx. destruct rest as [|y rest]; simpl; [exact Hx|].
  destruct x as [|c x]; [done|]. simpl. discriminate.
Qed.

Lemma DiffRegionPeersInfo_loop_spec (label : string) (xs ys : list Peer)
  (ret : list string) :
  DiffRegionPeersInfo_loop show_peer label xs ys ret
  = ret ++ ((fun a => String.append label (String.append (show_peer a) "}"))
            <$> List.filter (fun a => negb (existsb (peer_DeepEqual a) ys)) xs).
Proof.
  revert ret. induction xs as [|a xs IH]; intros ret; simpl.
  - by rewrite app_nil_r.
  - destruct (existsb (peer_DeepEqual a) ys); simpl; rewrite IH.
    + reflexivity.
    + by rewrite <- app_assoc.
Qed.

Lemma existsb_peer_DeepEqual (a : Peer) (ys : list Peer) :
  existsb (peer_DeepEqual a) ys = true <-> a ∈ ys.
Proof.
  rewrite existsb_exists. unfold peer_DeepEqual. split.
  - intros (y & Hin & Heq). apply bool_decide_eq_true in Heq as ->.
    by apply list_elem_of_In.
  - intros Hin. exists a. split; [by apply list_elem_of_In|].
    by apply bool_decide_eq_true.
Qed.

Lemma filter_nil_iff {A : Type} (f : A -> bool) (l : list A) :
  List.filter f l = [] <-> forall x, x ∈ l -> f x = false.
Proof.
  induction l as [|a l IH]; simpl.
  - split; [|done]. intros _ x Hx. by apply elem_of_nil in Hx.
  - destruct (f a) eqn:E.
    + split; [discriminate|]. intros Hall. rewrite (Hall a) in E by left.
      discriminate.
    + rewrite IH. split.
      * intros Hall x Hx. apply elem_of_cons in Hx as [->|Hx]; auto.
      * intros Hall x Hx. apply Hall. by right.
Qed.

(** X24.  [DiffRegionPeersInfo] and [DiffRegionKeyInfo] panic when one of
    the two regions has no meta region.  Otherwise the text about the peers
    is empty exactly when each region has every peer of the other, and
    the text about the keys is empty exactly when the start keys are equal
    and the end keys are equal; a region differs in nothing from itself. *)
Theorem X24_the_difference_is_empty_when_nothing_differs
  (origin other : RegionInfo) :
  (Region origin = None \/ Region other = None ->
   DiffRegionPeersInfo show_peer origin other = Fault
   /\ DiffRegionKeyInfo show_meta origin other = Fault)
  /\ (forall o t,
        Region origin = Some o -> Region other = Some t ->
        (exists text, DiffRegionPeersInfo show_peer origin other = Returned text)
        /\ (DiffRegionPeersInfo show_peer origin other = Returned EmptyString
            <-> forall p, p ∈ Peers o <-> p ∈ Peers t)
        /\ (exists text, DiffRegionKeyInfo show_meta origin other = Returned text)
        /\ (DiffRegionKeyInfo show_meta origin other = Returned EmptyString
            <-> StartKey o = StartKey t /\ EndKey o = EndKey t))
  /\ (is_Some (Region origin) ->
      DiffRegionPeersInfo show_peer origin origin = Returned EmptyString
      /\ DiffRegionKeyInfo show_meta origin origin = Returned EmptyString).
Proof.
  assert (Hpeers : forall o t,
            strings_Join
              (DiffRegionPeersInfo_loop show_peer "Add peer:{" (Peers t) (Peers o)
                 (DiffRegionPeersInfo_loop show_peer "Remove peer:{"
                    (Peers o) (Peers t) [])) "," = EmptyString
            <-> forall p, p ∈ Peers o <-> p ∈ Peers t).
  { intros o t. rewrite !DiffRegionPeersInfo_loop_spec. simpl.
    set (removed := List.filter _ (Peers o)).
    set (added := List.filter _ (Peers t)).
    assert (Hr : removed = [] <-> forall p, p ∈ Peers o -> p ∈ Peers t).
    { unfold removed. rewrite filter_nil_iff. split; intros Hall p Hp.
      - apply existsb_peer_DeepEqual. specialize (Hall p Hp).
        by apply negb_false_iff in Hall.
      - apply negb_false_iff, existsb_peer_DeepEqual. by apply Hall. }
    assert (Ha : added = [] <-> forall p, p ∈ Peers t -> p ∈ Peers o).
    { unfold added. rewrite filter_nil_iff. split; intros Hall p Hp.
      - apply existsb_peer_DeepEqual. specialize (Hall p Hp).
        by apply negb_false_iff in Hall.
      - apply negb_false_iff, existsb_peer_DeepEqual. by apply Hall. }
    split.
    - intros Hj.
      destruct removed as [|a removed].
      + destruct added as [|b added].
        * intros p. split; [by apply Hr | by apply Ha].
        * exfalso. revert Hj. simpl. by apply strings_Join_nonempty.
      + exfalso. revert Hj. simpl. by apply strings_Join_nonempty.
    - intros Hall.
      rewrite (proj2 Hr) by (intros p; apply Hall).
      rewrite (proj2 Ha) by (intros p; apply Hall). reflexivity. }
  assert (Hkeys : forall o t,
            DiffRegionKeyInfo show_meta
              (set_Region origin o) (set_Region other t) = Returned EmptyString
            <-> StartKey o = StartKey t /\ EndKey o = EndKey t).
  { intros o t. unfold DiffRegionKeyInfo, bytes_Equal. simpl.
    destruct (decide (StartKey o = StartKey t)) as [Es|Es];
      destruct (decide (EndKey o = EndKey t)) as [Ee|Ee].
    - rewrite !bool_decide_eq_true_2 by done. simpl. tauto.
    - rewrite (bool_decide_eq_true_2 _ Es), (bool_decide_eq_false_2 _ Ee). simpl.
      split; [discriminate | tauto].
    - rewrite (bool_decide_eq_false_2 _ Es), (bool_decide_eq_true_2 _ Ee). simpl.
      split; [discriminate | tauto].
    - rewrite (bool_decide_eq_false_2 _ Es), (bool_decide_eq_false_2 _ Ee). simpl.
      split; [discriminate | tauto]. }
  assert (Hkeys' : forall o t,
            Region origin = Some o -> Region other = Some t ->
            DiffRegionKeyInfo show_meta origin other
            = DiffRegionKeyInfo show_meta (set_Region origin o) (set_Region other t)).
  { intros o t Eo Et. unfold DiffRegionKeyInfo. simpl. by rewrite Eo, Et. }
  split; [|split].
  - unfold DiffRegionPeersInfo, DiffRegionKeyInfo.
    intros [E|E]; rewrite E; [done|]. by destruct (Region origin).
  - intros o t Eo Et.
    split; [unfold DiffRegionPeersInfo; rewrite Eo, Et; by eexists|].
    split.
    { unfold DiffRegionPeersInfo. rewrite Eo, Et. rewrite <- Hpeers.
      split; [by intros [= ->] | by intros ->]. }
    split; [unfold DiffRegionKeyInfo; rewrite Eo, Et; by eexists|].
    rewrite (Hkeys' o t Eo Et). apply Hkeys.
  - intros [o Eo]. split.
    + unfold DiffRegionPeersInfo. rewrite Eo. f_equal. by apply Hpeers.
    + unfold DiffRegionKeyInfo, bytes_Equal. rewrite Eo.
      rewrite !bool_decide_eq_true_2 by done. reflexivity.
Qed.

End Diff_properties.

(** ** RegionsStat *)

Section RegionsStat_properties.
Context {Time RollingStats : Type}.

(** X25.  [Swap] and [Less] of [RegionsStat] panic when an index is out of
    range.  Otherwise [Swap] exchanges the two elements and keeps the
    others and the length, and swapping again gives back the slice; [Less]
    compares the flow bytes strictly, so it is false of an element with
    itself and never true both ways, and after a swap it answers for the
    two positions what it answered for them exchanged. *)
Theorem X25_RegionsStat_Swap_exchanges_and_Less_is_strict
  (m : list (RegionStat Time RollingStats)) (i j : nat) :
  ((length m <= i)%nat \/ (length m <= j)%nat ->
   RegionsStat_Swap m i j = Fault /\ RegionsStat_Less m i j = Fault)
  /\ ((i < length m)%nat -> (j < length m)%nat ->
      exists m' mi mj,
        m !! i = Some mi /\ m !! j = Some mj
        /\ RegionsStat_Swap m i j = Returned m'
        /\ m' !! i = Some mj /\ m' !! j = Some mi
        /\ (forall k, k <> i -> k <> j -> m' !! k = m !! k)
        /\ RegionsStat_Len m' = RegionsStat_Len m
        /\ RegionsStat_Swap m' i j = Returned m
        /\ RegionsStat_Less m i j = Returned (FlowBytes mi <? FlowBytes mj)%N
        /\ RegionsStat_Less m' i j = RegionsStat_Less m j i
        /\ RegionsStat_Less m i i = Returned false
        /\ (RegionsStat_Less m i j = Returned true ->
            RegionsStat_Less m j i = Returned false)).
Proof.
  split.
  - intros Hout. unfold RegionsStat_Swap, RegionsStat_Less.
    destruct Hout as [Hi|Hj].
    + rewrite (lookup_ge_None_2 m i Hi). by destruct (m !! j).
    + rewrite (lookup_ge_None_2 m j Hj). by destruct (m !! i).
  - intros Hi Hj.
    destruct (lookup_lt_is_Some_2 m i Hi) as [mi Emi].
    destruct (lookup_lt_is_Some_2 m j Hj) as [mj Emj].
    set (m' := <[j := mi]> (<[i := mj]> m)).
    assert (Hj' : m' !! j = Some mi).
    { unfold m'. apply list_lookup_insert_eq. by rewrite length_insert. }
    assert (Hi' : m' !! i = Some mj).
    { unfold m'. destruct (decide (i = j)) as [->|Hne].
      - rewrite list_lookup_insert_eq by (by rewrite length_insert). congruence.
      - rewrite list_lookup_insert_ne by done.
        by apply list_lookup_insert_eq. }
    exists m', mi, mj.
    split; [exact Emi|]. split; [exact Emj|].
    split; [unfold RegionsStat_Swap; by rewrite Emi, Emj|].
    split; [exact Hi'|]. split; [exact Hj'|].
    split.
    { intros k Hki Hkj. unfold m'.
      by rewrite !list_lookup_insert_ne by done. }
    split; [unfold RegionsStat_Len, m'; by rewrite !length_insert|].
    split.
    { unfold RegionsStat_Swap. rewrite Hi', Hj'. f_equal.
      apply list_eq. intros k.
      destruct (decide (k = j)) as [->|Hkj].
      - rewrite list_lookup_insert_eq; [by rewrite Emj|].
        unfold m'. by rewrite !length_insert.
      - rewrite list_lookup_insert_ne by done.
        destruct (decide (k = i)) as [->|Hki].
        + rewrite list_lookup_insert_eq; [by rewrite Emi|].
          unfold m'. by rewrite !length_insert.
        + rewrite list_lookup_insert_ne by done. unfold m'.
          by rewrite !list_lookup_insert_ne by done. }
    split; [unfold RegionsStat_Less; by rewrite Emi, Emj|].
    split; [unfold RegionsStat_Less; by rewrite Hi', Hj', Emi, Emj|].
    split.
    { unfold RegionsStat_Less. rewrite Emi. f_equal. apply N.ltb_irrefl. }
    unfold RegionsStat_Less. rewrite Emi, Emj. intros [= Hlt]. f_equal.
    apply N.ltb_lt in Hlt. apply N.ltb_ge. lia.
Qed.

End RegionsStat_properties.

(** ** AddRegion without SetRegion, scans and random picks *)

Section index_more.
Context {T : Type} `{RegionTree T}.

(** X26.  When the tree reports no overlap, [AddRegion] creates no object,
    the global map gets the pointer under the id, and a bucket changes only
    under that id at the stores where the region has the role of the bucket:
    an entry that an earlier region with the same id left in the leader or
    follower bucket of another store stays, while the global map holds the
    new pointer: [AddRegion] does not look for a resident region with the
    id. *)
Theorem X26_AddRegion_without_overlap_keeps_the_other_entries
  (r r' : RegionsInfo.t T) (h h' : gmap positive RegionInfo) (region : positive) :
  RegionsInfo.AddRegion r h region = Returned ([], r', h') ->
  h' = h
  /\ (forall k,
        regionMap.Get (Some (RegionsInfo.regions r')) k
        = if decide (k = GetId (deref h region)) then Some region
          else regionMap.Get (Some (RegionsInfo.regions r)) k)
  /\ buckets_set (GetId (deref h region)) (leader_stores (deref h region))
       (Some region) (RegionsInfo.leaders r) (RegionsInfo.leaders r')
  /\ buckets_set (GetId (deref h region)) (follower_stores (deref h region))
       (Some region) (RegionsInfo.followers r) (RegionsInfo.followers r')
  /\ buckets_set (GetId (deref h region)) (learner_stores (deref h region))
       (Some region) (RegionsInfo.learners r) (RegionsInfo.learners r')
  /\ buckets_set (GetId (deref h region)) (pending_stores (deref h region))
       (Some region) (RegionsInfo.pendingPeers r) (RegionsInfo.pendingPeers r')
  /\ (forall s old,
        RegionsInfo.GetLeader r s (GetId (deref h region)) = Some old ->
        s ∉ leader_stores (deref h region) ->
        RegionsInfo.GetLeader r' s (GetId (deref h region)) = Some old
        /\ regionMap.Get (Some (RegionsInfo.regions r')) (GetId (deref h region))
           = Some region)
  /\ (forall s old,
        RegionsInfo.GetFollower r s (GetId (deref h region)) = Some old ->
        s ∉ follower_stores (deref h region) ->
        RegionsInfo.GetFollower r' s (GetId (deref h region)) = Some old).
Proof.
  intros Hadd.
  destruct (AddRegion_effect _ _ _ _ _ _ Hadd)
    as (tree' & r1 & regions' & _ & Hov & HP & _ & Hr & S1 & S2 & S3 & S4).
  cbn [RegionsInfo.AddRegion_overlaps] in Hov. injection Hov as <- <-.
  cbn [RegionsInfo.regions RegionsInfo.leaders RegionsInfo.followers
       RegionsInfo.learners RegionsInfo.pendingPeers] in *.
  assert (Hregs : forall k,
            regionMap.Get (Some (RegionsInfo.regions r')) k
            = if decide (k = GetId (deref h region)) then Some region
              else regionMap.Get (Some (RegionsInfo.regions r)) k).
  { intros k. rewrite Hr. exact (Put_Get (deref h) _ _ _ HP k). }
  split; [reflexivity|]. split; [exact Hregs|].
  repeat (split; [assumption|]).
  split.
  - intros s old Hold Hs. split.
    + unfold RegionsInfo.GetLeader in *. rewrite S1.
      rewrite decide_False; [exact Hold | by intros [_ ?]].
    + rewrite Hregs. by rewrite decide_True.
  - intros s old Hold Hs.
    unfold RegionsInfo.GetFollower in *. rewrite S2.
    rewrite decide_False; [exact Hold | by intros [_ ?]].
Qed.

Lemma ScanRange_visit_spec (r : RegionsInfo.t T) (visited : list MetaRegion)
  (limit : nat) (res : list (option positive)) (h : gmap positive RegionInfo) :
  index_ok r h ->
  exists res' h',
    RegionsInfo.ScanRange_visit r visited limit res h = Returned (res ++ res', h')
    /\ heap_le h h'
    /\ length res' = Nat.min (length visited) (Nat.max 1 (limit - length res))
    /\ forall i meta,
         visited !! i = Some meta -> (i < length res')%nat ->
         match regionMap.Get (Some (RegionsInfo.regions r)) (Id meta) with
         | Some stored =>
             exists q, res' !! i = Some (Some q)
                       /\ h !! q = None
                       /\ Clone (deref h stored) = Returned (deref h' q)
         | None => res' !! i = Some None
         end.
Proof.
  revert res h. induction visited as [|meta rest IH]; intros res h Hok;
    cbn [RegionsInfo.ScanRange_visit].
  - exists [], h. rewrite app_nil_r. split; [reflexivity|].
    split; [apply heap_le_refl|]. split; [reflexivity|].
    intros i m Hi. by rewrite lookup_nil in Hi.
  - destruct (GetRegion_spec r h (Id meta) (index_residents r h Hok (Id meta)))
      as (c & h1 & Hget & Hle & Hm).
    rewrite Hget. run_bind.
    assert (Hfirst :
              forall h', heap_le h1 h' ->
              match regionMap.Get (Some (RegionsInfo.regions r)) (Id meta) with
              | Some stored =>
                  exists q, c = Some q /\ h !! q = None
                            /\ Clone (deref h stored) = Returned (deref h' q)
              | None => c = None
              end).
    { intros h' Hle'.
      destruct (regionMap.Get (Some (RegionsInfo.regions r)) (Id meta))
        as [stored|] eqn:Hst; [|by destruct Hm].
      destruct Hm as (q & cl & -> & Hq & Hclone & ->).
      exists q. split; [reflexivity|]. split; [exact Hq|].
      assert (Hq1 : deref (<[q:=cl]> h) q = cl).
      { apply deref_lookup. apply lookup_insert_eq. }
      rewrite (deref_heap_le _ h' q Hle'); rewrite Hq1; [exact Hclone|].
      unfold Clone in Hclone.
      apply classifyVoterAndLearner_fields in Hclone as (Hreg & _).
      simpl in Hreg. rewrite Hreg.
      exact (index_residents r h Hok _ _ Hst). }
    pose proof (index_ok_heap_le r h h1 Hle Hok) as Hok1.
    destruct (length (res ++ [c]) <? limit)%nat eqn:Elim.
    + apply Nat.ltb_lt in Elim. rewrite length_app in Elim. simpl in Elim.
      destruct (IH (res ++ [c]) h1 Hok1) as (res'' & h' & Ev & Hle' & Hlen & Hel).
      exists (c :: res''), h'.
      split; [rewrite Ev; by rewrite <- app_assoc|].
      split; [by eapply heap_le_trans|].
      split.
      { cbn [length]. rewrite Hlen, length_app. cbn [length]. lia. }
      intros i m Hi Hlt. destruct i as [|i]; cbn [length] in Hlt;
        [change (Some meta = Some m) in Hi
        |change (rest !! i = Some m) in Hi].
      * injection Hi as <-. specialize (Hfirst h' Hle').
        destruct (regionMap.Get (Some (RegionsInfo.regions r)) (Id meta))
          as [stored|]; [|by subst c].
        destruct Hfirst as (q & -> & Hq & Hc). by exists q.
      * specialize (Hel i m Hi ltac:(lia)).
        change ((c :: res'') !! S i) with (res'' !! i).
        destruct (regionMap.Get (Some (RegionsInfo.regions r)) (Id m))
          as [stored|] eqn:Hst; [|exact Hel].
        destruct Hel as (q & Hres & Hq & Hc). exists q.
        split; [exact Hres|]. split.
        -- destruct (h !! q) as [v|] eqn:Hv; [|reflexivity].
           rewrite (Hle q) in Hq by (by rewrite Hv). congruence.
        -- rewrite <- (deref_heap_le h h1 stored Hle); [exact Hc|].
           exact (index_residents r h Hok _ _ Hst).
    + apply Nat.ltb_ge in Elim. rewrite length_app in Elim. simpl in Elim.
      exists [c], h1. split; [reflexivity|]. split; [exact Hle|].
      split; [cbn [length]; lia|].
      intros i m Hi Hlt. cbn [length] in Hlt. destruct i as [|i]; [|lia].
      change (Some meta = Some m) in Hi. injection Hi as <-.
      specialize (Hfirst h1 (heap_le_refl h1)).
      destruct (regionMap.Get (Some (RegionsInfo.regions r)) (Id meta))
        as [stored|]; [|by subst c].
      destruct Hfirst as (q & -> & Hq & Hc). by exists q.
Qed.

(** X27.  On an index whose maps are consistent, [ScanRange] with a limit
    that is not negative returns one element for each of the first regions
    that the tree offers from the start key, as many as the limit, and one
    when the limit is 0: the visitor appends before it compares the length
    with the limit.  The element of a resident region is a new object, the
    clone of the stored region; the element of a region that the tree has
    and the global map lacks is nil. *)
Theorem X27_ScanRange_returns_clones_up_to_the_limit
  (r : RegionsInfo.t T) (h : gmap positive RegionInfo)
  (startKey : list byte) (limit : nat) :
  index_ok r h ->
  exists res h',
    RegionsInfo.ScanRange r h startKey limit = Returned (res, h')
    /\ heap_le h h'
    /\ length res
       = Nat.min (length (tree_scanRange (RegionsInfo.tree r) startKey))
           (Nat.max 1 limit)
    /\ forall i meta,
         tree_scanRange (RegionsInfo.tree r) startKey !! i = Some meta ->
         (i < length res)%nat ->
         match regionMap.Get (Some (RegionsInfo.regions r)) (Id meta) with
         | Some stored =>
             exists q, res !! i = Some (Some q)
                       /\ h !! q = None
                       /\ Clone (deref h stored) = Returned (deref h' q)
         | None => res !! i = Some None
         end.
Proof.
  intros Hok. unfold RegionsInfo.ScanRange.
  destruct (ScanRange_visit_spec r
              (tree_scanRange (RegionsInfo.tree r) startKey) limit [] h Hok)
    as (res & h' & Ev & Hle & Hlen & Hel).
  exists res, h'. split; [exact Ev|]. split; [exact Hle|].
  split; [|exact Hel].
  rewrite Hlen. cbn [length]. by rewrite Nat.sub_0_r.
Qed.

Lemma randRegion_pick (h : gmap positive RegionInfo)
  (rm : option (regionMap.t positive)) (opts : list RegionOption) (g : Rand) :
  rm_consistent_opt (deref h) rm ->
  exists res g',
    randRegion (deref h) rm opts g = Returned (res, g')
    /\ (forall p, res = Some p ->
          passes (deref h) opts p = true
          /\ exists id, regionMap.Get rm id = Some p)
    /\ (regionMap.Len rm = 0%nat -> res = None).
Proof.
  intros Hc.
  destruct (randRegion_loop_spec (deref h) randomRegionMaxRetry rm opts g Hc)
    as (g' & E & _).
  eexists _, g'. split; [exact E|]. split.
  - intros p Hp. apply find_some in Hp as [Hin Hpass].
    split; [exact Hpass|]. by eapply samples_resident.
  - intros Hlen. by rewrite (samples_empty (deref h) rm g _ Hc Hlen).
Qed.

(** X28.  In a state that a run of [SetRegion] reaches from a new index,
    under the conditions of X17, [RandLeaderRegion] and
    [RandFollowerRegion] return, and the region they pick for a store is
    resident under its own id, passes every option, and has its leader, or
    a follower, on that store; they return nil for a store whose count is
    0. *)
Theorem X28_random_picks_have_the_role_on_the_store
  (ps : list positive) (h h' : gmap positive RegionInfo) (r' : RegionsInfo.t T)
  (s : N) (opts : list RegionOption) (g : Rand) :
  (forall p, p ∈ ps ->
     is_Some (Region (deref h p)) /\ roles_on_peer_stores (deref h p)) ->
  index_run (CallSetRegion <$> ps) RegionsInfo.NewRegionsInfo h
  = Returned (r', h') ->
  (exists res g',
     RegionsInfo.RandLeaderRegion r' h' s opts g = Returned (res, g')
     /\ (forall p, res = Some p ->
           regionMap.Get (Some (RegionsInfo.regions r')) (GetId (deref h' p))
           = Some p
           /\ s ∈ leader_stores (deref h' p)
           /\ passes (deref h') opts p = true)
     /\ (RegionsInfo.GetStoreLeaderCount r' s = 0%nat -> res = None))
  /\ (exists res g',
        RegionsInfo.RandFollowerRegion r' h' s opts g = Returned (res, g')
        /\ (forall p, res = Some p ->
              regionMap.Get (Some (RegionsInfo.regions r')) (GetId (deref h' p))
              = Some p
              /\ s ∈ follower_stores (deref h' p)
              /\ passes (deref h') opts p = true)
        /\ (RegionsInfo.GetStoreFollowerCount r' s = 0%nat -> res = None)).
Proof.
  intros Hps Hrun.
  destruct (index_run_set_agree ps _ r' h h' (NewRegionsInfo_ok h)
              (NewRegionsInfo_agree h) Hps Hrun) as (Hok & [A1 A2 A3 A4 A5] & Hle).
  destruct (index_ok_sampled_maps r' h' s Hok) as (_ & CL & CF).
  split.
  - destruct (randRegion_pick h' _ opts g CL) as (res & g' & E & Hpick & Hnone).
    exists res, g'. split; [exact E|]. split; [|exact Hnone].
    intros p Hp. destruct (Hpick p Hp) as [Hpass [id Hid]].
    apply A1 in Hid as [Hg Hs].
    rewrite (Get_key h' _ _ _ (ok_regions _ _ Hok) Hg). auto.
  - destruct (randRegion_pick h' _ opts g CF) as (res & g' & E & Hpick & Hnone).
    exists res, g'. split; [exact E|]. split; [|exact Hnone].
    intros p Hp. destruct (Hpick p Hp) as [Hpass [id Hid]].
    apply A2 in Hid as [Hg Hs].
    rewrite (Get_key h' _ _ _ (ok_regions _ _ Hok) Hg). auto.
Qed.

End index_more.

Lemma X27_witness :
  exists res h',
    RegionsInfo.ScanRange MoreExamples.index_set3.1 MoreExamples.index_set3.2
      [] 0 = Returned (res, h')
    /\ length res = 1%nat.
Proof.
  destruct (X27_ScanRange_returns_clones_up_to_the_limit
              MoreExamples.index_set3.1 MoreExamples.index_set3.2 [] 0%nat
              index_set3_ok)
    as (res & h' & E & _ & Hlen & _).
  exists res, h'. split; [exact E|]. rewrite Hlen. vm_compute. reflexivity.
Defined.

Lemma X28_witness :
  exists res g',
    RegionsInfo.RandLeaderRegion MoreExamples.index_set3.1
      MoreExamples.index_set3.2 1%N [] Examples.counter = Returned (res, g')
    /\ forall p, res = Some p ->
         1%N ∈ leader_stores (deref MoreExamples.index_set3.2 p).
Proof.
  destruct (X28_random_picks_have_the_role_on_the_store
              [1; 2; 3]%positive (Examples.heap_of (Some Examples.voter1))
              MoreExamples.index_set3.2 MoreExamples.index_set3.1
              1%N [] Examples.counter)
    as ((res & g' & E & Hp & _) & _).
  - apply set3_regions.
  - etrans; [exact index_set3_run | by destruct MoreExamples.index_set3].
  - exists res, g'. split; [exact E|]. intros p Hres. by apply Hp.
Defined.

(** ** The list tree and the global map under SetRegion *)

Lemma List_filter_sublist {A : Type} (f : A -> bool) (l : list A) :
  List.filter f l `sublist_of` l.
Proof.
  induction l as [|a l IH]; simpl; [constructor|].
  destruct (f a); by constructor.
Qed.

Lemma NoDup_fmap_member_eq {A B : Type} (f : A -> B) (l : list A) (a b : A) :
  NoDup (f <$> l) -> a ∈ l -> b ∈ l -> f a = f b -> a = b.
Proof.
  intros Hnd Ha Hb E.
  apply list_elem_of_lookup in Ha as [i Hi].
  apply list_elem_of_lookup in Hb as [j Hj].
  assert (i = j).
  { eapply NoDup_lookup; [exact Hnd| |]; rewrite list_lookup_fmap.
    - rewrite Hi. reflexivity.
    - rewrite Hj. simpl. by rewrite E. }
  subst. congruence.
Qed.

Lemma insert_sorted_Permutation (x : MetaRegion) (l : list MetaRegion) :
  ListTree.insert_sorted x l ≡ₚ x :: l.
Proof.
  induction l as [|y l IH]; simpl; [done|].
  destruct (ListTree.key_ltb _ _); [done|].
  rewrite IH. apply perm_swap.
Qed.

Lemma same_entry_refl (x : MetaRegion) : ListTree.same_entry x x = true.
Proof.
  unfold ListTree.same_entry.
  rewrite !bool_decide_eq_true_2 by done. by rewrite N.eqb_refl.
Qed.

(** The two neighbours that the list tree returns are items of the tree. *)
Lemma getAdjacentRegions_items (t : list MetaRegion) (meta : MetaRegion)
  (item : regionItem) :
  (ListTree.getAdjacentRegions t (Some meta)).1 = Some item
  \/ (ListTree.getAdjacentRegions t (Some meta)).2 = Some item ->
  item_region item ∈ t.
Proof.
  cbn [ListTree.getAdjacentRegions fst snd]. intros [E|E].
  - destruct (last (List.filter _ t)) as [m|] eqn:L; [|discriminate].
    injection E as <-. apply last_Some_elem_of in L.
    apply elem_of_List_filter in L as [L _]. exact L.
  - destruct (head (List.filter _ t)) as [m|] eqn:L; [|discriminate].
    injection E as <-. apply head_Some_elem_of in L.
    apply elem_of_List_filter in L as [L _]. exact L.
Qed.

(** Where every item of the tree is resident, the tree and the global map
    agree on the neighbours of every region. *)
Lemma tree_resident_neighbours (r : RegionsInfo.t (list MetaRegion))
  (h : gmap positive RegionInfo) (meta : MetaRegion) :
  tree_resident r h -> neighbours_resident r h meta.
Proof.
  intros [_ Hitems] item p Hitem Hp.
  apply getAdjacentRegions_items in Hitem.
  destruct (Hitems _ Hitem) as (p' & Hp' & Hreg). congruence.
Qed.

Lemma NewRegionsInfo_tree_resident (h : gmap positive RegionInfo) :
  tree_resident RegionsInfo.NewRegionsInfo h.
Proof.
  split; simpl.
  - constructor.
  - intros m Hm. by apply elem_of_nil in Hm.
Qed.

Lemma GetId_Region (v : RegionInfo) (m : MetaRegion) :
  Region v = Some m -> GetId v = Id m.
Proof. unfold GetId. by intros ->. Qed.

(** [RemoveRegion] of the resident region: no item with its id stays in
    the tree. *)
Lemma RemoveRegion_tree_resident (r r0 : RegionsInfo.t (list MetaRegion))
  (h : gmap positive RegionInfo) (origin : positive) (id : N) :
  index_ok r h -> tree_resident r h ->
  regionMap.Get (Some (RegionsInfo.regions r)) id = Some origin ->
  RegionsInfo.RemoveRegion r h (Some origin) = Returned r0 ->
  tree_resident r0 h /\ id ∉ Id <$> RegionsInfo.tree r0.
Proof.
  intros Hok [Hnd Hitems] Ho Hrm.
  destruct (RemoveRegion_set r r0 h origin Hok Hrm) as (Ht & Hr & _).
  pose proof (Get_key h _ _ _ (ok_regions _ _ Hok) Ho) as Hid.
  destruct (index_residents r h Hok _ _ Ho) as [mo Hmo].
  rewrite Hmo in Ht. cbn [tree_remove ListTree_RegionTree ListTree.remove] in Ht.
  assert (Hne : forall m, m ∈ RegionsInfo.tree r0 -> Id m <> id).
  { intros m Hm E. rewrite Ht in Hm.
    apply elem_of_List_filter in Hm as [Hm Hs].
    destruct (Hitems m Hm) as (p & Hp & Hreg).
    rewrite E, Ho in Hp. injection Hp as <-.
    assert (m = mo) by congruence. subst m.
    by rewrite same_entry_refl in Hs. }
  split; [split|].
  - rewrite Ht. eapply sublist_NoDup; [exact Hnd|].
    apply fmap_sublist, List_filter_sublist.
  - intros m Hm. pose proof (Hne m Hm) as Hm'.
    rewrite Ht in Hm. apply elem_of_List_filter in Hm as [Hm _].
    destruct (Hitems m Hm) as (p & Hp & Hreg).
    exists p. split; [|exact Hreg].
    rewrite Hr, Hid. by rewrite decide_False.
  - intros Hin. apply list_elem_of_fmap in Hin as (m & E & Hm).
    by apply (Hne m Hm).
Qed.

(** The loop over the overlapped items, each resident under its id: the
    tree loses items only, and the global map loses the ids of the items. *)
Lemma AddRegion_overlaps_tree (overlaps : list MetaRegion)
  (r r1 : RegionsInfo.t (list MetaRegion)) (h h1 : gmap positive RegionInfo) :
  index_ok r h ->
  NoDup (Id <$> overlaps) ->
  (forall item, item ∈ overlaps ->
     exists p, regionMap.Get (Some (RegionsInfo.regions r)) (Id item) = Some p
               /\ Region (deref h p) = Some item) ->
  RegionsInfo.AddRegion_overlaps overlaps r h = Returned (r1, h1) ->
  RegionsInfo.tree r1 `sublist_of` RegionsInfo.tree r
  /\ (forall k, k ∉ Id <$> overlaps ->
        regionMap.Get (Some (RegionsInfo.regions r1)) k
        = regionMap.Get (Some (RegionsInfo.regions r)) k).
Proof.
  revert r h. induction overlaps as [|item rest IH]; intros r h Hok Hnd Hres;
    cbn [RegionsInfo.AddRegion_overlaps].
  - intros [= <- <-]. by split.
  - destruct (GetRegion_spec r h (Id item) (index_residents r h Hok (Id item)))
      as (c & h' & Hget & Hle & Hmatch).
    rewrite Hget. run_bind.
    destruct c as [q|]; [|discriminate].
    destruct (Hres item ltac:(left)) as (stored & Hst & Hreg).
    rewrite Hst in Hmatch.
    destruct Hmatch as (q' & c & [= <-] & Hq & Hclone & ->).
    pose proof (index_ok_heap_le r h _ Hle Hok) as Hok'.
    destruct (RemoveRegion_ok r _ q Hok') as (r' & Hrm & Hok'').
    rewrite Hrm. run_bind. intros Hrest.
    assert (Hq' : deref (<[q:=c]> h) q = c).
    { apply deref_lookup. apply lookup_insert_eq. }
    assert (Hc : Region c = Some item).
    { by rewrite (Clone_Region _ _ Hclone). }
    destruct (RemoveRegion_set r r' _ q Hok' Hrm) as (Ht & Hr & _).
    rewrite Hq', (GetId_Region _ _ Hc) in Hr. rewrite Hq', Hc in Ht.
    cbn [tree_remove ListTree_RegionTree ListTree.remove] in Ht.
    apply NoDup_cons in Hnd as [Hnotin Hnd'].
    assert (Hres' : forall item', item' ∈ rest ->
              exists p,
                regionMap.Get (Some (RegionsInfo.regions r')) (Id item') = Some p
                /\ Region (deref (<[q:=c]> h) p) = Some item').
    { intros item' Hin. destruct (Hres item' ltac:(by right)) as (p & Hp & Hpr).
      exists p. split.
      - rewrite Hr, decide_False; [exact Hp|].
        intros E. apply Hnotin. rewrite <- E.
        apply list_elem_of_fmap. by exists item'.
      - rewrite (deref_heap_le h); [exact Hpr | exact Hle |].
        rewrite Hpr. by eexists. }
    destruct (IH r' _ Hok'' Hnd' Hres' Hrest) as [Hsub Hregs].
    split.
    + etrans; [exact Hsub|]. rewrite Ht. apply List_filter_sublist.
    + intros k Hk. rewrite Hregs, Hr.
      * rewrite decide_False; [reflexivity|]. intros ->. apply Hk. by left.
      * intros Hin. apply Hk. by right.
Qed.

(** [AddRegion] of a region whose id no item of the tree has. *)
Lemma AddRegion_tree_resident (r r' : RegionsInfo.t (list MetaRegion))
  (h h' : gmap positive RegionInfo) (region : positive)
  (overlaps : list MetaRegion) :
  index_ok r h -> tree_resident r h ->
  is_Some (Region (deref h region)) ->
  GetId (deref h region) ∉ Id <$> RegionsInfo.tree r ->
  RegionsInfo.AddRegion r h region = Returned (overlaps, r', h') ->
  tree_resident r' h'.
Proof.
  intros Hok [Hnd Hitems] [x Hx] Hfresh Hadd.
  rewrite (GetId_Region _ _ Hx) in Hfresh.
  destruct (AddRegion_effect _ _ _ _ _ _ Hadd)
    as (tree' & r1 & regions' & Htu & Hov & HP & Ht & Hr & _).
  rewrite Hx in Htu.
  cbn [tree_update ListTree_RegionTree ListTree.update] in Htu.
  injection Htu as Htree' Hovl.
  assert (Hok0 : index_ok
            (RegionsInfo.mk tree' (RegionsInfo.regions r) (RegionsInfo.leaders r)
               (RegionsInfo.followers r) (RegionsInfo.learners r)
               (RegionsInfo.pendingPeers r)) h)
    by (destruct Hok; split; assumption).
  destruct (AddRegion_overlaps_ok _ _ _ _ _ Hok0 Hov) as [Hok1 Hle].
  assert (Hsubov : overlaps `sublist_of` RegionsInfo.tree r).
  { rewrite <- Hovl. apply List_filter_sublist. }
  destruct (AddRegion_overlaps_tree _ _ _ _ _ Hok0
              ltac:(eapply sublist_NoDup; [exact Hnd | by apply fmap_sublist])
              ltac:(intros item Hin; apply Hitems;
                    eapply elem_of_sublist; [exact Hin | exact Hsubov])
              Hov) as [Hsub Hregs].
  cbn [RegionsInfo.tree RegionsInfo.regions] in Hsub, Hregs.
  assert (Hd : deref h' region = deref h region).
  { apply deref_heap_le; [exact Hle|]. rewrite Hx. by eexists. }
  assert (Hget : forall k,
            regionMap.Get (Some (RegionsInfo.regions r')) k
            = if decide (k = Id x) then Some region
              else regionMap.Get (Some (RegionsInfo.regions r1)) k).
  { intros k. rewrite Hr, (Put_Get (deref h') _ _ _ HP k), Hd.
    by rewrite (GetId_Region _ _ Hx). }
  split.
  - rewrite Ht. eapply sublist_NoDup; [|apply fmap_sublist; exact Hsub].
    rewrite <- Htree', insert_sorted_Permutation. rewrite fmap_cons.
    apply NoDup_cons. split.
    + intros Hin. apply Hfresh.
      eapply elem_of_sublist; [exact Hin|].
      apply fmap_sublist, List_filter_sublist.
    + eapply sublist_NoDup; [exact Hnd|].
      apply fmap_sublist, List_filter_sublist.
  - intros m Hm. rewrite Ht in Hm.
    pose proof (elem_of_sublist _ _ _ Hm Hsub) as Hm'.
    rewrite <- Htree', insert_sorted_Permutation in Hm'.
    apply elem_of_cons in Hm' as [->|Hm'].
    + exists region. split; [by rewrite Hget, decide_True|]. by rewrite Hd.
    + apply elem_of_List_filter in Hm' as [Hin Hno].
      destruct (Hitems m Hin) as (p & Hp & Hreg).
      exists p. split.
      * rewrite Hget, decide_False.
        2:{ intros E. apply Hfresh. rewrite <- E.
            apply list_elem_of_fmap. by exists m. }
        rewrite Hregs; [exact Hp|].
        intros Hov'. apply list_elem_of_fmap in Hov' as (item & E & Hitem).
        rewrite <- Hovl in Hitem.
        apply elem_of_List_filter in Hitem as [Hitem Hyes].
        assert (m = item) by (by eapply NoDup_fmap_member_eq).
        subst item. rewrite Hyes in Hno. discriminate.
      * rewrite (deref_heap_le h); [exact Hreg | exact Hle |].
        rewrite Hreg. by eexists.
Qed.

Lemma SetRegion_tree_resident (r r' : RegionsInfo.t (list MetaRegion))
  (h h' : gmap positive RegionInfo) (region : positive)
  (overlaps : list MetaRegion) :
  index_ok r h -> tree_resident r h ->
  is_Some (Region (deref h region)) ->
  RegionsInfo.SetRegion r h region = Returned (overlaps, r', h') ->
  tree_resident r' h'.
Proof.
  intros Hok Htr Hreg. unfold RegionsInfo.SetRegion.
  destruct (regionMap.Get (Some (RegionsInfo.regions r)) (GetId (deref h region)))
    as [origin|] eqn:Ho.
  - destruct (RemoveRegion_ok r h origin Hok) as (r0 & Hrm & Hok0).
    rewrite Hrm. run_bind. intros Hadd.
    destruct (RemoveRegion_tree_resident r r0 h origin _ Hok Htr Ho Hrm)
      as [Htr0 Hfresh].
    exact (AddRegion_tree_resident r0 r' h h' region overlaps
             Hok0 Htr0 Hreg Hfresh Hadd).
  - intros Hadd.
    refine (AddRegion_tree_resident r r' h h' region overlaps
              Hok Htr Hreg _ Hadd).
    intros Hin. apply list_elem_of_fmap in Hin as (m & E & Hm).
    destruct (tree_items _ _ Htr m Hm) as (p & Hp & _).
    rewrite <- E in Hp. congruence.
Qed.

(** In every state that calls of [SetRegion] reach from a new index, every
    item of the list tree is the meta region of the region resident under
    its id. *)
Lemma index_run_set_tree_resident (ps : list positive)
  (r r' : RegionsInfo.t (list MetaRegion)) (h h' : gmap positive RegionInfo) :
  index_ok r h -> tree_resident r h ->
  (forall p, p ∈ ps -> is_Some (Region (deref h p))) ->
  index_run (CallSetRegion <$> ps) r h = Returned (r', h') ->
  tree_resident r' h'.
Proof.
  revert r h. induction ps as [|p ps IH]; intros r h Hok Htr Hps;
    cbn [fmap list_fmap index_run].
  - by intros [= <- <-].
  - cbn [index_step].
    destruct (RegionsInfo.SetRegion r h p) as [[[ov r1] h1]|] eqn:E; [|discriminate].
    run_bind. intros Hrun.
    pose proof (Hps p ltac:(left)) as Hreg.
    destruct (SetRegion_ok r r1 h h1 p ov Hok Hreg E) as [Hok1 Hle1].
    pose proof (SetRegion_tree_resident r r1 h h1 p ov Hok Htr Hreg E) as Htr1.
    refine (IH r1 h1 Hok1 Htr1 _ Hrun).
    intros q Hq. rewrite (deref_heap_le h h1); [| exact Hle1 |]; by apply Hps; right.
Qed.

Lemma SetRegion_runs_agree_on_neighbours (ps : list positive)
  (h h' : gmap positive RegionInfo) (r' : RegionsInfo.t (list MetaRegion))
  (meta : MetaRegion) :
  (forall p, p ∈ ps -> is_Some (Region (deref h p))) ->
  index_run (CallSetRegion <$> ps) RegionsInfo.NewRegionsInfo h
  = Returned (r', h') ->
  neighbours_resident r' h' meta.
Proof.
  intros Hps Hrun. apply tree_resident_neighbours.
  exact (index_run_set_tree_resident ps _ r' h h' (NewRegionsInfo_ok h)
           (NewRegionsInfo_tree_resident h) Hps Hrun).
Qed.

(** ** Neighbours on concrete indexes *)

(** The three regions set one after the other: region 2 on [c, e) gets the
    clone of region 1 on [a, c) as its previous neighbour, and no next
    neighbour, region 3 starting at f. *)
Lemma C7_witness :
  exists prev next h' p pm,
    RegionsInfo.GetAdjacentRegions MoreExamples.index_set3.1
      MoreExamples.index_set3.2 2%positive = Returned (prev, next, h')
    /\ prev = Some p
    /\ Region (deref h' p) = Some pm
    /\ EndKey pm = StartKey Examples.meta2
    /\ next = None.
Proof.
  destruct (C7_GetAdjacentRegions_only_contiguous
              MoreExamples.index_set3.1 MoreExamples.index_set3.2 2%positive
              Examples.meta2)
    as (prev & next & h' & Hrun & _ & _ & _ & _ & _ & Hgap & Hagree).
  { vm_compute. reflexivity. }
  { exact (index_residents _ _ index_set3_ok). }
  destruct Hagree as [Hprev _].
  { apply (SetRegion_runs_agree_on_neighbours [1; 2; 3]%positive
             (Examples.heap_of (Some Examples.voter1))).
    - intros p Hp. by apply set3_regions.
    - etrans; [exact index_set3_run | by destruct MoreExamples.index_set3]. }
  assert (exists p, prev = Some p) as [p Hp].
  { clear -Hrun. vm_compute in Hrun. injection Hrun as <- _ _. by eexists. }
  destruct (Hprev p Hp) as (pm & Hpm & Hkey).
  exists prev, next, h', p, pm.
  split; [exact Hrun|]. split; [exact Hp|]. split; [exact Hpm|].
  split; [exact Hkey|].
  apply (Hgap (mkItem Examples.meta3)); [vm_compute; reflexivity|].
  vm_compute. discriminate.
Defined.

(** Region 1 on [a, c), the moved region 1 on [x, z) and region 2 on [c, e)
    added one after the other: no call meets an overlap, so the item of
    [a, c) stays in the tree while the global map holds the moved region
    under id 1.  The previous neighbour returned for region 2 is the clone
    of the moved region, which ends at z, not at c where region 2 starts. *)
Lemma C7_counterexample_neighbour_across_a_gap :
  Examples.add_all [1; 5; 2]%positive Examples.empty_index MoreExamples.heap5
  = Returned MoreExamples.index_moved
  /\ Region (deref MoreExamples.index_moved.2 2%positive) = Some Examples.meta2
  /\ (forall id p,
        regionMap.Get (Some (RegionsInfo.regions MoreExamples.index_moved.1)) id
        = Some p ->
        is_Some (Region (deref MoreExamples.index_moved.2 p)))
  /\ exists prev next h' pm,
       RegionsInfo.GetAdjacentRegions MoreExamples.index_moved.1
         MoreExamples.index_moved.2 2%positive
       = Returned (Some prev, next, h')
       /\ Region (deref h' prev) = Some pm
       /\ EndKey pm = ["z"%byte]
       /\ StartKey Examples.meta2 = ["c"%byte]
       /\ EndKey pm <> StartKey Examples.meta2.
Proof.
  split; [vm_compute; reflexivity|].
  split; [vm_compute; reflexivity|].
  split.
  { apply residents_have_region. apply (bool_decide_unpack _).
    vm_compute. exact I. }
  destruct (RegionsInfo.GetAdjacentRegions MoreExamples.index_moved.1
              MoreExamples.index_moved.2 2%positive)
    as [[[[prev|] next] h']|] eqn:E; vm_compute in E; try discriminate.
  injection E as <- <- <-.
  eexists _, _, _, MoreExamples.meta1_moved.
  split; [reflexivity|]. split; [vm_compute; reflexivity|].
  split; [reflexivity|]. split; [reflexivity|].
  vm_compute. discriminate.
Qed.

(** Region 1, led on store 1, is resident; the moved region 1, led on
    store 2, is added without [SetRegion]: the leader bucket of store 1
    keeps the old object under id 1, and the global map holds the new one. *)
Lemma X26_witness :
  RegionsInfo.GetLeader MoreExamples.index_added1.1 1%N 1%N = Some 1%positive
  /\ RegionsInfo.GetLeader MoreExamples.index_added15.1 1%N 1%N = Some 1%positive
  /\ RegionsInfo.GetLeader MoreExamples.index_added15.1 2%N 1%N = Some 5%positive
  /\ regionMap.Get (Some (RegionsInfo.regions MoreExamples.index_added15.1)) 1%N
     = Some 5%positive.
Proof.
  destruct (X26_AddRegion_without_overlap_keeps_the_other_entries
              MoreExamples.index_added1.1 MoreExamples.index_added15.1
              MoreExamples.index_added1.2 MoreExamples.index_added15.2
              5%positive)
    as (_ & _ & _ & _ & _ & _ & Hstale & _).
  { vm_compute. reflexivity. }
  destruct (Hstale 1%N 1%positive) as [Hold Hnew].
  { vm_compute. reflexivity. }
  { vm_compute. intros Hin. apply list_elem_of_singleton in Hin. discriminate. }
  split; [vm_compute; reflexivity|]. split; [exact Hold|].
  split; [vm_compute; reflexivity|]. exact Hnew.
Defined.
